(** * Sigment: constructed-language generator

    A shallow embedding of the core of the Sigment generator
    (etymological-analyzer.js, phonetic-mapper.js, language-generator.js)
    and the properties of its decomposer, transformation engine,
    consistency analyzer, reconstruction pass and batch orchestrator.

    Conventions of the embedding.
    - A JavaScript string is a sequence of UTF-16 code units; the embedding
      covers the code units below 256 (ASCII and Latin-1), as [list ascii].
    - A JavaScript [Map] is an insertion-ordered association list ([JMap]).
    - [Math.random] is an oracle: a stream of naturals with a cursor; the
      expression [Math.floor(Math.random() * n)] reads the next draw modulo [n].
    - JavaScript numbers that hold weights and scores are IEEE 754 doubles:
      rationals [Q] on which every literal and every arithmetic operation
      is rounded to double precision ([roundDouble]); the embedding covers
      zero and the magnitudes of the normal doubles (from 2^-1022 up to
      2^1024), not the subnormal ones, the infinities and NaN. Counters and
      indices are [nat], and [indexOf] results are [Z] (the source relies
      on the value -1).
*)

From Stdlib Require Import Ascii String.
From Stdlib Require Import List Arith Bool ZArith QArith Qminmax Qround Qpower.
From Stdlib Require Import Lia Lqa Permutation.
From Stdlib Require DecimalString DecimalN DecimalPos HexadecimalString
  HexadecimalN.
Import ListNotations.

Set Implicit Arguments.
Close Scope Q_scope.
Open Scope nat_scope.

(* ================================================================== *)
(** ** Strings *)
(* ================================================================== *)

Definition str := list ascii.

Definition lit (x : string) : str := list_ascii_of_string x.
Arguments lit x%_string.

Definition str_eqb (a b : str) : bool :=
  if list_eq_dec ascii_dec a b then true else false.

(** [String.prototype.toLowerCase] on one code unit: A-Z, and the Latin-1
    capitals U+00C0..U+00DE except the multiplication sign U+00D7. *)
Definition toLowerChar (c : ascii) : ascii :=
  let n := nat_of_ascii c in
  if ((65 <=? n) && (n <=? 90)) || ((192 <=? n) && (n <=? 222) && negb (n =? 215))
  then ascii_of_nat (n + 32) else c.

Definition toLowerCase (w : str) : str := map toLowerChar w.


(** WhiteSpace and LineTerminator code units removed by [trim]. *)
Definition isWhiteSpace (c : ascii) : bool :=
  let n := nat_of_ascii c in
  ((9 <=? n) && (n <=? 13)) || (n =? 32) || (n =? 160).

Fixpoint trimStart (w : str) : str :=
  match w with
  | [] => []
  | c :: r => if isWhiteSpace c then trimStart r else w
  end.

Definition trim (w : str) : str := rev (trimStart (rev (trimStart w))).

Fixpoint startsWith (p w : str) : bool :=
  match p, w with
  | [], _ => true
  | _ :: _, [] => false
  | a :: p', b :: w' => Ascii.eqb a b && startsWith p' w'
  end.

Definition endsWith (s w : str) : bool := startsWith (rev s) (rev w).

(** [s.substring(a, b)]: arguments are clamped to the length and swapped
    when [a > b]. *)
Definition substring (a b : nat) (w : str) : str :=
  firstn (Nat.max a b - Nat.min a b) (skipn (Nat.min a b) w).

(** [s.substring(a)] *)
Definition substringFrom (a : nat) (w : str) : str := skipn a w.

Fixpoint indexOf_aux (needle hay : str) (pos : nat) : Z :=
  if startsWith needle hay then Z.of_nat pos
  else match hay with
       | [] => (-1)%Z
       | _ :: r => indexOf_aux needle r (S pos)
       end.

(** [hay.indexOf(needle, from)]; -1 when there is no occurrence. *)
Definition indexOfFrom (needle hay : str) (from : nat) : Z :=
  indexOf_aux needle (skipn from hay) (Nat.min from (length hay)).

Definition indexOf (needle hay : str) : Z := indexOfFrom needle hay 0.

(** [hay.includes(needle)] *)
Definition includes (needle hay : str) : bool := (0 <=? indexOf needle hay)%Z.

(** Membership of a one-character string in a literal such as ['aeiou']. *)
Definition charIn (c : ascii) (alphabet : str) : bool :=
  existsb (Ascii.eqb c) alphabet.

(* ================================================================== *)
(** ** JavaScript [Map]: insertion-ordered association lists *)
(* ================================================================== *)

Module JMap.
Section WithKey.
Variables (K V : Type) (keqb : K -> K -> bool).

Definition t := list (K * V).

Definition empty : t := [].

Fixpoint get (k : K) (m : t) : option V :=
  match m with
  | [] => None
  | (k', v) :: r => if keqb k k' then Some v else get k r
  end.

Definition has (k : K) (m : t) : bool :=
  match get k m with Some _ => true | None => false end.

(** [m.set(k, v)]: an existing key keeps its place, a new one goes last. *)
Fixpoint set (k : K) (v : V) (m : t) : t :=
  match m with
  | [] => [(k, v)]
  | (k', v') :: r => if keqb k k' then (k, v) :: r else (k', v') :: set k v r
  end.

Definition size (m : t) : nat := length m.

Definition keys (m : t) : list K := map fst m.

Definition values (m : t) : list V := map snd m.
End WithKey.
End JMap.

(* ================================================================== *)
(** ** Numbers: IEEE 754 double precision *)
(* ================================================================== *)

(** A JavaScript number is a double: a multiple of a power of two with a
    significand of 53 bits. A literal denotes the double nearest to it, and
    an arithmetic operation gives the double nearest to the exact result,
    a tie going to the double whose significand is even. The doubles are
    represented by the rationals they are. The range of the exponent is
    left unbounded: the rounding is that of the hardware on zero and on the
    magnitudes from 2^-1022 up to 2^1024, where the numbers at hand
    (weights, quotients of counts, percentages and their sums) lie; below
    that range the hardware rounds to a fixed step, and above it to an
    infinity. Infinities and NaN are not represented; it is said where the
    source can produce them. *)
Section DoublePrecision.
Local Open Scope Q_scope.

(** The integer nearest to [q], the even one when two are as near. *)
Definition roundHalfEven (q : Q) : Z :=
  let f := Qfloor q in
  match Qcompare (q - inject_Z f) (1 # 2) with
  | Lt => f
  | Gt => (f + 1)%Z
  | Eq => if Z.even f then f else (f + 1)%Z
  end.

(** For [q] positive, the [e] with [2^e <= q < 2^(e+1)]. *)
Definition exponent (q : Q) : Z :=
  let e0 := (Z.log2 (Qnum q) - Z.log2 (Zpos (Qden q)))%Z in
  if Qle_bool (2 ^ e0) q then e0 else (e0 - 1)%Z.

(** The nearest multiple of [2^(e-52)], for [q] positive of exponent [e]. *)
Definition roundPositive (q : Q) : Q :=
  let e := exponent q in
  Qred (inject_Z (roundHalfEven (q * 2 ^ (52 - e))) * 2 ^ (e - 52)).

Definition roundDouble (q : Q) : Q :=
  match Qcompare q 0 with
  | Eq => 0
  | Gt => roundPositive q
  | Lt => Qred (- roundPositive (- q))
  end.

(** [a + b], [a * b] and [a / b] on doubles. *)
Definition fadd (a b : Q) : Q := roundDouble (a + b).
Definition fmul (a b : Q) : Q := roundDouble (a * b).
Definition fdiv (a b : Q) : Q := roundDouble (a / b).
End DoublePrecision.

(* ================================================================== *)
(** ** Decomposer (etymological-analyzer.js) *)
(* ================================================================== *)

Inductive MorphemeType := MPrefix | MSuffix | MRoot | MOther.

Definition MorphemeType_eqb (a b : MorphemeType) : bool :=
  match a, b with
  | MPrefix, MPrefix | MSuffix, MSuffix | MRoot, MRoot | MOther, MOther => true
  | _, _ => false
  end.

Record Morpheme := mkMorpheme {
  mtype : MorphemeType;
  mvalue : str;
  meaning : str
}.

Definition prefixes : list str :=
  [lit "un-"; lit "re-"; lit "pre-"; lit "dis-"; lit "mis-"; lit "over-";
   lit "under-"; lit "out-"; lit "up-"; lit "anti-"; lit "de-"; lit "non-"].

Definition suffixes : list str :=
  [lit "-ing"; lit "-ed"; lit "-er"; lit "-est"; lit "-ly"; lit "-tion";
   lit "-sion"; lit "-ness"; lit "-ment"; lit "-ful"; lit "-less";
   lit "-able"; lit "-ible"].

(** Lookup in an object literal with string keys, [table[key] || dflt]. *)
Definition lookupOr (table : list (str * str)) (key dflt : str) : str :=
  match JMap.get str_eqb key table with
  | Some v => v
  | None => dflt
  end.

Definition getPrefixMeaning (p : str) : str :=
  lookupOr
    [(lit "un-", lit "not, opposite of"); (lit "re-", lit "again, back");
     (lit "pre-", lit "before"); (lit "dis-", lit "not, opposite");
     (lit "mis-", lit "wrongly, badly"); (lit "over-", lit "too much, above");
     (lit "under-", lit "too little, below");
     (lit "out-", lit "beyond, more than");
     (lit "up-", lit "upward, increase"); (lit "anti-", lit "against");
     (lit "de-", lit "remove, reverse"); (lit "non-", lit "not")]
    p (lit "modifier").

Definition getSuffixMeaning (s : str) : str :=
  lookupOr
    [(lit "-ing", lit "action, process");
     (lit "-ed", lit "past action, completed");
     (lit "-er", lit "one who does"); (lit "-est", lit "most, superlative");
     (lit "-ly", lit "in the manner of"); (lit "-tion", lit "action, state");
     (lit "-sion", lit "action, state"); (lit "-ness", lit "quality, state");
     (lit "-ment", lit "action, result"); (lit "-ful", lit "full of");
     (lit "-less", lit "without"); (lit "-able", lit "capable of");
     (lit "-ible", lit "capable of")]
    s (lit "modifier").

(** The prefix loop of [decomposeMorphemes]: first matching entry, then
    [break]. Returns the pushed morphemes and the new [remaining]. *)
Definition stripPrefix (remaining : str) : list Morpheme * str :=
  match find (fun p => startsWith p remaining) prefixes with
  | Some p => ([mkMorpheme MPrefix p (getPrefixMeaning p)],
               substringFrom (length p) remaining)
  | None => ([], remaining)
  end.

Definition stripSuffix (remaining : str) : list Morpheme * str :=
  match find (fun s => endsWith s remaining) suffixes with
  | Some s => ([mkMorpheme MSuffix s (getSuffixMeaning s)],
               substring 0 (length remaining - length s) remaining)
  | None => ([], remaining)
  end.

Definition rootOf (remaining : str) : list Morpheme :=
  match remaining with
  | [] => []
  | _ :: _ => [mkMorpheme MRoot remaining (lit "core meaning")]
  end.

Definition decomposeMorphemes (word : str) : list Morpheme :=
  let remaining := toLowerCase word in
  let '(ms1, remaining1) := stripPrefix remaining in
  let '(ms2, remaining2) := stripSuffix remaining1 in
  ms1 ++ ms2 ++ rootOf remaining2.

(** The matches of [/[aeiouy]+/g]: the maximal runs of characters of the
    class, left to right. [cur] is the run being read. *)
Fixpoint matchClassRuns (cls : ascii -> bool) (w cur : str) : list str :=
  match w with
  | [] => match cur with [] => [] | _ :: _ => [cur] end
  | c :: r =>
      if cls c then matchClassRuns cls r (cur ++ [c])
      else match cur with
           | [] => matchClassRuns cls r []
           | _ :: _ => cur :: matchClassRuns cls r []
           end
  end.

Definition isVowelOrY (c : ascii) : bool := charIn c (lit "aeiouy").

(** [estimateSyllables]: [match] gives [null] when nothing matches. *)
Definition estimateSyllables (word : str) : nat :=
  match matchClassRuns isVowelOrY (toLowerCase word) [] with
  | [] => 1
  | g :: gs => length (g :: gs)
  end.

Inductive Stress := primary | secondary | unstressed.

(** [pattern[i] = v] on an array. *)
Fixpoint arraySet {A} (i : nat) (v : A) (l : list A) : list A :=
  match l, i with
  | [], _ => []
  | _ :: r, 0 => v :: r
  | x :: r, S j => x :: arraySet j v r
  end.

Definition estimateStressPattern (word : str) : list Stress :=
  let syllables := estimateSyllables word in
  if syllables =? 1 then [primary]
  else if syllables =? 2 then [primary; secondary]
  else
    let pattern := arraySet 0 primary (repeat unstressed syllables) in
    if 2 <? syllables then arraySet (syllables - 2) secondary pattern
    else pattern.

Inductive CharClass := V | C | X.

Definition vowelsBoth : str := lit "aeiouAEIOU".
Definition consonantsBoth : str :=
  lit "bcdfghjklmnpqrstvwxyzBCDFGHJKLMNPQRSTVWXYZ".

Definition classify (c : ascii) : CharClass :=
  if charIn c vowelsBoth then V
  else if charIn c consonantsBoth then C
  else X.

Record SourcePhonetics := mkSourcePhonetics {
  srcPattern : list CharClass;
  srcSyllableCount : nat;
  stressPattern : list Stress
}.

Definition analyzeSourcePhonetics (word : str) : SourcePhonetics :=
  {| srcPattern := map classify word;
     srcSyllableCount := estimateSyllables word;
     stressPattern := estimateStressPattern word |}.

(** The literals [1.0], [0.6], [0.4] and [0.3]. *)
Definition calculateSemanticWeight (m : Morpheme) : Q :=
  match mtype m with
  | MRoot => 1%Q
  | MPrefix => roundDouble (6 # 10)
  | MSuffix => roundDouble (4 # 10)
  | MOther => roundDouble (3 # 10)
  end.

Record SemanticComponent := mkComponent {
  component : str;
  semanticWeight : Q
}.

Definition extractSemanticComponents (word : str) : list SemanticComponent :=
  map (fun m => mkComponent (mvalue m) (calculateSemanticWeight m))
      (decomposeMorphemes word).

(** The analysis object handed to the engine. A field the engine tests for
    absence is an [option]. The enrichment text ([etymology]) is not read by
    any modelled function and is left out. *)
Record Etymology := mkEtymology {
  eword : str;
  morphemes : option (list Morpheme);
  phoneticStructure : SourcePhonetics;
  semanticComponents : option (list SemanticComponent)
}.

(** [analyzeWord]; the cache returns the value computed here. *)
Definition analyzeWord (word : str) : Etymology :=
  {| eword := word;
     morphemes := Some (decomposeMorphemes word);
     phoneticStructure := analyzeSourcePhonetics word;
     semanticComponents := Some (extractSemanticComponents word) |}.

(* ================================================================== *)
(** ** Host state: the random oracle and the mapper's [_skipNext] flag *)
(* ================================================================== *)

Record Host := mkHost {
  draws : nat -> nat;    (* the successive values of Math.random *)
  cursor : nat;          (* how many have been read *)
  skipNext : bool        (* PhoneticMapper._skipNext; undefined is false *)
}.

Definition M (A : Type) : Type := Host -> A * Host.

Definition ret {A} (a : A) : M A := fun h => (a, h).

Definition bind {A B} (m : M A) (k : A -> M B) : M B :=
  fun h => let '(a, h') := m h in k a h'.

Notation "x <- m ;; k" := (bind m (fun x => k))
  (at level 61, m at next level, right associativity).

(** [Math.floor(Math.random() * n)] *)
Definition randomIndex (n : nat) : M nat :=
  fun h => (draws h (cursor h) mod n,
            mkHost (draws h) (S (cursor h)) (skipNext h)).

Definition getSkipNext : M bool := fun h => (skipNext h, h).

Definition setSkipNext (b : bool) : M unit :=
  fun h => (tt, mkHost (draws h) (cursor h) b).

(** A [for] loop over the characters of a string that appends to [result]. *)
Fixpoint forChars (f : ascii -> M str) (w : str) : M str :=
  match w with
  | [] => ret []
  | c :: r => x <- f c ;; y <- forChars f r ;; ret (x ++ y)
  end.

(* ================================================================== *)
(** ** Transformation Engine (phonetic-mapper.js) *)
(* ================================================================== *)

(** The [style] argument; every string other than the four named ones takes
    the [default] branch of the [switch]. *)
Inductive Style :=
  default | consonant_shift | vowel_harmony | morpheme_emphasis | phonetic_logic.

(** [consonantClusters], with the [transforms] of each cluster. The last
    variant of ['ng'] is U+014B, outside the range of the embedding; it stands
    here as its two UTF-8 bytes and is never selected (only [transforms[0]]
    is read). *)
Definition consonantClusters : list (str * list str) :=
  [(lit "th", [lit "th"; lit "tth"; lit "dhh"]);
   (lit "ch", [lit "ch"; lit "tch"; lit "kh"]);
   (lit "sh", [lit "sh"; lit "shh"; lit "zh"]);
   (lit "ph", [lit "ph"; lit "ff"; lit "f"]);
   (lit "gh", [lit "gh"; lit "g"; lit "f"]);
   (lit "ck", [lit "ck"; lit "k"; lit "kk"]);
   (lit "ng", [lit "ng"; lit "ngg"; [ascii_of_nat 197; ascii_of_nat 139]])].

Definition shiftRules : list (ascii * ascii) :=
  [("b", "p"); ("p", "b"); ("d", "t"); ("t", "d");
   ("g", "k"); ("k", "g"); ("v", "f"); ("f", "v");
   ("z", "s"); ("s", "z"); ("j", "y"); ("w", "v")]%char.

Definition isInRootMorpheme (position : nat) (word : str) (etymology : Etymology)
  : bool :=
  match morphemes etymology with
  | None => true
  | Some ms =>
      existsb
        (fun m =>
           match mtype m with
           | MRoot =>
               let start := indexOf (mvalue m) word in
               let end_ := (start + Z.of_nat (length (mvalue m)))%Z in
               (start <=? Z.of_nat position)%Z && (Z.of_nat position <? end_)%Z
           | _ => false
           end) ms
  end.

(** The loop of [applyConsonantShift]; [i] is the index of the head of [rest]
    in [word]. *)
Fixpoint applyConsonantShift_from (word : str) (etymology : Etymology)
  (i : nat) (rest : str) : str :=
  match rest with
  | [] => []
  | char :: r =>
      (match JMap.get Ascii.eqb char shiftRules with
       | Some shifted =>
           if isInRootMorpheme i word etymology then shifted else char
       | None => char
       end) :: applyConsonantShift_from word etymology (S i) r
  end.

Definition applyConsonantShift (word : str) (etymology : Etymology) : str :=
  applyConsonantShift_from word etymology 0 word.

Definition vowels5 : str := lit "aeiou".
Definition harmonyFront : str := lit "ei".
Definition harmonyBack : str := lit "aou".

Definition applyVowelHarmony (word : str) : M str :=
  let front := length (filter (fun c => charIn c harmonyFront) word) in
  let back := length (filter (fun c => charIn c harmonyBack) word) in
  let dominantFront := back <? front in
  forChars
    (fun char =>
       if charIn char vowels5 then
         if dominantFront && charIn char harmonyBack then
           i <- randomIndex (length harmonyFront) ;;
           ret [nth i harmonyFront char]
         else if negb dominantFront && charIn char harmonyFront then
           i <- randomIndex (length harmonyBack) ;;
           ret [nth i harmonyBack char]
         else ret [char]
       else ret [char])
    word.

Definition addRootEmphasis (morpheme : str) : str :=
  if 3 <? length morpheme then
    let mid := length morpheme / 2 in
    substring 0 mid morpheme ++ firstn 1 (skipn mid morpheme)
      ++ substringFrom mid morpheme
  else morpheme.

Definition emphasizeMorpheme (morpheme : str) (info : Morpheme) : str :=
  match mtype info with
  | MRoot => addRootEmphasis morpheme
  | _ => morpheme
  end.

(** One turn of the loop of [applyMorphemeEmphasis] on [(result, offset)]. *)
Definition emphasisStep (st : str * nat) (m : Morpheme) : str * nat :=
  let '(result, offset) := st in
  match mtype m with
  | MRoot =>
      let start := indexOfFrom (mvalue m) result offset in
      if (start =? -1)%Z then st
      else
        let start := Z.to_nat start in
        let len := length (mvalue m) in
        let morphemeText := substring start (start + len) result in
        let emphasized := emphasizeMorpheme morphemeText m in
        (substring 0 start result ++ emphasized
           ++ substringFrom (start + len) result,
         start + length emphasized)
  | _ => st
  end.

Definition applyMorphemeEmphasis (word : str) (etymology : Etymology) : str :=
  match morphemes etymology with
  | None => word
  | Some ms => fst (fold_left emphasisStep ms (word, 0))
  end.

(** [w.replace(new RegExp(pat, 'g'), rep)] for a pattern of plain letters:
    non-overlapping occurrences, left to right. [skip] counts characters of
    the current match still to be passed over. *)
Fixpoint replaceAll_aux (pat rep w : str) (skip : nat) : str :=
  match w with
  | [] => []
  | c :: r =>
      match skip with
      | S k => replaceAll_aux pat rep r k
      | 0 =>
          if startsWith pat w
          then rep ++ replaceAll_aux pat rep r (length pat - 1)
          else c :: replaceAll_aux pat rep r 0
      end
  end.

Definition replaceAll (pat rep w : str) : str := replaceAll_aux pat rep w 0.

Definition handleConsonantClusters (word : str) : str :=
  fold_left
    (fun result entry =>
       let '(cluster, transforms) := entry in
       if includes cluster result
       then replaceAll cluster (nth 0 transforms []) result
       else result)
    consonantClusters word.

(** [word.replace(/([aeiou])([aeiou])/g, '$1$2')]: each matched pair is
    written back as it was; [second] marks the second character of a match. *)
Fixpoint applySyllableRules_aux (w : str) (second : bool) : str :=
  match w with
  | [] => []
  | c :: r =>
      if second then c :: applySyllableRules_aux r false
      else match r with
           | d :: _ =>
               c :: applySyllableRules_aux r
                      (charIn c vowels5 && charIn d vowels5)
           | [] => [c]
           end
  end.

Definition applySyllableRules (word : str) : str :=
  applySyllableRules_aux word false.

(** The regular-expression [.]: any code unit but a line terminator. *)
Definition isDot (c : ascii) : bool :=
  let n := nat_of_ascii c in negb ((n =? 10) || (n =? 13)).

(** Run-length view of a string: maximal runs of one character. *)
Fixpoint runs (w : str) : list (ascii * nat) :=
  match w with
  | [] => []
  | c :: r =>
      match runs r with
      | (d, n) :: t => if Ascii.eqb c d then (c, S n) :: t
                       else (c, 1) :: (d, n) :: t
      | [] => [(c, 1)]
      end
  end.

Definition expand (rs : list (ascii * nat)) : str :=
  flat_map (fun '(c, n) => repeat c n) rs.

Definition squeeze (minLen target : nat) (r : ascii * nat) : ascii * nat :=
  let '(c, n) := r in
  if isDot c && (minLen <=? n) then (c, target) else r.

(** [w.replace(/(.)\1{k,}/g, '$1$1')] with [minLen = k + 1]: the greedy match
    at the start of a run takes the whole run, so every maximal run of at
    least [minLen] equal characters becomes two. *)
Definition collapseRuns (minLen : nat) (w : str) : str :=
  expand (map (squeeze minLen 2) (runs w)).

(** [w.replace(/^(.)\1+/, '$1')] *)
Definition collapseLeading (w : str) : str :=
  match runs w with
  | [] => []
  | r :: rs => expand (squeeze 2 1 r :: rs)
  end.

(** [w.replace(/(.)\1+$/, '$1')]: the leftmost match that reaches the end
    starts at the beginning of the last run. *)
Definition collapseTrailing (w : str) : str :=
  match rev (runs w) with
  | [] => []
  | r :: rs => expand (rev (squeeze 2 1 r :: rs))
  end.

Definition maintainPhoneticIntegrity (word : str) : str := collapseRuns 3 word.

Definition applyPhoneticLogic (word : str) (etymology : Etymology) : str :=
  maintainPhoneticIntegrity (applySyllableRules (handleConsonantClusters word)).

(** [mildShifts]; the loop looks up single characters, so the key ['ph'] is
    in the table but no lookup ever asks for it. *)
Definition mildShifts : list (str * str) :=
  [(lit "c", lit "k"); (lit "k", lit "c"); (lit "f", lit "ph");
   (lit "ph", lit "f")].

Definition applyMildConsonantShift (word : str) : str :=
  flat_map (fun char => lookupOr mildShifts [char] [char]) word.

Definition vowelVariants : list (ascii * list str) :=
  [("a"%char, [lit "a"; lit "aa"]); ("e"%char, [lit "e"; lit "ee"]);
   ("i"%char, [lit "i"; lit "ii"]); ("o"%char, [lit "o"; lit "oo"]);
   ("u"%char, [lit "u"; lit "uu"])].

Definition applyVowelVariation (word : str) : M str :=
  forChars
    (fun char =>
       match JMap.get Ascii.eqb char vowelVariants with
       | Some variants =>
           i <- randomIndex (length variants) ;; ret (nth i variants [])
       | None => ret [char]
       end)
    word.

(** [component.semanticWeight || 0.5]. The field holds a double: it is read
    as the double nearest to the rational given. *)
Definition weightOrHalf (c : SemanticComponent) : Q :=
  let w := roundDouble (semanticWeight c) in
  if Qeq_bool w 0 then (1 # 2)%Q else w.

(** [calculateOverallSemanticWeight]. With no component the source divides
    0 by 0 and gets NaN, which fails every comparison made on it; here the
    quotient is 0, which fails the same comparisons. *)
Definition calculateOverallSemanticWeight (etymology : Etymology) : Q :=
  match semanticComponents etymology with
  | None => (1 # 2)%Q
  | Some cs =>
      fdiv (fold_left (fun total c => fadd total (weightOrHalf c)) cs 0%Q)
           (inject_Z (Z.of_nat (length cs)))
  end.

Definition Qgtb (a b : Q) : bool := negb (Qle_bool a b).

(** [Math.min(1.0, semanticWeight * 0.5)] *)
Definition transformationIntensity (etymology : Etymology) : Q :=
  Qmin 1 (fmul (calculateOverallSemanticWeight etymology) (1 # 2)).

(** The thresholds are the literals [0.3] and [0.6]. *)
Definition applyDefaultTransformation (word : str) (etymology : Etymology)
  : M str :=
  let intensity := transformationIntensity etymology in
  let result :=
    if Qgtb intensity (roundDouble (3 # 10))
    then applyMildConsonantShift word else word in
  if Qgtb intensity (roundDouble (6 # 10))
  then applyVowelVariation result else ret result.

Definition applySystematicTransformations (word : str) (etymology : Etymology)
  (style : Style) : M str :=
  match style with
  | consonant_shift => ret (applyConsonantShift word etymology)
  | vowel_harmony => applyVowelHarmony word
  | morpheme_emphasis => ret (applyMorphemeEmphasis word etymology)
  | phonetic_logic => ret (applyPhoneticLogic word etymology)
  | default => applyDefaultTransformation word etymology
  end.

Definition transformPrefix (word : str) (m : Morpheme) (style : Style) := word.
Definition transformSuffix (word : str) (m : Morpheme) (style : Style) := word.
Definition transformRoot (word : str) (m : Morpheme) (style : Style) := word.

Definition applyMorphemeBasedRules (word : str) (ms : list Morpheme)
  (style : Style) : str :=
  fold_left
    (fun result m =>
       match mtype m with
       | MPrefix => transformPrefix result m style
       | MSuffix => transformSuffix result m style
       | MRoot => transformRoot result m style
       | MOther => result
       end)
    ms word.

Definition applyPhoneticConsistency (word : str) : str :=
  collapseTrailing (collapseLeading (collapseRuns 4 word)).

Definition transformWord (word : str) (etymology : Etymology) (style : Style)
  : M str :=
  let transformed := toLowerCase word in
  let ms := match morphemes etymology with Some ms => ms | None => [] end in
  transformed <- applySystematicTransformations transformed etymology style ;;
  ret (applyPhoneticConsistency (applyMorphemeBasedRules transformed ms style)).

(** *** Pronunciation *)

(** A rendered pronunciation is a sequence of UTF-16 code units, as numbers:
    the phonetic symbols lie outside Latin-1. *)
Definition units (w : str) : list nat := map nat_of_ascii w.

Definition phoneticMap : list (ascii * list nat) :=
  [("a"%char, [230]); ("e"%char, [603]); ("i"%char, [618]);
   ("o"%char, [596]); ("u"%char, [652]);
   ("b"%char, units (lit "b")); ("c"%char, units (lit "k"));
   ("d"%char, units (lit "d")); ("f"%char, units (lit "f"));
   ("g"%char, units (lit "g")); ("h"%char, units (lit "h"));
   ("j"%char, [676]); ("k"%char, units (lit "k"));
   ("l"%char, units (lit "l")); ("m"%char, units (lit "m"));
   ("n"%char, units (lit "n")); ("p"%char, units (lit "p"));
   ("q"%char, units (lit "kw")); ("r"%char, units (lit "r"));
   ("s"%char, units (lit "s")); ("t"%char, units (lit "t"));
   ("v"%char, units (lit "v")); ("w"%char, units (lit "w"));
   ("x"%char, units (lit "ks")); ("y"%char, units (lit "j"));
   ("z"%char, units (lit "z"))].

Definition getPhoneme (char : ascii) : list nat :=
  match JMap.get Ascii.eqb (toLowerChar char) phoneticMap with
  | Some p => p
  | None => [nat_of_ascii char]
  end.

Definition generatePronunciation (sigmentWord : str) : list nat :=
  units (lit "/") ++ flat_map getPhoneme sigmentWord ++ units (lit "/").

Definition asciiCombinations : list (str * str) :=
  [(lit "th", lit "th"); (lit "ch", lit "ch"); (lit "sh", lit "sh");
   (lit "ph", lit "f"); (lit "gh", lit "g"); (lit "ck", lit "k");
   (lit "ng", lit "ng"); (lit "qu", lit "kw")].

Definition asciiPhoneticMap : list (str * str) :=
  [(lit "a", lit "a"); (lit "e", lit "e"); (lit "i", lit "i");
   (lit "o", lit "o"); (lit "u", lit "u"); (lit "y", lit "y");
   (lit "b", lit "b"); (lit "c", lit "k"); (lit "d", lit "d");
   (lit "f", lit "f"); (lit "g", lit "g"); (lit "h", lit "h");
   (lit "j", lit "j"); (lit "k", lit "k"); (lit "l", lit "l");
   (lit "m", lit "m"); (lit "n", lit "n"); (lit "p", lit "p");
   (lit "r", lit "r"); (lit "s", lit "s"); (lit "t", lit "t");
   (lit "v", lit "v"); (lit "w", lit "w"); (lit "x", lit "ks");
   (lit "z", lit "z")].

(** [word[i]?.toLowerCase() || ''] *)
Definition lowerAt (word : str) (i : nat) : str :=
  match nth_error word i with
  | Some c => [toLowerChar c]
  | None => []
  end.

(** [getAsciiPhoneme(char, word, position)]: the digraph test comes first,
    the [_skipNext] test second. *)
Definition getAsciiPhoneme (char : ascii) (word : str) (position : nat)
  : M str :=
  let lowerChar := [toLowerChar char] in
  let nextChar := lowerAt word (position + 1) in
  let twoChar := lowerChar ++ nextChar in
  match JMap.get str_eqb twoChar asciiCombinations with
  | Some combo => _ <- setSkipNext true ;; ret combo
  | None =>
      skip <- getSkipNext ;;
      if skip then _ <- setSkipNext false ;; ret []
      else ret (lookupOr asciiPhoneticMap lowerChar lowerChar)
  end.

Fixpoint generateAsciiPronunciation_from (word : str) (i : nat) (rest : str)
  : M str :=
  match rest with
  | [] => ret []
  | char :: r =>
      p <- getAsciiPhoneme char word i ;;
      q <- generateAsciiPronunciation_from word (S i) r ;;
      ret (p ++ q)
  end.

Definition generateAsciiPronunciation (sigmentWord : str) : M str :=
  generateAsciiPronunciation_from sigmentWord 0 sigmentWord.

(** *** Phonetic structure of the constructed word *)

Inductive Rhythm :=
  alternating | closed_syllable | vowel_centered
  | iambic | trochaic | dactylic | anapestic.

(** [/^(CV)+$/] *)
Fixpoint isRepCV (p : list CharClass) : bool :=
  match p with
  | C :: V :: [] => true
  | C :: V :: r => isRepCV r
  | _ => false
  end.

(** [/^(CVC)+$/] *)
Fixpoint isRepCVC (p : list CharClass) : bool :=
  match p with
  | C :: V :: C :: [] => true
  | C :: V :: C :: r => isRepCVC r
  | _ => false
  end.

Definition isClass (k : CharClass) (x : CharClass) : bool :=
  match k, x with
  | V, V | C, C | X, X => true
  | _, _ => false
  end.

Fixpoint dropWhileClass (k : CharClass) (p : list CharClass) : list CharClass :=
  match p with
  | x :: r => if isClass k x then dropWhileClass k r else p
  | [] => []
  end.

(** [/^C*V+C*$/] *)
Definition isVowelCentered (p : list CharClass) : bool :=
  match dropWhileClass C p with
  | V :: r => match dropWhileClass C (dropWhileClass V r) with
              | [] => true
              | _ :: _ => false
              end
  | _ => false
  end.

Definition rhythmTypes : list Rhythm := [iambic; trochaic; dactylic; anapestic].

Definition determineRhythm (pattern : list CharClass) : M Rhythm :=
  if isRepCV pattern then ret alternating
  else if isRepCVC pattern then ret closed_syllable
  else if isVowelCentered pattern then ret vowel_centered
  else i <- randomIndex (length rhythmTypes) ;; ret (nth i rhythmTypes iambic).

(** The loop of the mapper's [analyzePhoneticStructure]: the syllable
    counter with its [lastWasVowel] flag. *)
Fixpoint countSyllables (w : str) (lastWasVowel : bool) : nat :=
  match w with
  | [] => 0
  | c :: r =>
      if charIn c vowelsBoth
      then (if lastWasVowel then 0 else 1) + countSyllables r true
      else countSyllables r false
  end.

(** The numeric [complexity] field is not read by the modelled code and is
    left out. *)
Record ConstructedPhonetics := mkConstructedPhonetics {
  pattern : list CharClass;
  syllableCount : nat;
  rhythm : Rhythm
}.

Definition analyzePhoneticStructure (word : str) : M ConstructedPhonetics :=
  let structure := map classify word in
  let syllables := countSyllables word false in
  r <- determineRhythm structure ;;
  ret {| pattern := structure;
         syllableCount := if syllables =? 0 then 1 else syllables;
         rhythm := r |}.

Record Mapping := mkMapping {
  m_english : str;
  m_sigment : str;
  m_pronunciation : list nat;
  m_phoneticStructure : ConstructedPhonetics
}.

Definition mapWordToSigment (englishWord : str) (etymologyAnalysis : Etymology)
  (languageStyle : Style) (asciiPronunciation : bool) : M Mapping :=
  sigmentWord <- transformWord englishWord etymologyAnalysis languageStyle ;;
  pron <- (if asciiPronunciation
           then p <- generateAsciiPronunciation sigmentWord ;; ret (units p)
           else ret (generatePronunciation sigmentWord)) ;;
  ps <- analyzePhoneticStructure sigmentWord ;;
  ret (mkMapping englishWord sigmentWord pron ps).

(* ================================================================== *)
(** ** Vocabulary and per-word processing (language-generator.js) *)
(* ================================================================== *)

Record LanguageConfig := mkConfig {
  name : str;
  style : Style;
  asciiPronunciation : bool
}.

(** A vocabulary entry. The definition texts of the enrichment service and
    the creation time stamp are carried by the source entry but read by no
    modelled function; they are left out. *)
Record WordEntry := mkEntry {
  english : str;
  sigment : str;
  pronunciation : list nat;
  etymology : Etymology;
  entryPhonetics : ConstructedPhonetics
}.

Definition Vocabulary := JMap.t str WordEntry.

Record Language := mkLanguage {
  config : LanguageConfig;
  vocabulary : Vocabulary;
  etymologicalMaps : JMap.t str WordEntry
}.

(** [processWord]. Every call it makes returns on every string: the
    analyzer and the mapper never throw, and the enrichment client catches
    its own failures and answers with defaults, so the [catch] branch is not
    taken and the entry is always stored. *)
Definition processWord (language : Language) (englishWord : str) : M Language :=
  let ety := analyzeWord englishWord in
  sigmentMapping <- mapWordToSigment englishWord ety
                      (style (config language))
                      (asciiPronunciation (config language)) ;;
  let vocabularyEntry :=
    {| english := englishWord;
       sigment := m_sigment sigmentMapping;
       pronunciation := m_pronunciation sigmentMapping;
       etymology := ety;
       entryPhonetics := m_phoneticStructure sigmentMapping |} in
  ret {| config := config language;
         vocabulary :=
           JMap.set str_eqb englishWord vocabularyEntry (vocabulary language);
         etymologicalMaps :=
           JMap.set str_eqb (m_sigment sigmentMapping) vocabularyEntry
             (etymologicalMaps language) |}.

(* ================================================================== *)
(** ** Consistency Analyzer *)
(* ================================================================== *)

Definition consonants21 : str := lit "bcdfghjklmnpqrstvwxyz".

Definition TransformTable := JMap.t ascii (JMap.t str nat).

(** [transforms.set(c, (transforms.get(c) || 0) + 1)] *)
Definition bump (sigmentChar : str) (transforms : JMap.t str nat)
  : JMap.t str nat :=
  JMap.set str_eqb sigmentChar
    (match JMap.get str_eqb sigmentChar transforms with
     | Some n => n
     | None => 0
     end + 1)
    transforms.

(** The body of one [if] of the character loop: create the inner map on
    first sight of [key], then count [sigmentChar] in it. The inner map is
    updated in place, so [key] keeps its position in the outer map. *)
Definition recordTransform (key : ascii) (sigmentChar : str)
  (table : TransformTable) : TransformTable :=
  let table1 :=
    if JMap.has Ascii.eqb key table then table
    else JMap.set Ascii.eqb key (JMap.empty str nat) table in
  match JMap.get Ascii.eqb key table1 with
  | Some transforms => JMap.set Ascii.eqb key (bump sigmentChar transforms) table1
  | None => table1
  end.

Record Patterns := mkPatterns {
  vowelTransformations : TransformTable;
  consonantShifts : TransformTable;
  consistencyScore : Q
}.

Definition analyzeChar (englishWord sigmentWord : str)
  (tables : TransformTable * TransformTable) (i : nat)
  : TransformTable * TransformTable :=
  match nth_error englishWord i with
  | None => tables
  | Some c =>
      let englishChar := toLowerChar c in
      let sigmentChar := lowerAt sigmentWord i in
      let '(vt, cs) := tables in
      let vt' := if charIn englishChar vowels5
                 then recordTransform englishChar sigmentChar vt else vt in
      let cs' := if charIn englishChar consonants21
                 then recordTransform englishChar sigmentChar cs else cs in
      (vt', cs')
  end.

Definition analyzeEntry (tables : TransformTable * TransformTable)
  (kv : str * WordEntry) : TransformTable * TransformTable :=
  let '(englishWord, entry) := kv in
  fold_left (analyzeChar englishWord (sigment entry))
            (seq 0 (length englishWord)) tables.

Definition Qnat (n : nat) : Q := inject_Z (Z.of_nat n).

(** [(maxCount / totalCount) * 100] for one inner map: the counts are
    integers (below 2^53, which a double holds exactly); the quotient and
    the product are rounded.
    [Math.max] of no argument is not reached: an inner map is created with
    its first count. *)
Definition consistencyOf (transforms : JMap.t str nat) : Q :=
  let transformCount := JMap.values transforms in
  let maxCount := fold_left Nat.max transformCount 0 in
  let totalCount := fold_left Nat.add transformCount 0 in
  fmul (fdiv (Qnat maxCount) (Qnat totalCount)) 100.

(** [totalScore += (maxCount / totalCount) * 100; factors++] over a table. *)
Definition scoreLoop (table : TransformTable) (acc : Q * nat) : Q * nat :=
  fold_left
    (fun '(totalScore, factors) '(_, transforms) =>
       (fadd totalScore (consistencyOf transforms), factors + 1))
    table acc.

(** [factors > 0 ? totalScore / factors : 0] *)
Definition calculateConsistencyScore (vt cs : TransformTable)
  (totalWords : nat) : Q :=
  let '(totalScore, factors) := scoreLoop cs (scoreLoop vt (0%Q, 0)) in
  if 0 <? factors then fdiv totalScore (Qnat factors) else 0%Q.

(** [analyzePhoneticPatterns]; the [lengthPatterns] and [morphemeRules]
    tables take no part in the score and are left out. *)
Definition analyzePhoneticPatterns (language : Language) : Patterns :=
  let vocabularyEntries := vocabulary language in
  let '(vt, cs) :=
    fold_left analyzeEntry vocabularyEntries
      (JMap.empty ascii (JMap.t str nat), JMap.empty ascii (JMap.t str nat)) in
  mkPatterns vt cs
    (calculateConsistencyScore vt cs (length vocabularyEntries)).

Definition detectPatternConflicts (p : Patterns) : bool :=
  let conflicts :=
    length (filter (fun kv => 3 <? JMap.size (snd kv)) (vowelTransformations p))
    + length (filter (fun kv => 2 <? JMap.size (snd kv)) (consonantShifts p)) in
  3 <? conflicts.

(* ================================================================== *)
(** ** Reconstruction Engine *)
(* ================================================================== *)

Record Change := mkChange {
  ch_english : str;
  ch_old : str;
  ch_new : str;
  ch_oldPronunciation : list nat;
  ch_newPronunciation : list nat
}.

Record Reconstruction := mkReconstruction {
  reconstructedWords : nat;
  changedWords : nat;
  changes : list Change;
  before : Q;
  after : Q
}.

(** One turn of the loop of [reconstructDictionary] over the keys of the
    backed-up vocabulary. *)
Definition reconstructStep (originalVocabulary : Vocabulary)
  (acc : Language * nat * list Change) (englishWord : str)
  : M (Language * nat * list Change) :=
  let '(tempLanguage, reconstructed, chs) := acc in
  tempLanguage' <- processWord tempLanguage englishWord ;;
  let chs' :=
    match JMap.get str_eqb englishWord originalVocabulary,
          JMap.get str_eqb englishWord (vocabulary tempLanguage') with
    | Some originalEntry, Some newEntry =>
        if str_eqb (sigment originalEntry) (sigment newEntry) then chs
        else chs ++ [mkChange englishWord (sigment originalEntry)
                       (sigment newEntry) (pronunciation originalEntry)
                       (pronunciation newEntry)]
    | _, _ => chs
    end in
  ret (tempLanguage', reconstructed + 1, chs').

Fixpoint foldM {A B} (f : A -> B -> M A) (l : list B) (a : A) : M A :=
  match l with
  | [] => ret a
  | x :: r => a' <- f a x ;; foldM f r a'
  end.

(** [reconstructDictionary(language, {beforeConsistency})]. The temporary
    language is a shallow copy with a fresh vocabulary: its
    [etymologicalMaps] is the very map of [language], so what [processWord]
    stores there is seen through [language] as well. *)
Definition reconstructDictionary (language : Language)
  (beforeConsistency : Q) : M (Language * Reconstruction) :=
  let originalVocabulary := vocabulary language in
  let tempLanguage :=
    {| config := config language;
       vocabulary := JMap.empty str WordEntry;
       etymologicalMaps := etymologicalMaps language |} in
  let vocabularyList := JMap.keys originalVocabulary in
  r <- foldM (reconstructStep originalVocabulary) vocabularyList
         (tempLanguage, 0, []) ;;
  let '(tempLanguage', reconstructed, chs) := r in
  let newPatterns := analyzePhoneticPatterns tempLanguage' in
  let language' :=
    {| config := config language;
       vocabulary := if 0 <? reconstructed then vocabulary tempLanguage'
                     else vocabulary language;
       etymologicalMaps := etymologicalMaps tempLanguage' |} in
  ret (language',
       {| reconstructedWords := reconstructed;
          changedWords := length chs;
          changes := firstn 20 chs;
          before := beforeConsistency;
          after := consistencyScore newPatterns |}).

(** *** Reconstruction when [processWord] fails on a word

    [processWord] wraps its body in [try]/[catch]: when a call inside throws,
    the error is recorded, no entry is stored, and [processWord] returns
    normally. The loop of [reconstructDictionary] is written for that case
    ([newEntry] may be undefined). The first call of the body is to the
    analyzer, an object the generator holds
    ([this.etymologicalAnalyzer.analyzeWord]); below, [analyze word = None]
    stands for a call of it that throws. *)






(* ================================================================== *)
(** ** Batch Orchestrator *)
(* ================================================================== *)

(** A JavaScript [Set] of strings, in insertion order. *)
Definition setHas (x : str) (s : list str) : bool := existsb (str_eqb x) s.
Definition setAdd (x : str) (s : list str) : list str :=
  if setHas x s then s else s ++ [x].

Record BatchState := mkBatchState {
  isPaused : bool;
  shouldStop : bool;
  currentIndex : nat;
  totalWords : nat;
  processedWords : list str
}.

(** The record written by [saveBatchProgress] (time stamp left out). *)
Record BatchCheckpoint := mkCheckpoint {
  ck_currentIndex : nat;
  ck_totalWords : nat;
  ck_processedWords : list str;
  ck_languageName : str;
  ck_vocabularySize : nat
}.

Inductive BatchResult :=
| Completed (processed : nat)              (* { completed: true, processed } *)
| Stopped (processed savedAt : nat)        (* { stopped: true, processed, savedAt } *)
| ForcedExit                               (* process.exit(1) *)
| Threw.                                   (* an awaited write rejected: the
                                              exception leaves the function *)

(** The places where [processWordsBatch] is suspended on an [await]. Between
    two of them the code runs without interruption: handlers of timers and
    signals run only while the function is suspended. *)
Inductive Pc :=
| Loading (ck : BatchCheckpoint)   (* await loadBatchProgress *)
| PausedWait (i : nat)             (* await delay(1000), in while (isPaused) *)
| InFlight (i : nat) (word : str)  (* await processWord(language, word) *)
| Saving (i : nat)                 (* await saveBatchProgress, incremental *)
| Flushing (i : nat)               (* await generateDictionaries, incremental *)
| Delay (i : nat)                  (* await delay(10) *)
| StopSaving (i : nat)             (* await saveBatchProgress, on stop *)
| StopFlushing (i : nat)           (* await generateDictionaries, on stop *)
| FinalSave                        (* await generateDictionaries, final *)
| Finished (r : BatchResult).

(** What happens while the function is suspended on an [await]: a run of a
    handler installed by [setupBatchSignalHandlers], or the rejection of the
    awaited operation.

    [SIGINT] is one run of one SIGINT listener. Every batch adds a listener
    with [process.on] and none is ever removed, so one Ctrl+C during the
    k-th batch of a process is k such runs, one after the other ([ctrlC]).

    [Rejection]: the awaited write fails. The writes are [fs.writeFile] in
    [saveBatchProgress] and [generateDictionaries]; the latter rejects not
    only when the file system does: [translateDefinitionsToSigment] builds a
    regular expression from every vocabulary key as it is, and the
    constructor throws on a key that is not a valid pattern (such as c++). *)
Inductive Signal :=
| SIGINT              (* one run of one SIGINT listener *)
| PauseFileSeen       (* checkPauseFile found the pause file *)
| PauseFileRemoved    (* checkPauseFile has unlinked it *)
| Rejection.          (* the awaited write rejects *)

(** One Ctrl+C in a process in which [listeners] batches have been started,
    the current one included. *)
Definition ctrlC (listeners : nat) : list Signal := repeat SIGINT listeners.

Record Batch := mkBatch {
  pc : Pc;
  batchState : BatchState;
  language : Language;
  wordList : list str;
  saveInterval : nat;
  processed : nat;
  savedAt : nat;
  host : Host;
  saved : list BatchCheckpoint;    (* progress files written, oldest first *)
  clock : nat                      (* number of awaits completed *)
}.

Definition withPc (p : Pc) (b : Batch) : Batch :=
  mkBatch p (batchState b) (language b) (wordList b) (saveInterval b)
    (processed b) (savedAt b) (host b) (saved b) (clock b).

Definition withState (s : BatchState) (b : Batch) : Batch :=
  mkBatch (pc b) s (language b) (wordList b) (saveInterval b)
    (processed b) (savedAt b) (host b) (saved b) (clock b).

Definition setPaused (v : bool) (s : BatchState) : BatchState :=
  mkBatchState v (shouldStop s) (currentIndex s) (totalWords s)
    (processedWords s).

Definition setStop (v : bool) (s : BatchState) : BatchState :=
  mkBatchState (isPaused s) v (currentIndex s) (totalWords s)
    (processedWords s).

Definition setIndex (i : nat) (s : BatchState) : BatchState :=
  mkBatchState (isPaused s) (shouldStop s) i (totalWords s)
    (processedWords s).

Definition checkpointAt (b : Batch) (i : nat) : BatchCheckpoint :=
  {| ck_currentIndex := i;
     ck_totalWords := length (wordList b);
     ck_processedWords := processedWords (batchState b);
     ck_languageName := name (config (language b));
     ck_vocabularySize := JMap.size (vocabulary (language b)) |}.

(** One handler run. The SIGINT listener tests
    [this.batchState && !this.batchState.shouldStop]; [batchState] is set
    for the whole of the batch. *)
Definition handle (b : Batch) (s : Signal) : Batch :=
  match pc b with
  | Finished _ => b
  | _ =>
      match s with
      | SIGINT =>
          if shouldStop (batchState b) then withPc (Finished ForcedExit) b
          else withState (setStop true (batchState b)) b
      | PauseFileSeen =>
          if isPaused (batchState b) then b
          else withState (setPaused true (batchState b)) b
      | PauseFileRemoved =>
          if isPaused (batchState b) then
            withState (setPaused false (batchState b)) b
          else b
      | Rejection => b     (* no handler runs: read when the await ends *)
      end
  end.

Definition deliver (signals : list Signal) (b : Batch) : Batch :=
  fold_left handle signals b.

(** [processed > 0 && processed % saveInterval === 0 && processed !== savedAt];
    a zero interval makes the remainder NaN and the test false. *)
Definition needsSave (b : Batch) : bool :=
  (0 <? processed b) && (processed b mod saveInterval b =? 0)
  && negb (processed b =? savedAt b).

(** From [this.batchState.currentIndex = i + 1] to the next [await]. *)
Definition afterWord (i : nat) (b : Batch) : Batch :=
  let b1 := withState (setIndex (i + 1) (batchState b)) b in
  if needsSave b1 then withPc (Saving i) b1 else withPc (Delay i) b1.

(** From [const word = wordList[i]] to the next [await]. *)
Definition startWord (i : nat) (b : Batch) : Batch :=
  match nth_error (wordList b) i with
  | Some word =>
      match trim word with
      | [] => afterWord i b
      | _ :: _ =>
          if setHas (trim word) (processedWords (batchState b))
          then afterWord i b
          else withPc (InFlight i (trim word)) b
      end
  | None => afterWord i b
  end.

(** From the loop test to the next [await]. *)
Definition loopHead (i : nat) (b : Batch) : Batch :=
  if i <? length (wordList b) then
    if shouldStop (batchState b) then withPc (StopSaving i) b
    else if isPaused (batchState b) then withPc (PausedWait i) b
    else startWord i b
  else withPc FinalSave b.

(** The awaited operation completes without error and the function runs on
    to its next [await]. The progress file is written when
    [saveBatchProgress] completes; [savedAt] is set after the flush that
    follows it. *)
Definition resume (b : Batch) : Batch :=
  match pc b with
  | Loading ck =>
      let s := batchState b in
      loopHead (ck_currentIndex ck)
        (withState (mkBatchState (isPaused s) (shouldStop s)
                      (ck_currentIndex ck) (totalWords s)
                      (fold_left (fun acc x => setAdd x acc)
                         (ck_processedWords ck) [])) b)
  | PausedWait i =>
      if isPaused (batchState b) then b else startWord i b
  | InFlight i word =>
      let '(language', host') := processWord (language b) word (host b) in
      let s := batchState b in
      afterWord i
        (mkBatch (pc b)
           (mkBatchState (isPaused s) (shouldStop s) (currentIndex s)
              (totalWords s) (setAdd word (processedWords s)))
           language' (wordList b) (saveInterval b)
           (processed b + 1) (savedAt b) host' (saved b) (clock b))
  | Saving i =>
      mkBatch (Flushing i) (batchState b) (language b) (wordList b)
        (saveInterval b) (processed b) (savedAt b) (host b)
        (saved b ++ [checkpointAt b (i + 1)]) (clock b)
  | Flushing i =>
      mkBatch (Delay i) (batchState b) (language b) (wordList b)
        (saveInterval b) (processed b) (processed b) (host b)
        (saved b) (clock b)
  | Delay i => loopHead (i + 1) b
  | StopSaving i =>
      mkBatch (StopFlushing i) (batchState b) (language b)
        (wordList b) (saveInterval b) (processed b) (savedAt b) (host b)
        (saved b ++ [checkpointAt b i]) (clock b)
  | StopFlushing i => withPc (Finished (Stopped (processed b) i)) b
  | FinalSave => withPc (Finished (Completed (processed b))) b
  | Finished _ => b
  end.

Definition tick (b : Batch) : Batch :=
  mkBatch (pc b) (batchState b) (language b) (wordList b) (saveInterval b)
    (processed b) (savedAt b) (host b) (saved b) (S (clock b)).

(** The environment: what happens during each await, numbered by the
    clock. *)
Definition Env := nat -> list Signal.

(** The environment in which no handler runs and no write fails. It is not
    the environment of every run: where the vocabulary holds a key that is
    not a valid pattern, every flush of the dictionaries rejects. *)
Definition quiet : Env := fun _ => [].

(** The state in the middle of the current await, once its handler runs have
    taken place. *)
Definition interrupted (env : Env) (b : Batch) : Batch :=
  deliver (env (clock b)) b.

Definition isRejection (s : Signal) : bool :=
  match s with Rejection => true | _ => false end.

Definition rejected (signals : list Signal) : bool :=
  existsb isRejection signals.

(** The awaits of a write, which can reject; the others cannot:
    [loadBatchProgress] and [processWord] catch their errors, and a timer
    does not fail. *)
Definition awaitsWrite (p : Pc) : bool :=
  match p with
  | Saving _ | Flushing _ | StopSaving _ | StopFlushing _ | FinalSave => true
  | _ => false
  end.

(** One await ends. When the awaited write has rejected, the exception
    leaves [processWordsBatch], which has no [catch] around its writes, and
    the write is taken to have left no progress file; otherwise the
    function resumes. A process that a handler has exited stays as it
    is. *)
Definition step (env : Env) (b : Batch) : Batch :=
  let b' := interrupted env b in
  tick (if rejected (env (clock b)) && awaitsWrite (pc b')
        then withPc (Finished Threw) b'
        else resume b').

Fixpoint run (env : Env) (n : nat) (b : Batch) : Batch :=
  match n with
  | 0 => b
  | S k => step env (run env k b)
  end.

(** [processWordsBatch(language, wordList, {saveInterval, resumeFile})] up to
    its first [await]. [resumeFile] is [Some ck] when the progress file
    exists and parses to [ck]. *)
Definition processWordsBatch (lang : Language) (words : list str)
  (interval : nat) (resumeFile : option BatchCheckpoint) (h : Host) : Batch :=
  let b := mkBatch FinalSave
             (mkBatchState false false 0 (length words) [])
             lang words interval 0 0 h [] 0 in
  match resumeFile with
  | Some ck => withPc (Loading ck) b
  | None => loopHead 0 b
  end.

(** *** Adding words to an existing language *)

Definition isNewWord (existingLanguage : Language) (word : str) : bool :=
  match trim word with
  | [] => false
  | _ :: _ => negb (JMap.has str_eqb (trim word) (vocabulary existingLanguage))
  end.

Definition wordsToAdd (existingLanguage : Language) (newWords : list str)
  : list str :=
  map trim (filter (isNewWord existingLanguage) newWords).

Record AddResult := mkAddResult {
  r_language : Language;
  addedCount : nat;
  skippedCount : nat;
  wasStopped : option bool    (* absent when there was nothing to add *)
}.

(** How a call of [addWordsToLanguage] ends. *)
Inductive AddOutcome :=
| Returned (r : AddResult)   (* the call returns [r] *)
| Rethrown                   (* a write rejected: the error is logged and
                                thrown again *)
| Exited                     (* a SIGINT listener has exited the process *)
| Pending.                   (* not over within the given number of awaits *)

(** The batch run up to its return: the state at the first await after which
    the function is over; [None] when that takes more than [fuel] awaits. *)
Fixpoint runToReturn (env : Env) (fuel : nat) (b : Batch) : option Batch :=
  match pc b with
  | Finished _ => Some b
  | _ => match fuel with
         | 0 => None
         | S k => runToReturn env k (step env b)
         end
  end.

Definition isSIGINT (s : Signal) : bool :=
  match s with SIGINT => true | _ => false end.

(** [options.saveInterval || 25]: 25 when the option is absent or zero. *)
Definition saveIntervalOr25 (saveInterval : option nat) : nat :=
  match saveInterval with
  | Some (S n) => S n
  | _ => 25
  end.

(** [addWordsToLanguage], on the loaded language, with the handlers
    installed ([allowPause] not set to false); the metadata of the language
    and the recommendation on reconstruction are left out of the result.
    [resumeFile] is [Some ck] when the progress file of the language exists
    and parses to [ck]: [promptForResume] always answers yes. [fuel] bounds
    the number of awaits of the batch. After a batch that completed, the
    dictionaries are flushed once more: an await during which [batchState]
    is null, so that a run of a SIGINT listener exits the process, and which
    rejects as every flush can. After a batch that was stopped there is no
    further flush. *)
Definition addWordsToLanguage (existingLanguage : Language)
  (newWords : list str) (saveInterval : option nat)
  (resumeFile : option BatchCheckpoint) (env : Env) (fuel : nat) (h : Host)
  : AddOutcome :=
  match wordsToAdd existingLanguage newWords with
  | [] => Returned (mkAddResult existingLanguage 0 (length newWords) None)
  | w :: ws =>
      match runToReturn env fuel
              (processWordsBatch existingLanguage (w :: ws)
                 (saveIntervalOr25 saveInterval) resumeFile h) with
      | None => Pending
      | Some b =>
          match pc b with
          | Finished (Completed n) =>
              if existsb isSIGINT (env (clock b)) then Exited
              else if rejected (env (clock b)) then Rethrown
              else Returned
                     (mkAddResult (language b) n (length newWords - n)
                        (Some false))
          | Finished (Stopped n _) =>
              Returned
                (mkAddResult (language b) n (length newWords - n) (Some true))
          | Finished Threw => Rethrown
          | _ => Exited
          end
      end
  end.

(* ================================================================== *)
(** ** Reference notions used in the statements *)
(* ================================================================== *)

(** Number of morphemes of a given type. *)
Definition countType (t : MorphemeType) (ms : list Morpheme) : nat :=
  length (filter (fun m => MorphemeType_eqb (mtype m) t) ms).

(** [x] is the first entry of [l] that satisfies [P]. *)
Definition firstMatch (P : str -> bool) (l : list str) (x : str) : Prop :=
  exists l1 l2, l = l1 ++ x :: l2 /\ P x = true /\
                forall y, In y l1 -> P y = false.

Definition affix (t : MorphemeType) (o : option str)
  : list (MorphemeType * str) :=
  match o with Some x => [(t, x)] | None => [] end.

Definition affixText (o : option str) : str :=
  match o with Some x => x | None => [] end.

Definition shape (ms : list Morpheme) : list (MorphemeType * str) :=
  map (fun m => (mtype m, mvalue m)) ms.

(** Number of maximal contiguous runs of characters of a class: a run starts
    at every character of the class that does not follow one. *)
Fixpoint runCount (cls : ascii -> bool) (w : str) (prevIn : bool) : nat :=
  match w with
  | [] => 0
  | c :: r => (if cls c && negb prevIn then 1 else 0) + runCount cls r (cls c)
  end.

Definition isVowel5 (c : ascii) : bool := charIn c vowels5.

(** The pairing table read as a function: the partner of a letter of the
    table, the letter itself otherwise. *)
Definition shiftChar (c : ascii) : ascii :=
  match JMap.get Ascii.eqb c shiftRules with
  | Some d => d
  | None => c
  end.

(** The average weight of a sequence of morpheme types, as the engine
    computes it. *)
Definition averageWeight (ms : list Morpheme) : Q :=
  fdiv (fold_left (fun total m => fadd total (calculateSemanticWeight m)) ms
          0%Q)
       (Qnat (length ms)).

(** A morpheme of a given type, to read the weight of the type. *)
Definition morphemeOfType (t : MorphemeType) : Morpheme := mkMorpheme t [] [].

(** The renderer as the description has it: left to right, a digraph first
    and both of its characters consumed, a single character otherwise.
    [consumed] marks the second character of a matched digraph. *)
Fixpoint renderDigraphs_spec (w : str) (consumed : bool) : str :=
  match w with
  | [] => []
  | c :: r =>
      if consumed then renderDigraphs_spec r false
      else
        let lowerChar := [toLowerChar c] in
        let twoChar := lowerChar ++ lowerAt r 0 in
        match JMap.get str_eqb twoChar asciiCombinations with
        | Some combo => combo ++ renderDigraphs_spec r true
        | None => lookupOr asciiPhoneticMap lowerChar lowerChar
                    ++ renderDigraphs_spec r false
        end
  end.


(** *** Grouping the items of a list under their keys

    The counting loops of the analyzer have one shape: for each item, the
    value stored under the item's key is replaced by an updated one, the
    first item of a key starting from an initial value. *)
Section Grouping.
Variables (K X V : Type) (keqb : K -> K -> bool).
Variables (v0 : V) (u : X -> V -> V).

Definition getOr (k : K) (T : JMap.t K V) : V :=
  match JMap.get keqb k T with Some v => v | None => v0 end.

Definition upd (T : JMap.t K V) (o : K * X) : JMap.t K V :=
  JMap.set keqb (fst o) (u (snd o) (getOr (fst o) T)) T.

Definition groupFold (l : list (K * X)) : JMap.t K V := fold_left upd l [].

Definition addKey (acc : list K) (k : K) : list K :=
  if existsb (keqb k) acc then acc else acc ++ [k].

(** The distinct elements of a list, each once, in order of first
    occurrence. *)
Definition distinctKeys (l : list K) : list K := fold_left addKey l [].

(** The items stored under [k], in order. *)
Definition payload (k : K) (l : list (K * X)) : list X :=
  map snd (filter (fun o => keqb (fst o) k) l).

Definition accumulate (xs : list X) : V := fold_left (fun v x => u x v) xs v0.

Definition grouped (l : list (K * X)) : JMap.t K V :=
  map (fun k => (k, accumulate (payload k l))) (distinctKeys (map fst l)).
End Grouping.

(** *** The consistency score as the description has it *)

(** One observation: a source character and the constructed character at
    the same index (the empty string when the constructed word is shorter). *)
Definition Observation := (ascii * str)%type.

Definition observationAt (englishWord sigmentWord : str) (i : nat)
  : list Observation :=
  match nth_error englishWord i with
  | Some c => [(toLowerChar c, lowerAt sigmentWord i)]
  | None => []
  end.

Definition entryObservations (kv : str * WordEntry) : list Observation :=
  flat_map (observationAt (fst kv) (sigment (snd kv)))
           (seq 0 (length (fst kv))).

Definition observations (v : Vocabulary) : list Observation :=
  flat_map entryObservations v.

(** The constructed characters observed for the source character [c]. *)
Definition targetsOf (c : ascii) (obs : list Observation) : list str :=
  payload Ascii.eqb c obs.

Definition occurrences (t : str) (ts : list str) : nat :=
  length (filter (str_eqb t) ts).

Definition mostFrequentCount (ts : list str) : nat :=
  list_max (map (fun t => occurrences t ts) ts).

(** (most-frequent-target-count / total-observations) as a percentage,
    in double precision. *)
Definition percentage (ts : list str) : Q :=
  fmul (fdiv (Qnat (mostFrequentCount ts)) (Qnat (length ts))) 100.

(** The same percentage as an exact rational. *)
Definition exactPercentage (ts : list str) : Q :=
  (Qnat (mostFrequentCount ts) / Qnat (length ts) * 100)%Q.

Definition observedOf (alphabet : str) (obs : list Observation) : list ascii :=
  distinctKeys Ascii.eqb (filter (fun c => charIn c alphabet) (map fst obs)).

(** The distinct source vowels and consonants observed. *)
Definition observedChars (obs : list Observation) : list ascii :=
  observedOf vowels5 obs ++ observedOf consonants21 obs.

Definition Qsum (l : list Q) : Q := fold_right Qplus 0%Q l.

(** The sum of a list of doubles, taken from the left. *)
Definition fsum (l : list Q) : Q := fold_left fadd l 0%Q.

(** The arithmetic mean of the percentages in double precision: the
    percentages are added in the order in which their source characters
    were first observed, the vowels before the consonants, and the sum is
    divided by their number; 0 when nothing was observed. *)
Definition meanPercentage (obs : list Observation) : Q :=
  match observedChars obs with
  | [] => 0%Q
  | c :: cs =>
      fdiv (fsum (map (fun c => percentage (targetsOf c obs)) (c :: cs)))
           (Qnat (length (c :: cs)))
  end.

(** The arithmetic mean of the percentages as an exact rational. *)
Definition exactMean (obs : list Observation) : Q :=
  match observedChars obs with
  | [] => 0%Q
  | c :: cs =>
      (Qsum (map (fun c => exactPercentage (targetsOf c obs)) (c :: cs))
       / Qnat (length (c :: cs)))%Q
  end.

(** *** The loops of the analyzer as grouping loops *)

(** The two loops of the analyzer are instances of the grouping loop. *)
Definition bumpUpd : str -> JMap.t str nat -> JMap.t str nat :=
  fun s inner => bump s inner.

(** The inner map built from the constructed characters seen for one source
    character: each distinct one with its number of occurrences. *)
Definition innerTable (ss : list str) : JMap.t str nat :=
  accumulate (JMap.empty str nat) bumpUpd ss.

(** The tables built by the vocabulary loop. *)
Definition recordAll (obs : list Observation) (T : TransformTable)
  : TransformTable :=
  fold_left (upd Ascii.eqb (JMap.empty str nat) bumpUpd) obs T.

Definition ofClass (alphabet : str) (o : Observation) : bool :=
  charIn (fst o) alphabet.

(** *** Reconstruction and batch runs, as reference *)






(** What a batch run has built so far. *)
Definition Progress := (Language * list str * Host * nat)%type.

Definition progressOf (b : Batch) : Progress :=
  (language b, processedWords (batchState b), host b, processed b).

(** One word of a run that no signal disturbs. *)
Definition quietWord (p : Progress) (word : str) : Progress :=
  let '(lang, done, h, n) := p in
  match trim word with
  | [] => p
  | _ :: _ =>
      if setHas (trim word) done then p
      else let '(lang', h') := processWord lang (trim word) h in
           (lang', setAdd (trim word) done, h', n + 1)
  end.

Definition quietBatch (words : list str) (p : Progress) : Progress :=
  fold_left quietWord words p.


(** No word is being processed. *)
Definition idle (p : Pc) : Prop :=
  match p with
  | InFlight _ _ | Loading _ => False
  | _ => True
  end.

Definition flagsClear (b : Batch) : Prop :=
  isPaused (batchState b) = false /\ shouldStop (batchState b) = false.

(** The words of a batch are new: none is blank, no two are the same once
    trimmed, and the vocabulary holds none of them. *)
Definition newWords (lang : Language) (words : list str) : Prop :=
  NoDup (map trim words) /\
  Forall (fun w => trim w <> []) words /\
  Forall (fun w => JMap.has str_eqb (trim w) (vocabulary lang) = false) words.

(** The pause scenario: the batch [b0] over [words] runs under [env]; at
    time [t0] it is awaiting the word of index 10, [w11], and the pause file
    is seen during that await. *)
Definition pauseOutcome (lang : Language) (words : list str) (env : Env)
  (b0 : Batch) (t0 : nat) (w11 : str) : Prop :=
  let c := run env t0 b0 in          (* awaiting word 11 *)
  let c' := interrupted env c in     (* the handler has run, mid-await *)
  let d := run env (S t0) b0 in      (* word 11 has returned *)
  (* the state becomes Paused with word 11 in flight and 10 words committed *)
  isPaused (batchState c) = false /\
  isPaused (batchState c') = true /\
  pc c' = InFlight 10 w11 /\
  nth_error (map trim words) 10 = Some w11 /\
  JMap.keys (vocabulary (language c'))
    = JMap.keys (vocabulary lang) ++ firstn 10 (map trim words) /\
  JMap.size (vocabulary (language c')) = JMap.size (vocabulary lang) + 10 /\
  processed c' = 10 /\
  (* word 11 is not interrupted: it is committed *)
  JMap.keys (vocabulary (language d))
    = JMap.keys (vocabulary lang) ++ firstn 11 (map trim words) /\
  processed d = 11 /\
  isPaused (batchState d) = true /\
  idle (pc d) /\
  (* no word starts as long as the pause is not cleared *)
  (forall k,
      (forall j, t0 < j -> j <= t0 + k -> ~ In PauseFileRemoved (env j)) ->
      let e := run env (S t0 + k) b0 in
      idle (pc e) /\ isPaused (batchState e) = true /\
      language e = language d).

(** A language, an oracle and a word list to run the statements on. *)
Definition demoLanguage : Language :=
  mkLanguage (mkConfig (lit "Demo") default false)
    (JMap.empty str WordEntry) (JMap.empty str WordEntry).

Definition demoHost : Host := mkHost (fun n => n) 0 false.

(** One hundred distinct words: "aa", "ab", ..., "jj". *)
Definition demoWords : list str :=
  map (fun n => [ascii_of_nat (97 + n / 10); ascii_of_nat (97 + n mod 10)])
      (seq 0 100).

Definition pauseAt (t : nat) : Env :=
  fun j => if j =? t then [PauseFileSeen] else [].

Fixpoint distinctb (l : list str) : bool :=
  match l with
  | [] => true
  | x :: r => negb (existsb (str_eqb x) r) && distinctb r
  end.

(** What a run of [words] from [lang] has built when the first [i] words
    are done. *)
Definition builtAfter (lang : Language) (words : list str) (h : Host)
  (i : nat) : Progress :=
  quietBatch (firstn i words) (lang, [], h, 0).

(** The states of a run of new words that no signal disturbs. *)
Definition quietInv (lang : Language) (words : list str) (h : Host)
  (b : Batch) : Prop :=
  wordList b = words /\ flagsClear b /\
  match pc b with
  | InFlight i w =>
      (exists w', nth_error words i = Some w' /\ w = trim w') /\
      progressOf b = builtAfter lang words h i
  | Saving i | Flushing i | Delay i =>
      i < length words /\ progressOf b = builtAfter lang words h (i + 1)
  | FinalSave | Finished (Completed _) =>
      progressOf b = builtAfter lang words h (length words)
  | _ => False
  end.

(** *** Runs under signals, as reference *)

(** What a run of [words] started from the progress [p0] has built when the
    first [i] words are done. *)
Definition builtFrom (words : list str) (p0 : Progress) (i : nat) : Progress :=
  quietBatch (firstn i words) p0.

(** The states of a run of [words] in which no stop was requested. *)
Definition runInv (words : list str) (p0 : Progress) (b : Batch) : Prop :=
  wordList b = words /\ shouldStop (batchState b) = false /\
  match pc b with
  | InFlight i w =>
      (exists w', nth_error words i = Some w' /\ w = trim w') /\
      w <> [] /\ setHas w (processedWords (batchState b)) = false /\
      progressOf b = builtFrom words p0 i
  | PausedWait i => i < length words /\ progressOf b = builtFrom words p0 i
  | Saving i | Flushing i | Delay i =>
      i < length words /\ progressOf b = builtFrom words p0 (i + 1)
  | FinalSave => progressOf b = quietBatch words p0
  | Finished (Completed n) =>
      n = processed b /\ progressOf b = quietBatch words p0
  | _ => False
  end.

(** The states of a run once a stop was requested during word [i]. *)
Definition stopInv (words : list str) (pr : Progress) (i : nat) (b : Batch)
  : Prop :=
  wordList b = words /\ shouldStop (batchState b) = true /\
  progressOf b = pr /\
  match pc b with
  | Saving j | Flushing j | Delay j => j = i
  | StopSaving j => j = i + 1 /\ i + 1 < length words
  | StopFlushing j =>
      j = i + 1 /\ i + 1 < length words /\
      exists cks, saved b = cks ++ [checkpointAt b (i + 1)]
  | FinalSave => i + 1 = length words
  | Finished (Stopped n j) =>
      n = processed b /\ j = i + 1 /\ i + 1 < length words /\
      exists cks, saved b = cks ++ [checkpointAt b (i + 1)]
  | Finished (Completed n) => n = processed b /\ i + 1 = length words
  | _ => False
  end.

(** How many awaits a stopping run is away from its return, at most. *)
Definition stopRank (p : Pc) : nat :=
  match p with
  | Saving _ => 5
  | Flushing _ => 4
  | Delay _ => 3
  | StopSaving _ => 2
  | StopFlushing _ | FinalSave => 1
  | Finished _ => 0
  | _ => 6
  end.

(** The awaits of [saveBatchProgress]: the progress file is being
    written. *)
Definition awaitsProgressFile (p : Pc) : bool :=
  match p with
  | Saving _ | StopSaving _ => true
  | _ => false
  end.

(** The pause file is seen during await [t1] and removed during await [t2]. *)
Definition pauseBetween (t1 t2 : nat) : Env :=
  fun j => if j =? t1 then [PauseFileSeen]
           else if j =? t2 then [PauseFileRemoved] else [].

(** Ctrl+C during await [t], in a process in which [listeners] batches have
    been started. *)
Definition stopAt (listeners t : nat) : Env :=
  fun j => if j =? t then ctrlC listeners else [].

(** Ctrl+C during await [t1] and again during await [t2], in the first
    batch of a process. *)
Definition stopTwice (t1 t2 : nat) : Env :=
  fun j => if j =? t1 then ctrlC 1 else if j =? t2 then ctrlC 1 else [].

(** *** Incremental saving, as reference *)

(** The checkpoint of a run of new words that has reached index [j]. *)
Definition checkpointOf (lang : Language) (words : list str) (j : nat)
  : BatchCheckpoint :=
  {| ck_currentIndex := j;
     ck_totalWords := length words;
     ck_processedWords := firstn j (map trim words);
     ck_languageName := name (config lang);
     ck_vocabularySize := JMap.size (vocabulary lang) + j |}.

(** The indices from 1 to [n] that the save interval divides. *)
Definition savePoints (interval n : nat) : list nat :=
  filter (fun j => j mod interval =? 0) (seq 1 n).

(** The progress files written so far, in a run of new words that no signal
    disturbs. *)
Definition savesInv (lang : Language) (words : list str) (interval : nat)
  (b : Batch) : Prop :=
  saveInterval b = interval /\
  match pc b with
  | InFlight i _ =>
      saved b = map (checkpointOf lang words) (savePoints interval i) /\
      savedAt b <= i
  | Saving i =>
      (i + 1) mod interval = 0 /\
      saved b = map (checkpointOf lang words) (savePoints interval i)
  | Flushing i =>
      saved b = map (checkpointOf lang words) (savePoints interval (i + 1))
  | Delay i =>
      saved b = map (checkpointOf lang words) (savePoints interval (i + 1)) /\
      savedAt b <= i + 1
  | FinalSave | Finished (Completed _) =>
      saved b
      = map (checkpointOf lang words) (savePoints interval (length words))
  | _ => True
  end.

(** *** Shapes of words, as reference *)

(** The word does not begin with a doubled character (a doubled line
    terminator apart, which the pattern [.] does not match). *)
Definition noDoubledStart (w : str) : Prop :=
  match w with
  | a :: b :: _ => a = b -> isDot a = false
  | _ => True
  end.

(** No two neighbours of a list are equal. *)
Fixpoint noAdj (l : list ascii) : Prop :=
  match l with
  | a :: (b :: _) as t => a <> b /\ noAdj t
  | _ => True
  end.

(** Run lists that are the run-length view of some string. *)
Definition wfRuns (rs : list (ascii * nat)) : Prop :=
  Forall (fun r => 0 < snd r) rs /\ noAdj (map fst rs).

(** The replacement [/^(.)\1+/ -> $1] on the run-length view. *)
Definition squeezeHead (rs : list (ascii * nat)) : list (ascii * nat) :=
  match rs with
  | [] => []
  | r :: t => squeeze 2 1 r :: t
  end.

(** [applyPhoneticConsistency] on the run-length view. *)
Definition consistentRuns (rs : list (ascii * nat)) : list (ascii * nat) :=
  rev (squeezeHead (rev (squeezeHead (map (squeeze 4 2) rs)))).

(** Three equal characters in a row somewhere in the word. *)
Fixpoint hasTriple (w : str) : bool :=
  match w with
  | a :: (b :: c :: _) as t => (Ascii.eqb a b && Ascii.eqb b c) || hasTriple t
  | _ => false
  end.

(** The root morphemes of a decomposition. *)
Definition rootsOf (ms : list Morpheme) : list Morpheme :=
  filter (fun m => MorphemeType_eqb (mtype m) MRoot) ms.

(** A language of three words, built under the default style. *)
Definition demoVocabulary : Language :=
  fst (foldM processWord [lit "cat"; lit "dog"; lit "sun"] demoLanguage
         demoHost).

(** A language of two words, built under the default style: "fab" becomes
    "phab" and "ab" stays "ab". *)
Definition demoShifted : Language :=
  fst (foldM processWord [lit "fab"; lit "ab"] demoLanguage demoHost).

(* ================================================================== *)
(** ** Enrichment client: the result cache (ollama-client.js) *)
(* ================================================================== *)

Section ClientCache.
Variable R : Type.    (* what is cached: parsed answers of the service *)

(** [m.delete(k)] *)
Fixpoint mapDelete (k : str) (m : JMap.t str R) : JMap.t str R :=
  match m with
  | [] => []
  | (k', v) :: r => if str_eqb k k' then r else (k', v) :: mapDelete k r
  end.

(** The two fields of the client that [cacheResult] reads and writes. *)
Record Client := mkClient {
  cache : JMap.t str R;
  maxCacheSize : nat
}.

(** The constructor. *)
Definition newClient : Client := mkClient (JMap.empty str R) 1000.

(** [cacheResult(key, result)]. [keys().next().value] is [undefined] on an
    empty map, and deleting it does nothing. *)
Definition cacheResult (c : Client) (key : str) (result : R) : Client :=
  let cache1 :=
    if maxCacheSize c <=? JMap.size (cache c) then
      match JMap.keys (cache c) with
      | firstKey :: _ => mapDelete firstKey (cache c)
      | [] => cache c
      end
    else cache c in
  mkClient (JMap.set str_eqb key result cache1) (maxCacheSize c).

Definition clearCache (c : Client) : Client :=
  mkClient (JMap.empty str R) (maxCacheSize c).

(** A client after a sequence of [cacheResult] calls. *)
Definition cachedAll (ops : list (str * R)) (c : Client) : Client :=
  fold_left (fun c kv => cacheResult c (fst kv) (snd kv)) ops c.

End ClientCache.

(* ================================================================== *)
(** ** Names of files and archives (language-generator.js) *)
(* ================================================================== *)

(** [s.split(sep)] for a separator that is one character of a class: the
    pieces between the separators, empty ones included; one empty piece for
    the empty string. *)
Fixpoint splitOn (sep : ascii -> bool) (w : str) : list str :=
  match w with
  | [] => [[]]
  | c :: r =>
      if sep c then [] :: splitOn sep r
      else match splitOn sep r with
           | s :: t => (c :: s) :: t
           | [] => [[c]]
           end
  end.

(** [parts.join(sep)] *)
Fixpoint join (sep : str) (parts : list str) : str :=
  match parts with
  | [] => []
  | x :: t => match t with
              | [] => x
              | _ :: _ => x ++ sep ++ join sep t
              end
  end.

(** [w.replace(pat, rep)] for a string pattern: the first occurrence. *)
Fixpoint replaceFirst (pat rep w : str) : str :=
  if startsWith pat w then rep ++ skipn (length pat) w
  else match w with
       | [] => []
       | c :: r => c :: replaceFirst pat rep r
       end.

Definition isUnderscore (c : ascii) : bool := Ascii.eqb c "_".

(** [new Date().toISOString().replace(/[:.]/g, '-')], on the ISO string. *)
Definition archiveTimestamp (iso : str) : str :=
  map (fun c => if Ascii.eqb c ":" || Ascii.eqb c "." then "-"%char else c)
      iso.

(** The name of the archive directory made by [archiveLanguage]. *)
Definition archiveDirName (languageName timestamp : str) : str :=
  languageName ++ lit "_" ++ timestamp.

(** [archiveName.split('_')], then [parts.slice(0, -1).join('_')]: the
    language name that [restoreLanguage] and [getArchivedLanguages] read off
    an archive directory. *)
Definition archivedLanguageName (archiveName : str) : str :=
  join (lit "_") (removelast (splitOn isUnderscore archiveName)).

(** The entry that [getArchivedLanguages] makes of a directory name: its
    language name and time stamp, when the name has two parts at least. *)
Definition archivedEntry (entryName : str) : option (str * str) :=
  let parts := splitOn isUnderscore entryName in
  if 2 <=? length parts
  then Some (archivedLanguageName entryName, last parts [])
  else None.

Definition metadataSuffix : str := lit "_metadata.json".

(** [loadLanguagesFromFilesystem], on the listing of the output directory
    (the empty listing when the directory cannot be read). *)
Definition loadLanguagesFromFilesystem (files : list str) : list str :=
  map (replaceFirst metadataSuffix [])
      (filter (endsWith metadataSuffix) files).

(** [getAvailableLanguages], on the listing of the output directory and the
    keys of the in-memory database. *)
Definition getAvailableLanguages (files memoryLanguages : list str)
  : list str :=
  distinctKeys str_eqb (loadLanguagesFromFilesystem files ++ memoryLanguages).

(* ================================================================== *)
(** ** Enrichment client: lists in the answers of the service *)
(* ================================================================== *)

(** The separator class of [/[;,]/]. *)
Definition isListSeparator (c : ascii) : bool :=
  Ascii.eqb c ";" || Ascii.eqb c ",".

(** The truth value of a string: the empty string is false. *)
Definition nonEmpty (d : str) : bool :=
  match d with [] => false | _ :: _ => true end.

(** [parseDefinitionList(value)] *)
Definition parseDefinitionList (value : str) : list str :=
  filter nonEmpty (map trim (splitOn isListSeparator value)).

(** An item as it comes out of a parsed list: not empty, without
    surrounding white space, without separator. *)
Definition cleanItem (d : str) : Prop :=
  d <> [] /\ trim d = d /\ Forall (fun c => isListSeparator c = false) d.

(* ================================================================== *)
(** ** Word lists: the input of a generation *)
(* ================================================================== *)

(** [s.split(/[...]+/)] for a class of separators: the pieces between the
    maximal runs of separators, with an empty piece before a run that opens
    the string and after one that closes it. [inRun] tells that the
    character before was a separator. *)
Fixpoint splitOnRunsFrom (sep : ascii -> bool) (inRun : bool) (w : str)
  : list str :=
  match w with
  | [] => [[]]
  | c :: r =>
      if sep c then
        if inRun then splitOnRunsFrom sep true r
        else [] :: splitOnRunsFrom sep true r
      else match splitOnRunsFrom sep false r with
           | s :: t => (c :: s) :: t
           | [] => [[c]]
           end
  end.

Definition splitOnRuns (sep : ascii -> bool) (w : str) : list str :=
  splitOnRunsFrom sep false w.

Definition isNewline (c : ascii) : bool := Ascii.eqb c "010".

(** The class [[,\s\n]]. *)
Definition isWordSeparator (c : ascii) : bool :=
  Ascii.eqb c "," || isWhiteSpace c.

(** The lines that [loadWordListFromFile] keeps. *)
Definition isWordLine (line : str) : bool :=
  nonEmpty line && negb (startsWith (lit "#") line).

(** [loadWordListFromFile(filePath)], on what reading the file gives: its
    text, or [None] when the read fails. *)
Definition loadWordListFromFile (content : option str) : list str :=
  match content with
  | Some content => filter isWordLine (map trim (splitOn isNewline content))
  | None => []
  end.

Definition getCommonEnglishWords : list str :=
  [lit "the"; lit "be"; lit "to"; lit "of"; lit "and"; lit "a"; lit "in";
   lit "that"; lit "have"; lit "i"; lit "it"; lit "for"; lit "not"; lit "on";
   lit "with"; lit "he"; lit "as"; lit "you"; lit "do"; lit "at"; lit "this";
   lit "but"; lit "his"; lit "by"; lit "from"; lit "they"; lit "we";
   lit "say"; lit "her"; lit "she"; lit "or"; lit "an"; lit "will"; lit "my";
   lit "one"; lit "all"; lit "would"; lit "there"; lit "their"; lit "what";
   lit "so"; lit "up"; lit "out"; lit "if"; lit "about"; lit "who";
   lit "get"; lit "which"; lit "go"; lit "me"; lit "when"; lit "make";
   lit "can"; lit "like"; lit "time"; lit "no"; lit "just"; lit "him";
   lit "know"; lit "take"; lit "people"; lit "into"; lit "year"; lit "your";
   lit "good"; lit "some"; lit "could"; lit "them"; lit "see"; lit "other";
   lit "than"; lit "then"; lit "now"; lit "look"; lit "only"; lit "come";
   lit "its"; lit "over"; lit "think"; lit "also"; lit "back"; lit "after";
   lit "use"; lit "two"; lit "how"; lit "our"; lit "work"; lit "first";
   lit "well"; lit "way"; lit "even"; lit "new"; lit "want"; lit "because";
   lit "any"; lit "these"; lit "give"; lit "day"; lit "most"; lit "us";
   lit "is"; lit "water"; lit "long"; lit "very"; lit "after"; lit "word";
   lit "great"; lit "where"; lit "through"; lit "much"; lit "before";
   lit "line"; lit "right"; lit "too"; lit "means"; lit "old"; lit "any";
   lit "same"; lit "tell"; lit "boy"; lit "follow"; lit "came"; lit "want";
   lit "show"; lit "also"; lit "around"; lit "form"; lit "three";
   lit "small"; lit "set"; lit "put"; lit "end"; lit "why"; lit "again";
   lit "turn"; lit "here"; lit "off"; lit "went"; lit "old"; lit "number";
   lit "great"; lit "tell"; lit "men"; lit "say"; lit "small"; lit "every";
   lit "found"; lit "still"; lit "between"; lit "name"; lit "should";
   lit "home"; lit "big"; lit "give"; lit "air"; lit "line"; lit "set";
   lit "own"].

(** What [buildVocabulary] is given as vocabulary: an array of words, a
    text, or something else. *)
Inductive VocabularyInput :=
| InputArray (words : list str)
| InputString (text : str)
| InputOther.

(** The word list of [buildVocabulary]. [readFile] is the file system. *)
Definition wordListOf (readFile : str -> option str)
  (vocabularyInput : VocabularyInput) : list str :=
  let wordList :=
    match vocabularyInput with
    | InputArray words => words
    | InputString text =>
        if startsWith (lit "file:") text
        then loadWordListFromFile (readFile (substringFrom 5 text))
        else filter (fun w => nonEmpty (trim w))
               (splitOnRuns isWordSeparator text)
    | InputOther => []
    end in
  if length wordList =? 0 then getCommonEnglishWords else wordList.

(** [buildVocabulary(language, vocabularyInput, batchOptions)] up to the
    first [await] of the batch it starts. *)
Definition buildVocabulary (readFile : str -> option str) (language : Language)
  (vocabularyInput : VocabularyInput) (interval : nat)
  (resumeFile : option BatchCheckpoint) (h : Host) : Batch :=
  processWordsBatch language (wordListOf readFile vocabularyInput)
    interval resumeFile h.

(** A word as a text holds it: not empty, without comma or white space. *)
Definition plainWord (w : str) : Prop :=
  w <> [] /\ Forall (fun c => isWordSeparator c = false) w.

(** A line that holds a word: not empty, nothing around the word, not a
    comment, in one line. *)
Definition wordLine (w : str) : Prop :=
  w <> [] /\ trim w = w /\ startsWith (lit "#") w = false /\
  Forall (fun c => isNewline c = false) w.

(** White space that does not end the line. *)
Definition linePadding (pad : str) : Prop :=
  Forall (fun c => isWhiteSpace c = true /\ isNewline c = false) pad.
(* ================================================================== *)
(** ** The phonetic system of a language *)
(* ================================================================== *)

(** Equality of two patterns, which the source holds as strings over the
    letters V, C and X. *)
Fixpoint pattern_eqb (p q : list CharClass) : bool :=
  match p, q with
  | [], [] => true
  | a :: p', b :: q' => isClass a b && pattern_eqb p' q'
  | _, _ => false
  end.

(** A JavaScript [Set] of one-character strings, in insertion order. *)
Definition charSetAdd (c : ascii) (s : list ascii) : list ascii :=
  if charIn c s then s else s ++ [c].

(** [m.set(k, (m.get(k) || 0) + 1)] *)
Definition countUp (K : Type) (keqb : K -> K -> bool) (k : K)
  (m : JMap.t K nat) : JMap.t K nat :=
  JMap.set keqb k
    (match JMap.get keqb k m with Some n => n | None => 0 end + 1) m.

Record PhoneticSystem := mkPhoneticSystem {
  vowelInventory : list ascii;
  consonantInventory : list ascii;
  phoneticPatterns : JMap.t (list CharClass) nat;
  syllableStructures : JMap.t nat nat;
  stressPatterns : list str
}.

(** [/[a-z]/] *)
Definition isLowerLetter (c : ascii) : bool :=
  let n := nat_of_ascii c in (97 <=? n) && (n <=? 122).

(** The body of the loop over the characters of a constructed word. *)
Definition addToInventory (ps : PhoneticSystem) (char : ascii)
  : PhoneticSystem :=
  if charIn char (lit "aeiou") then
    mkPhoneticSystem (charSetAdd char (vowelInventory ps))
      (consonantInventory ps) (phoneticPatterns ps) (syllableStructures ps)
      (stressPatterns ps)
  else if isLowerLetter char then
    mkPhoneticSystem (vowelInventory ps)
      (charSetAdd char (consonantInventory ps)) (phoneticPatterns ps)
      (syllableStructures ps) (stressPatterns ps)
  else ps.

(** The body of the loop over the vocabulary. *)
Definition recordEntry (ps : PhoneticSystem) (entry : WordEntry)
  : PhoneticSystem :=
  let structure := entryPhonetics entry in
  fold_left addToInventory (toLowerCase (sigment entry))
    (mkPhoneticSystem (vowelInventory ps) (consonantInventory ps)
       (countUp pattern_eqb (pattern structure) (phoneticPatterns ps))
       (countUp Nat.eqb (syllableCount structure) (syllableStructures ps))
       (stressPatterns ps)).

(** [establishPhoneticSystem(language)]: the system it stores in
    [language.phoneticSystem]. *)
Definition establishPhoneticSystem (language : Language) : PhoneticSystem :=
  fold_left recordEntry (JMap.values (vocabulary language))
    (mkPhoneticSystem [] [] (JMap.empty _ _) (JMap.empty _ _) []).

(** How many of [xs] have the key [k]. *)
Definition countOf (X K : Type) (keqb : K -> K -> bool) (f : X -> K)
  (k : K) (xs : list X) : nat :=
  length (filter (fun x => keqb k (f x)) xs).

(** The entry of a counting map for a key counted [n] times. *)
Definition counted (n : nat) : option nat :=
  if n =? 0 then None else Some n.

Definition isVowel (c : ascii) : bool := charIn c (lit "aeiou").

Definition isConsonant (c : ascii) : bool :=
  negb (isVowel c) && isLowerLetter c.

Definition addIf (test : ascii -> bool) (s : list ascii) (c : ascii)
  : list ascii :=
  if test c then charSetAdd c s else s.

(** The characters of the constructed words, lowercased, word after word. *)
Definition sigmentChars (entries : list WordEntry) : str :=
  flat_map (fun e => toLowerCase (sigment e)) entries.

(* ================================================================== *)
(** ** Phonetic structure: rhythm and syllables *)
(* ================================================================== *)

(** The syllable counter of [analyzePhoneticStructure], read on the pattern:
    a V not preceded by a V opens a syllable. *)
Fixpoint vowelRuns (p : list CharClass) (lastWasVowel : bool) : nat :=
  match p with
  | [] => 0
  | V :: r => (if lastWasVowel then 0 else 1) + vowelRuns r true
  | _ :: r => vowelRuns r false
  end.

(* ================================================================== *)
(** ** Version numbers *)
(* ================================================================== *)

(** What [parseInt] returns: not a number, or an integer. The source
    computes on doubles, which are these integers below 2^53; the theorems
    stay below that bound. *)
Inductive JsNumber := NaN | Num (z : Z).

Definition isDecimalDigit (c : ascii) : bool :=
  let n := nat_of_ascii c in (48 <=? n) && (n <=? 57).

Definition isHexDigit (c : ascii) : bool :=
  let n := nat_of_ascii c in
  isDecimalDigit c || ((97 <=? n) && (n <=? 102)) || ((65 <=? n) && (n <=? 70)).

Fixpoint takeWhile (f : ascii -> bool) (w : str) : str :=
  match w with
  | c :: r => if f c then c :: takeWhile f r else []
  | [] => []
  end.

(** The number that a string of decimal digits denotes; none for the empty
    string. *)
Definition decimalValue (digits : str) : option N :=
  option_map N.of_uint
    (DecimalString.NilZero.uint_of_string (string_of_list_ascii digits)).

(** The number that a string of hexadecimal digits denotes. *)
Definition hexValue (digits : str) : option N :=
  option_map N.of_hex_uint
    (HexadecimalString.NilZero.uint_of_string
       (string_of_list_ascii (toLowerCase digits))).

(** The decimal digits of a number. *)
Definition decimal (n : N) : str :=
  list_ascii_of_string (DecimalString.NilZero.string_of_uint (N.to_uint n)).

(** [parseInt(input)] without radix: leading white space is skipped, then
    come a sign, the prefix 0x or 0X for radix 16, and the longest run of
    digits; what follows is ignored. *)
Definition parseInt (input : str) : JsNumber :=
  let s := trimStart input in
  let negative :=
    match s with c :: _ => Ascii.eqb c "-" | [] => false end in
  let s1 :=
    match s with
    | c :: r => if Ascii.eqb c "+" || Ascii.eqb c "-" then r else s
    | [] => s
    end in
  let value :=
    if startsWith (lit "0x") s1 || startsWith (lit "0X") s1
    then hexValue (takeWhile isHexDigit (skipn 2 s1))
    else decimalValue (takeWhile isDecimalDigit s1) in
  match value with
  | None => NaN
  | Some n => Num (if negative then - Z.of_N n else Z.of_N n)
  end.

(** [x + 1] *)
Definition plusOne (x : JsNumber) : JsNumber :=
  match x with NaN => NaN | Num z => Num (z + 1) end.

(** A number in a template literal. *)
Definition numberToString (x : JsNumber) : str :=
  match x with
  | NaN => lit "NaN"
  | Num z => if (z <? 0)%Z then "-"%char :: decimal (Z.to_N (- z))
             else decimal (Z.to_N z)
  end.

(** An array element in a template literal. *)
Definition partToString (parts : list str) (i : nat) : str :=
  match nth_error parts i with
  | Some part => part
  | None => lit "undefined"
  end.

(** [incrementVersion(currentVersion)], for a version that is a string or
    is missing. *)
Definition incrementVersion (currentVersion : option str) : str :=
  match currentVersion with
  | None => lit "1.0.1"
  | Some v =>
      if negb (nonEmpty v) || str_eqb v (lit "1.0.0") then lit "1.0.1"
      else
        let parts := splitOn (Ascii.eqb ".") v in
        let patch :=
          plusOne (parseInt (match nth_error parts 2 with
                             | Some (c :: r) => c :: r
                             | _ => lit "0"
                             end)) in
        partToString parts 0 ++ lit "." ++ partToString parts 1 ++ lit "."
        ++ numberToString patch
  end.

(** A part of a version: a string without dot. *)
Definition dotFree (w : str) : Prop :=
  Forall (fun c => Ascii.eqb "." c = false) w.

(* ================================================================== *)
(** ** Strings: basic facts *)
(* ================================================================== *)

Lemma str_eqb_eq (a b : str) : str_eqb a b = true <-> a = b.
Proof.
  unfold str_eqb. destruct (list_eq_dec ascii_dec a b); split; congruence.
Qed.

Lemma str_eqb_refl (a : str) : str_eqb a a = true.
Proof. apply str_eqb_eq. reflexivity. Qed.

Lemma str_eqb_neq (a b : str) : str_eqb a b = false <-> a <> b.
Proof.
  unfold str_eqb. destruct (list_eq_dec ascii_dec a b); split; congruence.
Qed.




Lemma startsWith_split (p w : str) :
  startsWith p w = true -> w = p ++ skipn (length p) w.
Proof.
  revert w. induction p as [|a p IH]; intros w H; simpl in *.
  - reflexivity.
  - destruct w as [|b w]; [discriminate|].
    apply andb_true_iff in H. destruct H as [Hab Hp].
    apply Ascii.eqb_eq in Hab. subst b. simpl. f_equal. apply IH, Hp.
Qed.

Lemma startsWith_app (p w : str) : startsWith p (p ++ w) = true.
Proof.
  induction p as [|a p IH]; simpl; [reflexivity|].
  rewrite Ascii.eqb_refl. exact IH.
Qed.

Lemma endsWith_split (s w : str) :
  endsWith s w = true -> w = firstn (length w - length s) w ++ s.
Proof.
  unfold endsWith. intros H. apply startsWith_split in H.
  rewrite length_rev in H.
  assert (E : rev (rev w) = rev (rev s ++ skipn (length s) (rev w)))
    by (f_equal; exact H).
  rewrite rev_involutive, rev_app_distr, rev_involutive in E.
  rewrite skipn_rev, rev_involutive in E.
  exact E.
Qed.

Lemma substring_0 (n : nat) (w : str) : substring 0 n w = firstn n w.
Proof.
  unfold substring. rewrite Nat.max_0_l, Nat.min_0_l, Nat.sub_0_r.
  reflexivity.
Qed.

Lemma find_firstMatch (P : str -> bool) (l : list str) (x : str) :
  find P l = Some x -> firstMatch P l x.
Proof.
  induction l as [|a l IH]; simpl; [discriminate|].
  destruct (P a) eqn:Pa.
  - intros E. injection E as ->. exists [], l. repeat split; auto.
    intros y [].
  - intros E. destruct (IH E) as (l1 & l2 & -> & Px & Hl1).
    exists (a :: l1), l2. repeat split; auto.
    intros y [<-|Hy]; auto.
Qed.

(* ================================================================== *)
(** ** Numbers: rounding to double precision *)
(* ================================================================== *)

Section DoublePrecisionFacts.
Local Open Scope Q_scope.

(** Powers of two. *)

Lemma two_pos (k : Z) : 0 < 2 ^ k.
Proof. apply Qpower_0_lt. reflexivity. Qed.

Lemma two_add (a b : Z) : 2 ^ (a + b) == 2 ^ a * 2 ^ b.
Proof. apply Qpower_plus. discriminate. Qed.

Lemma two_le (a b : Z) : (a <= b)%Z -> 2 ^ a <= 2 ^ b.
Proof. intros H. apply Qpower_le_compat_l; [exact H | discriminate]. Qed.

Lemma two_lt_inv (a b : Z) : 2 ^ a < 2 ^ b -> (a < b)%Z.
Proof. intros H. apply (Qpower_lt_compat_l_inv 2); [exact H | reflexivity]. Qed.

Lemma two_succ (a : Z) : 2 ^ (a + 1) == 2 ^ a * 2.
Proof. rewrite two_add. reflexivity. Qed.

Lemma two_inject (a : Z) : (0 <= a)%Z -> inject_Z (2 ^ a) == 2 ^ a.
Proof. intros H. apply (Zpower_Qpower 2 a H). Qed.

Lemma two_cancel (a : Z) : 2 ^ a * 2 ^ (- a) == 1.
Proof. rewrite <- two_add, Z.add_opp_diag_r. reflexivity. Qed.

(** The exponent of a positive number. *)

Lemma log2_bounds (n : Z) :
  (0 < n)%Z -> 2 ^ Z.log2 n <= inject_Z n /\ inject_Z n < 2 ^ (Z.log2 n + 1).
Proof.
  intros H. destruct (Z.log2_spec n H) as [L U].
  pose proof (Z.log2_nonneg n) as N.
  rewrite <- !two_inject by lia. rewrite <- Zle_Qle, <- Zlt_Qlt.
  replace (Z.log2 n + 1)%Z with (Z.succ (Z.log2 n)) by lia. auto.
Qed.

Lemma exponent_spec (q : Q) :
  0 < q -> 2 ^ exponent q <= q /\ q < 2 ^ (exponent q + 1).
Proof.
  intros Hq. destruct q as [n d].
  assert (Hn : (0 < n)%Z).
  { unfold Qlt in Hq. simpl in Hq. lia. }
  destruct (log2_bounds Hn) as [An Bn].
  destruct (@log2_bounds (Zpos d) eq_refl) as [Ad Bd].
  unfold exponent. cbn [Qnum Qden].
  set (a := Z.log2 n) in *. set (b := Z.log2 (Zpos d)) in *.
  assert (E : n # d == inject_Z n / inject_Z (Zpos d)) by apply Qmake_Qdiv.
  assert (Dpos : 0 < inject_Z (Zpos d)) by reflexivity.
  assert (Eq : (n # d) * inject_Z (Zpos d) == inject_Z n).
  { rewrite E. field. intros H. rewrite H in Dpos. discriminate. }
  pose proof (two_pos (a - b)) as P0.
  pose proof (two_pos b) as Pb.
  assert (U : n # d < 2 ^ (a - b + 1)).
  { apply (Qmult_lt_r _ _ (inject_Z (Zpos d)) Dpos). rewrite Eq.
    apply (Qlt_le_trans _ _ _ Bn).
    replace (a + 1)%Z with ((a - b + 1) + b)%Z by lia. rewrite two_add.
    apply Qmult_le_l; [apply two_pos | exact Ad]. }
  assert (L : 2 ^ (a - b - 1) <= n # d).
  { apply (Qmult_le_r _ _ (inject_Z (Zpos d)) Dpos). rewrite Eq.
    apply (Qle_trans _ (2 ^ a)); [|exact An].
    replace a with ((a - b - 1) + (b + 1))%Z at 2 by lia. rewrite two_add.
    apply Qmult_le_l; [apply two_pos | apply Qlt_le_weak, Bd]. }
  destruct (Qle_bool (2 ^ (a - b)) (n # d)) eqn:C.
  - apply Qle_bool_iff in C. split; [exact C | exact U].
  - split; [exact L|]. replace (a - b - 1 + 1)%Z with (a - b)%Z by lia.
    apply Qnot_le_lt. intros H. apply Qle_bool_iff in H. congruence.
Qed.

Lemma exponent_unique (q : Q) (e : Z) :
  2 ^ e <= q -> q < 2 ^ (e + 1) -> exponent q = e.
Proof.
  intros L U.
  assert (Hq : 0 < q) by (apply (Qlt_le_trans _ (2 ^ e)); [apply two_pos | exact L]).
  destruct (exponent_spec Hq) as [L' U'].
  assert (A : (e < exponent q + 1)%Z)
    by (apply two_lt_inv, (Qle_lt_trans _ q); assumption).
  assert (B : (exponent q < e + 1)%Z)
    by (apply two_lt_inv, (Qle_lt_trans _ q); assumption).
  lia.
Qed.

(** Rounding to an integer. *)

Lemma roundHalfEven_Z (z : Z) : roundHalfEven (inject_Z z) = z.
Proof.
  unfold roundHalfEven. rewrite Qfloor_Z.
  assert (E : inject_Z z - inject_Z z == 0) by ring.
  rewrite E. reflexivity.
Qed.

Lemma roundHalfEven_cases (q : Q) :
  let f := Qfloor q in
  (roundHalfEven q = f /\ q - inject_Z f <= 1 # 2) \/
  (roundHalfEven q = (f + 1)%Z /\ 1 # 2 <= q - inject_Z f).
Proof.
  cbv zeta. unfold roundHalfEven.
  destruct (Qcompare_spec (q - inject_Z (Qfloor q)) (1 # 2)) as [E|L|G].
  - destruct (Z.even (Qfloor q)); [left | right]; split;
      try reflexivity; rewrite E; apply Qle_refl.
  - left. split; [reflexivity | apply Qlt_le_weak, L].
  - right. split; [reflexivity | apply Qlt_le_weak, G].
Qed.

Lemma roundHalfEven_le (p q : Q) : p <= q -> (roundHalfEven p <= roundHalfEven q)%Z.
Proof.
  intros H. pose proof (Qfloor_resp_le _ _ H) as F.
  destruct (Z.eq_dec (Qfloor p) (Qfloor q)) as [E|N].
  - unfold roundHalfEven. rewrite E.
    destruct (Qcompare_spec (p - inject_Z (Qfloor q)) (1 # 2)) as [E1|L1|G1];
      destruct (Qcompare_spec (q - inject_Z (Qfloor q)) (1 # 2)) as [E2|L2|G2];
      try lia; try (destruct (Z.even (Qfloor q)); lia); exfalso; lra.
  - destruct (roundHalfEven_cases p) as [[-> _]|[-> _]];
      destruct (roundHalfEven_cases q) as [[-> _]|[-> _]]; lia.
Qed.

Lemma roundHalfEven_comp (p q : Q) : p == q -> roundHalfEven p = roundHalfEven q.
Proof.
  intros E. apply Z.le_antisymm; apply roundHalfEven_le; rewrite E; apply Qle_refl.
Qed.

Lemma roundHalfEven_lower (z : Z) (q : Q) :
  inject_Z z <= q -> (z <= roundHalfEven q)%Z.
Proof.
  intros H. rewrite <- (roundHalfEven_Z z). apply roundHalfEven_le, H.
Qed.

Lemma roundHalfEven_upper (z : Z) (q : Q) :
  q <= inject_Z z -> (roundHalfEven q <= z)%Z.
Proof.
  intros H. rewrite <- (roundHalfEven_Z z). apply roundHalfEven_le, H.
Qed.

(** Rounding a positive number. *)

Lemma scaled_bounds (q : Q) :
  0 < q ->
  inject_Z (2 ^ 52) <= q * 2 ^ (52 - exponent q) /\
  q * 2 ^ (52 - exponent q) < inject_Z (2 ^ 53).
Proof.
  intros Hq. destruct (exponent_spec Hq) as [L U].
  set (e := exponent q) in *.
  pose proof (two_pos (52 - e)) as P.
  assert (I52 : inject_Z (2 ^ 52) == 2 ^ e * 2 ^ (52 - e)).
  { rewrite <- two_add. replace (e + (52 - e))%Z with 52%Z by lia.
    apply two_inject. lia. }
  assert (I53 : inject_Z (2 ^ 53) == 2 ^ (e + 1) * 2 ^ (52 - e)).
  { rewrite <- two_add. replace (e + 1 + (52 - e))%Z with 53%Z by lia.
    apply two_inject. lia. }
  rewrite I52, I53. split.
  - apply Qmult_le_r; [exact P | exact L].
  - apply Qmult_lt_r; [exact P | exact U].
Qed.

Lemma significand_bounds (q : Q) :
  0 < q ->
  (2 ^ 52 <= roundHalfEven (q * 2 ^ (52 - exponent q)) <= 2 ^ 53)%Z.
Proof.
  intros Hq. destruct (scaled_bounds Hq) as [L U]. split.
  - apply roundHalfEven_lower, L.
  - apply roundHalfEven_upper, Qlt_le_weak, U.
Qed.

Lemma roundPositive_eq (q : Q) :
  roundPositive q
  == inject_Z (roundHalfEven (q * 2 ^ (52 - exponent q))) * 2 ^ (exponent q - 52).
Proof. unfold roundPositive. apply Qred_correct. Qed.

Lemma roundPositive_bounds (q : Q) :
  0 < q ->
  2 ^ exponent q <= roundPositive q /\ roundPositive q <= 2 ^ (exponent q + 1).
Proof.
  intros Hq. rewrite roundPositive_eq.
  destruct (significand_bounds Hq) as [L U].
  set (e := exponent q) in *.
  set (m := roundHalfEven (q * 2 ^ (52 - e))) in *.
  pose proof (two_pos (e - 52)) as P.
  rewrite Zle_Qle in L, U.
  assert (Ee : 2 ^ e == inject_Z (2 ^ 52) * 2 ^ (e - 52)).
  { rewrite two_inject by lia. rewrite <- two_add.
    replace (52 + (e - 52))%Z with e by lia. reflexivity. }
  assert (Es : 2 ^ (e + 1) == inject_Z (2 ^ 53) * 2 ^ (e - 52)).
  { rewrite two_inject by lia. rewrite <- two_add.
    replace (53 + (e - 52))%Z with (e + 1)%Z by lia. reflexivity. }
  rewrite Ee, Es. split.
  - apply Qmult_le_r; [exact P | exact L].
  - apply Qmult_le_r; [exact P | exact U].
Qed.

Lemma roundPositive_pos (q : Q) : 0 < q -> 0 < roundPositive q.
Proof.
  intros Hq. destruct (roundPositive_bounds Hq) as [L _].
  apply (Qlt_le_trans _ (2 ^ exponent q)); [apply two_pos | exact L].
Qed.

Lemma exponent_le (p q : Q) : 0 < p -> p <= q -> (exponent p <= exponent q)%Z.
Proof.
  intros Hp H.
  assert (Hq : 0 < q) by (apply (Qlt_le_trans _ p); assumption).
  destruct (exponent_spec Hp) as [L _]. destruct (exponent_spec Hq) as [_ U].
  assert (A : (exponent p < exponent q + 1)%Z).
  { apply two_lt_inv. apply (Qle_lt_trans _ p); [exact L|].
    apply (Qle_lt_trans _ q); assumption. }
  lia.
Qed.

Lemma roundPositive_le (p q : Q) :
  0 < p -> p <= q -> roundPositive p <= roundPositive q.
Proof.
  intros Hp H.
  assert (Hq : 0 < q) by (apply (Qlt_le_trans _ p); assumption).
  pose proof (exponent_le Hp H) as E.
  destruct (Z.eq_dec (exponent p) (exponent q)) as [Ee|Ne].
  - rewrite !roundPositive_eq, Ee.
    apply Qmult_le_r; [apply two_pos|]. rewrite <- Zle_Qle.
    apply roundHalfEven_le. apply Qmult_le_r; [apply two_pos | exact H].
  - destruct (roundPositive_bounds Hp) as [_ U].
    destruct (roundPositive_bounds Hq) as [L _].
    apply (Qle_trans _ _ _ U). apply (Qle_trans _ (2 ^ exponent q)); [|exact L].
    apply two_le. lia.
Qed.

Lemma exponent_comp (p q : Q) : 0 < p -> p == q -> exponent p = exponent q.
Proof.
  intros Hp E. destruct (exponent_spec Hp) as [L U].
  symmetry. apply exponent_unique; rewrite <- E; assumption.
Qed.

Lemma roundPositive_comp (p q : Q) :
  0 < p -> p == q -> roundPositive p = roundPositive q.
Proof.
  intros Hp E. unfold roundPositive. rewrite <- (exponent_comp Hp E).
  assert (S : p * 2 ^ (52 - exponent p) == q * 2 ^ (52 - exponent p))
    by (apply Qmult_comp; [exact E | reflexivity]).
  rewrite (roundHalfEven_comp S). reflexivity.
Qed.

(** A number whose significand, scaled to 53 bits, is an integer is
    rounded to itself. *)
Lemma roundPositive_exact (q : Q) (m : Z) :
  0 < q -> q * 2 ^ (52 - exponent q) == inject_Z m -> roundPositive q == q.
Proof.
  intros Hq E. rewrite roundPositive_eq.
  rewrite (roundHalfEven_comp E), roundHalfEven_Z, <- E, <- Qmult_assoc.
  rewrite <- two_add.
  replace (52 - exponent q + (exponent q - 52))%Z with 0%Z by lia.
  change (2 ^ 0) with 1. ring.
Qed.

Lemma roundPositive_idem (q : Q) :
  0 < q -> roundPositive (roundPositive q) == roundPositive q.
Proof.
  intros Hq.
  pose proof (roundPositive_pos Hq) as Hr.
  pose proof (roundPositive_eq q) as E.
  destruct (significand_bounds Hq) as [L U].
  set (e := exponent q) in *.
  set (m := roundHalfEven (q * 2 ^ (52 - e))) in *.
  destruct (Z.eq_dec m (2 ^ 53)) as [Em|Nm].
  - assert (R : roundPositive q == 2 ^ (e + 1)).
    { rewrite E, Em, two_inject by lia. rewrite <- two_add. 
      replace (53 + (e - 52))%Z with (e + 1)%Z by lia. reflexivity. }
    assert (X : exponent (roundPositive q) = (e + 1)%Z).
    { apply exponent_unique; rewrite R; [apply Qle_refl|].
      apply Qpower_lt_compat_l; [lia | reflexivity]. }
    apply (@roundPositive_exact _ (2 ^ 52) Hr).
    rewrite X, R, <- two_add, two_inject by lia.
    replace (e + 1 + (52 - (e + 1)))%Z with 52%Z by lia. reflexivity.
  - assert (X : exponent (roundPositive q) = e).
    { apply exponent_unique; rewrite E.
      - replace e with (52 + (e - 52))%Z at 1 by lia. rewrite two_add.
        apply Qmult_le_r; [apply two_pos|].
        rewrite <- two_inject by lia. rewrite <- Zle_Qle. exact L.
      - replace (e + 1)%Z with (53 + (e - 52))%Z by lia. rewrite two_add.
        apply Qmult_lt_r; [apply two_pos|].
        rewrite <- two_inject by lia. rewrite <- Zlt_Qlt. lia. }
    apply (@roundPositive_exact _ m Hr).
    rewrite X, E, <- Qmult_assoc, <- two_add.
    replace (e - 52 + (52 - e))%Z with 0%Z by lia.
    change (2 ^ 0) with 1. ring.
Qed.

Lemma roundPositive_scale (q : Q) (k : Z) :
  0 < q -> roundPositive (q * 2 ^ k) == roundPositive q * 2 ^ k.
Proof.
  intros Hq. destruct (exponent_spec Hq) as [L U].
  assert (X : exponent (q * 2 ^ k) = (exponent q + k)%Z).
  { apply exponent_unique.
    - rewrite two_add. apply Qmult_le_r; [apply two_pos | exact L].
    - replace (exponent q + k + 1)%Z with ((exponent q + 1) + k)%Z by lia.
      rewrite two_add. apply Qmult_lt_r; [apply two_pos | exact U]. }
  rewrite !roundPositive_eq, X.
  rewrite (@roundHalfEven_comp (q * 2 ^ k * 2 ^ (52 - (exponent q + k)))
             (q * 2 ^ (52 - exponent q))).
  - rewrite <- Qmult_assoc, <- two_add.
    replace (exponent q - 52 + k)%Z with (exponent q + k - 52)%Z by lia.
    reflexivity.
  - rewrite <- Qmult_assoc, <- two_add.
    replace (k + (52 - (exponent q + k)))%Z with (52 - exponent q)%Z by lia.
    reflexivity.
Qed.

(** Rounding: order, fixed points and scaling by a power of two. *)

Lemma roundDouble_pos (q : Q) : 0 < q -> roundDouble q = roundPositive q.
Proof.
  intros H. unfold roundDouble. rewrite Qgt_alt in H. rewrite H. reflexivity.
Qed.

Lemma roundDouble_neg (q : Q) :
  q < 0 -> roundDouble q = Qred (- roundPositive (- q)).
Proof.
  intros H. unfold roundDouble. rewrite Qlt_alt in H. rewrite H. reflexivity.
Qed.

Lemma roundDouble_zero (q : Q) : q == 0 -> roundDouble q = 0.
Proof.
  intros H. unfold roundDouble. rewrite Qeq_alt in H. rewrite H. reflexivity.
Qed.

Lemma roundDouble_comp (p q : Q) : p == q -> roundDouble p = roundDouble q.
Proof.
  intros E. destruct (Q_dec p 0) as [[N|P]|Z].
  - rewrite !roundDouble_neg by (rewrite <- ?E; exact N).
    f_equal. f_equal. apply roundPositive_comp; [lra | rewrite E; reflexivity].
  - rewrite !roundDouble_pos by (rewrite <- ?E; exact P).
    apply roundPositive_comp; assumption.
  - rewrite !roundDouble_zero by (rewrite <- ?E; exact Z). reflexivity.
Qed.

Lemma roundDouble_nonneg (q : Q) : 0 <= q -> 0 <= roundDouble q.
Proof.
  intros H. destruct (Q_dec q 0) as [[N|P]|Z].
  - lra.
  - rewrite roundDouble_pos by exact P. apply Qlt_le_weak, roundPositive_pos, P.
  - rewrite roundDouble_zero by exact Z. apply Qle_refl.
Qed.

Lemma roundDouble_le (p q : Q) : p <= q -> roundDouble p <= roundDouble q.
Proof.
  intros H.
  destruct (Q_dec p 0) as [[Np|Pp]|Zp]; destruct (Q_dec q 0) as [[Nq|Pq]|Zq];
    try (exfalso; lra).
  - rewrite !roundDouble_neg by assumption. rewrite !Qred_correct.
    apply Qopp_le_compat. apply roundPositive_le; lra.
  - rewrite roundDouble_neg, roundDouble_pos by assumption.
    rewrite Qred_correct.
    pose proof (@roundPositive_pos (- p) ltac:(lra)).
    pose proof (@roundPositive_pos q Pq). lra.
  - rewrite roundDouble_neg, roundDouble_zero by assumption.
    rewrite Qred_correct.
    pose proof (@roundPositive_pos (- p) ltac:(lra)). lra.
  - rewrite !roundDouble_pos by assumption. apply roundPositive_le; assumption.
  - rewrite roundDouble_zero, roundDouble_pos by assumption.
    apply Qlt_le_weak, roundPositive_pos, Pq.
  - rewrite !roundDouble_zero by assumption. apply Qle_refl.
Qed.

Lemma roundDouble_idem (q : Q) : roundDouble (roundDouble q) == roundDouble q.
Proof.
  destruct (Q_dec q 0) as [[N|P]|Z].
  - assert (Hp : 0 < - q) by lra.
    rewrite (roundDouble_neg N).
    pose proof (roundPositive_pos Hp) as R.
    set (r := roundPositive (- q)) in *.
    rewrite (@roundDouble_comp (Qred (- r)) (- r)) by apply Qred_correct.
    assert (N' : - r < 0) by lra.
    rewrite (roundDouble_neg N'), !Qred_correct.
    assert (E : - - r == r) by ring.
    rewrite (@roundPositive_comp (- - r) r ltac:(lra) E).
    unfold r. rewrite (roundPositive_idem Hp). reflexivity.
  - rewrite (roundDouble_pos P).
    rewrite (roundDouble_pos (roundPositive_pos P)).
    apply roundPositive_idem, P.
  - rewrite (roundDouble_zero Z). reflexivity.
Qed.

Lemma roundDouble_scale (q : Q) (k : Z) :
  roundDouble (q * 2 ^ k) == roundDouble q * 2 ^ k.
Proof.
  pose proof (two_pos k) as T.
  destruct (Q_dec q 0) as [[N|P]|Z].
  - assert (N' : q * 2 ^ k < 0).
    { setoid_replace 0 with (0 * 2 ^ k) by ring.
      apply Qmult_lt_r; assumption. }
    rewrite (roundDouble_neg N), (roundDouble_neg N'), !Qred_correct.
    rewrite (@roundPositive_comp (- (q * 2 ^ k)) (- q * 2 ^ k));
      [|lra|ring].
    rewrite roundPositive_scale by lra. ring.
  - assert (P' : 0 < q * 2 ^ k).
    { setoid_replace 0 with (0 * 2 ^ k) by ring.
      apply Qmult_lt_r; assumption. }
    rewrite (roundDouble_pos P), (roundDouble_pos P').
    apply roundPositive_scale, P.
  - assert (Z' : q * 2 ^ k == 0) by (rewrite Z; ring).
    rewrite (roundDouble_zero Z), (roundDouble_zero Z'). ring.
Qed.

(** The integers up to 2^53 are doubles. *)
Lemma roundDouble_int (z : Z) :
  (0 <= z < 2 ^ 53)%Z -> roundDouble (inject_Z z) == inject_Z z.
Proof.
  intros [L U]. destruct (Z.eq_dec z 0) as [->|N]; [reflexivity|].
  assert (Hz : (0 < z)%Z) by lia.
  assert (Hq : 0 < inject_Z z) by (rewrite Zlt_Qlt in Hz; exact Hz).
  rewrite (roundDouble_pos Hq).
  destruct (log2_bounds Hz) as [A B].
  assert (X : exponent (inject_Z z) = Z.log2 z)
    by (apply exponent_unique; assumption).
  assert (Hl : (0 <= Z.log2 z < 53)%Z).
  { split; [apply Z.log2_nonneg|]. apply Z.log2_lt_pow2; lia. }
  apply (@roundPositive_exact _ (z * 2 ^ (52 - Z.log2 z)) Hq).
  rewrite X, inject_Z_mult, two_inject by lia. reflexivity.
Qed.
End DoublePrecisionFacts.

(* ================================================================== *)
(** ** Decomposer: morphemes (C7) *)
(* ================================================================== *)

Lemma stripPrefix_spec (w : str) :
  exists p : option str,
    w = affixText p ++ snd (stripPrefix w) /\
    shape (fst (stripPrefix w)) = affix MPrefix p /\
    match p with
    | Some x => firstMatch (fun e => startsWith e w) prefixes x
    | None => forall e, In e prefixes -> startsWith e w = false
    end.
Proof.
  unfold stripPrefix.
  destruct (find (fun p => startsWith p w) prefixes) as [x|] eqn:F.
  - exists (Some x). simpl. split; [|split]; auto.
    + apply startsWith_split. apply (find_some _ _ F).
    + apply find_firstMatch, F.
  - exists None. simpl. split; [|split]; auto.
    intros e He. apply (find_none _ _ F e He).
Qed.

Lemma stripSuffix_spec (w : str) :
  exists s : option str,
    w = snd (stripSuffix w) ++ affixText s /\
    shape (fst (stripSuffix w)) = affix MSuffix s /\
    match s with
    | Some x => firstMatch (fun e => endsWith e w) suffixes x
    | None => forall e, In e suffixes -> endsWith e w = false
    end.
Proof.
  unfold stripSuffix.
  destruct (find (fun s => endsWith s w) suffixes) as [x|] eqn:F.
  - exists (Some x). simpl. split; [|split]; auto.
    + rewrite substring_0. apply endsWith_split. apply (find_some _ _ F).
    + apply find_firstMatch, F.
  - exists None. simpl. split; [|split]; auto.
    + rewrite app_nil_r. reflexivity.
    + intros e He. apply (find_none _ _ F e He).
Qed.

Lemma decomposeMorphemes_unfold (word : str) :
  decomposeMorphemes word =
    fst (stripPrefix (toLowerCase word))
    ++ fst (stripSuffix (snd (stripPrefix (toLowerCase word))))
    ++ rootOf (snd (stripSuffix (snd (stripPrefix (toLowerCase word))))).
Proof.
  unfold decomposeMorphemes.
  destruct (stripPrefix (toLowerCase word)) as [ms1 r1]. simpl.
  destruct (stripSuffix r1) as [ms2 r2]. reflexivity.
Qed.

Lemma shape_rootOf (r : str) :
  shape (rootOf r) = match r with [] => [] | _ :: _ => [(MRoot, r)] end.
Proof. destruct r; reflexivity. Qed.

Lemma countType_shape (t : MorphemeType) (ms : list Morpheme) :
  countType t ms =
  length (filter (fun x => MorphemeType_eqb (fst x) t) (shape ms)).
Proof.
  unfold countType, shape. induction ms as [|m ms IH]; simpl; [reflexivity|].
  destruct (MorphemeType_eqb (mtype m) t); simpl; rewrite IH; reflexivity.
Qed.

(** C7, as the code has it: on the lower-cased word [w], decomposition
    yields at most one prefix, the first entry of the prefix list that [w]
    starts with; at most one suffix, the first entry of the suffix list that
    the remainder ends with; and a root equal to the residual when that
    residual is not empty, no root when it is empty. The three parts spell
    [w]. *)
Theorem decomposeMorphemes_shape (word : str) :
  exists (p s : option str) (root : str),
    toLowerCase word = affixText p ++ root ++ affixText s /\
    shape (decomposeMorphemes word)
      = affix MPrefix p ++ affix MSuffix s
        ++ match root with [] => [] | _ :: _ => [(MRoot, root)] end /\
    match p with
    | Some x => firstMatch (fun e => startsWith e (toLowerCase word)) prefixes x
    | None => forall e, In e prefixes -> startsWith e (toLowerCase word) = false
    end /\
    match s with
    | Some x => firstMatch (fun e => endsWith e (root ++ affixText s)) suffixes x
    | None => forall e, In e suffixes -> endsWith e root = false
    end /\
    countType MPrefix (decomposeMorphemes word) <= 1 /\
    countType MSuffix (decomposeMorphemes word) <= 1 /\
    countType MRoot (decomposeMorphemes word)
      = match root with [] => 0 | _ :: _ => 1 end.
Proof.
  set (w := toLowerCase word).
  destruct (stripPrefix_spec w) as (p & Hw & Hp & Hfirst).
  destruct (stripSuffix_spec (snd (stripPrefix w))) as (s & Hr & Hs & Hlast).
  set (root := snd (stripSuffix (snd (stripPrefix w)))) in *.
  assert (Hshape : shape (decomposeMorphemes word)
      = affix MPrefix p ++ affix MSuffix s
        ++ match root with [] => [] | _ :: _ => [(MRoot, root)] end).
  { rewrite decomposeMorphemes_unfold. fold w. unfold shape in *.
    rewrite !map_app. rewrite Hp, Hs. fold root.
    f_equal. f_equal. apply shape_rootOf. }
  exists p, s, root. split; [|split; [|split; [|split]]].
  - rewrite Hw at 1. f_equal. exact Hr.
  - exact Hshape.
  - exact Hfirst.
  - rewrite <- Hr. destruct s; [exact Hlast|].
    simpl in Hr. rewrite app_nil_r in Hr. rewrite <- Hr. exact Hlast.
  - rewrite !countType_shape, Hshape.
    destruct p, s, root; simpl; repeat split; auto.
Qed.

(** C7, counterexample: the word "un-" is all prefix; its decomposition has
    a prefix and no root morpheme. *)
Lemma decomposeMorphemes_no_root :
  shape (decomposeMorphemes (lit "un-")) = [(MPrefix, lit "un-")] /\
  countType MRoot (decomposeMorphemes (lit "un-")) <> 1.
Proof. split; [reflexivity | vm_compute; discriminate]. Qed.

(* ================================================================== *)
(** ** Decomposer: syllables (C8) *)
(* ================================================================== *)

Lemma matchClassRuns_length (cls : ascii -> bool) (w cur : str) :
  length (matchClassRuns cls w cur)
  = (match cur with [] => 0 | _ :: _ => 1 end)
    + runCount cls w (match cur with [] => false | _ :: _ => true end).
Proof.
  revert cur. induction w as [|c r IH]; intros cur; simpl.
  - destruct cur; reflexivity.
  - destruct (cls c) eqn:Hc; simpl.
    + rewrite IH. destruct cur; simpl; reflexivity.
    + destruct cur; simpl; rewrite IH; reflexivity.
Qed.

(** C8, as the code has it: the syllable count of the Decomposer is the
    number of maximal contiguous runs, in the lower-cased word, of characters
    of the class a, e, i, o, u, y, and 1 when there is no such run. *)
Theorem estimateSyllables_runs (word : str) :
  estimateSyllables word
  = Nat.max 1 (runCount isVowelOrY (toLowerCase word) false).
Proof.
  unfold estimateSyllables.
  pose proof (matchClassRuns_length isVowelOrY (toLowerCase word) []) as L.
  simpl in L.
  destruct (matchClassRuns isVowelOrY (toLowerCase word) []) as [|g gs].
  - simpl in L. rewrite <- L. reflexivity.
  - rewrite <- L. simpl. reflexivity.
Qed.

(** C8, counterexample: "happy" has one run of the vowels a, e, i, o, u
    and the Decomposer counts two syllables, the final "y" being a run. *)
Lemma estimateSyllables_happy :
  lit "happy" <> [] /\
  estimateSyllables (lit "happy") = 2 /\
  Nat.max 1 (runCount isVowel5 (toLowerCase (lit "happy")) false) = 1.
Proof. split; [discriminate | split; vm_compute; reflexivity]. Qed.

(* ================================================================== *)
(** ** Transformation Engine: where the characters of a result come from *)
(* ================================================================== *)

Section CharacterInvariant.
Variable P : ascii -> Prop.






Lemma squeeze_fst (m k : nat) (r : ascii * nat) :
  fst (squeeze m k r) = fst r.
Proof.
  destruct r as [c n]. unfold squeeze.
  destruct (isDot c && (m <=? n)); reflexivity.
Qed.










End CharacterInvariant.

Lemma applySyllableRules_aux_id (w : str) (b : bool) :
  applySyllableRules_aux w b = w.
Proof.
  revert b. induction w as [|c r IH]; intros b; simpl; [reflexivity|].
  destruct b; [rewrite IH; reflexivity|].
  destruct r as [|d r']; [reflexivity|]. rewrite IH. reflexivity.
Qed.

Lemma applyMorphemeBasedRules_id (w : str) (ms : list Morpheme) (st : Style) :
  applyMorphemeBasedRules w ms st = w.
Proof.
  unfold applyMorphemeBasedRules.
  induction ms as [|m ms IH]; simpl; [reflexivity|].
  destruct (mtype m); exact IH.
Qed.

Lemma JMap_get_In {K V} (eqb : K -> K -> bool) (k : K) (v : V)
  (m : JMap.t K V) :
  JMap.get eqb k m = Some v -> In v (JMap.values m).
Proof.
  induction m as [|[k' v'] m IH]; simpl; [discriminate|].
  destruct (eqb k k').
  - intros E. injection E as ->. left. reflexivity.
  - intros E. right. apply IH, E.
Qed.













(* ================================================================== *)
(** ** Transformation Engine: case of the input (C10) *)
(* ================================================================== *)





(* ================================================================== *)
(** ** Transformation Engine: consonant shift (C5) *)
(* ================================================================== *)

Lemma applyConsonantShift_from_nth (word : str) (ety : Etymology)
  (k : nat) (rest : str) (i : nat) :
  nth_error (applyConsonantShift_from word ety k rest) i
  = option_map
      (fun c => if isInRootMorpheme (k + i) word ety then shiftChar c else c)
      (nth_error rest i).
Proof.
  revert k i. induction rest as [|c r IH]; intros k i;
    cbn [applyConsonantShift_from].
  - destruct i; reflexivity.
  - destruct i as [|i]; cbn [nth_error option_map].
    + rewrite Nat.add_0_r. unfold shiftChar.
      destruct (JMap.get Ascii.eqb c shiftRules);
        destruct (isInRootMorpheme k word ety); reflexivity.
    + rewrite IH. rewrite Nat.add_succ_comm. reflexivity.
Qed.

Lemma shiftChar_outside (c : ascii) :
  charIn c (lit "bpdtgkvfzsjw") = false -> shiftChar c = c.
Proof.
  destruct c as [[] [] [] [] [] [] [] []]; vm_compute;
    intros H; solve [reflexivity | discriminate H].
Qed.

(** C5: "computer" has no affix and its root is the whole word; under
    consonant_shift every letter of the word is replaced by its partner in
    the pairing table (b-p, d-t, g-k, v-f, z-s both ways, j to y, w to v)
    and every letter outside the table is kept, which gives "combuder".
    For any word and analysis, position by position: a character inside the
    span of a root morpheme becomes its partner, a character outside every
    root span is kept, and a letter outside the table is kept in both
    cases. *)
Theorem consonant_shift_computer :
  shape (decomposeMorphemes (lit "computer")) = [(MRoot, lit "computer")] /\
  applyConsonantShift (lit "computer") (analyzeWord (lit "computer"))
    = map shiftChar (lit "computer") /\
  (forall h, transformWord (lit "computer") (analyzeWord (lit "computer"))
               consonant_shift h = (lit "combuder", h)) /\
  map shiftChar (lit "bpdtgkvfzsjw") = lit "pbtdkgfvszyv" /\
  (forall c, charIn c (lit "bpdtgkvfzsjw") = false -> shiftChar c = c) /\
  (forall word ety i,
      nth_error (applyConsonantShift word ety) i
      = option_map
          (fun c => if isInRootMorpheme i word ety then shiftChar c else c)
          (nth_error word i)).
Proof.
  split; [reflexivity|].
  split; [vm_compute; reflexivity|].
  split; [intros h; vm_compute; destruct h; reflexivity|].
  split; [vm_compute; reflexivity|].
  split; [exact shiftChar_outside|].
  intros word ety i. unfold applyConsonantShift.
  rewrite applyConsonantShift_from_nth. reflexivity.
Qed.

(* ================================================================== *)
(** ** Transformation Engine: default style (C6) *)
(* ================================================================== *)

Lemma weightOrHalf_component (m : Morpheme) :
  weightOrHalf (mkComponent (mvalue m) (calculateSemanticWeight m))
  = calculateSemanticWeight m.
Proof.
  unfold weightOrHalf, calculateSemanticWeight. simpl.
  destruct (mtype m); reflexivity.
Qed.

Lemma overallWeight_analyzeWord (word : str) :
  calculateOverallSemanticWeight (analyzeWord word)
  = averageWeight (decomposeMorphemes word).
Proof.
  unfold calculateOverallSemanticWeight, analyzeWord, averageWeight,
    extractSemanticComponents. simpl.
  rewrite length_map. f_equal.
  generalize (decomposeMorphemes word) as ms. generalize 0%Q as a.
  intros a ms. revert a. induction ms as [|m ms IH]; intros a; simpl;
    [reflexivity|].
  rewrite weightOrHalf_component. apply IH.
Qed.

Lemma averageWeight_types (ms1 ms2 : list Morpheme) :
  map mtype ms1 = map mtype ms2 -> averageWeight ms1 = averageWeight ms2.
Proof.
  intros E. unfold averageWeight.
  assert (L : length ms1 = length ms2)
    by (rewrite <- (length_map mtype ms1), E, length_map; reflexivity).
  rewrite L. f_equal.
  generalize 0%Q as a. revert ms2 E L.
  induction ms1 as [|m1 ms1 IH]; intros [|m2 ms2] E L a;
    try discriminate; cbn [fold_left]; [reflexivity|].
  injection E as E1 E2.
  assert (W : calculateSemanticWeight m1 = calculateSemanticWeight m2)
    by (unfold calculateSemanticWeight; rewrite E1; reflexivity).
  rewrite W. apply IH; auto.
Qed.

(** The eight possible sequences of morpheme types of a decomposition. *)
Lemma decomposeMorphemes_parts (word : str) :
  exists (p s : option str) (root : str),
    shape (decomposeMorphemes word)
    = affix MPrefix p ++ affix MSuffix s
      ++ match root with [] => [] | _ :: _ => [(MRoot, root)] end.
Proof.
  set (w := toLowerCase word).
  destruct (stripPrefix_spec w) as (p & _ & Hp & _).
  destruct (stripSuffix_spec (snd (stripPrefix w))) as (s & _ & Hs & _).
  exists p, s, (snd (stripSuffix (snd (stripPrefix w)))).
  rewrite decomposeMorphemes_unfold. fold w. unfold shape in *.
  rewrite !map_app. rewrite Hp, Hs. f_equal. f_equal. apply shape_rootOf.
Qed.

Lemma decomposeMorphemes_types (word : str) :
  In (map mtype (decomposeMorphemes word))
     [ []; [MRoot]; [MSuffix]; [MSuffix; MRoot]; [MPrefix]; [MPrefix; MRoot];
       [MPrefix; MSuffix]; [MPrefix; MSuffix; MRoot] ].
Proof.
  destruct (decomposeMorphemes_parts word) as (p & s & root & Hs).
  assert (E : map mtype (decomposeMorphemes word)
              = map fst (shape (decomposeMorphemes word)))
    by (unfold shape; rewrite map_map; reflexivity).
  rewrite E, Hs.
  destruct p, s, root; simpl; tauto.
Qed.

Lemma averageWeight_of_types (ms : list Morpheme) :
  averageWeight ms = averageWeight (map morphemeOfType (map mtype ms)).
Proof.
  apply averageWeight_types. rewrite !map_map. simpl. reflexivity.
Qed.

(** What the gates of the default style give on a decomposition: the first
    opens exactly when the average weight is above 0.6, the second never. *)
Lemma default_gates_on_decomposition (word : str) :
  let w := averageWeight (decomposeMorphemes word) in
  Qgtb (Qmin 1 (fmul w (1 # 2))) (roundDouble (3 # 10))
    = Qgtb w (roundDouble (6 # 10)) /\
  Qgtb (Qmin 1 (fmul w (1 # 2))) (roundDouble (6 # 10)) = false /\
  Qle_bool w 1 = true.
Proof.
  cbv zeta. rewrite averageWeight_of_types.
  pose proof (decomposeMorphemes_types word) as H.
  simpl in H.
  repeat (destruct H as [<-|H]; [vm_compute; auto|]).
  destruct H.
Qed.

Lemma Qgtb_true (a b : Q) : Qgtb a b = true <-> (b < a)%Q.
Proof.
  unfold Qgtb. rewrite negb_true_iff. split.
  - intros H. apply Qnot_le_lt. intros L. apply Qle_bool_iff in L. congruence.
  - intros H. destruct (Qle_bool a b) eqn:E; [|reflexivity].
    apply Qle_bool_iff in E. exfalso. apply (Qlt_not_le _ _ H E).
Qed.

Lemma Qgtb_ext (a b c d : Q) :
  ((b < a)%Q <-> (d < c)%Q) -> Qgtb a b = Qgtb c d.
Proof.
  intros H. destruct (Qgtb a b) eqn:E1, (Qgtb c d) eqn:E2; try reflexivity.
  - apply Qgtb_true, H, Qgtb_true in E1. congruence.
  - apply Qgtb_true, H, Qgtb_true in E2. congruence.
Qed.

(** Halving a double is exact. *)
Lemma fmul_half (w : Q) :
  (roundDouble w == w)%Q -> (fmul w (1 # 2) == w * (1 # 2))%Q.
Proof.
  intros D. unfold fmul.
  change (1 # 2)%Q with (2 ^ (-1))%Q.
  rewrite roundDouble_scale, D. reflexivity.
Qed.

(** The intensity is half the weight, capped at 1: a threshold [t] below 1
    on the intensity is the threshold [2 t] on the weight. *)
Lemma intensity_gate (w t : Q) :
  (roundDouble w == w)%Q -> (t < 1)%Q ->
  Qgtb (Qmin 1 (fmul w (1 # 2))) t = Qgtb w (t * 2).
Proof.
  intros D Ht. apply Qgtb_ext. rewrite Q.min_glb_lt_iff, (fmul_half D). split.
  - intros [_ H]. apply (Qmult_lt_r _ _ (1 # 2)); [reflexivity|].
    setoid_replace (t * 2 * (1 # 2))%Q with t by ring. exact H.
  - intros H. split; [exact Ht|].
    apply (Qmult_lt_r _ _ (1 # 2)) in H; [|reflexivity].
    setoid_replace (t * 2 * (1 # 2))%Q with t in H by ring. exact H.
Qed.

(** The overall weight is a double. *)
Lemma overallWeight_double (ety : Etymology) :
  (roundDouble (calculateOverallSemanticWeight ety)
   == calculateOverallSemanticWeight ety)%Q.
Proof.
  unfold calculateOverallSemanticWeight.
  destruct (semanticComponents ety) as [cs|]; [|reflexivity].
  unfold fdiv. apply roundDouble_idem.
Qed.

Lemma Qgtb_comp (a b c : Q) : (b == c)%Q -> Qgtb a b = Qgtb a c.
Proof. intros E. apply Qgtb_ext. rewrite E. tauto. Qed.

(** C6, as the code has it: under the default style the engine computes the
    average semantic weight of the morphemes (root 1.0, prefix 0.6, suffix
    0.4, any other type 0.3) in double precision and halves it, capped at
    1, into an intensity. The mild paired consonant substitution is applied
    exactly when the intensity is above 0.3, that is when the weight is
    above 0.6; vowel doubling is applied only when the intensity is above
    0.6, that is when the weight is above 1.2. The thresholds are the
    doubles that the literals denote, and the weight is the double that the
    additions and the division give. The weight of a word's own
    decomposition is at most 1, so on it no vowel is ever doubled and the
    random oracle is not read. The substitution, character by character,
    turns c into k, k into c and f into ph. *)
Theorem default_style_gates (word : str) (ety : Etymology) (h : Host) :
  applyDefaultTransformation word ety h
    = (let w := calculateOverallSemanticWeight ety in
       let result := if Qgtb w (roundDouble (6 # 10))
                     then applyMildConsonantShift word else word in
       if Qgtb w (roundDouble (12 # 10)) then applyVowelVariation result h
       else (result, h)) /\
  map calculateSemanticWeight
      (map morphemeOfType [MRoot; MPrefix; MSuffix; MOther])
    = [1%Q; roundDouble (6 # 10); roundDouble (4 # 10);
       roundDouble (3 # 10)] /\
  calculateOverallSemanticWeight (analyzeWord word)
    = averageWeight (decomposeMorphemes word) /\
  (calculateOverallSemanticWeight (analyzeWord word) <= 1)%Q /\
  applyDefaultTransformation (toLowerCase word) (analyzeWord word) h
    = ((if Qgtb (calculateOverallSemanticWeight (analyzeWord word))
             (roundDouble (6 # 10))
        then applyMildConsonantShift (toLowerCase word)
        else toLowerCase word), h) /\
  applyMildConsonantShift (lit "cfk") = lit "kphc" /\
  (forall c, charIn c (lit "cfk") = false -> applyMildConsonantShift [c] = [c]).
Proof.
  split; [|split; [reflexivity|split; [apply overallWeight_analyzeWord|]]].
  - unfold applyDefaultTransformation, transformationIntensity. cbv zeta.
    rewrite (@intensity_gate _ (roundDouble (3 # 10))),
            (@intensity_gate _ (roundDouble (6 # 10)))
      by (try apply overallWeight_double; reflexivity).
    rewrite (@Qgtb_comp _ (roundDouble (3 # 10) * 2) (roundDouble (6 # 10)))
      by reflexivity.
    rewrite (@Qgtb_comp _ (roundDouble (6 # 10) * 2) (roundDouble (12 # 10)))
      by reflexivity.
    destruct (Qgtb (calculateOverallSemanticWeight ety)
                (roundDouble (12 # 10))); reflexivity.
  - destruct (default_gates_on_decomposition word) as (G1 & G2 & G3).
    split; [|split; [|split]].
    + rewrite overallWeight_analyzeWord. apply Qle_bool_iff, G3.
    + unfold applyDefaultTransformation, transformationIntensity. cbv zeta.
      rewrite overallWeight_analyzeWord, G1, G2. reflexivity.
    + reflexivity.
    + intros c. destruct c as [[] [] [] [] [] [] [] []]; vm_compute;
        intros H; solve [reflexivity | discriminate H].
Qed.

(** C6, counterexample. The weight of "cat" is 1.0, above 0.6, and with an
    oracle that always picks the doubled variant vowel doubling would give
    "kaat"; the engine gives "kat" and does not read the oracle. The weight
    of "-ful" is 0.4, above 0.3, and the mild substitution would give
    "-phul"; the engine leaves "-ful" as it is. *)
Lemma default_style_thresholds_counterexample :
  let h := mkHost (fun _ => 1) 0 false in
  Qgtb (calculateOverallSemanticWeight (analyzeWord (lit "cat")))
       (roundDouble (6 # 10)) = true /\
  transformWord (lit "cat") (analyzeWord (lit "cat")) default h
    = (lit "kat", h) /\
  fst (applyVowelVariation (applyMildConsonantShift (lit "cat")) h)
    = lit "kaat" /\
  Qgtb (calculateOverallSemanticWeight (analyzeWord (lit "-ful")))
       (roundDouble (3 # 10)) = true /\
  transformWord (lit "-ful") (analyzeWord (lit "-ful")) default h
    = (lit "-ful", h) /\
  applyMildConsonantShift (lit "-ful") = lit "-phul".
Proof. cbv zeta. repeat split; vm_compute; reflexivity. Qed.

(** The rounding is seen in the gates. Two components of weights 0.4 and
    0.8 have the average 0.6 as rationals; in double precision their sum is
    1.2000000000000002 and the weight 0.6000000000000001, above the double
    0.6: the mild substitution is applied, and "cat" becomes "kat". *)
Example default_style_rounded_weight :
  let ety :=
    mkEtymology (lit "cat") None (analyzeSourcePhonetics (lit "cat"))
      (Some [mkComponent (lit "a") (4 # 10); mkComponent (lit "b") (8 # 10)]) in
  let h := mkHost (fun _ => 0) 0 false in
  (((4 # 10) + (8 # 10)) / 2 == 6 # 10)%Q /\
  (calculateOverallSemanticWeight ety
   == 5404319552844596 # 9007199254740992)%Q /\
  (roundDouble (6 # 10) == 5404319552844595 # 9007199254740992)%Q /\
  transformWord (lit "cat") ety default h = (lit "kat", h).
Proof. cbv zeta. repeat split; vm_compute; reflexivity. Qed.

(* ================================================================== *)
(** ** Pronunciation in plain characters (C9) *)
(* ================================================================== *)

(** C9, the code at the failing input: in "gingham" the digraph "ng" is
    matched, and its second character "g" is then matched again as the start
    of "gh": the code renders "ginggam". Consuming both characters of "ng"
    gives "gingham". On "thick" and "queen" the two agree. *)
Theorem ascii_pronunciation_overlap (h : Host) :
  skipNext h = false ->
  fst (generateAsciiPronunciation (lit "gingham") h) = lit "ginggam" /\
  renderDigraphs_spec (lit "gingham") false = lit "gingham" /\
  fst (generateAsciiPronunciation (lit "thick") h)
    = renderDigraphs_spec (lit "thick") false /\
  fst (generateAsciiPronunciation (lit "queen") h)
    = renderDigraphs_spec (lit "queen") false.
Proof.
  destruct h as [d c s]. simpl. intros ->.
  repeat split; vm_compute; reflexivity.
Qed.

(** C9 on the fresh mapper, whose flag is not set. *)
Lemma ascii_pronunciation_overlap_witness :
  skipNext (mkHost (fun _ => 0) 0 false) = false /\
  fst (generateAsciiPronunciation (lit "gingham") (mkHost (fun _ => 0) 0 false))
    = lit "ginggam".
Proof.
  split; [reflexivity|].
  apply (ascii_pronunciation_overlap (mkHost (fun _ => 0) 0 false)).
  reflexivity.
Defined.

(* ================================================================== *)
(** ** Insertion-ordered maps and grouping *)
(* ================================================================== *)

Section GroupingFacts.
Variables (K X V : Type) (keqb : K -> K -> bool).
Hypothesis keqb_eq : forall a b, keqb a b = true <-> a = b.
Variables (v0 : V) (u : X -> V -> V).

Lemma keqb_refl (k : K) : keqb k k = true.
Proof. apply keqb_eq. reflexivity. Qed.

Lemma keqb_neq (a b : K) : a <> b -> keqb a b = false.
Proof.
  intros N. destruct (keqb a b) eqn:E; [|reflexivity].
  apply keqb_eq in E. contradiction.
Qed.

Lemma existsb_keqb (k : K) (l : list K) :
  existsb (keqb k) l = true <-> In k l.
Proof.
  rewrite existsb_exists. split.
  - intros (x & Hx & E). apply keqb_eq in E. subst. exact Hx.
  - intros H. exists k. split; [exact H | apply keqb_refl].
Qed.

Lemma In_keqb_dec (k : K) (l : list K) : {In k l} + {~ In k l}.
Proof.
  destruct (existsb (keqb k) l) eqn:E.
  - left. apply existsb_keqb, E.
  - right. intros H. apply existsb_keqb in H. congruence.
Qed.

Lemma addKey_present (acc : list K) (k : K) :
  In k acc -> addKey keqb acc k = acc.
Proof.
  intros H. unfold addKey. apply existsb_keqb in H. rewrite H. reflexivity.
Qed.

Lemma addKey_absent (acc : list K) (k : K) :
  ~ In k acc -> addKey keqb acc k = acc ++ [k].
Proof.
  intros H. unfold addKey. destruct (existsb (keqb k) acc) eqn:E;
    [|reflexivity].
  apply existsb_keqb in E. contradiction.
Qed.

Lemma distinctKeys_snoc (l : list K) (k : K) :
  distinctKeys keqb (l ++ [k]) = addKey keqb (distinctKeys keqb l) k.
Proof. unfold distinctKeys. rewrite fold_left_app. reflexivity. Qed.

Lemma distinctKeys_In (l : list K) (k : K) :
  In k (distinctKeys keqb l) <-> In k l.
Proof.
  induction l as [|a l IH] using rev_ind.
  - simpl. tauto.
  - rewrite distinctKeys_snoc, in_app_iff. simpl.
    destruct (In_keqb_dec a (distinctKeys keqb l)) as [Ha|Ha].
    + rewrite (@addKey_present _ _ Ha). split.
      * intros H. left. apply IH, H.
      * intros [H|[<-|[]]]; [apply IH, H | exact Ha].
    + rewrite (@addKey_absent _ _ Ha), in_app_iff. simpl. rewrite IH. tauto.
Qed.

Lemma distinctKeys_NoDup (l : list K) : NoDup (distinctKeys keqb l).
Proof.
  induction l as [|a l IH] using rev_ind.
  - constructor.
  - rewrite distinctKeys_snoc.
    destruct (In_keqb_dec a (distinctKeys keqb l)) as [Ha|Ha].
    + rewrite (@addKey_present _ _ Ha). exact IH.
    + rewrite (@addKey_absent _ _ Ha). apply NoDup_app; auto.
      * repeat constructor. intros [].
      * intros x Hx [<-|[]]. contradiction.
Qed.

(** Maps whose values are a function of their keys. *)
Lemma get_tabulate (f : K -> V) (ks : list K) (k : K) :
  JMap.get keqb k (map (fun k => (k, f k)) ks)
  = if existsb (keqb k) ks then Some (f k) else None.
Proof.
  induction ks as [|a ks IH]; simpl; [reflexivity|].
  destruct (keqb k a) eqn:E; simpl; [|exact IH].
  apply keqb_eq in E. subst. reflexivity.
Qed.

Lemma set_tabulate_absent (f : K -> V) (ks : list K) (k : K) (v : V) :
  ~ In k ks ->
  JMap.set keqb k v (map (fun k => (k, f k)) ks)
  = map (fun k => (k, f k)) ks ++ [(k, v)].
Proof.
  induction ks as [|a ks IH]; simpl; intros N; [reflexivity|].
  rewrite keqb_neq by (intros ->; apply N; left; reflexivity).
  rewrite IH by (intros H; apply N; right; exact H). reflexivity.
Qed.

Lemma set_tabulate_present (f : K -> V) (ks : list K) (k : K) (v : V) :
  NoDup ks -> In k ks ->
  JMap.set keqb k v (map (fun k => (k, f k)) ks)
  = map (fun a => (a, if keqb k a then v else f a)) ks.
Proof.
  induction 1 as [|a ks Na Nd IH]; simpl; intros H; [destruct H|].
  destruct (keqb k a) eqn:E.
  - apply keqb_eq in E. subst a. f_equal.
    apply map_ext_in. intros b Hb.
    rewrite keqb_neq by (intros ->; contradiction). reflexivity.
  - destruct H as [->|H]; [rewrite keqb_refl in E; discriminate|].
    rewrite IH by exact H. reflexivity.
Qed.

Lemma payload_snoc (k : K) (l : list (K * X)) (o : K * X) :
  payload keqb k (l ++ [o])
  = payload keqb k l ++ (if keqb (fst o) k then [snd o] else []).
Proof.
  unfold payload. rewrite filter_app, map_app. simpl.
  destruct (keqb (fst o) k); reflexivity.
Qed.

Lemma payload_absent (k : K) (l : list (K * X)) :
  ~ In k (map fst l) -> payload keqb k l = [].
Proof.
  unfold payload. induction l as [|o l IH]; simpl; intros N; [reflexivity|].
  rewrite keqb_neq by (intros E; apply N; left; exact E).
  apply IH. intros H. apply N. right. exact H.
Qed.

Lemma accumulate_snoc (xs : list X) (x : X) :
  accumulate v0 u (xs ++ [x]) = u x (accumulate v0 u xs).
Proof. unfold accumulate. rewrite fold_left_app. reflexivity. Qed.

(** The loop builds the grouped table: the distinct keys in order of first
    occurrence, each with the accumulation of its items. *)
Theorem groupFold_grouped (l : list (K * X)) :
  groupFold keqb v0 u l = grouped keqb v0 u l.
Proof.
  induction l as [|o l IH] using rev_ind; [reflexivity|].
  unfold groupFold in *. rewrite fold_left_app. simpl. rewrite IH.
  unfold grouped, upd, getOr. rewrite map_app. simpl.
  rewrite distinctKeys_snoc, get_tabulate.
  set (ks := distinctKeys keqb (map fst l)).
  destruct (In_keqb_dec (fst o) ks) as [Hin|Hout].
  - rewrite (@addKey_present _ _ Hin).
    rewrite (proj2 (existsb_keqb _ _) Hin).
    rewrite (@set_tabulate_present _ ks _ _ (distinctKeys_NoDup _) Hin).
    apply map_ext_in. intros a _. rewrite payload_snoc.
    destruct (keqb (fst o) a) eqn:E.
    + apply keqb_eq in E. subst a. rewrite accumulate_snoc. reflexivity.
    + rewrite app_nil_r. reflexivity.
  - rewrite (@addKey_absent _ _ Hout).
    destruct (existsb (keqb (fst o)) ks) eqn:E;
      [apply existsb_keqb in E; contradiction|].
    rewrite set_tabulate_absent by exact Hout.
    rewrite map_app. simpl. f_equal.
    + apply map_ext_in. intros a Ha. rewrite payload_snoc.
      rewrite keqb_neq by (intros <-; contradiction).
      rewrite app_nil_r. reflexivity.
    + rewrite payload_snoc, keqb_refl.
      rewrite payload_absent; [reflexivity|].
      intros H. apply Hout. apply distinctKeys_In. exact H.
Qed.

Lemma fold_upd_app (l1 l2 : list (K * X)) (T : JMap.t K V) :
  fold_left (upd keqb v0 u) (l1 ++ l2) T
  = fold_left (upd keqb v0 u) l2 (fold_left (upd keqb v0 u) l1 T).
Proof. apply fold_left_app. Qed.

Lemma get_set_eq (k : K) (v : V) (T : JMap.t K V) :
  JMap.get keqb k (JMap.set keqb k v T) = Some v.
Proof.
  induction T as [|[a w] T IH]; simpl.
  - rewrite keqb_refl. reflexivity.
  - destruct (keqb k a) eqn:E; simpl; rewrite ?keqb_refl, ?E; auto.
Qed.

Lemma get_set_neq (k k' : K) (v : V) (T : JMap.t K V) :
  k' <> k -> JMap.get keqb k' (JMap.set keqb k v T) = JMap.get keqb k' T.
Proof.
  intros N. induction T as [|[a w] T IH]; simpl.
  - rewrite keqb_neq by exact N. reflexivity.
  - destruct (keqb k a) eqn:E; simpl.
    + apply keqb_eq in E. subst a. rewrite keqb_neq by exact N. reflexivity.
    + rewrite IH. reflexivity.
Qed.

Lemma set_set_eq (k : K) (v v' : V) (T : JMap.t K V) :
  JMap.set keqb k v (JMap.set keqb k v' T) = JMap.set keqb k v T.
Proof.
  induction T as [|[a w] T IH]; simpl.
  - rewrite keqb_refl. reflexivity.
  - destruct (keqb k a) eqn:E; simpl; rewrite ?keqb_refl, ?E; auto.
    rewrite IH. reflexivity.
Qed.

Lemma size_set_absent (k : K) (v : V) (T : JMap.t K V) :
  JMap.has keqb k T = false ->
  JMap.size (JMap.set keqb k v T) = JMap.size T + 1.
Proof.
  unfold JMap.has, JMap.size.
  induction T as [|[a w] T IH]; simpl; [reflexivity|].
  destruct (keqb k a) eqn:E; [discriminate|].
  intros H. simpl. rewrite IH by exact H. reflexivity.
Qed.

Lemma size_set_present (k : K) (v : V) (T : JMap.t K V) :
  JMap.has keqb k T = true ->
  JMap.size (JMap.set keqb k v T) = JMap.size T.
Proof.
  unfold JMap.has, JMap.size.
  induction T as [|[a w] T IH]; simpl; [discriminate|].
  destruct (keqb k a) eqn:E; [reflexivity|].
  intros H. simpl. rewrite IH by exact H. reflexivity.
Qed.

Lemma has_set (k k' : K) (v : V) (T : JMap.t K V) :
  JMap.has keqb k' (JMap.set keqb k v T)
  = keqb k' k || JMap.has keqb k' T.
Proof.
  unfold JMap.has. destruct (keqb k' k) eqn:E; simpl.
  - apply keqb_eq in E. subst. rewrite get_set_eq. reflexivity.
  - rewrite get_set_neq; [reflexivity|].
    intros ->. rewrite keqb_refl in E. discriminate.
Qed.
End GroupingFacts.

(* ================================================================== *)
(** ** Consistency Analyzer (C2) *)
(* ================================================================== *)

Lemma ascii_eqb_eq (a b : ascii) : Ascii.eqb a b = true <-> a = b.
Proof. apply Ascii.eqb_eq. Qed.

Lemma str_eqb_sym (a b : str) : str_eqb a b = str_eqb b a.
Proof.
  destruct (str_eqb a b) eqn:E1, (str_eqb b a) eqn:E2; try reflexivity.
  - apply str_eqb_eq in E1. subst. rewrite str_eqb_refl in E2. discriminate.
  - apply str_eqb_eq in E2. subst. rewrite str_eqb_refl in E1. discriminate.
Qed.

Lemma bump_upd (s : str) (m : JMap.t str nat) :
  bump s m = upd str_eqb 0 (fun (_ : unit) n => n + 1) m (s, tt).
Proof. reflexivity. Qed.

Lemma recordTransform_upd (c : ascii) (s : str) (T : TransformTable) :
  recordTransform c s T = upd Ascii.eqb (JMap.empty str nat) bumpUpd T (c, s).
Proof.
  unfold recordTransform, upd, getOr, JMap.has, bumpUpd. simpl.
  destruct (JMap.get Ascii.eqb c T) as [inner|] eqn:G.
  - rewrite G. reflexivity.
  - rewrite (get_set_eq _ ascii_eqb_eq).
    apply (set_set_eq _ ascii_eqb_eq).
Qed.

Lemma innerTable_groupFold (ss : list str) :
  innerTable ss
  = groupFold str_eqb 0 (fun (_ : unit) n => n + 1) (map (fun s => (s, tt)) ss).
Proof.
  unfold innerTable, accumulate, groupFold, JMap.empty.
  generalize (@nil (str * nat)) as m.
  induction ss as [|s ss IH]; intros m; simpl; [reflexivity|].
  rewrite IH. reflexivity.
Qed.

Lemma accumulate_count (xs : list unit) :
  accumulate 0 (fun (_ : unit) n => n + 1) xs = length xs.
Proof.
  induction xs as [|x xs IH] using rev_ind; [reflexivity|].
  rewrite accumulate_snoc, IH, length_app. reflexivity.
Qed.

Lemma payload_units (t : str) (ss : list str) :
  length (payload str_eqb t (map (fun s => (s, tt)) ss)) = occurrences t ss.
Proof.
  unfold payload, occurrences. rewrite length_map.
  induction ss as [|s ss IH]; simpl; [reflexivity|].
  rewrite (str_eqb_sym t s). destruct (str_eqb s t); simpl; rewrite IH;
    reflexivity.
Qed.

Lemma innerTable_spec (ss : list str) :
  innerTable ss
  = map (fun t => (t, occurrences t ss)) (distinctKeys str_eqb ss).
Proof.
  rewrite innerTable_groupFold, (groupFold_grouped _ str_eqb_eq).
  unfold grouped. rewrite map_map. simpl. rewrite map_id.
  apply map_ext. intros t. rewrite accumulate_count, payload_units.
  reflexivity.
Qed.

Lemma fold_left_max (l : list nat) (a : nat) :
  fold_left Nat.max l a = Nat.max a (list_max l).
Proof.
  revert a. induction l as [|x l IH]; intros a; simpl.
  - rewrite Nat.max_0_r. reflexivity.
  - rewrite IH. rewrite Nat.max_assoc. reflexivity.
Qed.

Lemma fold_left_add (l : list nat) (a : nat) :
  fold_left Nat.add l a = a + list_sum l.
Proof.
  revert a. induction l as [|x l IH]; intros a; simpl; [lia|].
  rewrite IH. lia.
Qed.

Lemma list_max_same_elements (f : str -> nat) (l1 l2 : list str) :
  (forall x, In x l1 <-> In x l2) ->
  list_max (map f l1) = list_max (map f l2).
Proof.
  intros H.
  assert (G : forall a b : list str, (forall x, In x a -> In x b) ->
                list_max (map f a) <= list_max (map f b)).
  { intros a b Hab. apply list_max_le. apply Forall_forall.
    intros n Hn. apply in_map_iff in Hn. destruct Hn as (x & <- & Hx).
    assert (L : list_max (map f b) <= list_max (map f b)) by lia.
    apply list_max_le in L. rewrite Forall_forall in L.
    apply L. apply in_map. apply Hab, Hx. }
  apply Nat.le_antisymm; apply G; intros x; apply H.
Qed.

Lemma sum_values_bump (s : str) (m : JMap.t str nat) :
  list_sum (JMap.values (bump s m)) = list_sum (JMap.values m) + 1.
Proof.
  unfold bump, JMap.values.
  induction m as [|[k n] m IH]; simpl; [reflexivity|].
  destruct (str_eqb s k) eqn:E; simpl.
  - lia.
  - assert (B : JMap.set str_eqb s
                  (match JMap.get str_eqb s m with Some n0 => n0 | None => 0 end + 1) m
                = bump s m) by reflexivity.
    unfold bump in IH. rewrite IH. lia.
Qed.

Lemma sum_values_innerTable (ss : list str) :
  list_sum (JMap.values (innerTable ss)) = length ss.
Proof.
  unfold innerTable.
  induction ss as [|s ss IH] using rev_ind; [reflexivity|].
  rewrite accumulate_snoc. unfold bumpUpd at 1.
  rewrite sum_values_bump, IH, length_app. reflexivity.
Qed.

Lemma consistencyOf_innerTable (ss : list str) :
  consistencyOf (innerTable ss) = percentage ss.
Proof.
  unfold consistencyOf, percentage.
  rewrite fold_left_add, sum_values_innerTable.
  rewrite fold_left_max. simpl Nat.max.
  rewrite innerTable_spec. unfold JMap.values. rewrite map_map. simpl.
  unfold mostFrequentCount.
  rewrite (list_max_same_elements (fun t => occurrences t ss)
             (distinctKeys str_eqb ss) ss).
  - reflexivity.
  - intros x. apply (distinctKeys_In _ str_eqb_eq).
Qed.

Lemma analyzeChar_observation (e s : str) (vt cs : TransformTable) (i : nat) :
  analyzeChar e s (vt, cs) i
  = (recordAll (filter (ofClass vowels5) (observationAt e s i)) vt,
     recordAll (filter (ofClass consonants21) (observationAt e s i)) cs).
Proof.
  unfold analyzeChar, observationAt, recordAll, ofClass.
  destruct (nth_error e i) as [c|]; [|reflexivity].
  cbn [filter fst].
  destruct (charIn (toLowerChar c) vowels5),
           (charIn (toLowerChar c) consonants21);
    cbn [fold_left]; rewrite ?recordTransform_upd; reflexivity.
Qed.

Lemma analyzeEntry_observations (kv : str * WordEntry)
  (vt cs : TransformTable) :
  analyzeEntry (vt, cs) kv
  = (recordAll (filter (ofClass vowels5) (entryObservations kv)) vt,
     recordAll (filter (ofClass consonants21) (entryObservations kv)) cs).
Proof.
  destruct kv as [e entry]. unfold analyzeEntry, entryObservations.
  cbn [fst snd]. generalize (seq 0 (length e)) as idxs.
  intros idxs. revert vt cs.
  induction idxs as [|i idxs IH]; intros vt cs; [reflexivity|].
  cbn [fold_left flat_map]. rewrite analyzeChar_observation, IH.
  rewrite !filter_app. unfold recordAll. rewrite !fold_left_app.
  reflexivity.
Qed.

Lemma analyze_observations (v : Vocabulary) (vt cs : TransformTable) :
  fold_left analyzeEntry v (vt, cs)
  = (recordAll (filter (ofClass vowels5) (observations v)) vt,
     recordAll (filter (ofClass consonants21) (observations v)) cs).
Proof.
  unfold observations. revert vt cs.
  induction v as [|kv v IH]; intros vt cs; [reflexivity|].
  cbn [fold_left flat_map]. rewrite analyzeEntry_observations, IH.
  rewrite !filter_app. unfold recordAll. rewrite !fold_left_app.
  reflexivity.
Qed.

Lemma payload_ofClass (alphabet : str) (c : ascii) (obs : list Observation) :
  charIn c alphabet = true ->
  payload Ascii.eqb c (filter (ofClass alphabet) obs) = payload Ascii.eqb c obs.
Proof.
  intros Hc. unfold payload. f_equal.
  induction obs as [|o obs IH]; simpl; [reflexivity|].
  unfold ofClass at 1.
  destruct (Ascii.eqb (fst o) c) eqn:E.
  - apply Ascii.eqb_eq in E. rewrite E, Hc. simpl.
    rewrite E, Ascii.eqb_refl, IH. reflexivity.
  - destruct (charIn (fst o) alphabet); simpl; rewrite ?E; exact IH.
Qed.

(** The table of one class of source characters after the whole
    vocabulary: the distinct characters of the class in order of first
    observation, each with the counts of its constructed characters. *)
Lemma recordAll_spec (alphabet : str) (obs : list Observation) :
  recordAll (filter (ofClass alphabet) obs) (JMap.empty ascii (JMap.t str nat))
  = map (fun c => (c, innerTable (targetsOf c obs))) (observedOf alphabet obs).
Proof.
  unfold recordAll.
  change (fold_left (upd Ascii.eqb (JMap.empty str nat) bumpUpd)
            (filter (ofClass alphabet) obs) (JMap.empty ascii (JMap.t str nat)))
    with (groupFold Ascii.eqb (JMap.empty str nat) bumpUpd
            (filter (ofClass alphabet) obs)).
  rewrite (groupFold_grouped _ ascii_eqb_eq). unfold grouped, observedOf.
  assert (E : map fst (filter (ofClass alphabet) obs)
              = filter (fun c => charIn c alphabet) (map fst obs)).
  { rewrite filter_map_swap. reflexivity. }
  rewrite E. apply map_ext_in. intros c Hc.
  apply (distinctKeys_In _ ascii_eqb_eq), filter_In in Hc.
  unfold innerTable, targetsOf. rewrite payload_ofClass by apply Hc.
  reflexivity.
Qed.

Lemma scoreLoop_spec (T : TransformTable) (a : Q) (f : nat) :
  scoreLoop T (a, f)
  = (fold_left fadd (map (fun kv => consistencyOf (snd kv)) T) a,
     f + length T).
Proof.
  unfold scoreLoop. revert a f.
  induction T as [|[k tr] T IH]; intros a f; cbn [fold_left map length snd].
  - rewrite Nat.add_0_r. reflexivity.
  - rewrite IH. f_equal. lia.
Qed.

Lemma Qnat_le (m n : nat) : m <= n -> (Qnat m <= Qnat n)%Q.
Proof. intros H. unfold Qnat. rewrite <- Zle_Qle. lia. Qed.

Lemma Qnat_pos (n : nat) : 0 < n -> (0 < Qnat n)%Q.
Proof.
  intros H. unfold Qnat. change 0%Q with (inject_Z 0). rewrite <- Zlt_Qlt. lia.
Qed.

Lemma roundDouble_Qnat (n : nat) :
  (Z.of_nat n < 2 ^ 53)%Z -> (roundDouble (Qnat n) == Qnat n)%Q.
Proof.
  intros H. unfold Qnat. apply roundDouble_int. split; [lia | exact H].
Qed.

(** A quotient of a count by a larger one, as a percentage, is between 0 and
    100 after the two roundings. *)
Lemma ratio_bounds (m n : nat) :
  m <= n -> (0 <= fmul (fdiv (Qnat m) (Qnat n)) 100 <= 100)%Q.
Proof.
  intros H.
  assert (R : (0 <= Qnat m / Qnat n <= 1)%Q).
  { destruct n as [|n].
    - assert (m = 0) by lia. subst. split; vm_compute; discriminate.
    - assert (P : (0 < Qnat (S n))%Q) by (apply Qnat_pos; lia). split.
      + apply Qle_shift_div_l; [exact P|].
        rewrite Qmult_0_l. apply (Qnat_le (m := 0)). lia.
      + apply Qle_shift_div_r; [exact P|].
        rewrite Qmult_1_l. apply Qnat_le, H. }
  destruct R as [R0 R1].
  assert (F : (0 <= fdiv (Qnat m) (Qnat n) <= 1)%Q).
  { unfold fdiv. split.
    - apply roundDouble_nonneg, R0.
    - apply (Qle_trans _ (roundDouble 1)); [apply roundDouble_le, R1|].
      vm_compute. discriminate. }
  destruct F as [F0 F1]. unfold fmul. split.
  - apply roundDouble_nonneg. apply Qmult_le_0_compat; [exact F0 | discriminate].
  - apply (Qle_trans _ (roundDouble 100)); [|vm_compute; discriminate].
    apply roundDouble_le.
    setoid_replace 100%Q with (1 * 100)%Q at 2 by ring.
    apply Qmult_le_compat_r; [exact F1 | discriminate].
Qed.

Lemma occurrences_le (t : str) (ts : list str) : occurrences t ts <= length ts.
Proof.
  unfold occurrences. induction ts as [|s ts IH]; simpl; [lia|].
  destruct (str_eqb t s); simpl; lia.
Qed.

Lemma percentage_bounds (ts : list str) : (0 <= percentage ts <= 100)%Q.
Proof.
  unfold percentage. apply ratio_bounds.
  unfold mostFrequentCount. apply list_max_le. apply Forall_forall.
  intros n Hn. apply in_map_iff in Hn. destruct Hn as (t & <- & _).
  apply occurrences_le.
Qed.

(** A sum of [n] percentages taken from the left is between 0 and [100 n]
    after every rounding, as long as [100 n] is a double. *)
Lemma fsum_bounds (l : list Q) :
  forall (a : Q) (k : nat),
    Forall (fun q => 0 <= q <= 100)%Q l ->
    (0 <= a <= 100 * Qnat k)%Q -> k + length l <= 1000 ->
    (0 <= fold_left fadd l a <= 100 * Qnat (k + length l))%Q.
Proof.
  induction l as [|q l IH]; intros a k Hl Ha Hk; cbn [fold_left length].
  - rewrite Nat.add_0_r. exact Ha.
  - inversion Hl as [|x y [Hq0 Hq1] Hl']; subst. cbn [length] in Hk.
    replace (k + S (length l)) with (S k + length l) by lia.
    apply IH; [exact Hl' | | lia].
    destruct Ha as [Ha0 Ha1]. unfold fadd. split.
    + apply roundDouble_nonneg. lra.
    + assert (E : (100 * Qnat (S k) == Qnat (100 * S k))%Q).
      { unfold Qnat. rewrite Nat2Z.inj_mul, inject_Z_mult. reflexivity. }
      rewrite E, <- roundDouble_Qnat
        by (change (2 ^ 53)%Z with 9007199254740992%Z; lia).
      apply roundDouble_le.
      rewrite <- E. unfold Qnat in *.
      rewrite Nat2Z.inj_succ, <- Z.add_1_r, inject_Z_plus. 
      change (inject_Z 1) with 1%Q. lra.
Qed.

(** No more source characters are observed than the alphabet has. *)
Lemma observedOf_length (alphabet : str) (obs : list Observation) :
  length (observedOf alphabet obs) <= length alphabet.
Proof.
  unfold observedOf. apply NoDup_incl_length.
  - apply (distinctKeys_NoDup _ Ascii.eqb_eq).
  - intros c Hc. apply (proj1 (distinctKeys_In _ Ascii.eqb_eq _ c)) in Hc.
    apply filter_In in Hc. destruct Hc as [_ Hc]. unfold charIn in Hc.
    apply existsb_exists in Hc. destruct Hc as (x & Hx & E).
    apply Ascii.eqb_eq in E. subst. exact Hx.
Qed.

Lemma observedChars_length (obs : list Observation) :
  length (observedChars obs) <= 26.
Proof.
  unfold observedChars. rewrite length_app.
  pose proof (observedOf_length vowels5 obs) as V.
  pose proof (observedOf_length consonants21 obs) as C.
  change (length vowels5) with 5 in V.
  change (length consonants21) with 21 in C. lia.
Qed.

Lemma meanPercentage_bounds (obs : list Observation) :
  (0 <= meanPercentage obs <= 100)%Q.
Proof.
  unfold meanPercentage. pose proof (observedChars_length obs) as L26.
  destruct (observedChars obs) as [|c cs]; [split; discriminate|].
  set (l := map (fun c0 => percentage (targetsOf c0 obs)) (c :: cs)).
  assert (L : length l = length (c :: cs)) by (unfold l; apply length_map).
  assert (B : (0 <= fsum l <= 100 * Qnat (0 + length l))%Q).
  { apply fsum_bounds.
    - apply Forall_forall. intros q Hq.
      apply in_map_iff in Hq. destruct Hq as (x & <- & _).
      apply percentage_bounds.
    - split; vm_compute; discriminate.
    - rewrite L. lia. }
  rewrite L in B. cbn [Nat.add] in B.
  assert (P : (0 < Qnat (length (c :: cs)))%Q) by (apply Qnat_pos; simpl; lia).
  destruct B as [B0 B1]. unfold fdiv. split.
  - apply roundDouble_nonneg.
    apply Qle_shift_div_l; [exact P|]. rewrite Qmult_0_l. exact B0.
  - apply (Qle_trans _ (roundDouble 100)); [|vm_compute; discriminate].
    apply roundDouble_le. apply Qle_shift_div_r; [exact P | exact B1].
Qed.

Lemma consistencyScore_mean (lang : Language) :
  consistencyScore (analyzePhoneticPatterns lang)
  = meanPercentage (observations (vocabulary lang)).
Proof.
  unfold analyzePhoneticPatterns.
  rewrite analyze_observations, !recordAll_spec.
  set (obs := observations (vocabulary lang)).
  cbn [consistencyScore]. unfold calculateConsistencyScore.
  set (vt := map (fun c => (c, innerTable (targetsOf c obs)))
                 (observedOf vowels5 obs)).
  set (cs := map (fun c => (c, innerTable (targetsOf c obs)))
                 (observedOf consonants21 obs)).
  rewrite !scoreLoop_spec, <- fold_left_app, <- map_app.
  assert (T : map (fun kv => consistencyOf (snd kv)) (vt ++ cs)
              = map (fun c => percentage (targetsOf c obs))
                    (observedChars obs)).
  { unfold vt, cs, observedChars. rewrite <- map_app, map_map. cbn [snd].
    apply map_ext. intros c. apply consistencyOf_innerTable. }
  assert (Len : 0 + length vt + length cs = length (observedChars obs)).
  { unfold vt, cs, observedChars. rewrite length_app, !length_map.
    reflexivity. }
  rewrite T, Len. unfold meanPercentage, fsum.
  destruct (observedChars obs) as [|c rest]; reflexivity.
Qed.

(** C2, as it holds: for every vocabulary the consistency score lies between
    0 and 100, and it is 0 for the empty vocabulary. It is the arithmetic
    mean, over the distinct source vowels and consonants observed, of the
    percentage (count of the most frequent constructed character / number
    of observations) as double-precision arithmetic gives it: each
    quotient and each product is rounded, the percentages are added one by
    one, vowels first, each sum rounded, and the quotient by their number
    is rounded. *)
Theorem consistencyScore_spec (lang : Language) :
  (0 <= consistencyScore (analyzePhoneticPatterns lang) <= 100)%Q /\
  consistencyScore (analyzePhoneticPatterns lang)
    = meanPercentage (observations (vocabulary lang)) /\
  consistencyScore
    (analyzePhoneticPatterns
       (mkLanguage (config lang) (JMap.empty str WordEntry)
          (etymologicalMaps lang))) = 0%Q.
Proof.
  split; [|split].
  - rewrite consistencyScore_mean. apply meanPercentage_bounds.
  - apply consistencyScore_mean.
  - reflexivity.
Qed.

(** C2, counterexample. In the language of "fab", constructed as "phab",
    and "ab", constructed as "ab", the source vowel a is observed twice,
    against h and against a, the consonant f once, against p, and the
    consonant b twice, against a and against b: the percentages are 50, 100
    and 50, and their arithmetic mean is 200/3. The score is the double
    66.66666666666667, which is 4691249611844267 / 2^46 and not 200/3: no
    double is. *)
Lemma consistencyScore_not_the_mean :
  map (fun kv => sigment (snd kv)) (vocabulary demoShifted)
    = [lit "phab"; lit "ab"] /\
  observedChars (observations (vocabulary demoShifted))
    = ["a"%char; "f"%char; "b"%char] /\
  map (fun c => exactPercentage
                  (targetsOf c (observations (vocabulary demoShifted))))
      ["a"%char; "f"%char; "b"%char]
    = [(100 # 2)%Q; (100 # 1)%Q; (100 # 2)%Q] /\
  (exactMean (observations (vocabulary demoShifted)) == 200 # 3)%Q /\
  (consistencyScore (analyzePhoneticPatterns demoShifted)
   == 4691249611844267 # 70368744177664)%Q /\
  ~ (consistencyScore (analyzePhoneticPatterns demoShifted)
     == exactMean (observations (vocabulary demoShifted)))%Q.
Proof.
  repeat split; try (vm_compute; reflexivity).
  vm_compute. discriminate.
Qed.

(* ================================================================== *)
(** ** Reconstruction Engine (C4) *)
(* ================================================================== *)

Lemma processWord_vocabulary (lang : Language) (w : str) (h : Host) :
  exists e,
    english e = w /\
    vocabulary (fst (processWord lang w h))
      = JMap.set str_eqb w e (vocabulary lang) /\
    config (fst (processWord lang w h)) = config lang.
Proof.
  unfold processWord, bind, ret.
  destruct (mapWordToSigment w (analyzeWord w) (style (config lang))
              (asciiPronunciation (config lang)) h) as [m h1].
  simpl. eexists. split; [|split]; [|reflexivity|reflexivity]. reflexivity.
Qed.



(** The loop of [reconstructDictionary] runs [processWord] over the keys and
    counts its turns. *)
Lemma reconstruct_loop (orig : Vocabulary) (ks : list str) (temp : Language)
  (n : nat) (chs : list Change) (h : Host) :
  let r := foldM (reconstructStep orig) ks (temp, n, chs) h in
  fst (fst (fst r)) = fst (foldM processWord ks temp h) /\
  snd (fst (fst r)) = n + length ks /\
  snd r = snd (foldM processWord ks temp h).
Proof.
  revert temp n chs h. induction ks as [|k ks IH]; intros temp n chs h.
  - simpl. repeat split. lia.
  - cbv zeta. cbn [foldM]. unfold bind.
    destruct (processWord temp k h) as [temp1 h1] eqn:PW.
    assert (E : exists c, reconstructStep orig (temp, n, chs) k h
                          = ((temp1, n + 1, c), h1)).
    { unfold reconstructStep, bind, ret. rewrite PW. eexists. reflexivity. }
    destruct E as [c E]. rewrite E.
    destruct (IH temp1 (n + 1) c h1) as (I1 & I2 & I3).
    cbv zeta in I1, I2, I3. rewrite I1, I2, I3. simpl length.
    repeat split. lia.
Qed.








(* ================================================================== *)
(** ** Batch Orchestrator: runs without signals *)
(* ================================================================== *)

Lemma run_add (env : Env) (n m : nat) (b : Batch) :
  run env (n + m) b = run env n (run env m b).
Proof. induction n as [|n IH]; simpl; [reflexivity|]. rewrite IH. reflexivity. Qed.

Lemma step_quiet (b : Batch) : step quiet b = tick (resume b).
Proof. reflexivity. Qed.

Lemma tick_afterWord (i : nat) (b : Batch) :
  tick (afterWord i b) = afterWord i (tick b).
Proof.
  unfold afterWord. cbv zeta.
  change (needsSave (withState (setIndex (i + 1) (batchState (tick b))) (tick b)))
    with (needsSave (withState (setIndex (i + 1) (batchState b)) b)).
  destruct (needsSave (withState (setIndex (i + 1) (batchState b)) b));
    reflexivity.
Qed.

Lemma tick_startWord (i : nat) (b : Batch) :
  tick (startWord i b) = startWord i (tick b).
Proof.
  unfold startWord. cbn [wordList tick batchState].
  destruct (nth_error (wordList b) i) as [word|]; [|apply tick_afterWord].
  destruct (trim word); [apply tick_afterWord|].
  destruct (setHas _ _); [apply tick_afterWord | reflexivity].
Qed.

Lemma tick_loopHead (i : nat) (b : Batch) :
  tick (loopHead i b) = loopHead i (tick b).
Proof.
  unfold loopHead. cbn [wordList tick batchState].
  destruct (i <? length (wordList b)); [|reflexivity].
  destruct (shouldStop (batchState b)); [reflexivity|].
  destruct (isPaused (batchState b)); [reflexivity|].
  apply tick_startWord.
Qed.

Lemma resume_Delay (b : Batch) (i : nat) :
  pc b = Delay i -> resume b = loopHead (i + 1) b.
Proof. intros H. unfold resume. rewrite H. reflexivity. Qed.

(** After a word, a run without signals saves if it is time to, waits, and
    is back at the head of the loop for the next index. *)
Lemma quiet_afterWord (i : nat) (b : Batch) :
  exists n b2,
    run quiet n (afterWord i b) = loopHead (i + 1) b2 /\
    progressOf b2 = progressOf b /\
    wordList b2 = wordList b /\
    isPaused (batchState b2) = isPaused (batchState b) /\
    shouldStop (batchState b2) = shouldStop (batchState b).
Proof.
  unfold afterWord. cbv zeta.
  set (b1 := withState (setIndex (i + 1) (batchState b)) b).
  destruct (needsSave b1).
  - exists 3,
      (tick (tick (resume (tick (resume (withPc (Saving i) b1)))))). split.
    + cbn [run]. rewrite !step_quiet.
      rewrite (resume_Delay
                 (tick (resume (tick (resume (withPc (Saving i) b1)))))
                 (i := i)) by reflexivity.
      apply tick_loopHead.
    + repeat split.
  - exists 1, (tick (withPc (Delay i) b1)). split.
    + cbn [run]. rewrite step_quiet.
      rewrite (resume_Delay (withPc (Delay i) b1) (i := i)) by reflexivity.
      apply tick_loopHead.
    + repeat split.
Qed.

Lemma skipn_cons_nth (words : list str) (i : nat) (w : str) (ws : list str) :
  skipn i words = w :: ws ->
  nth_error words i = Some w /\ skipn (i + 1) words = ws /\ i < length words.
Proof.
  revert i. induction words as [|a words IH]; intros i H.
  - destruct i; discriminate.
  - destruct i as [|i]; simpl in *.
    + injection H as -> ->. repeat split. lia.
    + destruct (IH i H) as (A & B & C). repeat split; auto. lia.
Qed.

Lemma skipn_nil_length (words : list str) (i : nat) :
  skipn i words = [] -> (i <? length words) = false.
Proof.
  revert i. induction words as [|a words IH]; intros i H.
  - destruct i; reflexivity.
  - destruct i as [|i]; [discriminate|]. simpl in H. apply (IH i H).
Qed.

(** A run that no signal disturbs goes through the rest of the word list and
    completes, having built what [quietBatch] describes. *)
Lemma quiet_loop (ws : list str) :
  forall (i : nat) (b : Batch),
    skipn i (wordList b) = ws -> flagsClear b ->
    exists n b',
      run quiet n (loopHead i b) = b' /\
      pc b' = Finished (Completed (processed b')) /\
      progressOf b' = quietBatch ws (progressOf b).
Proof.
  induction ws as [|w ws IH]; intros i b Hs [Hp Hst].
  - exists 1. eexists. split; [reflexivity|].
    unfold loopHead. rewrite (skipn_nil_length _ _ Hs).
    cbn. split; reflexivity.
  - destruct (skipn_cons_nth _ _ Hs) as (Hn & Hs' & Hlt).
    assert (Skip : forall b0, progressOf b0 = progressOf b ->
              wordList b0 = wordList b -> flagsClear b0 ->
              quietWord (progressOf b) w = progressOf b ->
              exists n b', run quiet n (afterWord i b0) = b' /\
                pc b' = Finished (Completed (processed b')) /\
                progressOf b' = quietBatch (w :: ws) (progressOf b)).
    { intros b0 Hprog Hwl [Hp0 Hst0] Hq.
      destruct (quiet_afterWord i b0) as (n1 & b2 & R1 & P2 & W2 & F1 & F2).
      destruct (IH (i + 1) b2) as (n2 & b' & R2 & Pc' & Pr').
      - rewrite W2, Hwl. exact Hs'.
      - split; congruence.
      - exists (n2 + n1), b'. split; [|split].
        + rewrite run_add, R1. exact R2.
        + exact Pc'.
        + rewrite Pr', P2, Hprog. cbn [quietBatch fold_left].
          rewrite Hq. reflexivity. }
    unfold loopHead. apply Nat.ltb_lt in Hlt. rewrite Hlt, Hst, Hp.
    unfold startWord. rewrite Hn.
    destruct (trim w) as [|c r] eqn:T.
    + apply Skip; auto; [split; auto|].
      unfold quietWord, progressOf. rewrite T. reflexivity.
    + destruct (setHas (c :: r) (processedWords (batchState b))) eqn:Hh.
      * apply Skip; auto; [split; auto|].
        unfold quietWord, progressOf. rewrite T, Hh. reflexivity.
      * destruct (processWord (language b) (c :: r) (host b))
          as [lang1 h1] eqn:PW.
        set (bX := mkBatch (InFlight i (c :: r))
           (mkBatchState (isPaused (batchState b)) (shouldStop (batchState b))
              (currentIndex (batchState b)) (totalWords (batchState b))
              (setAdd (c :: r) (processedWords (batchState b))))
           lang1 (wordList b) (saveInterval b)
           (processed b + 1) (savedAt b) h1 (saved b) (clock b)).
        assert (R0 : run quiet 1 (withPc (InFlight i (c :: r)) b)
                     = afterWord i (tick bX)).
        { cbn [run]. rewrite step_quiet. unfold resume, withPc.
          cbn [pc language host batchState wordList saveInterval processed
               savedAt saved clock].
          rewrite PW. rewrite tick_afterWord. reflexivity. }
        destruct (quiet_afterWord i (tick bX))
          as (n1 & b2 & R1 & P2 & W2 & F1 & F2).
        destruct (IH (i + 1) b2) as (n2 & b' & R2 & Pc' & Pr').
        -- rewrite W2. exact Hs'.
        -- split; [rewrite F1 | rewrite F2]; assumption.
        -- exists (n2 + (n1 + 1)), b'. split; [|split].
           ++ rewrite !run_add, R0, R1. exact R2.
           ++ exact Pc'.
           ++ rewrite Pr', P2. cbn [quietBatch fold_left]. f_equal.
              unfold quietWord, progressOf. rewrite T, Hh.
              cbn [language host batchState processedWords processed tick bX].
              rewrite PW. reflexivity.
Qed.

(** Once finished, a batch stays as it is (the clock apart). *)
Lemma finished_stable (env : Env) (n : nat) (b : Batch) (r : BatchResult) :
  pc b = Finished r ->
  pc (run env n b) = Finished r /\ language (run env n b) = language b /\
  processed (run env n b) = processed b.
Proof.
  intros H. induction n as [|n (I1 & I2 & I3)]; [auto|].
  cbn [run]. unfold step, interrupted.
  assert (D : forall sigs c, pc c = Finished r -> deliver sigs c = c).
  { induction sigs as [|s sigs IHs]; intros c Hc; [reflexivity|].
    unfold deliver in *. cbn [fold_left]. unfold handle at 2. rewrite Hc.
    apply IHs, Hc. }
  rewrite (D _ _ I1). unfold resume. rewrite I1. cbn [awaitsWrite].
  rewrite andb_false_r. cbn. auto.
Qed.

Lemma step_accepted (env : Env) (b : Batch) :
  rejected (env (clock b)) = false ->
  step env b = tick (resume (interrupted env b)).
Proof. intros H. unfold step. rewrite H. reflexivity. Qed.

Lemma run_S_first (env : Env) (n : nat) (b : Batch) :
  run env (S n) b = run env n (step env b).
Proof.
  induction n as [|n IH]; [reflexivity|].
  change (run env (S (S n)) b) with (step env (run env (S n) b)).
  rewrite IH. reflexivity.
Qed.

Lemma runToReturn_finished (env : Env) (fuel : nat) (b : Batch)
  (r : BatchResult) :
  pc b = Finished r -> runToReturn env fuel b = Some b.
Proof. intros H. destruct fuel; simpl; rewrite H; reflexivity. Qed.

(** A batch that is over after [n] awaits has returned at some await [n0]
    up to [n], with the same result. *)
Lemma runToReturn_run (env : Env) (n : nat) :
  forall (b : Batch) (r : BatchResult),
    pc (run env n b) = Finished r ->
    exists n0, n0 <= n /\ pc (run env n0 b) = Finished r /\
      language (run env n0 b) = language (run env n b) /\
      processed (run env n0 b) = processed (run env n b) /\
      forall fuel, n <= fuel ->
        runToReturn env fuel b = Some (run env n0 b).
Proof.
  induction n as [|n IH]; intros b r H.
  - exists 0. repeat split; auto.
    intros fuel _. apply (runToReturn_finished env fuel b H).
  - destruct (pc b) as [ck|i|i w|i|i|i|i|i| |r0] eqn:P;
      try (rewrite run_S_first in H;
           destruct (IH _ _ H) as (n0 & L & Q & E1 & E2 & F);
           exists (S n0); rewrite !run_S_first;
           split; [lia|]; split; [exact Q|]; split; [exact E1|];
           split; [exact E2|];
           intros [|fuel] Hf; [lia|]; cbn [runToReturn]; rewrite P;
           apply F; lia).
    destruct (finished_stable env (S n) b P) as (S1 & S2 & S3).
    exists 0. change (run env 0 b) with b.
    split; [lia|]. split; [congruence|]. split; [congruence|].
    split; [congruence|].
    intros fuel _. apply (runToReturn_finished env fuel b P).
Qed.

(** A batch run that no signal disturbs returns, and returns the outcome
    of [quietBatch]. *)
Theorem quiet_batch_completes (lang : Language) (words : list str)
  (interval : nat) (h : Host) :
  exists n0, forall n, n0 <= n ->
    let b := run quiet n (processWordsBatch lang words interval None h) in
    pc b = Finished (Completed (processed b)) /\
    (language b, processed b)
    = (fst (fst (fst (quietBatch words (lang, [], h, 0)))),
       snd (quietBatch words (lang, [], h, 0))).
Proof.
  unfold processWordsBatch.
  set (b0 := mkBatch FinalSave (mkBatchState false false 0 (length words) [])
               lang words interval 0 0 h [] 0).
  destruct (@quiet_loop words 0 b0 eq_refl) as (n0 & b' & R & P & Q).
  { split; reflexivity. }
  exists n0. intros n Hn. cbv zeta.
  replace n with ((n - n0) + n0) by lia. rewrite run_add, R.
  destruct (finished_stable quiet (n - n0) b' P) as (S1 & S2 & S3).
  rewrite S1, S2, S3. split; [reflexivity|].
  change (progressOf b0) with (lang, @nil str, h, 0) in Q.
  rewrite <- Q. reflexivity.
Qed.

(* ================================================================== *)
(** ** Adding a word twice (C1) *)
(* ================================================================== *)

Lemma trimStart_length (w : str) : length (trimStart w) <= length w.
Proof.
  induction w as [|c r IH]; simpl; [lia|].
  destruct (isWhiteSpace c); simpl; lia.
Qed.

Lemma trimStart_fixed (w : str) :
  trimStart w = w <->
  match w with [] => True | c :: _ => isWhiteSpace c = false end.
Proof.
  destruct w as [|c r]; simpl; [tauto|].
  destruct (isWhiteSpace c) eqn:E; split; try congruence; auto.
  intros H. pose proof (trimStart_length r) as L. rewrite H in L.
  simpl in L. lia.
Qed.

Lemma trimStart_idem (w : str) : trimStart (trimStart w) = trimStart w.
Proof.
  induction w as [|c r IH]; simpl; [reflexivity|].
  destruct (isWhiteSpace c) eqn:E; [exact IH|].
  simpl. rewrite E. reflexivity.
Qed.

(** Removing trailing white space removes a suffix. *)
Lemma trimEnd_prefix (w : str) :
  exists s, w = rev (trimStart (rev w)) ++ s.
Proof.
  assert (G : forall x : str, exists p, x = p ++ trimStart x).
  { induction x as [|c r [p IH]]; simpl; [exists []; reflexivity|].
    destruct (isWhiteSpace c).
    - exists (c :: p). simpl. f_equal. exact IH.
    - exists []. reflexivity. }
  destruct (G (rev w)) as [p Hp]. exists (rev p).
  rewrite <- rev_app_distr, <- Hp, rev_involutive. reflexivity.
Qed.

Lemma trim_idem (w : str) : trim (trim w) = trim w.
Proof.
  unfold trim.
  set (a := trimStart w).
  assert (Ha : trimStart a = a) by apply trimStart_idem.
  set (b := rev (trimStart (rev a))).
  assert (Hb : trimStart b = b).
  { apply trimStart_fixed. destruct b as [|c r] eqn:B; [exact I|].
    destruct (trimEnd_prefix a) as [s Hs]. fold b in Hs. rewrite B in Hs.
    apply trimStart_fixed in Ha. rewrite Hs in Ha. exact Ha. }
  rewrite Hb. unfold b. rewrite rev_involutive, trimStart_idem. reflexivity.
Qed.

Section AddingTwice.
Variables (lang : Language) (w : str).
Hypothesis nonblank : trim w <> [].
Hypothesis fresh : JMap.has str_eqb (trim w) (vocabulary lang) = false.








End AddingTwice.

(** A call whose batch completes, with no signal and no failing write,
    returns what the batch has built. *)
Lemma addWords_completed (lang : Language) (words : list str)
  (saveInterval : option nat) (resumeFile : option BatchCheckpoint)
  (h : Host) (x : str) (xs : list str) (n : nat) :
  wordsToAdd lang words = x :: xs ->
  let b' := run quiet n
              (processWordsBatch lang (x :: xs)
                 (saveIntervalOr25 saveInterval) resumeFile h) in
  pc b' = Finished (Completed (processed b')) ->
  forall fuel, n <= fuel ->
    addWordsToLanguage lang words saveInterval resumeFile quiet fuel h
    = Returned (mkAddResult (language b') (processed b')
                  (length words - processed b') (Some false)).
Proof.
  intros W b' P fuel Hf.
  destruct (runToReturn_run quiet n _ P) as (n0 & _ & Q & E1 & E2 & F).
  unfold addWordsToLanguage. rewrite W, (F fuel Hf), Q.
  cbn [quiet existsb rejected]. rewrite E1. reflexivity.
Qed.

Lemma addWords_quiet (lang : Language) (words : list str)
  (saveInterval : option nat) (h : Host) (x : str) (xs : list str) :
  wordsToAdd lang words = x :: xs ->
  exists fuel0, forall fuel, fuel0 <= fuel ->
    let p := quietBatch (x :: xs) (lang, [], h, 0) in
    addWordsToLanguage lang words saveInterval None quiet fuel h
    = Returned (mkAddResult (fst (fst (fst p))) (snd p)
                  (length words - snd p) (Some false)).
Proof.
  intros W.
  destruct (quiet_batch_completes lang (x :: xs)
              (saveIntervalOr25 saveInterval) h) as (n & H).
  specialize (H n (le_n n)). cbv zeta in H. destruct H as (P & E).
  exists n. intros fuel Hf. cbv zeta.
  rewrite (@addWords_completed lang words saveInterval None h x xs n W P
             fuel Hf).
  pose proof (f_equal fst E) as EL. pose proof (f_equal snd E) as EP.
  cbn [fst snd] in EL, EP. rewrite EL, EP. reflexivity.
Qed.


(* ================================================================== *)
(** ** Batch Orchestrator: a batch of new words *)
(* ================================================================== *)

Lemma keys_set_absent (k : str) (v : WordEntry) (T : Vocabulary) :
  JMap.has str_eqb k T = false ->
  JMap.keys (JMap.set str_eqb k v T) = JMap.keys T ++ [k].
Proof.
  unfold JMap.has, JMap.keys.
  induction T as [|[a w] T IH]; simpl; [reflexivity|].
  destruct (str_eqb k a); [discriminate|].
  intros H. simpl. rewrite IH by exact H. reflexivity.
Qed.

Lemma setHas_false (x : str) (s : list str) :
  setHas x s = false <-> ~ In x s.
Proof.
  unfold setHas. split.
  - intros H I. apply (existsb_keqb _ str_eqb_eq) in I. congruence.
  - intros N. destruct (existsb (str_eqb x) s) eqn:E; [|reflexivity].
    apply (existsb_keqb _ str_eqb_eq) in E. contradiction.
Qed.

Lemma setAdd_absent (x : str) (s : list str) :
  ~ In x s -> setAdd x s = s ++ [x].
Proof.
  intros N. unfold setAdd. rewrite (proj2 (setHas_false x s) N). reflexivity.
Qed.

Lemma quietWord_new (L : Language) (done : list str) (h : Host) (n : nat)
  (w : str) :
  trim w <> [] -> ~ In (trim w) done ->
  quietWord (L, done, h, n) w
  = (fst (processWord L (trim w) h), done ++ [trim w],
     snd (processWord L (trim w) h), n + 1).
Proof.
  intros Hb Hd. unfold quietWord.
  destruct (trim w) as [|c r] eqn:T; [contradiction|].
  rewrite (proj2 (setHas_false _ _) Hd), (@setAdd_absent _ _ Hd).
  destruct (processWord L (c :: r) h). reflexivity.
Qed.

Lemma quietBatch_new (ws : list str) :
  forall (L : Language) (done : list str) (h : Host) (n : nat),
    NoDup (map trim ws) ->
    Forall (fun w => trim w <> []) ws ->
    (forall w, In w ws -> ~ In (trim w) done) ->
    (forall w, In w ws -> JMap.has str_eqb (trim w) (vocabulary L) = false) ->
    exists L' h',
      quietBatch ws (L, done, h, n)
        = (L', done ++ map trim ws, h', n + length ws) /\
      JMap.keys (vocabulary L') = JMap.keys (vocabulary L) ++ map trim ws.
Proof.
  induction ws as [|w ws IH]; intros L done h n Hnd Hnb Hdone Hvoc.
  - exists L, h. simpl. rewrite !app_nil_r, Nat.add_0_r. auto.
  - simpl in Hnd. inversion Hnd as [|x l Hnot Hnd']; subst.
    inversion Hnb as [|x l Hw Hnb']; subst.
    unfold quietBatch. cbn [fold_left].
    rewrite quietWord_new by (auto; apply Hdone; left; reflexivity).
    destruct (processWord_vocabulary L (trim w) h) as (e & _ & Hv & _).
    destruct (IH (fst (processWord L (trim w) h)) (done ++ [trim w])
                 (snd (processWord L (trim w) h)) (n + 1) Hnd' Hnb')
      as (L' & h' & Q & K).
    + intros w' Hw' I. apply in_app_or in I. destruct I as [I|[I|[]]].
      * apply (Hdone w'); [right; exact Hw' | exact I].
      * apply Hnot. rewrite I. apply in_map, Hw'.
    + intros w' Hw'. rewrite Hv, (has_set _ str_eqb_eq).
      rewrite (Hvoc w') by (right; exact Hw').
      rewrite orb_false_r. apply str_eqb_neq. intros E. apply Hnot.
      rewrite <- E. apply in_map, Hw'.
    + exists L', h'. split.
      * unfold quietBatch in Q. rewrite Q. cbn [map length].
        rewrite <- app_assoc. cbn [app]. f_equal. lia.
      * rewrite K, Hv. rewrite keys_set_absent
          by (apply Hvoc; left; reflexivity).
        rewrite <- app_assoc. reflexivity.
Qed.

Lemma Forall_firstn_any {A} (P : A -> Prop) (n : nat) (l : list A) :
  Forall P l -> Forall P (firstn n l).
Proof.
  intros H. revert n. induction H as [|x l Hx Hl IH]; intros [|n]; simpl;
    constructor; auto.
Qed.

Lemma In_firstn_any {A} (n : nat) (l : list A) (x : A) :
  In x (firstn n l) -> In x l.
Proof.
  revert n. induction l as [|a l IH]; intros [|n] H; simpl in *;
    try contradiction.
  destruct H as [H|H]; [left; exact H | right; apply (IH n H)].
Qed.

Lemma NoDup_firstn_any {A} (n : nat) (l : list A) :
  NoDup l -> NoDup (firstn n l).
Proof.
  intros H. rewrite <- (firstn_skipn n l) in H.
  apply NoDup_app_remove_r in H. exact H.
Qed.

Lemma firstn_snoc_nth {A} (l : list A) (i : nat) (x : A) :
  nth_error l i = Some x -> firstn (i + 1) l = firstn i l ++ [x].
Proof.
  revert i. induction l as [|a l IH]; intros [|i] H; simpl in *;
    try discriminate.
  - injection H as ->. reflexivity.
  - rewrite (IH i H). reflexivity.
Qed.

Lemma notin_prefix (l : list str) (i : nat) (x : str) :
  NoDup l -> nth_error l i = Some x -> ~ In x (firstn i l).
Proof.
  intros Hnd Hn I.
  assert (E : l = firstn i l ++ x :: skipn (S i) l).
  { clear -Hn. revert i Hn. induction l as [|a l IH]; intros [|i] H;
      simpl in *; try discriminate.
    - injection H as ->. reflexivity.
    - f_equal. apply IH, H. }
  rewrite E in Hnd. apply NoDup_remove_2 in Hnd.
  apply Hnd. apply in_or_app. left. exact I.
Qed.

Section NewWordsRun.
Variables (lang : Language) (words : list str) (interval : nat) (h : Host).
Hypothesis new : newWords lang words.


Lemma after_shape (i : nat) :
  exists L' h',
    builtAfter lang words h i = (L', firstn i (map trim words), h', length (firstn i words)) /\
    JMap.keys (vocabulary L')
      = JMap.keys (vocabulary lang) ++ firstn i (map trim words).
Proof.
  destruct new as (Hnd & Hnb & Hv).
  destruct (@quietBatch_new (firstn i words) lang [] h 0)
    as (L' & h' & Q & K).
  - rewrite <- firstn_map. apply NoDup_firstn_any, Hnd.
  - apply Forall_firstn_any, Hnb.
  - intros w _ [].
  - intros w Hw. rewrite Forall_forall in Hv. apply Hv.
    apply (In_firstn_any _ _ _ Hw).
  - exists L', h'. rewrite firstn_map. split; [exact Q | exact K].
Qed.

Lemma after_succ (i : nat) (w : str) :
  nth_error words i = Some w ->
  builtAfter lang words h (i + 1)
  = (fst (processWord (fst (fst (fst (builtAfter lang words h i)))) (trim w)
            (snd (fst (builtAfter lang words h i)))),
     firstn i (map trim words) ++ [trim w],
     snd (processWord (fst (fst (fst (builtAfter lang words h i)))) (trim w)
            (snd (fst (builtAfter lang words h i)))),
     length (firstn i words) + 1).
Proof.
  intros Hn. unfold builtAfter at 1. rewrite (firstn_snoc_nth _ _ Hn).
  unfold quietBatch. rewrite fold_left_app. cbn [fold_left].
  fold (quietBatch (firstn i words) (lang, [], h, 0)).
  fold (builtAfter lang words h i).
  destruct (after_shape i) as (L' & h' & Q & _). rewrite Q.
  destruct new as (Hnd & Hnb & _).
  rewrite quietWord_new.
  - reflexivity.
  - rewrite Forall_forall in Hnb. apply Hnb. apply (nth_error_In _ _ Hn).
  - apply notin_prefix; [exact Hnd|]. apply map_nth_error, Hn.
Qed.


Lemma quietInv_loopHead (i : nat) (b : Batch) :
  wordList b = words -> flagsClear b -> i <= length words ->
  progressOf b = builtAfter lang words h i ->
  quietInv lang words h (loopHead i b).
Proof.
  intros Hw [Hp Hs] Hi Hprog. unfold loopHead. rewrite Hw, Hs, Hp.
  destruct (i <? length words) eqn:Lt.
  - apply Nat.ltb_lt in Lt.
    destruct (nth_error words i) as [w|] eqn:Hn;
      [|apply nth_error_None in Hn; lia].
    unfold startWord. rewrite Hw, Hn.
    destruct new as (Hnd & Hnb & _).
    rewrite Forall_forall in Hnb.
    specialize (Hnb w (nth_error_In _ _ Hn)).
    destruct (trim w) as [|c r] eqn:T; [contradiction|].
    destruct (after_shape i) as (L' & h' & Q & _).
    assert (Hd : processedWords (batchState b) = firstn i (map trim words)).
    { unfold progressOf in Hprog. rewrite Q in Hprog. congruence. }
    rewrite Hd.
    assert (Nin : ~ In (c :: r) (firstn i (map trim words))).
    { rewrite <- T. apply notin_prefix; [exact Hnd|].
      apply map_nth_error, Hn. }
    rewrite (proj2 (setHas_false _ _) Nin).
    unfold quietInv. cbn [pc withPc wordList]. split; [exact Hw|].
    split; [split; assumption|]. split; [|exact Hprog].
    exists w. split; [exact Hn | symmetry; exact T].
  - apply Nat.ltb_ge in Lt. assert (i = length words) by lia. subst i.
    unfold quietInv. cbn [pc withPc wordList]. split; [exact Hw|].
    split; [split; assumption | exact Hprog].
Qed.

Lemma quietInv_afterWord (i : nat) (b : Batch) :
  wordList b = words -> flagsClear b -> i < length words ->
  progressOf b = builtAfter lang words h (i + 1) ->
  quietInv lang words h (afterWord i b).
Proof.
  intros Hw Hf Hi Hprog. unfold afterWord. cbv zeta.
  destruct (needsSave _); unfold quietInv; cbn [pc withPc wordList];
    (split; [exact Hw|]); (split; [exact Hf|]); split; assumption.
Qed.

Lemma quietInv_tick (b : Batch) :
  quietInv lang words h b -> quietInv lang words h (tick b).
Proof. intros H. exact H. Qed.

Lemma quietInv_step (b : Batch) :
  quietInv lang words h b -> quietInv lang words h (step quiet b).
Proof.
  intros (Hw & Hf & Hpc). rewrite step_quiet. apply quietInv_tick.
  unfold resume. destruct (pc b) as [ck|i|i w|i|i|i|i|i| |r] eqn:P;
    try contradiction.
  - (* InFlight *)
    destruct Hpc as ((w' & Hn & ->) & Hprog).
    pose proof (after_succ _ Hn) as S1. rewrite <- Hprog in S1.
    unfold progressOf in S1 at 1 2 3 4. cbn [fst snd] in S1.
    destruct (processWord (language b) (trim w') (host b))
      as [lang1 h1] eqn:PW. cbn [fst snd] in S1.
    apply quietInv_afterWord.
    + exact Hw.
    + exact Hf.
    + apply nth_error_Some. congruence.
    + rewrite S1. unfold progressOf.
      cbn [language batchState processedWords host processed].
      destruct (after_shape i) as (L' & h' & Q & _).
      rewrite <- Hprog in Q. unfold progressOf in Q.
      injection Q as _ Qd _ Qn. rewrite Qd, Qn.
      destruct new as (Hnd & _).
      rewrite setAdd_absent; [reflexivity|].
      apply notin_prefix; [exact Hnd|]. apply map_nth_error, Hn.
  - (* Saving *)
    destruct Hpc as (Hi & Hprog). unfold quietInv.
    cbn [pc wordList]. split; [exact Hw|]. split; [exact Hf|].
    split; [exact Hi | exact Hprog].
  - (* Flushing *)
    destruct Hpc as (Hi & Hprog). unfold quietInv.
    cbn [pc wordList]. split; [exact Hw|]. split; [exact Hf|].
    split; [exact Hi | exact Hprog].
  - (* Delay *)
    destruct Hpc as (Hi & Hprog).
    apply quietInv_loopHead; auto. lia.
  - (* FinalSave *)
    unfold quietInv. cbn [pc withPc wordList]. auto.
  - (* Finished *)
    destruct r; try contradiction.
    unfold quietInv. rewrite P. auto.
Qed.

Lemma quietInv_run (t : nat) :
  quietInv lang words h
    (run quiet t (processWordsBatch lang words interval None h)).
Proof.
  induction t as [|t IH]; [|apply quietInv_step, IH].
  unfold processWordsBatch. cbn [run].
  apply quietInv_loopHead; try reflexivity; [split; reflexivity | lia].
Qed.
End NewWordsRun.

(* ================================================================== *)
(** ** Batch Orchestrator: pause (C3) *)
(* ================================================================== *)

Lemma clock_afterWord (i : nat) (b : Batch) : clock (afterWord i b) = clock b.
Proof. unfold afterWord. cbv zeta. destruct (needsSave _); reflexivity. Qed.

Lemma clock_startWord (i : nat) (b : Batch) : clock (startWord i b) = clock b.
Proof.
  unfold startWord. destruct (nth_error (wordList b) i) as [w|];
    [|apply clock_afterWord].
  destruct (trim w); [apply clock_afterWord|].
  destruct (setHas _ _); [apply clock_afterWord | reflexivity].
Qed.

Lemma clock_loopHead (i : nat) (b : Batch) : clock (loopHead i b) = clock b.
Proof.
  unfold loopHead. destruct (i <? length (wordList b)); [|reflexivity].
  destruct (shouldStop (batchState b)); [reflexivity|].
  destruct (isPaused (batchState b)); [reflexivity|].
  apply clock_startWord.
Qed.

Lemma clock_resume (b : Batch) : clock (resume b) = clock b.
Proof.
  unfold resume. destruct (pc b); try reflexivity.
  - rewrite clock_loopHead. reflexivity.
  - destruct (isPaused (batchState b)); [reflexivity | apply clock_startWord].
  - destruct (processWord (language b) word (host b)).
    rewrite clock_afterWord. reflexivity.
  - apply clock_loopHead.
Qed.

Lemma clock_deliver (sigs : list Signal) (b : Batch) :
  clock (deliver sigs b) = clock b.
Proof.
  unfold deliver. revert b. induction sigs as [|s sigs IH]; intros b;
    [reflexivity|].
  cbn [fold_left]. rewrite IH. unfold handle.
  destruct (pc b), s; try reflexivity;
    repeat match goal with |- context [if ?x then _ else _] => destruct x end;
    reflexivity.
Qed.

Lemma clock_step (env : Env) (b : Batch) : clock (step env b) = S (clock b).
Proof.
  unfold step, interrupted. cbv zeta. cbn [tick clock].
  destruct (rejected _ && awaitsWrite _); cbn [withPc clock];
    rewrite ?clock_resume, clock_deliver; reflexivity.
Qed.

Lemma clock_run (env : Env) (n : nat) (b : Batch) :
  clock (run env n b) = clock b + n.
Proof.
  induction n as [|n IH]; cbn [run]; [lia|]. rewrite clock_step, IH. lia.
Qed.

(** A run is a run without signals as long as no signal has arrived. *)
Lemma run_quiet_prefix (env : Env) (t : nat) (b : Batch) :
  (forall j, j < t -> env (clock b + j) = []) ->
  run env t b = run quiet t b.
Proof.
  induction t as [|t IH]; intros H; [reflexivity|].
  cbn [run]. rewrite IH by (intros j Hj; apply H; lia).
  unfold step, interrupted. rewrite clock_run, (H t) by lia. reflexivity.
Qed.

Lemma rejected_In (sigs : list Signal) :
  rejected sigs = false <-> ~ In Rejection sigs.
Proof.
  unfold rejected. induction sigs as [|s sigs IH]; simpl; [tauto|].
  destruct s; simpl; rewrite ?IH; split; intros H; try tauto;
    try discriminate; try (intros [E|I]; [discriminate E | tauto]).
Qed.

(** While the pause flag is up and its clearing does not arrive, no word is
    started and the language does not change. *)
Lemma deliver_paused (sigs : list Signal) (b : Batch) :
  ~ In PauseFileRemoved sigs ->
  isPaused (batchState b) = true -> idle (pc b) ->
  isPaused (batchState (deliver sigs b)) = true /\
  idle (pc (deliver sigs b)) /\
  language (deliver sigs b) = language b /\
  wordList (deliver sigs b) = wordList b.
Proof.
  unfold deliver. revert b.
  induction sigs as [|s sigs IH]; intros b Hn Hp Hi; [auto|].
  cbn [fold_left].
  assert (H1 : isPaused (batchState (handle b s)) = true /\
               idle (pc (handle b s)) /\
               language (handle b s) = language b /\
               wordList (handle b s) = wordList b).
  { unfold handle. destruct s.
    - destruct (pc b) eqn:P; try (rewrite P in Hi; contradiction);
        destruct (shouldStop (batchState b)); cbn; rewrite ?P; auto.
    - rewrite Hp. destruct (pc b) eqn:P; rewrite ?P; auto.
    - exfalso. apply Hn. left. reflexivity.
    - destruct (pc b) eqn:P; rewrite ?P; auto. }
  destruct H1 as (A & B & C & D).
  destruct (IH (handle b s)) as (A' & B' & C' & D'); auto.
  - intros I. apply Hn. right. exact I.
  - rewrite C', D'. auto.
Qed.

Lemma resume_paused (b : Batch) :
  isPaused (batchState b) = true -> idle (pc b) ->
  isPaused (batchState (resume b)) = true /\
  idle (pc (resume b)) /\
  language (resume b) = language b.
Proof.
  intros Hp Hi. unfold resume.
  destruct (pc b) eqn:P; try contradiction; cbn; rewrite ?Hp, ?P; auto.
  unfold loopHead. destruct (_ <? _); [|cbn; auto].
  destruct (shouldStop (batchState b)); [cbn; auto|].
  rewrite Hp. cbn. auto.
Qed.

Lemma step_paused (env : Env) (b : Batch) :
  ~ In PauseFileRemoved (env (clock b)) ->
  isPaused (batchState b) = true -> idle (pc b) ->
  isPaused (batchState (step env b)) = true /\
  idle (pc (step env b)) /\
  language (step env b) = language b.
Proof.
  intros Hn Hp Hi. unfold step, interrupted.
  destruct (deliver_paused _ _ Hn Hp Hi) as (A & B & C & _).
  destruct (resume_paused _ A B) as (A' & B' & C').
  cbv zeta. destruct (rejected _ && awaitsWrite _);
    cbn [tick withPc batchState pc language idle]; rewrite ?C', C; auto.
Qed.

Lemma run_paused (env : Env) (k : nat) (b : Batch) :
  (forall j, j < k -> ~ In PauseFileRemoved (env (clock b + j))) ->
  isPaused (batchState b) = true -> idle (pc b) ->
  isPaused (batchState (run env k b)) = true /\
  idle (pc (run env k b)) /\
  language (run env k b) = language b.
Proof.
  intros Hn Hp Hi. induction k as [|k IH]; [auto|].
  destruct IH as (A & B & C); [intros j Hj; apply Hn; lia|].
  cbn [run].
  destruct (step_paused env (run env k b)) as (A' & B' & C'); auto.
  - rewrite clock_run. apply Hn. lia.
  - rewrite C', C. auto.
Qed.

(** C3: a batch of 100 new words runs with no signal until, at time [t0],
    word 11 (index 10) is in flight and the pause file is seen. At that
    moment the state becomes Paused (the flag [isPaused] is raised) with
    exactly the first 10 words committed to the vocabulary; word 11 is not
    interrupted: when it returns it is committed; and as long as the pause
    is not cleared no word is started and the language stays as it is. *)
Theorem pause_scenario (lang : Language) (words : list str) (interval : nat)
  (h : Host) (env : Env) (t0 : nat) (w11 : str) :
  length words = 100 ->
  newWords lang words ->
  (forall j, j < t0 -> env j = []) ->
  pc (run env t0 (processWordsBatch lang words interval None h))
    = InFlight 10 w11 ->
  env t0 = [PauseFileSeen] ->
  pauseOutcome lang words env
    (processWordsBatch lang words interval None h) t0 w11.
Proof.
  intros Hlen Hnew Hquiet Hpc Hsig.
  set (b0 := processWordsBatch lang words interval None h) in *.
  assert (Hc0 : clock b0 = 0) by (apply clock_loopHead).
  assert (Hrun : run env t0 b0 = run quiet t0 b0).
  { apply run_quiet_prefix. intros j Hj. rewrite Hc0. apply Hquiet, Hj. }
  pose proof (@quietInv_run lang words interval h Hnew t0) as Inv. fold b0 in Inv.
  rewrite <- Hrun in Inv. clear Hrun. clearbody b0.
  destruct Inv as (Hw & (Hp & Hs) & Hin).
  rewrite Hpc in Hin. destruct Hin as ((w' & Hn & Ew) & Hprog).
  destruct (@after_shape lang words h Hnew 10) as (L10 & h10 & Q10 & K10).
  destruct (@after_shape lang words h Hnew 11) as (L11 & h11 & Q11 & K11).
  pose proof (@after_succ lang words h Hnew 10 w' Hn) as S11. rewrite Q10 in S11.
  cbn [fst snd] in S11. change (10 + 1) with 11 in S11.
  rewrite Q11 in S11.
  assert (EL : L11 = fst (processWord L10 (trim w') h10)) by congruence.
  assert (Len10 : length (firstn 10 words) = 10)
    by (rewrite length_firstn; lia).
  rewrite Q10 in Hprog. unfold progressOf in Hprog.
  assert (HL : language (run env t0 b0) = L10) by congruence.
  assert (HH : host (run env t0 b0) = h10) by congruence.
  assert (HP : processed (run env t0 b0) = 10) by congruence.
  assert (Hclock : clock (run env t0 b0) = t0)
    by (rewrite clock_run, Hc0; reflexivity).
  assert (Hint : interrupted env (run env t0 b0)
                 = withState (setPaused true (batchState (run env t0 b0)))
                     (run env t0 b0)).
  { unfold interrupted. rewrite Hclock, Hsig. unfold deliver.
    cbn [fold_left]. unfold handle. rewrite Hpc, Hp. reflexivity. }
  assert (Hd : run env (S t0) b0
               = tick (resume (withState
                   (setPaused true (batchState (run env t0 b0)))
                   (run env t0 b0)))).
  { cbn [run]. unfold step. rewrite Hint, Hclock, Hsig. reflexivity. }
  assert (Hres : isPaused (batchState (run env (S t0) b0)) = true /\
                 idle (pc (run env (S t0) b0)) /\
                 language (run env (S t0) b0) = L11 /\
                 processed (run env (S t0) b0) = 11).
  { rewrite Hd. unfold resume. cbn [pc withState]. rewrite Hpc.
    cbn [language host withState]. rewrite HL, HH, Ew.
    destruct (processWord L10 (trim w') h10) as [l1 h1] eqn:PW.
    cbn [fst] in EL. subst l1.
    unfold afterWord. cbv zeta.
    destruct (needsSave _); cbn; rewrite HP; auto. }
  destruct Hres as (R1 & R2 & R3 & R4).
  unfold pauseOutcome. cbv zeta. rewrite Hint.
  cbn [batchState withState setPaused isPaused pc language processed].
  rewrite Hpc, HL, HP, R3, K10, K11.
  split; [exact Hp|]. split; [reflexivity|]. split; [reflexivity|].
  split; [rewrite Ew; apply map_nth_error, Hn|].
  split; [reflexivity|].
  split.
  { unfold JMap.size.
    rewrite <- (length_map fst (vocabulary L10)).
    change (map fst (vocabulary L10)) with (JMap.keys (vocabulary L10)).
    rewrite K10, length_app, length_firstn, length_map.
    unfold JMap.keys. rewrite length_map. lia. }
  split; [reflexivity|]. split; [reflexivity|]. split; [exact R4|].
  split; [exact R1|]. split; [exact R2|].
  intros k Hk.
  replace (S t0 + k) with (k + S t0) by lia. rewrite run_add.
  destruct (@run_paused env k (run env (S t0) b0)) as (A & B & C).
  - intros j Hj. rewrite clock_run, Hc0. apply Hk; lia.
  - exact R1.
  - exact R2.
  - rewrite C, R3. auto.
Qed.

(* ================================================================== *)
(** ** The statements on concrete inputs *)
(* ================================================================== *)

Lemma distinctb_NoDup (l : list str) : distinctb l = true -> NoDup l.
Proof.
  induction l as [|x r IH]; simpl; intros H; [constructor|].
  apply andb_true_iff in H. destruct H as [H1 H2].
  constructor; [|apply IH, H2].
  intros I. apply (existsb_keqb _ str_eqb_eq) in I. rewrite I in H1.
  discriminate.
Qed.

Lemma newWords_check (lang : Language) (words : list str) :
  distinctb (map trim words) = true ->
  forallb (fun w => match trim w with
                    | [] => false
                    | _ :: _ =>
                        negb (JMap.has str_eqb (trim w) (vocabulary lang))
                    end) words = true ->
  newWords lang words.
Proof.
  intros D F. split; [apply distinctb_NoDup, D|].
  rewrite forallb_forall in F.
  split; apply Forall_forall; intros w Hw; specialize (F w Hw);
    destruct (trim w); try discriminate.
  apply negb_true_iff in F. exact F.
Qed.



(** C3 on a hundred two-letter words, saving every 25 words: word 11 is in
    flight at the 21st await, and the pause file is seen then. *)
Lemma pause_scenario_witness :
  length demoWords = 100 /\
  newWords demoLanguage demoWords /\
  (forall j, j < 20 -> pauseAt 20 j = []) /\
  pc (run (pauseAt 20) 20
        (processWordsBatch demoLanguage demoWords 25 None demoHost))
    = InFlight 10 (lit "ba") /\
  pauseAt 20 20 = [PauseFileSeen] /\
  pauseOutcome demoLanguage demoWords (pauseAt 20)
    (processWordsBatch demoLanguage demoWords 25 None demoHost) 20 (lit "ba").
Proof.
  assert (H1 : length demoWords = 100) by reflexivity.
  assert (H2 : newWords demoLanguage demoWords)
    by (apply newWords_check; vm_compute; reflexivity).
  assert (H3 : forall j, j < 20 -> pauseAt 20 j = []).
  { intros j Hj. unfold pauseAt. destruct (j =? 20) eqn:E; [|reflexivity].
    apply Nat.eqb_eq in E. lia. }
  assert (H4 : pc (run (pauseAt 20) 20
                     (processWordsBatch demoLanguage demoWords 25 None
                        demoHost)) = InFlight 10 (lit "ba"))
    by (vm_compute; reflexivity).
  assert (H5 : pauseAt 20 20 = [PauseFileSeen]) by reflexivity.
  repeat (split; [assumption|]).
  exact (@pause_scenario demoLanguage demoWords 25 demoHost (pauseAt 20)
           20 (lit "ba") H1 H2 H3 H4 H5).
Defined.

(* ================================================================== *)
(** ** Batch Orchestrator: runs under signals *)
(* ================================================================== *)

Lemma withState_same (b : Batch) :
  withState (setPaused (isPaused (batchState b)) (batchState b)) b = b.
Proof. destruct b as [p [a s c t w] l wl si pr sa ho sv cl]. reflexivity. Qed.

(** A handler run other than Ctrl+C changes the pause flag at most. *)
Lemma handle_pause (b : Batch) (s : Signal) :
  s <> SIGINT ->
  exists p, handle b s = withState (setPaused p (batchState b)) b.
Proof.
  intros Hs. unfold handle.
  destruct s; [contradiction| | |];
    destruct (pc b), (isPaused (batchState b)) eqn:E;
    try (exists true; reflexivity); try (exists false; reflexivity);
    try (exists true; rewrite <- E; symmetry; apply withState_same);
    exists false; rewrite <- E; symmetry; apply withState_same.
Qed.

Lemma deliver_pause (sigs : list Signal) (b : Batch) :
  ~ In SIGINT sigs ->
  exists p, deliver sigs b = withState (setPaused p (batchState b)) b.
Proof.
  unfold deliver. revert b. induction sigs as [|s sigs IH]; intros b Hn.
  - exists (isPaused (batchState b)). symmetry. apply withState_same.
  - cbn [fold_left]. destruct (@handle_pause b s) as [p Hp].
    { intros ->. apply Hn. left. reflexivity. }
    rewrite Hp.
    destruct (IH (withState (setPaused p (batchState b)) b)) as [q Hq].
    { intros I. apply Hn. right. exact I. }
    rewrite Hq. exists q. reflexivity.
Qed.

Lemma builtFrom_succ (words : list str) (p0 : Progress) (i : nat) (w : str) :
  nth_error words i = Some w ->
  builtFrom words p0 (i + 1) = quietWord (builtFrom words p0 i) w.
Proof.
  intros H. unfold builtFrom. rewrite (firstn_snoc_nth _ _ H).
  unfold quietBatch. rewrite fold_left_app. reflexivity.
Qed.

Lemma builtFrom_all (words : list str) (p0 : Progress) (i : nat) :
  length words <= i -> builtFrom words p0 i = quietBatch words p0.
Proof. intros H. unfold builtFrom. rewrite firstn_all2 by exact H. reflexivity. Qed.

Lemma quietBatch_rest (words : list str) (p0 : Progress) (i : nat) :
  quietBatch (skipn i words) (builtFrom words p0 i) = quietBatch words p0.
Proof.
  unfold builtFrom, quietBatch. rewrite <- fold_left_app, firstn_skipn.
  reflexivity.
Qed.

Section RunInvariant.
Variables (words : list str) (p0 : Progress).

Lemma runInv_paused (b : Batch) (p : bool) :
  runInv words p0 b ->
  runInv words p0 (withState (setPaused p (batchState b)) b).
Proof. intros H. exact H. Qed.

Lemma runInv_afterWord (i : nat) (b : Batch) :
  wordList b = words -> shouldStop (batchState b) = false ->
  i < length words -> progressOf b = builtFrom words p0 (i + 1) ->
  runInv words p0 (afterWord i b).
Proof.
  intros Hw Hs Hi Hp. unfold afterWord. cbv zeta.
  destruct (needsSave _); unfold runInv; cbn [pc withPc wordList];
    (split; [exact Hw|]); (split; [exact Hs|]); split; assumption.
Qed.

Lemma runInv_startWord (i : nat) (b : Batch) :
  wordList b = words -> shouldStop (batchState b) = false ->
  i < length words -> progressOf b = builtFrom words p0 i ->
  runInv words p0 (startWord i b).
Proof.
  intros Hw Hs Hi Hp. unfold startWord. rewrite Hw.
  destruct (nth_error words i) as [w|] eqn:Hn;
    [|apply nth_error_None in Hn; lia].
  pose proof (builtFrom_succ words p0 i Hn) as S1. rewrite <- Hp in S1.
  destruct (trim w) as [|c r] eqn:T.
  - apply runInv_afterWord; auto. rewrite S1.
    unfold quietWord, progressOf. rewrite T. reflexivity.
  - destruct (setHas (c :: r) (processedWords (batchState b))) eqn:Hh.
    + apply runInv_afterWord; auto. rewrite S1.
      unfold quietWord, progressOf. rewrite T, Hh. reflexivity.
    + unfold runInv. cbn [pc withPc wordList]. split; [exact Hw|].
      split; [exact Hs|].
      split; [exists w; split; [exact Hn | symmetry; exact T]|].
      split; [discriminate|]. split; [exact Hh | exact Hp].
Qed.

Lemma runInv_loopHead (i : nat) (b : Batch) :
  wordList b = words -> shouldStop (batchState b) = false ->
  i <= length words -> progressOf b = builtFrom words p0 i ->
  runInv words p0 (loopHead i b).
Proof.
  intros Hw Hs Hi Hp. unfold loopHead. rewrite Hw, Hs.
  destruct (i <? length words) eqn:Lt.
  - apply Nat.ltb_lt in Lt. destruct (isPaused (batchState b)).
    + unfold runInv. cbn [pc withPc wordList]. split; [exact Hw|].
      split; [exact Hs|]. split; assumption.
    + apply runInv_startWord; auto.
  - apply Nat.ltb_ge in Lt. unfold runInv. cbn [pc withPc wordList].
    split; [exact Hw|]. split; [exact Hs|].
    change (progressOf (withPc FinalSave b)) with (progressOf b).
    rewrite Hp. apply builtFrom_all. lia.
Qed.

Lemma runInv_resume (b : Batch) :
  runInv words p0 b -> runInv words p0 (resume b).
Proof.
  intros (Hw & Hs & Hpc). unfold resume.
  destruct (pc b) as [ck|i|i w|i|i|i|i|i| |r] eqn:P; try contradiction.
  - destruct Hpc as (Hi & Hp). destruct (isPaused (batchState b)).
    + unfold runInv. rewrite P. auto.
    + apply runInv_startWord; auto.
  - destruct Hpc as ((w' & Hn & ->) & Hne & Hh & Hp).
    pose proof (builtFrom_succ words p0 i Hn) as S1. rewrite <- Hp in S1.
    unfold quietWord, progressOf in S1.
    destruct (trim w') as [|c r] eqn:T; [contradiction|].
    rewrite Hh in S1.
    destruct (processWord (language b) (c :: r) (host b)) as [lang1 h1].
    apply runInv_afterWord; auto.
    apply nth_error_Some. congruence.
  - destruct Hpc as (Hi & Hp). unfold runInv. cbn [pc wordList].
    split; [exact Hw|]. split; [exact Hs|]. split; [exact Hi | exact Hp].
  - destruct Hpc as (Hi & Hp). unfold runInv. cbn [pc wordList].
    split; [exact Hw|]. split; [exact Hs|]. split; [exact Hi | exact Hp].
  - destruct Hpc as (Hi & Hp). apply runInv_loopHead; auto. lia.
  - unfold runInv. cbn [pc withPc wordList]. split; [exact Hw|].
    split; [exact Hs|]. split; [reflexivity | exact Hpc].
  - destruct r; try contradiction. unfold runInv. rewrite P. auto.
Qed.

Lemma runInv_step (env : Env) (b : Batch) :
  ~ In SIGINT (env (clock b)) -> ~ In Rejection (env (clock b)) ->
  runInv words p0 b -> runInv words p0 (step env b).
Proof.
  intros Hn Hr H. rewrite step_accepted by (apply rejected_In, Hr).
  unfold interrupted.
  destruct (deliver_pause _ b Hn) as [p ->].
  exact (runInv_resume (runInv_paused p H)).
Qed.

Lemma loopHead_finishes (i : nat) (b : Batch) :
  wordList b = words -> flagsClear b ->
  progressOf b = builtFrom words p0 i ->
  exists n b', run quiet n (loopHead i b) = b' /\
    pc b' = Finished (Completed (processed b')) /\
    progressOf b' = quietBatch words p0.
Proof.
  intros Hw Hf Hp.
  destruct (@quiet_loop (skipn i words) i b) as (n & b' & R & P & Q);
    [rewrite Hw; reflexivity | exact Hf |].
  exists n, b'. split; [exact R|]. split; [exact P|].
  rewrite Q, Hp. apply quietBatch_rest.
Qed.

(** From a state of the run where the pause flag is down, the run without
    signals returns, with every word of the list gone through. *)
Lemma runInv_finishes (c : Batch) :
  runInv words p0 c -> isPaused (batchState c) = false ->
  exists n b', run quiet n c = b' /\
    pc b' = Finished (Completed (processed b')) /\
    progressOf b' = quietBatch words p0.
Proof.
  intros (Hw & Hs & Hpc) Hu.
  destruct (pc c) as [ck|i|i w|i|i|i|i|i| |r] eqn:P; try contradiction.
  - (* PausedWait *)
    destruct Hpc as (Hi & Hp).
    destruct (@loopHead_finishes i (tick c)) as (n & b' & R & Q);
      [exact Hw | split; assumption | exact Hp |].
    exists (n + 1), b'. split; [|exact Q].
    rewrite run_add. cbn [run]. rewrite step_quiet.
    rewrite <- R. f_equal. rewrite <- tick_loopHead. f_equal.
    unfold resume, loopHead. rewrite P, Hu, Hs, Hw.
    apply Nat.ltb_lt in Hi. rewrite Hi. reflexivity.
  - (* InFlight *)
    destruct Hpc as ((w' & Hn & ->) & Hne & Hh & Hp).
    pose proof (builtFrom_succ words p0 i Hn) as S1. rewrite <- Hp in S1.
    unfold quietWord, progressOf in S1.
    destruct (trim w') as [|ch r] eqn:T; [contradiction|].
    rewrite Hh in S1.
    destruct (processWord (language c) (ch :: r) (host c))
      as [lang1 h1] eqn:PW.
    set (bX := mkBatch (InFlight i (ch :: r))
           (mkBatchState (isPaused (batchState c)) (shouldStop (batchState c))
              (currentIndex (batchState c)) (totalWords (batchState c))
              (setAdd (ch :: r) (processedWords (batchState c))))
           lang1 (wordList c) (saveInterval c)
           (processed c + 1) (savedAt c) h1 (saved c) (clock c)).
    assert (R0 : run quiet 1 c = afterWord i (tick bX)).
    { cbn [run]. rewrite step_quiet. unfold resume. rewrite P, PW.
      rewrite tick_afterWord. reflexivity. }
    destruct (quiet_afterWord i (tick bX))
      as (n1 & b2 & R1 & P2 & W2 & F1 & F2).
    destruct (@loopHead_finishes (i + 1) b2) as (n2 & b' & R2 & Q).
    + rewrite W2. exact Hw.
    + split; [rewrite F1 | rewrite F2]; assumption.
    + rewrite P2. symmetry. exact S1.
    + exists (n2 + (n1 + 1)), b'. split; [|exact Q].
      rewrite !run_add, R0, R1. exact R2.
  - (* Saving *)
    destruct Hpc as (Hi & Hp).
    set (d := mkBatch (Delay i) (batchState c) (language c) (wordList c)
                (saveInterval c) (processed c) (processed c) (host c)
                (saved c ++ [checkpointAt c (i + 1)]) (clock c)).
    destruct (@loopHead_finishes (i + 1) (tick (tick (tick d))))
      as (n & b' & R & Q); [exact Hw | split; assumption | exact Hp |].
    exists (n + 3), b'. split; [|exact Q].
    rewrite run_add. cbn [run]. rewrite !step_quiet.
    rewrite <- R. f_equal. rewrite <- tick_loopHead. f_equal.
    subst d. clear -P. destruct c as [p bs l wl si pr sa ho sv cl].
    cbn [pc] in P. subst p. reflexivity.
  - (* Flushing *)
    destruct Hpc as (Hi & Hp).
    set (d := mkBatch (Delay i) (batchState c) (language c) (wordList c)
                (saveInterval c) (processed c) (processed c) (host c)
                (saved c) (clock c)).
    destruct (@loopHead_finishes (i + 1) (tick (tick d)))
      as (n & b' & R & Q); [exact Hw | split; assumption | exact Hp |].
    exists (n + 2), b'. split; [|exact Q].
    rewrite run_add. cbn [run]. rewrite !step_quiet.
    rewrite <- R. f_equal. rewrite <- tick_loopHead. f_equal.
    subst d. clear -P. destruct c as [p bs l wl si pr sa ho sv cl].
    cbn [pc] in P. subst p. reflexivity.
  - (* Delay *)
    destruct Hpc as (Hi & Hp).
    destruct (@loopHead_finishes (i + 1) (tick c)) as (n & b' & R & Q);
      [exact Hw | split; assumption | exact Hp |].
    exists (n + 1), b'. split; [|exact Q].
    rewrite run_add. cbn [run]. rewrite step_quiet.
    rewrite <- R. f_equal. rewrite <- tick_loopHead. f_equal.
    apply resume_Delay, P.
  - (* FinalSave *)
    exists 1. eexists. split; [reflexivity|].
    cbn [run]. rewrite step_quiet. unfold resume. rewrite P.
    split; [reflexivity | exact Hpc].
  - (* Finished *)
    destruct r as [n|n j| |]; try contradiction. destruct Hpc as (-> & Hp).
    exists 0, c. split; [reflexivity|]. split; assumption.
Qed.
End RunInvariant.

Lemma runInv_run (lang : Language) (words : list str) (interval : nat)
  (h : Host) (env : Env) (t : nat) :
  (forall j, j < t -> ~ In SIGINT (env j)) ->
  (forall j, j < t -> ~ In Rejection (env j)) ->
  runInv words (lang, [], h, 0)
    (run env t (processWordsBatch lang words interval None h)).
Proof.
  induction t as [|t IH]; intros Hn Hr.
  - unfold processWordsBatch. cbn [run].
    apply runInv_loopHead; try reflexivity. lia.
  - cbn [run].
    assert (C : clock (run env t (processWordsBatch lang words interval None h))
                = t).
    { rewrite clock_run. unfold processWordsBatch. rewrite clock_loopHead.
      reflexivity. }
    apply runInv_step;
      [rewrite C; apply Hn; lia | rewrite C; apply Hr; lia |
       apply IH; intros j Hj; [apply Hn | apply Hr]; lia].
Qed.

(** Once finished, a batch stays as it is (the clock apart). *)
Lemma finished_frozen (env : Env) (n : nat) (b : Batch) (r : BatchResult) :
  pc b = Finished r ->
  pc (run env n b) = Finished r /\
  progressOf (run env n b) = progressOf b /\
  saved (run env n b) = saved b.
Proof.
  intros H. induction n as [|n (I1 & I2 & I3)]; [auto|].
  cbn [run]. unfold step, interrupted.
  assert (D : forall sigs c, pc c = Finished r -> deliver sigs c = c).
  { induction sigs as [|s sigs IHs]; intros c Hc; [reflexivity|].
    unfold deliver in *. cbn [fold_left]. unfold handle at 2. rewrite Hc.
    apply IHs, Hc. }
  rewrite (D _ _ I1). unfold resume. rewrite I1. cbn [awaitsWrite].
  rewrite andb_false_r.
  split; [exact I1|]. split; [exact I2 | exact I3].
Qed.

(** Pausing does not change what a batch produces: under any sequence of
    pause-file events (no Ctrl+C, and no write that fails), once the events
    have ceased with the pause flag down, the batch returns as completed,
    with the language, the set of processed words, the oracle and the count
    of the run that no signal disturbs and in which no write fails. *)
Theorem pause_resume_transparent (lang : Language) (words : list str)
  (interval : nat) (h : Host) (env : Env) (t1 : nat) :
  (forall j, ~ In SIGINT (env j)) ->
  (forall j, ~ In Rejection (env j)) ->
  (forall j, t1 <= j -> env j = []) ->
  isPaused (batchState
    (run env t1 (processWordsBatch lang words interval None h))) = false ->
  exists n, forall m, n <= m ->
    let e := run env m (processWordsBatch lang words interval None h) in
    let q := run quiet m (processWordsBatch lang words interval None h) in
    pc e = Finished (Completed (processed e)) /\
    pc q = Finished (Completed (processed q)) /\
    progressOf e = progressOf q.
Proof.
  intros Hns Hnr Hq Hu.
  set (b0 := processWordsBatch lang words interval None h) in *.
  assert (Hc0 : clock b0 = 0) by apply clock_loopHead.
  pose proof (@runInv_run lang words interval h env t1
                (fun j _ => Hns j) (fun j _ => Hnr j)) as Inv. fold b0 in Inv.
  destruct (runInv_finishes Inv Hu) as (n1 & b1 & R1 & P1 & Q1).
  pose proof (@runInv_run lang words interval h quiet 0
                (fun j _ (I : In SIGINT []) => I)
                (fun j _ (I : In Rejection []) => I)) as Inv0.
  fold b0 in Inv0.
  destruct (@runInv_finishes words (lang, [], h, 0) b0 Inv0)
    as (n2 & b2 & R2 & P2 & Q2).
  { unfold b0, processWordsBatch, loopHead. cbn [batchState wordList].
    destruct (0 <? length words); [|reflexivity]. cbn [shouldStop isPaused].
    unfold startWord. cbn [wordList]. destruct (nth_error words 0) as [w|].
    - destruct (trim w); [|cbn [setHas existsb processedWords batchState]];
        unfold afterWord; cbv zeta; try destruct (needsSave _); reflexivity.
    - unfold afterWord; cbv zeta; destruct (needsSave _); reflexivity. }
  assert (E1 : run env (n1 + t1) b0 = b1).
  { rewrite run_add, <- R1. apply run_quiet_prefix.
    intros j _. apply Hq. rewrite clock_run, Hc0. lia. }
  exists (Nat.max (n1 + t1) n2). intros m Hm. cbv zeta.
  assert (Ee : run env m b0 = run env (m - (n1 + t1)) b1).
  { rewrite <- E1, <- run_add. f_equal. lia. }
  assert (Eq : run quiet m b0 = run quiet (m - n2) b2).
  { rewrite <- R2, <- run_add. f_equal. lia. }
  rewrite Ee, Eq.
  destruct (finished_frozen env (m - (n1 + t1)) b1 P1) as (A1 & A2 & _).
  destruct (finished_frozen quiet (m - n2) b2 P2) as (B1 & B2 & _).
  pose proof (f_equal snd A2) as A3. pose proof (f_equal snd B2) as B3.
  unfold progressOf in A3, B3. cbn [snd] in A3, B3.
  rewrite A1, B1, A2, B2, A3, B3, Q1, Q2. auto.
Qed.

Lemma pauseBetween_noStop (t1 t2 j : nat) : ~ In SIGINT (pauseBetween t1 t2 j).
Proof.
  unfold pauseBetween. destruct (j =? t1); [intros [H|[]]; discriminate|].
  destruct (j =? t2); [intros [H|[]]; discriminate | intros []].
Qed.

Lemma pauseBetween_noRejection (t1 t2 j : nat) :
  ~ In Rejection (pauseBetween t1 t2 j).
Proof.
  unfold pauseBetween. destruct (j =? t1); [intros [H|[]]; discriminate|].
  destruct (j =? t2); [intros [H|[]]; discriminate | intros []].
Qed.

Lemma pauseBetween_after (t1 t2 j : nat) :
  t1 < j -> t2 < j -> pauseBetween t1 t2 j = [].
Proof.
  intros H1 H2. unfold pauseBetween.
  destruct (j =? t1) eqn:E1; [apply Nat.eqb_eq in E1; lia|].
  destruct (j =? t2) eqn:E2; [apply Nat.eqb_eq in E2; lia|]. reflexivity.
Qed.

(** Three words, saving every second word; the pause file is seen after the
    first word and removed three awaits later. *)
Lemma pause_resume_transparent_witness :
  (forall j, ~ In SIGINT (pauseBetween 1 4 j)) /\
  (forall j, ~ In Rejection (pauseBetween 1 4 j)) /\
  (forall j, 5 <= j -> pauseBetween 1 4 j = []) /\
  isPaused (batchState
    (run (pauseBetween 1 4) 5
       (processWordsBatch demoLanguage [lit "cat"; lit "dog"; lit "sun"] 2
          None demoHost))) = false /\
  exists n, forall m, n <= m ->
    let e := run (pauseBetween 1 4) m
               (processWordsBatch demoLanguage
                  [lit "cat"; lit "dog"; lit "sun"] 2 None demoHost) in
    let q := run quiet m
               (processWordsBatch demoLanguage
                  [lit "cat"; lit "dog"; lit "sun"] 2 None demoHost) in
    pc e = Finished (Completed (processed e)) /\
    pc q = Finished (Completed (processed q)) /\
    progressOf e = progressOf q.
Proof.
  assert (H1 : forall j, ~ In SIGINT (pauseBetween 1 4 j))
    by (intros j; apply pauseBetween_noStop).
  assert (H0 : forall j, ~ In Rejection (pauseBetween 1 4 j))
    by (intros j; apply pauseBetween_noRejection).
  assert (H2 : forall j, 5 <= j -> pauseBetween 1 4 j = [])
    by (intros j Hj; apply pauseBetween_after; lia).
  assert (H3 : isPaused (batchState
    (run (pauseBetween 1 4) 5
       (processWordsBatch demoLanguage [lit "cat"; lit "dog"; lit "sun"] 2
          None demoHost))) = false) by (vm_compute; reflexivity).
  split; [exact H1|]. split; [exact H0|]. split; [exact H2|].
  split; [exact H3|].
  exact (@pause_resume_transparent demoLanguage
           [lit "cat"; lit "dog"; lit "sun"] 2 demoHost (pauseBetween 1 4) 5
           H1 H0 H2 H3).
Defined.

(* ---- stop ---- *)

Section StopInvariant.
Variables (words : list str) (pr : Progress) (i : nat).
Hypothesis inRange : i < length words.

Lemma stopInv_paused (b : Batch) (p : bool) :
  stopInv words pr i b ->
  stopInv words pr i (withState (setPaused p (batchState b)) b).
Proof. intros H. exact H. Qed.

Lemma stopInv_afterWord (b : Batch) :
  wordList b = words -> shouldStop (batchState b) = true ->
  progressOf b = pr -> stopInv words pr i (afterWord i b).
Proof.
  intros Hw Hs Hp. unfold afterWord. cbv zeta.
  destruct (needsSave _); unfold stopInv; cbn [pc withPc wordList];
    (split; [exact Hw|]); (split; [exact Hs|]); split; auto.
Qed.

Lemma stopInv_resume (b : Batch) :
  stopInv words pr i b ->
  stopInv words pr i (resume b) /\
  stopRank (pc (resume b)) <= pred (stopRank (pc b)).
Proof.
  intros (Hw & Hs & Hp & Hpc). unfold resume.
  destruct (pc b) as [ck|j|j w|j|j|j|j|j| |r] eqn:P; try contradiction.
  - subst j. split; [|cbn; lia].
    unfold stopInv. cbn [pc wordList]. split; [exact Hw|].
    split; [exact Hs|]. split; [exact Hp | reflexivity].
  - subst j. split; [|cbn; lia].
    unfold stopInv. cbn [pc wordList]. split; [exact Hw|].
    split; [exact Hs|]. split; [exact Hp | reflexivity].
  - subst j. unfold loopHead. rewrite Hw, Hs.
    destruct (i + 1 <? length words) eqn:Lt.
    + apply Nat.ltb_lt in Lt. split; [|cbn; lia].
      unfold stopInv. cbn [pc withPc wordList]. split; [exact Hw|].
      split; [exact Hs|]. split; [exact Hp|]. split; [reflexivity | exact Lt].
    + apply Nat.ltb_ge in Lt. split; [|cbn; lia].
      unfold stopInv. cbn [pc withPc wordList]. split; [exact Hw|].
      split; [exact Hs|]. split; [exact Hp | lia].
  - destruct Hpc as (-> & Lt). split; [|cbn; lia].
    unfold stopInv. cbn [pc wordList]. split; [exact Hw|].
    split; [exact Hs|]. split; [exact Hp|].
    split; [reflexivity|]. split; [exact Lt|].
    exists (saved b). reflexivity.
  - destruct Hpc as (-> & Lt & Hck). split; [|cbn; lia].
    unfold stopInv. cbn [pc withPc wordList]. split; [exact Hw|].
    split; [exact Hs|]. split; [exact Hp|].
    split; [reflexivity|]. split; [reflexivity|]. split; [exact Lt|].
    exact Hck.
  - split; [|cbn; lia].
    unfold stopInv. cbn [pc withPc wordList]. split; [exact Hw|].
    split; [exact Hs|]. split; [exact Hp|]. split; [reflexivity | exact Hpc].
  - split; [|rewrite P; cbn; lia]. unfold stopInv. rewrite P. auto.
Qed.

Lemma stopInv_step (env : Env) (b : Batch) :
  ~ In SIGINT (env (clock b)) -> ~ In Rejection (env (clock b)) ->
  stopInv words pr i b ->
  stopInv words pr i (step env b) /\
  stopRank (pc (step env b)) <= pred (stopRank (pc b)).
Proof.
  intros Hn Hr H. rewrite step_accepted by (apply rejected_In, Hr).
  unfold interrupted.
  destruct (deliver_pause _ b Hn) as [p ->].
  exact (stopInv_resume (stopInv_paused p H)).
Qed.

Lemma stopInv_run (env : Env) (k : nat) (b : Batch) :
  (forall j, j < k -> ~ In SIGINT (env (clock b + j))) ->
  (forall j, j < k -> ~ In Rejection (env (clock b + j))) ->
  stopInv words pr i b ->
  stopInv words pr i (run env k b) /\
  stopRank (pc (run env k b)) <= stopRank (pc b) - k.
Proof.
  induction k as [|k IH]; intros Hn Hr H.
  - cbn [run]. split; [exact H | lia].
  - destruct IH as (I1 & I2);
      [intros j Hj; apply Hn; lia | intros j Hj; apply Hr; lia | exact H |].
    cbn [run]. destruct (@stopInv_step env (run env k b)) as (S1 & S2).
    + rewrite clock_run. apply Hn. lia.
    + rewrite clock_run. apply Hr. lia.
    + exact I1.
    + split; [exact S1 | lia].
Qed.
End StopInvariant.

Lemma deliver_finished (sigs : list Signal) (c : Batch) (r : BatchResult) :
  pc c = Finished r -> deliver sigs c = c.
Proof.
  revert c. induction sigs as [|s sigs IHs]; intros c Hc; [reflexivity|].
  unfold deliver in *. cbn [fold_left]. unfold handle at 2. rewrite Hc.
  apply IHs, Hc.
Qed.

Lemma deliver_forced (sigs : list Signal) (b : Batch) :
  (forall r, pc b <> Finished r) ->
  shouldStop (batchState b) = true -> In SIGINT sigs ->
  pc (deliver sigs b) = Finished ForcedExit /\
  progressOf (deliver sigs b) = progressOf b /\
  saved (deliver sigs b) = saved b.
Proof.
  revert b. induction sigs as [|s sigs IH]; intros b Hnf Hs Hin; [destruct Hin|].
  change (deliver (s :: sigs) b) with (deliver sigs (handle b s)).
  destruct s.
  - assert (E : handle b SIGINT = withPc (Finished ForcedExit) b).
    { unfold handle. rewrite Hs.
      destruct (pc b) eqn:P; try reflexivity. exfalso. apply (Hnf r eq_refl). }
    rewrite E, (@deliver_finished sigs _ ForcedExit) by reflexivity. auto.
  - destruct (@handle_pause b PauseFileSeen) as [p ->]; [discriminate|].
    destruct (IH (withState (setPaused p (batchState b)) b)) as (A & B & C);
      auto. destruct Hin as [Hin|Hin]; [discriminate | exact Hin].
  - destruct (@handle_pause b PauseFileRemoved) as [p ->]; [discriminate|].
    destruct (IH (withState (setPaused p (batchState b)) b)) as (A & B & C);
      auto. destruct Hin as [Hin|Hin]; [discriminate | exact Hin].
  - destruct (@handle_pause b Rejection) as [p ->]; [discriminate|].
    destruct (IH (withState (setPaused p (batchState b)) b)) as (A & B & C);
      auto. destruct Hin as [Hin|Hin]; [discriminate | exact Hin].
Qed.

Lemma step_forced (env : Env) (c : Batch) :
  pc (interrupted env c) = Finished ForcedExit ->
  step env c = tick (interrupted env c).
Proof.
  intros A. unfold step. cbv zeta. rewrite A. cbn [awaitsWrite].
  rewrite andb_false_r. unfold resume. rewrite A. reflexivity.
Qed.

Lemma ctrlC_noRejection (listeners : nat) : ~ In Rejection (ctrlC listeners).
Proof.
  unfold ctrlC. intros I. apply repeat_spec in I. discriminate.
Qed.

(** Ctrl+C while word [i] is being processed, no write failing. In the first
    batch of a process, where one listener runs: the word is finished and
    committed, then the batch saves a checkpoint for the next index, flushes
    the dictionaries and returns as stopped, whatever pause-file events take
    place meanwhile; when the word was the last one there is no further
    turn of the loop to see the request, and the batch returns as
    completed. In a later batch of the same process, where the listeners of
    the earlier batches run too: the first listener requests the stop and
    the second one exits the process, so that the word in flight is not
    committed and nothing is saved. *)
Theorem sigint_stops_after_current_word (lang : Language) (words : list str)
  (interval : nat) (h : Host) (env : Env) (t0 i : nat) (w : str)
  (listeners : nat) :
  (forall j, j <> t0 -> ~ In SIGINT (env j)) ->
  (forall j, ~ In Rejection (env j)) ->
  env t0 = ctrlC listeners ->
  pc (run env t0 (processWordsBatch lang words interval None h))
    = InFlight i w ->
  (listeners = 1 ->
   exists n, forall m, n <= m ->
     let e := run env m (processWordsBatch lang words interval None h) in
     progressOf e = quietBatch (firstn (i + 1) words) (lang, [], h, 0) /\
     (i + 1 < length words ->
        pc e = Finished (Stopped (processed e) (i + 1)) /\
        exists cks, saved e = cks ++ [checkpointAt e (i + 1)]) /\
     (length words <= i + 1 -> pc e = Finished (Completed (processed e)))) /\
  (2 <= listeners ->
   forall m, t0 < m ->
     let e := run env m (processWordsBatch lang words interval None h) in
     pc e = Finished ForcedExit /\
     progressOf e = quietBatch (firstn i words) (lang, [], h, 0) /\
     saved e
     = saved (run env t0 (processWordsBatch lang words interval None h))).
Proof.
  intros Hns Hnr Hsig Hpc.
  set (b0 := processWordsBatch lang words interval None h) in *.
  assert (Hc0 : clock b0 = 0) by apply clock_loopHead.
  pose proof (@runInv_run lang words interval h env t0) as Inv.
  fold b0 in Inv.
  specialize (Inv (fun j Hj => Hns j ltac:(lia)) (fun j _ => Hnr j)).
  set (c := run env t0 b0) in *.
  assert (Hclock : clock c = t0) by (unfold c; rewrite clock_run; lia).
  destruct Inv as (Hw & Hs & Hin). rewrite Hpc in Hin.
  destruct Hin as ((w' & Hn & ->) & Hne & Hh & Hp).
  assert (Hi : i < length words) by (apply nth_error_Some; congruence).
  split.
  - intros ->.
    pose proof (builtFrom_succ words (lang, [], h, 0) i Hn) as S1.
    rewrite <- Hp in S1. unfold quietWord, progressOf in S1.
    destruct (trim w') as [|ch r] eqn:T; [contradiction|].
    rewrite Hh in S1.
    set (pr := builtFrom words (lang, [], h, 0) (i + 1)) in *.
    assert (St1 : stopInv words pr i (run env 1 c)).
    { cbn [run]. unfold step, interrupted. rewrite Hclock, Hsig.
      cbn [ctrlC repeat rejected existsb isRejection andb orb].
      unfold deliver. cbn [fold_left]. unfold handle. rewrite Hpc, Hs.
      unfold resume. cbn [pc withState]. rewrite Hpc.
      cbn [language host withState].
      destruct (processWord (language c) (ch :: r) (host c)) as [lang1 h1].
      rewrite tick_afterWord. apply stopInv_afterWord; auto. }
    assert (Rk1 : stopRank (pc (run env 1 c)) <= 5).
    { destruct St1 as (_ & _ & _ & M).
      destruct (pc (run env 1 c)); cbn; try lia; contradiction. }
    exists (t0 + 6). intros m Hm. cbv zeta.
    replace m with ((m - (t0 + 1)) + (1 + t0)) by lia.
    rewrite run_add. fold c. rewrite run_add.
    destruct (@stopInv_run words pr i Hi env (m - (t0 + 1)) (run env 1 c))
      as (I1 & I2).
    { intros j Hj. apply Hns. rewrite clock_run, Hclock. lia. }
    { intros j _. apply Hnr. }
    { exact St1. }
    set (e := run env (m - (t0 + 1)) (run env 1 c)) in *.
    assert (R0 : stopRank (pc e) = 0) by lia.
    destruct I1 as (_ & _ & Pe & M).
    split; [exact Pe|].
    destruct (pc e) as [ck|j|j x|j|j|j|j|j| |[n|n j| |]] eqn:P;
      try contradiction; try discriminate.
    + destruct M as (-> & E). split; [intros; lia | intros _; exact P].
    + destruct M as (-> & -> & Lt & Hck).
      split; [intros _; split; [exact P | exact Hck] | intros; lia].
  - intros Hl m Hm. cbv zeta.
    destruct listeners as [|[|k]]; try lia.
    assert (F : pc (interrupted env c) = Finished ForcedExit /\
                progressOf (interrupted env c) = progressOf c /\
                saved (interrupted env c) = saved c).
    { unfold interrupted. rewrite Hclock, Hsig.
      change (deliver (ctrlC (S (S k))) c)
        with (deliver (ctrlC (S k)) (handle c SIGINT)).
      assert (E : handle c SIGINT = withState (setStop true (batchState c)) c).
      { unfold handle. rewrite Hpc, Hs. reflexivity. }
      rewrite E.
      destruct (@deliver_forced (ctrlC (S k))
                  (withState (setStop true (batchState c)) c))
        as (A & B & C).
      - intros r. cbn [pc withState]. rewrite Hpc. discriminate.
      - reflexivity.
      - left. reflexivity.
      - split; [exact A|]. split; [exact B | exact C]. }
    destruct F as (A & B & C).
    assert (E1 : run env (S t0) b0 = tick (interrupted env c)).
    { cbn [run]. fold c. apply step_forced, A. }
    replace m with ((m - S t0) + S t0) by lia. rewrite run_add.
    destruct (finished_frozen env (m - S t0) (run env (S t0) b0))
      with (r := ForcedExit) as (F1 & F2 & F3).
    { rewrite E1. exact A. }
    rewrite F1, F2, F3, E1.
    change (progressOf (tick (interrupted env c)))
      with (progressOf (interrupted env c)).
    change (saved (tick (interrupted env c)))
      with (saved (interrupted env c)).
    rewrite B, C, Hp. auto.
Qed.

Lemma stopAt_elsewhere (listeners t j : nat) :
  j <> t -> ~ In SIGINT (stopAt listeners t j).
Proof.
  intros H. unfold stopAt. destruct (j =? t) eqn:E;
    [apply Nat.eqb_eq in E; contradiction | intros []].
Qed.

Lemma stopAt_noRejection (listeners t j : nat) :
  ~ In Rejection (stopAt listeners t j).
Proof.
  unfold stopAt. destruct (j =? t); [apply ctrlC_noRejection | intros []].
Qed.

(** Three words, saving every second word; Ctrl+C while the second word is
    being processed, in the first batch of the process. *)
Lemma sigint_stops_after_current_word_witness :
  (forall j, j <> 2 -> ~ In SIGINT (stopAt 1 2 j)) /\
  (forall j, ~ In Rejection (stopAt 1 2 j)) /\
  stopAt 1 2 2 = ctrlC 1 /\
  pc (run (stopAt 1 2) 2
        (processWordsBatch demoLanguage [lit "cat"; lit "dog"; lit "sun"] 2
           None demoHost)) = InFlight 1 (lit "dog") /\
  (1 = 1 ->
   exists n, forall m, n <= m ->
     let e := run (stopAt 1 2) m
                (processWordsBatch demoLanguage
                   [lit "cat"; lit "dog"; lit "sun"] 2 None demoHost) in
     progressOf e
       = quietBatch (firstn (1 + 1) [lit "cat"; lit "dog"; lit "sun"])
           (demoLanguage, [], demoHost, 0) /\
     (1 + 1 < length [lit "cat"; lit "dog"; lit "sun"] ->
        pc e = Finished (Stopped (processed e) (1 + 1)) /\
        exists cks, saved e = cks ++ [checkpointAt e (1 + 1)]) /\
     (length [lit "cat"; lit "dog"; lit "sun"] <= 1 + 1 ->
        pc e = Finished (Completed (processed e)))) /\
  (2 <= 1 ->
   forall m, 2 < m ->
     let e := run (stopAt 1 2) m
                (processWordsBatch demoLanguage
                   [lit "cat"; lit "dog"; lit "sun"] 2 None demoHost) in
     pc e = Finished ForcedExit /\
     progressOf e
       = quietBatch (firstn 1 [lit "cat"; lit "dog"; lit "sun"])
           (demoLanguage, [], demoHost, 0) /\
     saved e
     = saved (run (stopAt 1 2) 2
                (processWordsBatch demoLanguage
                   [lit "cat"; lit "dog"; lit "sun"] 2 None demoHost))).
Proof.
  assert (H1 : forall j, j <> 2 -> ~ In SIGINT (stopAt 1 2 j))
    by (intros j; apply stopAt_elsewhere).
  assert (H0 : forall j, ~ In Rejection (stopAt 1 2 j))
    by (intros j; apply stopAt_noRejection).
  assert (H2 : stopAt 1 2 2 = ctrlC 1) by reflexivity.
  assert (H3 : pc (run (stopAt 1 2) 2
        (processWordsBatch demoLanguage [lit "cat"; lit "dog"; lit "sun"] 2
           None demoHost)) = InFlight 1 (lit "dog"))
    by (vm_compute; reflexivity).
  split; [exact H1|]. split; [exact H0|]. split; [exact H2|].
  split; [exact H3|].
  exact (@sigint_stops_after_current_word demoLanguage
           [lit "cat"; lit "dog"; lit "sun"] 2 demoHost (stopAt 1 2) 2 1
           (lit "dog") 1 H1 H0 H2 H3).
Defined.

(** Ctrl+C when a stop is already requested and the batch has not returned
    yet: the process exits at once. The batch never returns a result, the
    word in flight is not committed, and no checkpoint is written from then
    on: the progress files are those written before. The exception is an
    exit that falls into the write of a progress file (the await of
    [saveBatchProgress]): of that file nothing is said, it may or may not
    have reached the disk. *)
Theorem second_sigint_forces_exit (env : Env) (b : Batch) (t : nat) :
  (forall r, pc (run env t b) <> Finished r) ->
  shouldStop (batchState (run env t b)) = true ->
  In SIGINT (env (clock (run env t b))) ->
  forall m, t < m ->
    pc (run env m b) = Finished ForcedExit /\
    progressOf (run env m b) = progressOf (run env t b) /\
    (awaitsProgressFile (pc (run env t b)) = false ->
     saved (run env m b) = saved (run env t b)).
Proof.
  intros Hnf Hs Hin m Hm.
  replace m with ((m - S t) + S t) by lia. rewrite run_add.
  set (c := run env t b) in *.
  destruct (@deliver_forced _ _ Hnf Hs Hin) as (A & B & C).
  assert (E : run env (S t) b = tick (interrupted env c)).
  { cbn [run]. fold c. apply step_forced, A. }
  destruct (finished_frozen env (m - S t) (run env (S t) b))
    with (r := ForcedExit) as (F1 & F2 & F3).
  { rewrite E. exact A. }
  rewrite F1, F2, F3, E.
  split; [reflexivity|]. split; [exact B | intros _; exact C].
Qed.

(** Three words, saving every second word; Ctrl+C while the second word is
    being processed, and again two awaits later, while the dictionaries are
    flushed after the progress file was written. *)
Lemma second_sigint_forces_exit_witness :
  (forall r,
     pc (run (stopTwice 2 4) 4
           (processWordsBatch demoLanguage [lit "cat"; lit "dog"; lit "sun"] 2
              None demoHost)) <> Finished r) /\
  shouldStop (batchState
    (run (stopTwice 2 4) 4
       (processWordsBatch demoLanguage [lit "cat"; lit "dog"; lit "sun"] 2
              None demoHost))) = true /\
  In SIGINT (stopTwice 2 4 (clock
    (run (stopTwice 2 4) 4
       (processWordsBatch demoLanguage [lit "cat"; lit "dog"; lit "sun"] 2
              None demoHost)))) /\
  forall m, 4 < m ->
    pc (run (stopTwice 2 4) m
          (processWordsBatch demoLanguage [lit "cat"; lit "dog"; lit "sun"] 2
              None demoHost)) = Finished ForcedExit /\
    progressOf (run (stopTwice 2 4) m
          (processWordsBatch demoLanguage [lit "cat"; lit "dog"; lit "sun"] 2
              None demoHost))
      = progressOf (run (stopTwice 2 4) 4
          (processWordsBatch demoLanguage [lit "cat"; lit "dog"; lit "sun"] 2
              None demoHost)) /\
    (awaitsProgressFile
       (pc (run (stopTwice 2 4) 4
              (processWordsBatch demoLanguage [lit "cat"; lit "dog"; lit "sun"] 2
              None demoHost))) = false ->
     saved (run (stopTwice 2 4) m
          (processWordsBatch demoLanguage [lit "cat"; lit "dog"; lit "sun"] 2
              None demoHost))
      = saved (run (stopTwice 2 4) 4
          (processWordsBatch demoLanguage [lit "cat"; lit "dog"; lit "sun"] 2
              None demoHost))).
Proof.
  assert (H1 : forall r,
     pc (run (stopTwice 2 4) 4
           (processWordsBatch demoLanguage [lit "cat"; lit "dog"; lit "sun"] 2
              None demoHost)) <> Finished r)
    by (intros r; vm_compute; discriminate).
  assert (H2 : shouldStop (batchState
    (run (stopTwice 2 4) 4
       (processWordsBatch demoLanguage [lit "cat"; lit "dog"; lit "sun"] 2
              None demoHost))) = true) by (vm_compute; reflexivity).
  assert (H3 : In SIGINT (stopTwice 2 4 (clock
    (run (stopTwice 2 4) 4
       (processWordsBatch demoLanguage [lit "cat"; lit "dog"; lit "sun"] 2
              None demoHost))))) by (vm_compute; left; reflexivity).
  split; [exact H1|]. split; [exact H2|]. split; [exact H3|].
  exact (@second_sigint_forces_exit (stopTwice 2 4)
           (processWordsBatch demoLanguage [lit "cat"; lit "dog"; lit "sun"] 2
              None demoHost) 4 H1 H2 H3).
Defined.

(* ================================================================== *)
(** ** Adding words: accounting, and resuming from a checkpoint *)
(* ================================================================== *)

Lemma length_addKeys (l acc : list str) :
  length (fold_left (addKey str_eqb) l acc) <= length acc + length l.
Proof.
  revert acc. induction l as [|a l IH]; intros acc; simpl; [lia|].
  specialize (IH (addKey str_eqb acc a)). unfold addKey in *.
  destruct (existsb (str_eqb a) acc); [lia|].
  rewrite length_app in IH. simpl in IH. lia.
Qed.

(** A batch of trimmed, non-blank words none of which is in the vocabulary
    unless it was already gone through: each distinct one is processed once,
    its entry goes to the end of the vocabulary, and the entries that were
    there stay as they are. *)
Lemma quietBatch_fresh (ws : list str) :
  forall (L : Language) (done : list str) (h : Host) (n : nat),
    (forall w, In w ws -> trim w = w /\ w <> []) ->
    (forall w, In w done -> JMap.has str_eqb w (vocabulary L) = true) ->
    (forall w, In w ws -> JMap.has str_eqb w (vocabulary L) = true ->
               In w done) ->
    exists L' h' added,
      quietBatch ws (L, done, h, n)
        = (L', done ++ added, h', n + length added) /\
      done ++ added = fold_left (addKey str_eqb) ws done /\
      JMap.keys (vocabulary L') = JMap.keys (vocabulary L) ++ added /\
      (forall k, JMap.has str_eqb k (vocabulary L) = true ->
         JMap.get str_eqb k (vocabulary L')
         = JMap.get str_eqb k (vocabulary L)).
Proof.
  induction ws as [|w ws IH]; intros L done h n Hws Hdone Hvoc.
  - exists L, h, []. simpl. rewrite !app_nil_r, Nat.add_0_r. auto.
  - destruct (Hws w (or_introl eq_refl)) as (Tw & Nw).
    unfold quietBatch. cbn [fold_left].
    assert (Q : quietWord (L, done, h, n) w
                = if setHas w done then (L, done, h, n)
                  else (fst (processWord L w h), setAdd w done,
                        snd (processWord L w h), n + 1)).
    { unfold quietWord. rewrite Tw. destruct w as [|c r]; [contradiction|].
      destruct (setHas (c :: r) done); [reflexivity|].
      destruct (processWord L (c :: r) h). reflexivity. }
    rewrite Q.
    change (addKey str_eqb done w)
      with (if setHas w done then done else done ++ [w]).
    destruct (setHas w done) eqn:Hh.
    + destruct (IH L done h n) as (L' & h' & added & E & F & K & G).
      * intros x Hx. apply Hws. right. exact Hx.
      * exact Hdone.
      * intros x Hx. apply Hvoc. right. exact Hx.
      * exists L', h', added. unfold quietBatch in E. auto.
    + apply setHas_false in Hh.
      assert (Habs : JMap.has str_eqb w (vocabulary L) = false).
      { destruct (JMap.has str_eqb w (vocabulary L)) eqn:E; [|reflexivity].
        exfalso. apply Hh. apply Hvoc; [left; reflexivity | exact E]. }
      destruct (processWord_vocabulary L w h) as (e & _ & Hv & _).
      rewrite (@setAdd_absent _ _ Hh).
      destruct (IH (fst (processWord L w h)) (done ++ [w])
                   (snd (processWord L w h)) (n + 1))
        as (L' & h' & added & E & F & K & G).
      * intros x Hx. apply Hws. right. exact Hx.
      * intros x Hx. rewrite Hv, (has_set _ str_eqb_eq).
        apply in_app_or in Hx. destruct Hx as [Hx|[Hx|[]]].
        -- rewrite (Hdone x Hx). apply orb_true_r.
        -- subst x. rewrite str_eqb_refl. reflexivity.
      * intros x Hx. rewrite Hv, (has_set _ str_eqb_eq). intros Hor.
        apply in_or_app. apply orb_true_iff in Hor. destruct Hor as [Hor|Hor].
        -- right. left. apply str_eqb_eq in Hor. auto.
        -- left. apply Hvoc; [right; exact Hx | exact Hor].
      * exists L', h', (w :: added). unfold quietBatch in E. rewrite E.
        rewrite <- !app_assoc in *. cbn [app length] in *.
        split; [f_equal; lia|]. split; [exact F|].
        split; [rewrite K, Hv, (keys_set_absent _ _ _ Habs), <- app_assoc;
                reflexivity|].
        intros k Hk. rewrite G.
        -- rewrite Hv. apply (get_set_neq _ str_eqb_eq). intros ->. congruence.
        -- rewrite Hv, (has_set _ str_eqb_eq), Hk. apply orb_true_r.
Qed.

Lemma wordsToAdd_clean (lang : Language) (ws : list str) (w : str) :
  In w (wordsToAdd lang ws) ->
  trim w = w /\ w <> [] /\ JMap.has str_eqb w (vocabulary lang) = false.
Proof.
  unfold wordsToAdd. intros H. apply in_map_iff in H.
  destruct H as (x & <- & Hx). apply filter_In in Hx. destruct Hx as (_ & Hx).
  unfold isNewWord in Hx. split; [apply trim_idem|].
  destruct (trim x); [discriminate|]. split; [discriminate|].
  apply negb_true_iff in Hx. exact Hx.
Qed.

Lemma wordsToAdd_length (lang : Language) (ws : list str) :
  length (wordsToAdd lang ws) <= length ws.
Proof.
  unfold wordsToAdd. rewrite length_map.
  induction ws as [|a ws IH]; simpl; [lia|].
  destruct (isNewWord lang a); simpl; lia.
Qed.

(** Adding words, with no signal, no progress file to resume from and no
    write failing: the call returns; each distinct new word (trimmed,
    non-blank, not yet in the vocabulary) is added once, at the end of the
    vocabulary and in order of first occurrence; the added and skipped
    counts add up to the number of words given; and the entries that were
    in the vocabulary are left as they were. *)
Theorem add_words_accounting (lang : Language) (ws : list str)
  (saveInterval : option nat) (h : Host) :
  exists fuel0, forall fuel, fuel0 <= fuel ->
    exists r,
      addWordsToLanguage lang ws saveInterval None quiet fuel h
      = Returned r /\
      wasStopped r <> Some true /\
      JMap.keys (vocabulary (r_language r))
        = JMap.keys (vocabulary lang)
          ++ distinctKeys str_eqb (wordsToAdd lang ws) /\
      addedCount r = length (distinctKeys str_eqb (wordsToAdd lang ws)) /\
      addedCount r + skippedCount r = length ws /\
      (forall k, JMap.has str_eqb k (vocabulary lang) = true ->
         JMap.get str_eqb k (vocabulary (r_language r))
         = JMap.get str_eqb k (vocabulary lang)).
Proof.
  destruct (@quietBatch_fresh (wordsToAdd lang ws) lang [] h 0)
    as (L' & h' & added & Q & F & K & G).
  { intros w Hw. destruct (wordsToAdd_clean _ _ _ Hw) as (A & B & _). auto. }
  { intros w []. }
  { intros w Hw Hh. destruct (wordsToAdd_clean _ _ _ Hw) as (_ & _ & C).
    congruence. }
  cbn [app] in Q, F. fold (distinctKeys str_eqb (wordsToAdd lang ws)) in F.
  pose proof (length_addKeys (wordsToAdd lang ws) []) as Len.
  fold (distinctKeys str_eqb (wordsToAdd lang ws)) in Len. cbn [length] in Len.
  pose proof (wordsToAdd_length lang ws) as Len2.
  destruct (wordsToAdd lang ws) as [|w ws'] eqn:W.
  - exists 0. intros fuel _. unfold addWordsToLanguage. rewrite W.
    eexists. split; [reflexivity|].
    cbn [wasStopped r_language addedCount skippedCount].
    split; [discriminate|]. split; [cbn; rewrite app_nil_r; reflexivity|].
    split; [reflexivity|]. split; [reflexivity | auto].
  - destruct (@addWords_quiet lang ws saveInterval h w ws' W) as (n0 & H0).
    exists n0. intros fuel Hf. specialize (H0 fuel Hf). cbv zeta in H0.
    rewrite Q in H0. cbn [fst snd] in H0.
    eexists. split; [exact H0|].
    cbn [wasStopped r_language addedCount skippedCount].
    split; [discriminate|]. rewrite <- F. split; [exact K|].
    split; [reflexivity|]. rewrite <- F in Len. split; [lia | exact G].
Qed.

Lemma newWords_trimmed (lang : Language) (words : list str) :
  newWords lang words ->
  wordsToAdd lang words = map trim words /\
  map trim (map trim words) = map trim words.
Proof.
  intros (_ & Hnb & Hv). split.
  - unfold wordsToAdd. f_equal.
    induction words as [|w words IH]; [reflexivity|].
    inversion Hnb as [|x l Hw Hnb']; subst.
    inversion Hv as [|x l Hvw Hv']; subst.
    cbn [filter]. unfold isNewWord at 1. rewrite Hvw.
    destruct (trim w); [contradiction|]. cbn [negb]. f_equal. auto.
  - rewrite map_map. apply map_ext. intros w. apply trim_idem.
Qed.

Lemma skipn_In_any {A} (n : nat) (l : list A) (x : A) :
  In x (skipn n l) -> In x l.
Proof.
  intros H. rewrite <- (firstn_skipn n l). apply in_or_app. right. exact H.
Qed.

(** Adding new words resumes from a progress file: the words below the
    index of the checkpoint are not processed. On a list of new words (none
    blank, no two the same, none in the vocabulary), with a checkpoint whose
    processed words are in the vocabulary, no signal and no write failing,
    the call returns as completed and exactly the words from the checkpoint
    index on are added. *)
Theorem resumed_add_skips_prefix (lang : Language) (words : list str)
  (saveInterval : option nat) (ck : BatchCheckpoint) (h : Host) :
  newWords lang words ->
  Forall (fun k => JMap.has str_eqb k (vocabulary lang) = true)
         (ck_processedWords ck) ->
  exists fuel0, forall fuel, fuel0 <= fuel ->
    exists r,
      addWordsToLanguage lang words saveInterval (Some ck) quiet fuel h
      = Returned r /\
      wasStopped r <> Some true /\
      addedCount r = length words - ck_currentIndex ck /\
      JMap.keys (vocabulary (r_language r))
        = JMap.keys (vocabulary lang)
          ++ skipn (ck_currentIndex ck) (map trim words).
Proof.
  intros Hnew Hck.
  destruct (newWords_trimmed Hnew) as (W & TT).
  destruct Hnew as (Hnd & Hnb & Hv).
  set (interval := saveIntervalOr25 saveInterval).
  set (ws := map trim words) in *.
  set (idx := ck_currentIndex ck).
  set (done0 := fold_left (fun acc x => setAdd x acc) (ck_processedWords ck)
                  (@nil str)).
  set (b1 := mkBatch (Loading ck)
               (mkBatchState false false idx (length ws) done0)
               lang ws interval 0 0 h [] 0).
  destruct (@quiet_loop (skipn idx ws) idx (tick b1) eq_refl)
    as (n & b' & R & P & Q); [split; reflexivity|].
  assert (Hdone0 : forall x, In x done0 ->
            JMap.has str_eqb x (vocabulary lang) = true).
  { intros x Hx. rewrite Forall_forall in Hck. apply Hck.
    apply (distinctKeys_In _ str_eqb_eq). exact Hx. }
  assert (Hws : forall w, In w ws ->
            trim w <> [] /\ JMap.has str_eqb (trim w) (vocabulary lang) = false).
  { intros w Hw. unfold ws in Hw. apply in_map_iff in Hw.
    destruct Hw as (x & <- & Hx). rewrite trim_idem.
    rewrite Forall_forall in Hnb, Hv. auto. }
  destruct (@quietBatch_new (skipn idx ws) lang done0 h 0)
    as (L' & h' & Q' & K).
  { rewrite <- skipn_map, TT. rewrite <- (firstn_skipn idx ws) in Hnd.
    apply NoDup_app_remove_l in Hnd. exact Hnd. }
  { apply Forall_forall. intros w Hw. apply Hws, (skipn_In_any _ _ _ Hw). }
  { intros w Hw I. destruct (Hws w (skipn_In_any _ _ _ Hw)) as (_ & C).
    rewrite (Hdone0 _ I) in C. discriminate. }
  { intros w Hw. apply Hws, (skipn_In_any _ _ _ Hw). }
  change (progressOf (tick b1)) with (lang, done0, h, 0) in Q.
  rewrite Q' in Q. rewrite <- skipn_map, TT in K.
  pose proof (f_equal snd Q) as Q3.
  pose proof (f_equal (fun p => fst (fst (fst p))) Q) as Q4.
  unfold progressOf in Q3, Q4. cbn [fst snd] in Q3, Q4.
  assert (R1 : run quiet (n + 1)
                 (processWordsBatch lang ws interval (Some ck) h) = b').
  { rewrite run_add. rewrite <- R. f_equal.
    unfold processWordsBatch. cbn [run]. rewrite step_quiet.
    unfold resume. cbn [pc withPc]. rewrite tick_loopHead. reflexivity. }
  exists (n + 1). intros fuel Hf.
  assert (Lw : length ws = length words) by (unfold ws; apply length_map).
  clearbody ws.
  destruct ws as [|w0 ws0].
  - unfold addWordsToLanguage. rewrite W.
    eexists. split; [reflexivity|].
    cbn [wasStopped r_language addedCount]. split; [discriminate|].
    cbn [length] in Lw.
    split; [lia|]. rewrite skipn_nil, app_nil_r. reflexivity.
  - rewrite <- R1 in P.
    pose proof (@addWords_completed lang words saveInterval (Some ck) h w0
                  ws0 (n + 1) W P fuel Hf) as A.
    cbv zeta in A. fold interval in A. rewrite R1, Q3, Q4 in A.
    eexists. split; [exact A|].
    cbn [wasStopped r_language addedCount]. split; [discriminate|].
    split; [|exact K].
    rewrite length_skipn. lia.
Qed.

(** Five new words and a checkpoint left at index 2. *)
Lemma resumed_add_skips_prefix_witness :
  newWords demoLanguage (firstn 5 demoWords) /\
  Forall (fun k => JMap.has str_eqb k (vocabulary demoLanguage) = true)
         (ck_processedWords (mkCheckpoint 2 5 [] (lit "Demo") 0)) /\
  exists fuel0, forall fuel, fuel0 <= fuel ->
    exists r,
      addWordsToLanguage demoLanguage (firstn 5 demoWords) (Some 25)
        (Some (mkCheckpoint 2 5 [] (lit "Demo") 0)) quiet fuel demoHost
        = Returned r /\
      wasStopped r <> Some true /\
      addedCount r
        = length (firstn 5 demoWords)
          - ck_currentIndex (mkCheckpoint 2 5 [] (lit "Demo") 0) /\
      JMap.keys (vocabulary (r_language r))
        = JMap.keys (vocabulary demoLanguage)
          ++ skipn (ck_currentIndex (mkCheckpoint 2 5 [] (lit "Demo") 0))
               (map trim (firstn 5 demoWords)).
Proof.
  assert (H1 : newWords demoLanguage (firstn 5 demoWords))
    by (apply newWords_check; vm_compute; reflexivity).
  assert (H2 : Forall
            (fun k => JMap.has str_eqb k (vocabulary demoLanguage) = true)
            (ck_processedWords (mkCheckpoint 2 5 [] (lit "Demo") 0)))
    by constructor.
  split; [exact H1|]. split; [exact H2|].
  exact (@resumed_add_skips_prefix demoLanguage (firstn 5 demoWords) (Some 25)
           (mkCheckpoint 2 5 [] (lit "Demo") 0) demoHost H1 H2).
Defined.

(* ================================================================== *)
(** ** Batch Orchestrator: incremental saving *)
(* ================================================================== *)

Lemma savePoints_succ (interval n : nat) :
  savePoints interval (n + 1)
  = savePoints interval n
    ++ (if (n + 1) mod interval =? 0 then [n + 1] else []).
Proof.
  unfold savePoints. rewrite seq_app, filter_app. cbn [seq filter].
  replace (1 + n) with (n + 1) by lia. destruct (_ =? 0); reflexivity.
Qed.

Lemma quietWord_config (p : Progress) (w : str) :
  config (fst (fst (fst (quietWord p w)))) = config (fst (fst (fst p))).
Proof.
  destruct p as [[[L done] h] n]. unfold quietWord.
  destruct (trim w) as [|c r]; [reflexivity|].
  destruct (setHas (c :: r) done); [reflexivity|].
  destruct (processWord_vocabulary L (c :: r) h) as (e & _ & _ & C).
  destruct (processWord L (c :: r) h). exact C.
Qed.

Lemma quietBatch_config (ws : list str) (p : Progress) :
  config (fst (fst (fst (quietBatch ws p)))) = config (fst (fst (fst p))).
Proof.
  revert p. induction ws as [|w ws IH]; intros p; [reflexivity|].
  unfold quietBatch in *. cbn [fold_left]. rewrite IH. apply quietWord_config.
Qed.

Section SavingRun.
Variables (lang : Language) (words : list str) (interval : nat) (h : Host).
Hypothesis new : newWords lang words.

(** What the state holds when the first [i] words are done. *)
Lemma built_state (i : nat) (b : Batch) :
  i <= length words ->
  progressOf b = builtAfter lang words h i ->
  processed b = i /\
  processedWords (batchState b) = firstn i (map trim words) /\
  name (config (language b)) = name (config lang) /\
  JMap.size (vocabulary (language b)) = JMap.size (vocabulary lang) + i.
Proof.
  intros Hi Hp.
  destruct (@after_shape lang words h new i) as (L' & h' & Q & K).
  pose proof (quietBatch_config (firstn i words) (lang, [], h, 0)) as C.
  fold (builtAfter lang words h i) in C. rewrite <- Hp in C.
  rewrite Q in Hp. unfold progressOf in Hp, C. cbn [fst] in C.
  injection Hp as HL HD HH HP.
  split; [rewrite HP, length_firstn; lia|]. split; [exact HD|].
  split; [rewrite C; reflexivity|].
  rewrite HL. unfold JMap.size.
  rewrite <- (length_map fst (vocabulary L')).
  change (map fst (vocabulary L')) with (JMap.keys (vocabulary L')).
  rewrite K, length_app, length_firstn, length_map.
  unfold JMap.keys. rewrite length_map. lia.
Qed.

Lemma loopHead_new (i : nat) (b : Batch) :
  wordList b = words -> flagsClear b ->
  progressOf b = builtAfter lang words h i ->
  (i < length words ->
     exists w, loopHead i b = withPc (InFlight i w) b) /\
  (length words <= i -> loopHead i b = withPc FinalSave b).
Proof.
  intros Hw [Hp Hs] Hprog. unfold loopHead. rewrite Hw, Hs, Hp. split.
  - intros Lt. pose proof Lt as Lt'. apply Nat.ltb_lt in Lt'. rewrite Lt'.
    destruct (nth_error words i) as [w|] eqn:Hn;
      [|apply nth_error_None in Hn; lia].
    unfold startWord. rewrite Hw, Hn.
    destruct new as (Hnd & Hnb & _). rewrite Forall_forall in Hnb.
    specialize (Hnb w (nth_error_In _ _ Hn)).
    destruct (trim w) as [|c r] eqn:T; [contradiction|].
    destruct (@built_state i b) as (_ & Hd & _); [lia | exact Hprog |].
    rewrite Hd.
    assert (Nin : ~ In (c :: r) (firstn i (map trim words))).
    { rewrite <- T. apply notin_prefix; [exact Hnd|].
      apply map_nth_error, Hn. }
    rewrite (proj2 (setHas_false _ _) Nin). eexists. reflexivity.
  - intros Ge. apply Nat.ltb_ge in Ge. rewrite Ge. reflexivity.
Qed.

Lemma savesInv_step (b : Batch) :
  quietInv lang words h b -> savesInv lang words interval b ->
  savesInv lang words interval (step quiet b).
Proof.
  intros (Hw & Hf & Hpc) (Hk & Hsv). rewrite step_quiet. unfold resume.
  destruct (pc b) as [ck|i|i w|i|i|i|i|i| |r] eqn:P; try contradiction.
  - (* InFlight *)
    destruct Hpc as ((w' & Hn & ->) & Hprog). destruct Hsv as (Hsaved & Hat).
    assert (Hi : i < length words) by (apply nth_error_Some; congruence).
    destruct (@built_state i b) as (Hproc & _); [lia | exact Hprog |].
    destruct (processWord (language b) (trim w') (host b)) as [lang1 h1].
    unfold afterWord. cbv zeta. unfold needsSave.
    cbn [processed savedAt saveInterval withState].
    rewrite Hproc, Hk.
    replace (i + 1 =? savedAt b) with false
      by (symmetry; apply Nat.eqb_neq; lia).
    replace (0 <? i + 1) with true by (symmetry; apply Nat.ltb_lt; lia).
    cbn [andb negb]. rewrite andb_true_r.
    destruct ((i + 1) mod interval =? 0) eqn:M.
    + unfold savesInv. cbn [pc tick withPc saveInterval saved withState].
      split; [reflexivity|]. split; [apply Nat.eqb_eq, M | exact Hsaved].
    + unfold savesInv.
      cbn [pc tick withPc saveInterval saved savedAt withState].
      split; [reflexivity|]. rewrite savePoints_succ, M, app_nil_r.
      split; [exact Hsaved | lia].
  - (* Saving *)
    destruct Hpc as (Hi & Hprog). destruct Hsv as (M & Hsaved).
    destruct (@built_state (i + 1) b) as (Hproc & Hd & Hname & Hsize);
      [lia | exact Hprog |].
    unfold savesInv. cbn [pc tick saveInterval saved savedAt].
    split; [exact Hk|]. rewrite savePoints_succ, M. cbn [Nat.eqb].
    rewrite map_app, Hsaved. cbn [map].
    f_equal. f_equal. unfold checkpointAt, checkpointOf.
    rewrite Hw, Hd, Hname, Hsize. reflexivity.
  - (* Flushing *)
    destruct Hpc as (Hi & Hprog).
    destruct (@built_state (i + 1) b) as (Hproc & _);
      [lia | exact Hprog |].
    unfold savesInv. cbn [pc tick saveInterval saved savedAt].
    split; [exact Hk|]. split; [exact Hsv | lia].
  - (* Delay *)
    destruct Hpc as (Hi & Hprog). destruct Hsv as (Hsaved & Hat).
    destruct (@loopHead_new (i + 1) b Hw Hf Hprog) as (A & B).
    destruct (Nat.lt_ge_cases (i + 1) (length words)) as [Lt|Ge].
    + destruct (A Lt) as (w & ->). unfold savesInv.
      cbn [pc tick withPc saveInterval saved savedAt].
      split; [exact Hk|]. split; [exact Hsaved | exact Hat].
    + rewrite (B Ge). unfold savesInv.
      cbn [pc tick withPc saveInterval saved savedAt].
      split; [exact Hk|]. replace (length words) with (i + 1) by lia.
      exact Hsaved.
  - (* FinalSave *)
    unfold savesInv. cbn [pc tick withPc saveInterval saved].
    split; [exact Hk | exact Hsv].
  - (* Finished *)
    destruct r; try contradiction.
    unfold savesInv. cbn [pc tick saveInterval saved]. rewrite P.
    split; [exact Hk | exact Hsv].
Qed.

Lemma savesInv_run (t : nat) :
  savesInv lang words interval
    (run quiet t (processWordsBatch lang words interval None h)).
Proof.
  induction t as [|t IH].
  - cbn [run]. unfold processWordsBatch.
    set (b := mkBatch FinalSave (mkBatchState false false 0 (length words) [])
                lang words interval 0 0 h [] 0).
    destruct (@loopHead_new 0 b eq_refl) as (A & B);
      [split; reflexivity | reflexivity |].
    destruct (Nat.lt_ge_cases 0 (length words)) as [Lt|Ge].
    + destruct (A Lt) as (w & ->). unfold savesInv. cbn.
      split; [reflexivity|]. split; [reflexivity | lia].
    + rewrite (B Ge). unfold savesInv. cbn [pc withPc saveInterval saved b].
      split; [reflexivity|]. replace (length words) with 0 by lia.
      reflexivity.
  - cbn [run]. apply savesInv_step; [|exact IH].
    apply quietInv_run, new.
Qed.
End SavingRun.

(** Incremental saving: in a batch of new words (none blank, no two the
    same, none in the vocabulary) that no signal disturbs and in which no
    write fails, a progress file is written exactly at the indices that the
    save interval divides, in increasing order; each records the index, the
    words processed so far and the size of the vocabulary at that point.
    With interval 0 none is written. *)
Theorem checkpoints_every_interval (lang : Language) (words : list str)
  (interval : nat) (h : Host) :
  newWords lang words ->
  exists n0, forall n, n0 <= n ->
    let b := run quiet n (processWordsBatch lang words interval None h) in
    pc b = Finished (Completed (length words)) /\
    saved b
    = map (checkpointOf lang words) (savePoints interval (length words)).
Proof.
  intros Hnew.
  destruct (quiet_batch_completes lang words interval h) as (n0 & H0).
  exists n0. intros n Hn. cbv zeta. specialize (H0 n Hn). cbv zeta in H0.
  destruct H0 as (P & _).
  pose proof (@savesInv_run lang words interval h Hnew n) as (_ & S).
  pose proof (@quietInv_run lang words interval h Hnew n) as (_ & _ & Q).
  rewrite P in S, Q.
  destruct (@built_state lang words h Hnew (length words)
              (run quiet n (processWordsBatch lang words interval None h)))
    as (Hproc & _); [lia | exact Q |].
  rewrite P, Hproc. split; [reflexivity | exact S].
Qed.

(** A hundred new words, saving every 25 words. *)
Lemma checkpoints_every_interval_witness :
  newWords demoLanguage demoWords /\
  exists n0, forall n, n0 <= n ->
    let b := run quiet n
               (processWordsBatch demoLanguage demoWords 25 None demoHost) in
    pc b = Finished (Completed (length demoWords)) /\
    saved b
    = map (checkpointOf demoLanguage demoWords)
        (savePoints 25 (length demoWords)).
Proof.
  assert (H1 : newWords demoLanguage demoWords)
    by (apply newWords_check; vm_compute; reflexivity).
  split; [exact H1|].
  exact (@checkpoints_every_interval demoLanguage demoWords 25 demoHost H1).
Defined.

(* ================================================================== *)
(** ** Transformation Engine: the run-length view of a word *)
(* ================================================================== *)

Lemma noAdj_snoc (l : list ascii) (a b : ascii) :
  noAdj (l ++ [a; b]) <-> noAdj (l ++ [a]) /\ a <> b.
Proof.
  induction l as [|x l IH]; [simpl; tauto|].
  destruct l as [|y l]; [simpl in *; tauto|].
  change (x <> y /\ noAdj ((y :: l) ++ [a; b])
          <-> (x <> y /\ noAdj ((y :: l) ++ [a])) /\ a <> b).
  tauto.
Qed.

Lemma noAdj_rev (l : list ascii) : noAdj l -> noAdj (rev l).
Proof.
  induction l as [|a l IH]; intros H; [exact I|].
  destruct l as [|b l]; [exact I|].
  destruct H as (Hab & H). specialize (IH H).
  change (rev (a :: b :: l)) with ((rev l ++ [b]) ++ [a]).
  rewrite <- app_assoc. apply noAdj_snoc. split; [exact IH | auto].
Qed.

Lemma wfRuns_rev (rs : list (ascii * nat)) : wfRuns rs -> wfRuns (rev rs).
Proof.
  intros (A & B). split; [apply Forall_rev, A|].
  rewrite map_rev. apply noAdj_rev, B.
Qed.

Lemma wfRuns_runs (w : str) : wfRuns (runs w).
Proof.
  induction w as [|c w (A & B)]; [split; [constructor | exact I]|].
  simpl. destruct (runs w) as [|[d n] t]; [split; [repeat constructor | exact I]|].
  destruct (Ascii.eqb c d) eqn:E.
  - apply Ascii.eqb_eq in E. subst d. inversion A; subst.
    split; [constructor; [simpl; lia | assumption] | exact B].
  - apply Ascii.eqb_neq in E. split; [constructor; [simpl; lia | exact A]|].
    split; [exact E | exact B].
Qed.

Lemma expand_runs (w : str) : expand (runs w) = w.
Proof.
  induction w as [|c w IH]; [reflexivity|]. simpl.
  destruct (runs w) as [|[d n] t].
  - simpl in IH. subst w. reflexivity.
  - destruct (Ascii.eqb c d) eqn:E.
    + apply Ascii.eqb_eq in E. subst d. rewrite <- IH. reflexivity.
    + rewrite <- IH. reflexivity.
Qed.

Lemma runs_repeat (c : ascii) (n : nat) (w : str) :
  match runs w with (d, _) :: _ => c <> d | [] => True end ->
  runs (repeat c (S n) ++ w) = (c, S n) :: runs w.
Proof.
  intros H. induction n as [|n IH].
  - simpl. destruct (runs w) as [|[d m] t]; [reflexivity|].
    apply Ascii.eqb_neq in H. rewrite H. reflexivity.
  - change (repeat c (S (S n)) ++ w) with (c :: (repeat c (S n) ++ w)).
    cbn [runs]. rewrite IH, Ascii.eqb_refl. reflexivity.
Qed.

Lemma runs_expand (rs : list (ascii * nat)) :
  wfRuns rs -> runs (expand rs) = rs.
Proof.
  induction rs as [|[c n] t IH]; intros (A & B); [reflexivity|].
  inversion A as [|x l Hn At]; subst. simpl in Hn.
  assert (Wt : wfRuns t).
  { split; [exact At|]. destruct t as [|[d m] t']; [exact I|].
    destruct B as (_ & B). exact B. }
  specialize (IH Wt).
  change (expand ((c, n) :: t)) with (repeat c n ++ expand t).
  destruct n as [|n]; [lia|]. rewrite runs_repeat; rewrite IH; [reflexivity|].
  destruct t as [|[d m] t']; [exact I|]. destruct B as (B & _). exact B.
Qed.

Lemma squeeze_pos (m k : nat) (r : ascii * nat) :
  0 < k -> 0 < snd r -> 0 < snd (squeeze m k r).
Proof.
  intros Hk Hr. destruct r as [c n]. unfold squeeze.
  destruct (isDot c && (m <=? n)); simpl; assumption.
Qed.

Lemma wfRuns_map_squeeze (m k : nat) (rs : list (ascii * nat)) :
  0 < k -> wfRuns rs -> wfRuns (map (squeeze m k) rs).
Proof.
  intros Hk (A & B). split.
  - apply Forall_map. apply (Forall_impl _ (fun r => @squeeze_pos m k r Hk) A).
  - rewrite map_map. rewrite (map_ext _ fst (squeeze_fst m k)). exact B.
Qed.

Lemma wfRuns_squeezeHead (rs : list (ascii * nat)) :
  wfRuns rs -> wfRuns (squeezeHead rs).
Proof.
  intros (A & B). destruct rs as [|r t]; [split; [constructor | exact I]|].
  inversion A; subst. split.
  - constructor; [apply squeeze_pos; [lia | assumption] | assumption].
  - cbn [squeezeHead map]. rewrite squeeze_fst. exact B.
Qed.

Lemma expand_app (a b : list (ascii * nat)) :
  expand (a ++ b) = expand a ++ expand b.
Proof. unfold expand. apply flat_map_app. Qed.

Lemma rev_repeat_char (c : ascii) (n : nat) : rev (repeat c n) = repeat c n.
Proof.
  induction n as [|n IH]; [reflexivity|].
  simpl. rewrite IH. clear IH.
  induction n as [|n IH]; [reflexivity|]. simpl. rewrite IH. reflexivity.
Qed.

Lemma rev_expand (rs : list (ascii * nat)) :
  rev (expand rs) = expand (rev rs).
Proof.
  induction rs as [|[c n] t IH]; [reflexivity|].
  change (expand ((c, n) :: t)) with (repeat c n ++ expand t).
  rewrite rev_app_distr, IH, rev_repeat_char. cbn [rev].
  rewrite expand_app. unfold expand at 3. cbn [flat_map].
  rewrite app_nil_r. reflexivity.
Qed.

Lemma collapseRuns_runs (m : nat) (w : str) :
  runs (collapseRuns m w) = map (squeeze m 2) (runs w).
Proof.
  unfold collapseRuns. apply runs_expand.
  apply wfRuns_map_squeeze; [lia | apply wfRuns_runs].
Qed.

Lemma collapseLeading_expand (w : str) :
  collapseLeading w = expand (squeezeHead (runs w)).
Proof. unfold collapseLeading. destruct (runs w); reflexivity. Qed.

Lemma collapseTrailing_expand (w : str) :
  collapseTrailing w = expand (rev (squeezeHead (rev (runs w)))).
Proof. unfold collapseTrailing. destruct (rev (runs w)); reflexivity. Qed.

(** The consistency pass, read on the run-length view. *)
Lemma applyPhoneticConsistency_runs (w : str) :
  applyPhoneticConsistency w = expand (consistentRuns (runs w)) /\
  runs (applyPhoneticConsistency w) = consistentRuns (runs w).
Proof.
  assert (W1 : wfRuns (map (squeeze 4 2) (runs w)))
    by (apply wfRuns_map_squeeze; [lia | apply wfRuns_runs]).
  assert (W2 : wfRuns (squeezeHead (map (squeeze 4 2) (runs w))))
    by (apply wfRuns_squeezeHead, W1).
  assert (W3 : wfRuns (consistentRuns (runs w))).
  { unfold consistentRuns. apply wfRuns_rev, wfRuns_squeezeHead, wfRuns_rev, W2. }
  assert (E : applyPhoneticConsistency w = expand (consistentRuns (runs w))).
  { unfold applyPhoneticConsistency, consistentRuns.
    rewrite collapseTrailing_expand, collapseLeading_expand.
    rewrite collapseRuns_runs, (runs_expand W2). reflexivity. }
  split; [exact E|]. rewrite E. apply runs_expand, W3.
Qed.

Lemma squeeze_idem (m k : nat) (r : ascii * nat) :
  k < m -> squeeze m k (squeeze m k r) = squeeze m k r.
Proof.
  intros Hk. destruct r as [c n]. unfold squeeze.
  destruct (isDot c && (m <=? n)) eqn:E; [|rewrite E; reflexivity].
  replace (m <=? k) with false by (symmetry; apply Nat.leb_gt; exact Hk).
  rewrite andb_false_r. reflexivity.
Qed.

Lemma squeezeHead_idem (rs : list (ascii * nat)) :
  squeezeHead (squeezeHead rs) = squeezeHead rs.
Proof.
  destruct rs as [|r t]; [reflexivity|]. cbn [squeezeHead].
  rewrite squeeze_idem by lia. reflexivity.
Qed.

(** A run that the first replacement leaves alone. *)
Lemma squeeze21_fixed4 (r : ascii * nat) :
  squeeze 4 2 r = r -> squeeze 4 2 (squeeze 2 1 r) = squeeze 2 1 r.
Proof.
  destruct r as [c n]. unfold squeeze at 3 4.
  destruct (isDot c && (2 <=? n)); [|auto].
  intros _. unfold squeeze. cbn [Nat.leb]. rewrite andb_false_r. reflexivity.
Qed.

Lemma fixed4_squeezeHead (rs : list (ascii * nat)) :
  Forall (fun r => squeeze 4 2 r = r) rs ->
  Forall (fun r => squeeze 4 2 r = r) (squeezeHead rs).
Proof.
  intros H. destruct rs as [|r t]; [constructor|]. inversion H; subst.
  constructor; [apply squeeze21_fixed4; assumption | assumption].
Qed.

(** Squeezing the last run leaves the first run as it is when there is
    another one. *)
Lemma squeezeLast_cons (r : ascii * nat) (t : list (ascii * nat)) :
  t <> [] ->
  rev (squeezeHead (rev (r :: t))) = r :: rev (squeezeHead (rev t)).
Proof.
  intros Ht. cbn [rev].
  destruct (rev t) as [|x y] eqn:E.
  - exfalso. apply Ht. rewrite <- (rev_involutive t), E. reflexivity.
  - cbn [app squeezeHead rev]. rewrite rev_app_distr. reflexivity.
Qed.

Lemma squeezeHead_last (rs : list (ascii * nat)) :
  squeezeHead rs = rs ->
  squeezeHead (rev (squeezeHead (rev rs))) = rev (squeezeHead (rev rs)).
Proof.
  intros H. destruct rs as [|r t]; [reflexivity|].
  destruct t as [|r' t'].
  - cbn. rewrite squeeze_idem by lia. reflexivity.
  - rewrite squeezeLast_cons by discriminate. cbn [squeezeHead] in *.
    injection H as H. rewrite H. reflexivity.
Qed.

Lemma consistentRuns_fixed (rs : list (ascii * nat)) :
  let out := consistentRuns rs in
  map (squeeze 4 2) out = out /\ squeezeHead out = out /\
  squeezeHead (rev out) = rev out.
Proof.
  cbv zeta. unfold consistentRuns.
  set (a := map (squeeze 4 2) rs).
  assert (Fa : Forall (fun r => squeeze 4 2 r = r) a).
  { unfold a. apply Forall_map, Forall_forall. intros r _.
    apply squeeze_idem. lia. }
  split; [|split].
  - rewrite <- (map_id (rev (squeezeHead (rev (squeezeHead a))))) at 2.
    apply map_ext_Forall.
    apply Forall_rev, fixed4_squeezeHead, Forall_rev, fixed4_squeezeHead, Fa.
  - apply squeezeHead_last, squeezeHead_idem.
  - rewrite rev_involutive. apply squeezeHead_idem.
Qed.

Lemma consistentRuns_idem (rs : list (ascii * nat)) :
  consistentRuns (consistentRuns rs) = consistentRuns rs.
Proof.
  destruct (consistentRuns_fixed rs) as (A & B & C). cbv zeta in A, B, C.
  unfold consistentRuns at 1. rewrite A, B, C. apply rev_involutive.
Qed.

Lemma noDoubledStart_expand (rs : list (ascii * nat)) :
  wfRuns rs -> squeezeHead rs = rs -> noDoubledStart (expand rs).
Proof.
  intros (A & B) H. destruct rs as [|[c n] t]; [exact I|].
  cbn [squeezeHead] in H. injection H as H.
  inversion A as [|x l Hn At]; subst. cbn [snd] in Hn.
  change (expand ((c, n) :: t)) with (repeat c n ++ expand t).
  destruct n as [|[|n]]; [lia| |].
  - cbn [repeat app]. destruct t as [|[d m] t']; [exact I|].
    destruct B as (B & _). inversion At as [|x l Hm _]; subst.
    cbn [snd] in Hm. destruct m as [|m]; [lia|].
    change (expand ((d, S m) :: t')) with (d :: (repeat d m ++ expand t')).
    intros E. contradiction.
  - cbn [repeat app]. intros _. unfold squeeze in H.
    destruct (isDot c); [|reflexivity]. cbn in H. discriminate.
Qed.

(** The consistency pass is idempotent, and what it returns neither begins
    nor ends with a doubled character. *)
Lemma applyPhoneticConsistency_normal (w : str) :
  let r := applyPhoneticConsistency w in
  applyPhoneticConsistency r = r /\ noDoubledStart r /\ noDoubledStart (rev r).
Proof.
  cbv zeta. destruct (applyPhoneticConsistency_runs w) as (E & R).
  destruct (consistentRuns_fixed (runs w)) as (A & B & C). cbv zeta in A, B, C.
  assert (W : wfRuns (consistentRuns (runs w)))
    by (rewrite <- R; apply wfRuns_runs).
  split; [|split].
  - destruct (applyPhoneticConsistency_runs (applyPhoneticConsistency w))
      as (E2 & _).
    rewrite E2, R, consistentRuns_idem. symmetry. exact E.
  - rewrite E. apply noDoubledStart_expand; assumption.
  - rewrite E, rev_expand. apply noDoubledStart_expand;
      [apply wfRuns_rev, W | exact C].
Qed.

(** Every constructed word is in normal form, whatever the style and the
    analysis: the consistency pass changes nothing when applied again, and
    the word neither begins nor ends with a doubled character (a doubled line
    terminator apart). *)
Theorem transformWord_normal_form (word : str) (ety : Etymology) (st : Style)
  (h : Host) :
  let r := fst (transformWord word ety st h) in
  applyPhoneticConsistency r = r /\ noDoubledStart r /\ noDoubledStart (rev r).
Proof.
  cbv zeta. unfold transformWord, bind, ret.
  destruct (applySystematicTransformations (toLowerCase word) ety st h)
    as [t h1]. cbn [fst].
  apply applyPhoneticConsistency_normal.
Qed.

(* ================================================================== *)
(** ** Transformation Engine: what the styles keep of a word *)
(* ================================================================== *)

Lemma classify_shiftChar (c : ascii) : classify (shiftChar c) = classify c.
Proof. destruct c as [[] [] [] [] [] [] [] []]; vm_compute; reflexivity. Qed.

Lemma applyConsonantShift_from_classify (word : str) (ety : Etymology)
  (i : nat) (rest : str) :
  map classify (applyConsonantShift_from word ety i rest) = map classify rest.
Proof.
  revert i. induction rest as [|c r IH]; intros i; [reflexivity|].
  cbn [applyConsonantShift_from map]. rewrite IH. f_equal.
  pose proof (classify_shiftChar c) as S. unfold shiftChar in S.
  destruct (JMap.get Ascii.eqb c shiftRules); [|reflexivity].
  destruct (isInRootMorpheme i word ety); [exact S | reflexivity].
Qed.

(** The consonant shift keeps the length of a word and its pattern of
    consonants and vowels: no letter turns from consonant to vowel or back,
    whatever the analysis. *)
Theorem consonant_shift_keeps_pattern (word : str) (ety : Etymology) :
  length (applyConsonantShift word ety) = length word /\
  map classify (applyConsonantShift word ety) = map classify word.
Proof.
  pose proof (applyConsonantShift_from_classify word ety 0 word) as H.
  split; [|exact H].
  apply (f_equal (@length CharClass)) in H. rewrite !length_map in H. exact H.
Qed.

(** *** Vowel harmony *)

Lemma forChars_each (P : ascii -> ascii -> Prop) (f : ascii -> M str)
  (w : str) (h : Host) :
  (forall c h', exists d, fst (f c h') = [d] /\ P c d) ->
  Forall2 P w (fst (forChars f w h)).
Proof.
  intros Hf. revert h. induction w as [|c w IH]; intros h; [constructor|].
  cbn [forChars]. unfold bind, ret.
  destruct (Hf c h) as (d & E & Hd). destruct (f c h) as [x h1].
  cbn [fst] in E. subst x. specialize (IH h1).
  destruct (forChars f w h1) as [y h2]. cbn [fst] in *.
  constructor; assumption.
Qed.

Lemma pick2 (x : nat) (a b d : ascii) :
  nth (x mod 2) [a; b] d = a \/ nth (x mod 2) [a; b] d = b.
Proof.
  pose proof (Nat.mod_upper_bound x 2 ltac:(lia)) as B.
  destruct (x mod 2) as [|[|k]]; [left | right | lia]; reflexivity.
Qed.

Lemma pick3 (x : nat) (a b c d : ascii) :
  nth (x mod 3) [a; b; c] d = a \/ nth (x mod 3) [a; b; c] d = b \/
  nth (x mod 3) [a; b; c] d = c.
Proof.
  pose proof (Nat.mod_upper_bound x 3 ltac:(lia)) as B.
  destruct (x mod 3) as [|[|[|k]]]; [auto | auto | auto | lia].
Qed.

(** Vowel harmony: the result has the length of the word and the same
    characters at every position that does not hold one of a, e, i, o, u;
    when the front vowels (e, i) outnumber the back vowels (a, o, u) no back
    vowel is left, and otherwise no front vowel is left, whatever the oracle
    draws. *)
Theorem vowel_harmony_unifies (word : str) (h : Host) :
  let r := fst (applyVowelHarmony word h) in
  let front := length (filter (fun c => charIn c harmonyFront) word) in
  let back := length (filter (fun c => charIn c harmonyBack) word) in
  length r = length word /\
  (forall i c, nth_error word i = Some c -> charIn c vowels5 = false ->
               nth_error r i = Some c) /\
  (back < front -> Forall (fun c => charIn c harmonyBack = false) r) /\
  (front <= back -> Forall (fun c => charIn c harmonyFront = false) r).
Proof.
  cbv zeta. unfold applyVowelHarmony.
  set (front := length (filter (fun c => charIn c harmonyFront) word)).
  set (back := length (filter (fun c => charIn c harmonyBack) word)).
  set (f := fun char : ascii => _).
  assert (F : Forall2
    (fun c d =>
       (charIn c vowels5 = false -> d = c) /\
       (back < front -> charIn d harmonyBack = false) /\
       (front <= back -> charIn d harmonyFront = false))
    word (fst (forChars f word h))).
  { apply forChars_each. intros c h'. unfold f.
    destruct (back <? front) eqn:D.
    - apply Nat.ltb_lt in D. cbn [andb negb].
      destruct (charIn c vowels5) eqn:V.
      + destruct (charIn c harmonyBack) eqn:Bk.
        * unfold bind, randomIndex, ret. cbn [fst].
          eexists. split; [reflexivity|]. split; [discriminate|].
          split; [|lia]. intros _.
          destruct (pick2 (draws h' (cursor h')) "e" "i" c) as [E|E];
            unfold harmonyFront; cbn [lit list_ascii_of_string length];
            rewrite E; reflexivity.
        * exists c. split; [reflexivity|]. split; [auto|]. split; [auto | lia].
      + exists c. split; [reflexivity|]. split; [auto|].
        split; [|lia]. intros _.
        destruct c as [[] [] [] [] [] [] [] []]; vm_compute in V |- *;
          solve [reflexivity | discriminate V].
    - apply Nat.ltb_ge in D. cbn [andb negb].
      destruct (charIn c vowels5) eqn:V.
      + destruct (charIn c harmonyFront) eqn:Fr.
        * unfold bind, randomIndex, ret. cbn [fst].
          eexists. split; [reflexivity|]. split; [discriminate|].
          split; [lia|]. intros _.
          destruct (pick3 (draws h' (cursor h')) "a" "o" "u" c) as [E|[E|E]];
            unfold harmonyBack; cbn [lit list_ascii_of_string length];
            rewrite E; reflexivity.
        * exists c. split; [reflexivity|]. split; [auto|]. split; [lia | auto].
      + exists c. split; [reflexivity|]. split; [auto|].
        split; [lia|]. intros _.
        destruct c as [[] [] [] [] [] [] [] []]; vm_compute in V |- *;
          solve [reflexivity | discriminate V]. }
  clearbody f front back. revert F. generalize (fst (forChars f word h)).
  intros r F.
  split; [|split; [|split]].
  - symmetry. apply (Forall2_length F).
  - induction F as [|c d w r (A & _) F IH]; intros i x Hn Hv.
    + destruct i; discriminate.
    + destruct i as [|i]; cbn [nth_error] in *.
      * injection Hn as ->. rewrite (A Hv). reflexivity.
      * apply (IH i x Hn Hv).
  - intros D. induction F as [|c d w r (_ & B & _) F IH]; constructor; auto.
  - intros D. induction F as [|c d w r (_ & _ & C) F IH]; constructor; auto.
Qed.

(** *** The phonetic_logic style *)

Lemma replaceAll_aux_same (pat w : str) (skip : nat) :
  pat <> [] -> replaceAll_aux pat pat w skip = skipn skip w.
Proof.
  intros Hp. revert skip. induction w as [|c r IH]; intros skip.
  - destruct skip; reflexivity.
  - cbn [replaceAll_aux]. destruct skip as [|k]; [|apply IH].
    destruct (startsWith pat (c :: r)) eqn:S; [|rewrite IH; reflexivity].
    rewrite IH. apply startsWith_split in S.
    destruct pat as [|a p]; [contradiction|].
    replace (length (a :: p) - 1) with (length p) by (cbn [length]; lia).
    cbn [length app skipn] in S.
    injection S as -> S. cbn [skipn app]. f_equal. symmetry. exact S.
Qed.

(** Each cluster is replaced by the first of its variants, which is the
    cluster itself. *)
Lemma handleConsonantClusters_id (w : str) : handleConsonantClusters w = w.
Proof.
  unfold handleConsonantClusters, consonantClusters. cbn [fold_left nth].
  repeat match goal with
  | |- context [if includes ?c ?x then replaceAll ?c ?c ?x else ?x] =>
      replace (if includes c x then replaceAll c c x else x) with x
        by (destruct (includes c x); [|reflexivity];
            unfold replaceAll; rewrite replaceAll_aux_same; [reflexivity|];
            discriminate)
  end.
  reflexivity.
Qed.

Lemma runs_head (w : str) (d : ascii) (n : nat) (t : list (ascii * nat)) :
  runs w = (d, n) :: t -> w = repeat d n ++ expand t.
Proof. intros H. rewrite <- (expand_runs w), H. reflexivity. Qed.

Lemma noTriple_runs (w : str) :
  hasTriple w = false -> Forall (fun r => snd r < 3) (runs w).
Proof.
  induction w as [|a w IH]; intros H; [constructor|].
  assert (Hw : hasTriple w = false).
  { cbn [hasTriple] in H. destruct w as [|b [|c w']]; try reflexivity.
    apply orb_false_iff in H. destruct H as (_ & H). exact H. }
  specialize (IH Hw). cbn [runs].
  destruct (runs w) as [|[d n] t] eqn:R; [repeat constructor|].
  pose proof (wfRuns_runs w) as (Pos & _). rewrite R in Pos.
  inversion Pos as [|x l Hn _]; subst. cbn [snd] in Hn.
  destruct (Ascii.eqb a d) eqn:E.
  - apply Ascii.eqb_eq in E. subst d. inversion IH; subst.
    constructor; [|assumption]. cbn [snd] in *.
    destruct n as [|[|n]]; [lia | lia |]. exfalso.
    apply runs_head in R. subst w. cbn [repeat app hasTriple] in H.
    rewrite !Ascii.eqb_refl in H. discriminate.
  - constructor; [cbn; lia | exact IH].
Qed.

Lemma applyPhoneticLogic_collapse (word : str) (ety : Etymology) :
  applyPhoneticLogic word ety = collapseRuns 3 word.
Proof.
  unfold applyPhoneticLogic, applySyllableRules, maintainPhoneticIntegrity.
  rewrite handleConsonantClusters_id, applySyllableRules_aux_id.
  reflexivity.
Qed.

(** The phonetic_logic style only shortens runs: its cluster and syllable
    steps give back what they get, so the result is the word with each run
    of three or more equal characters cut to two, runs of a line terminator
    apart (the dot of the regular expression does not match a line feed or a
    carriage return, so such a run stays as it is); a word without three
    equal characters in a row comes back unchanged. *)
Theorem phonetic_logic_only_shortens_runs (word : str) (ety : Etymology) :
  applyPhoneticLogic word ety = maintainPhoneticIntegrity word /\
  runs (applyPhoneticLogic word ety) = map (squeeze 3 2) (runs word) /\
  (hasTriple word = false -> applyPhoneticLogic word ety = word).
Proof.
  assert (E : applyPhoneticLogic word ety = maintainPhoneticIntegrity word)
    by apply applyPhoneticLogic_collapse.
  split; [exact E|]. rewrite E. unfold maintainPhoneticIntegrity.
  split; [apply collapseRuns_runs|].
  intros H. unfold collapseRuns.
  rewrite <- (expand_runs word) at 2. f_equal.
  rewrite <- (map_id (runs word)) at 2. apply map_ext_Forall.
  refine (Forall_impl _ _ (noTriple_runs _ H)).
  intros [c n] Hn. cbn [snd] in Hn. unfold squeeze.
  replace (3 <=? n) with false by (symmetry; apply Nat.leb_gt; exact Hn).
  rewrite andb_false_r. reflexivity.
Qed.

Lemma phonetic_logic_only_shortens_runs_witness :
  hasTriple (lit "bookkeeper") = false /\
  applyPhoneticLogic (lit "bookkeeper") (analyzeWord (lit "bookkeeper"))
    = maintainPhoneticIntegrity (lit "bookkeeper") /\
  runs (applyPhoneticLogic (lit "bookkeeper") (analyzeWord (lit "bookkeeper")))
    = map (squeeze 3 2) (runs (lit "bookkeeper")) /\
  (hasTriple (lit "bookkeeper") = false ->
   applyPhoneticLogic (lit "bookkeeper") (analyzeWord (lit "bookkeeper"))
     = lit "bookkeeper").
Proof.
  split; [reflexivity|].
  exact (phonetic_logic_only_shortens_runs (lit "bookkeeper")
           (analyzeWord (lit "bookkeeper"))).
Defined.

(** *** The mapper's [_skipNext] flag *)

Lemma asciiCombinations_keys (k v : str) :
  JMap.get str_eqb k asciiCombinations = Some v -> length k = 2.
Proof.
  unfold asciiCombinations. cbn [JMap.get].
  repeat match goal with
  | |- context [str_eqb k ?x] =>
      destruct (str_eqb k x) eqn:?E;
        [apply str_eqb_eq in E; subst k; reflexivity|]; clear E
  end.
  discriminate.
Qed.

Lemma generateAsciiPronunciation_from_flag (word : str) :
  forall (rest : str) (i : nat) (h : Host),
    rest = skipn i word ->
    (skipNext h = true -> rest <> []) ->
    snd (generateAsciiPronunciation_from word i rest h)
    = mkHost (draws h) (cursor h) false.
Proof.
  induction rest as [|c r IH]; intros i h Hr Hs.
  - cbn. destruct h as [d cu [|]]; [exfalso; apply Hs; reflexivity | reflexivity].
  - cbn [generateAsciiPronunciation_from]. unfold bind.
    assert (Hr' : r = skipn (S i) word).
    { rewrite <- (Nat.add_1_l i), <- skipn_skipn, <- Hr. reflexivity. }
    unfold getAsciiPhoneme at 1.
    destruct (JMap.get str_eqb ([toLowerChar c] ++ lowerAt word (i + 1))
                asciiCombinations) as [combo|] eqn:G.
    + apply asciiCombinations_keys in G.
      unfold bind, setSkipNext, ret.
      specialize (IH (S i) (mkHost (draws h) (cursor h) true) Hr').
      destruct (generateAsciiPronunciation_from word (S i) r
                  (mkHost (draws h) (cursor h) true)) as [q h2].
      cbn [snd] in *. apply IH. intros _ ->.
      unfold lowerAt in G. replace (i + 1) with (S i) in G by lia.
      destruct (nth_error word (S i)) eqn:N; [|discriminate G].
      apply nth_error_split in N. destruct N as (l1 & l2 & E & L).
      rewrite E, <- L in Hr'. rewrite skipn_app, skipn_all, Nat.sub_diag in Hr'.
      discriminate Hr'.
    + unfold bind, getSkipNext, setSkipNext, ret.
      destruct (skipNext h) eqn:Sk.
      * specialize (IH (S i) (mkHost (draws h) (cursor h) false) Hr').
        destruct (generateAsciiPronunciation_from word (S i) r
                    (mkHost (draws h) (cursor h) false)) as [q h2].
        cbn [snd] in *. apply IH. discriminate.
      * specialize (IH (S i) h Hr').
        destruct (generateAsciiPronunciation_from word (S i) r h) as [q h2].
        cbn [snd] in *. apply IH. congruence.
Qed.

(** Rendering a pronunciation leaves the mapper as it found it: when the
    [_skipNext] flag is down at the call it is down at the return, for every
    word (the oracle is not consulted), so the rendering of one word never
    eats the first character of the next. *)
Theorem ascii_pronunciation_resets_flag (sigmentWord : str) (h : Host) :
  skipNext h = false ->
  snd (generateAsciiPronunciation sigmentWord h) = h.
Proof.
  intros H. unfold generateAsciiPronunciation.
  rewrite (@generateAsciiPronunciation_from_flag sigmentWord sigmentWord 0 h);
    [|reflexivity | congruence].
  destruct h as [d c s]. cbn in *. subst s. reflexivity.
Qed.

Lemma ascii_pronunciation_resets_flag_witness :
  skipNext demoHost = false /\
  snd (generateAsciiPronunciation (lit "gingham") demoHost) = demoHost.
Proof.
  split; [reflexivity|].
  apply (ascii_pronunciation_resets_flag (lit "gingham") demoHost).
  reflexivity.
Defined.

(** *** No word is lost *)

Lemma expand_nonempty (rs : list (ascii * nat)) :
  wfRuns rs -> rs <> [] -> expand rs <> [].
Proof.
  intros (A & _) H. destruct rs as [|[c n] t]; [contradiction|].
  inversion A as [|x l Hn _]; subst. cbn [snd] in Hn.
  destruct n as [|n]; [lia|]. discriminate.
Qed.

Lemma runs_nonempty (w : str) : w <> [] -> runs w <> [].
Proof.
  intros H E. apply H. rewrite <- (expand_runs w), E. reflexivity.
Qed.

Lemma collapseRuns_nonempty (m : nat) (w : str) :
  w <> [] -> collapseRuns m w <> [].
Proof.
  intros H. unfold collapseRuns. apply expand_nonempty.
  - apply wfRuns_map_squeeze; [lia | apply wfRuns_runs].
  - intros E. apply map_eq_nil in E. apply (runs_nonempty H E).
Qed.

Lemma applyPhoneticConsistency_nonempty (w : str) :
  w <> [] -> applyPhoneticConsistency w <> [].
Proof.
  intros H. destruct (applyPhoneticConsistency_runs w) as (E & R).
  rewrite E. apply expand_nonempty; [rewrite <- R; apply wfRuns_runs|].
  unfold consistentRuns. intros N.
  apply (f_equal (@length (ascii * nat))) in N.
  rewrite length_rev in N.
  assert (L : forall rs, length (squeezeHead rs) = length rs)
    by (intros [|r t]; reflexivity).
  rewrite L, length_rev, L, length_map in N.
  apply length_zero_iff_nil in N. apply (runs_nonempty H N).
Qed.

Lemma forChars_nonempty (f : ascii -> M str) (w : str) (h : Host) :
  (forall c h', fst (f c h') <> []) -> w <> [] ->
  fst (forChars f w h) <> [].
Proof.
  intros Hf Hw. destruct w as [|c r]; [contradiction|].
  cbn [forChars]. unfold bind, ret. specialize (Hf c h).
  destruct (f c h) as [x h1]. destruct (forChars f r h1) as [y h2].
  cbn [fst] in *. destruct x; [contradiction | discriminate].
Qed.

Lemma forChars_length (f : ascii -> M str) (w : str) (h : Host) :
  (forall c h', length (fst (f c h')) = 1) ->
  length (fst (forChars f w h)) = length w.
Proof.
  intros Hf. revert h. induction w as [|c r IH]; intros h; [reflexivity|].
  cbn [forChars]. unfold bind, ret. specialize (Hf c h).
  destruct (f c h) as [x h1]. specialize (IH h1).
  destruct (forChars f r h1) as [y h2]. cbn [fst] in *.
  rewrite length_app, Hf, IH. reflexivity.
Qed.

Lemma applyVowelHarmony_length (w : str) (h : Host) :
  length (fst (applyVowelHarmony w h)) = length w.
Proof.
  unfold applyVowelHarmony. apply forChars_length. intros c h'.
  destruct (charIn c vowels5); [|reflexivity].
  destruct (_ && charIn c harmonyBack); [reflexivity|].
  destruct (_ && charIn c harmonyFront); reflexivity.
Qed.

Lemma addRootEmphasis_length (m : str) :
  length m <= length (addRootEmphasis m).
Proof.
  unfold addRootEmphasis. destruct (3 <? length m); [|lia].
  unfold substring, substringFrom.
  rewrite !length_app, !length_firstn, !length_skipn. lia.
Qed.

Lemma emphasisStep_length (st : str * nat) (m : Morpheme) :
  length (fst st) <= length (fst (emphasisStep st m)).
Proof.
  destruct st as [result offset]. unfold emphasisStep.
  destruct (mtype m); try (cbn [fst]; lia).
  destruct (indexOfFrom (mvalue m) result offset =? -1)%Z; [cbn [fst]; lia|].
  cbn [fst]. unfold emphasizeMorpheme.
  set (start := Z.to_nat (indexOfFrom (mvalue m) result offset)).
  set (len := length (mvalue m)).
  set (t := substring start (start + len) result).
  set (e := match mtype m with MRoot => addRootEmphasis t | _ => t end).
  assert (L : length t <= length e).
  { unfold e. destruct (mtype m); try lia. apply addRootEmphasis_length. }
  clearbody e. unfold t in L. clear t. clearbody start len.
  unfold substring, substringFrom in *.
  rewrite !length_app, !length_firstn, !length_skipn in *. lia.
Qed.

Lemma applyMorphemeEmphasis_length (w : str) (ety : Etymology) :
  length w <= length (applyMorphemeEmphasis w ety).
Proof.
  unfold applyMorphemeEmphasis. destruct (morphemes ety) as [ms|]; [|lia].
  change w with (fst (w, 0)) at 1. generalize (w, 0).
  induction ms as [|m ms IH]; intros st; [cbn; lia|].
  cbn [fold_left]. etransitivity; [apply (emphasisStep_length st m) | apply IH].
Qed.

Lemma applyMildConsonantShift_nonempty (w : str) :
  w <> [] -> applyMildConsonantShift w <> [].
Proof.
  intros H. destruct w as [|c r]; [contradiction|].
  unfold applyMildConsonantShift. cbn [flat_map].
  unfold lookupOr. destruct (JMap.get str_eqb [c] mildShifts) as [v|] eqn:G;
    [|discriminate].
  apply JMap_get_In in G. cbn in G.
  destruct G as [<-|[<-|[<-|[<-|[]]]]]; discriminate.
Qed.

Lemma applyVowelVariation_nonempty (w : str) (h : Host) :
  w <> [] -> fst (applyVowelVariation w h) <> [].
Proof.
  intros H. unfold applyVowelVariation. apply forChars_nonempty; [|exact H].
  intros c h'.
  destruct (JMap.get Ascii.eqb c vowelVariants) as [vs|] eqn:G;
    [|discriminate].
  apply JMap_get_In in G. unfold bind, randomIndex, ret. cbn [fst].
  pose proof (Nat.mod_upper_bound (draws h' (cursor h')) 2 ltac:(lia)) as B.
  cbn in G.
  destruct G as [<-|[<-|[<-|[<-|[<-|[]]]]]]; cbn [length];
    destruct (draws h' (cursor h') mod 2) as [|[|k]]; try lia; discriminate.
Qed.

(** A word that is not empty is never mapped to the empty word, whatever
    the style, the analysis and the draws of the oracle. *)
Theorem transformWord_nonempty (word : str) (ety : Etymology) (st : Style)
  (h : Host) :
  word <> [] -> fst (transformWord word ety st h) <> [].
Proof.
  intros Hw. unfold transformWord, bind, ret.
  assert (Hl : toLowerCase word <> []).
  { destruct word; [contradiction | discriminate]. }
  assert (Ht : fst (applySystematicTransformations (toLowerCase word) ety st h)
               <> []).
  { revert Hl. generalize (toLowerCase word). intros w Hl.
    assert (Len : forall x : str, length w <= length x -> x <> []).
    { intros x L E. subst x. destruct w; [contradiction | cbn in L; lia]. }
    destruct st; cbn [applySystematicTransformations].
    - unfold applyDefaultTransformation.
      set (r := if Qgtb (transformationIntensity ety) (roundDouble (3 # 10))
                then applyMildConsonantShift w else w).
      assert (Hr : r <> []).
      { unfold r. destruct (Qgtb _ _); [|exact Hl].
        apply applyMildConsonantShift_nonempty, Hl. }
      destruct (Qgtb (transformationIntensity ety) (roundDouble (6 # 10)));
        [apply applyVowelVariation_nonempty, Hr | exact Hr].
    - unfold ret. cbn [fst]. apply Len.
      pose proof (applyConsonantShift_from_classify w ety 0 w) as L.
      apply (f_equal (@length CharClass)) in L. rewrite !length_map in L.
      unfold applyConsonantShift. lia.
    - apply Len. rewrite applyVowelHarmony_length. lia.
    - unfold ret. cbn [fst]. apply Len, applyMorphemeEmphasis_length.
    - unfold ret. cbn [fst]. rewrite applyPhoneticLogic_collapse.
      apply collapseRuns_nonempty, Hl. }
  destruct (applySystematicTransformations (toLowerCase word) ety st h)
    as [t h1]. cbn [fst] in *.
  rewrite applyMorphemeBasedRules_id.
  apply applyPhoneticConsistency_nonempty, Ht.
Qed.

Lemma transformWord_nonempty_witness :
  lit "Running" <> [] /\
  fst (transformWord (lit "Running") (analyzeWord (lit "Running"))
         morpheme_emphasis demoHost) <> [].
Proof.
  split; [discriminate|].
  apply (@transformWord_nonempty (lit "Running")
           (analyzeWord (lit "Running")) morpheme_emphasis demoHost).
  discriminate.
Defined.

(** *** The morpheme_emphasis style *)

Lemma indexOf_aux_found (needle hay : str) (pos : nat) :
  indexOf_aux needle hay pos = (-1)%Z \/
  exists q, indexOf_aux needle hay pos = Z.of_nat (pos + q) /\
            q <= length hay /\ startsWith needle (skipn q hay) = true.
Proof.
  revert pos. induction hay as [|c r IH]; intros pos; cbn [indexOf_aux].
  - destruct (startsWith needle []) eqn:St; [|left; reflexivity].
    right. exists 0. rewrite Nat.add_0_r. auto.
  - destruct (startsWith needle (c :: r)) eqn:St.
    + right. exists 0. rewrite Nat.add_0_r. split; [reflexivity|].
      split; [lia | exact St].
    + destruct (IH (S pos)) as [E|(q & E & L & F)]; [left; exact E|].
      right. exists (S q). rewrite E. split; [f_equal; lia|].
      split; [cbn; lia | exact F].
Qed.

Lemma indexOf_aux_occurs (needle hay : str) (pos q : nat) :
  q <= length hay -> startsWith needle (skipn q hay) = true ->
  indexOf_aux needle hay pos <> (-1)%Z.
Proof.
  revert pos q. induction hay as [|c r IH]; intros pos q L St;
    cbn [indexOf_aux].
  - destruct q; [|cbn in L; lia]. cbn in St. rewrite St. lia.
  - destruct (startsWith needle (c :: r)) eqn:S0; [lia|].
    destruct q as [|q]; [cbn in St; congruence|].
    apply (IH (S pos) q); [cbn in L; lia | exact St].
Qed.

Lemma startsWith_firstn (p w : str) :
  startsWith p w = true -> firstn (length p) w = p.
Proof.
  intros H. apply startsWith_split in H. rewrite H at 1.
  rewrite firstn_app, firstn_all, Nat.sub_diag. cbn. apply app_nil_r.
Qed.

Lemma emphasisStep_other (st : str * nat) (m : Morpheme) :
  mtype m <> MRoot -> emphasisStep st m = st.
Proof.
  intros H. destruct st as [r o]. unfold emphasisStep.
  destruct (mtype m); try reflexivity. contradiction.
Qed.

Lemma fold_emphasisStep_others (ms : list Morpheme) (st : str * nat) :
  Forall (fun m => mtype m <> MRoot) ms ->
  fold_left emphasisStep ms st = st.
Proof.
  intros H. revert st. induction H as [|m ms Hm _ IH]; intros st;
    [reflexivity|].
  cbn [fold_left]. rewrite emphasisStep_other by exact Hm. apply IH.
Qed.

(** The decomposition of a word: affixes, which are no roots, then the
    residual as root when it is not empty; the lower-cased word holds the
    residual. *)
Lemma decomposeMorphemes_residual (word : str) :
  exists (affixes : list Morpheme) (p s residual : str),
    decomposeMorphemes word = affixes ++ rootOf residual /\
    Forall (fun m => mtype m <> MRoot) affixes /\
    toLowerCase word = p ++ residual ++ s.
Proof.
  rewrite decomposeMorphemes_unfold.
  set (lw := toLowerCase word).
  destruct (stripPrefix_spec lw) as (p & E1 & _).
  destruct (stripSuffix_spec (snd (stripPrefix lw))) as (s & E2 & _).
  exists (fst (stripPrefix lw) ++ fst (stripSuffix (snd (stripPrefix lw)))),
    (affixText p), (affixText s),
    (snd (stripSuffix (snd (stripPrefix lw)))).
  split; [rewrite app_assoc; reflexivity|]. split.
  - apply Forall_app. split.
    + unfold stripPrefix. destruct (find _ prefixes); cbn [fst];
        repeat constructor. discriminate.
    + unfold stripSuffix. destruct (find _ suffixes); cbn [fst];
        repeat constructor. discriminate.
  - rewrite E1 at 1. rewrite E2 at 1. reflexivity.
Qed.

Lemma rootsOf_decomposition (affixes : list Morpheme) (residual : str) :
  Forall (fun m => mtype m <> MRoot) affixes ->
  rootsOf (affixes ++ rootOf residual) = rootOf residual.
Proof.
  intros H. unfold rootsOf. rewrite filter_app.
  replace (filter _ affixes) with (@nil Morpheme).
  - destruct residual; reflexivity.
  - symmetry. induction H as [|m ms Hm _ IH]; [reflexivity|].
    cbn [filter]. destruct (mtype m); try contradiction; exact IH.
Qed.

(** The morpheme_emphasis style on an analyzed word. A word whose
    decomposition has no root, or a root of at most three characters, is only
    lower-cased. Otherwise the character in the middle of the root (index
    length/2) is doubled, at a place where the text of the root occurs in
    the word, and nothing else changes: the result is one character
    longer. *)
Theorem morpheme_emphasis_doubles_root_middle (word : str) :
  let lw := toLowerCase word in
  let out := applyMorphemeEmphasis lw (analyzeWord word) in
  match rootsOf (decomposeMorphemes word) with
  | [] => out = lw
  | [m] =>
      if 3 <? length (mvalue m) then
        let mid := length (mvalue m) / 2 in
        exists p s c,
          lw = p ++ mvalue m ++ s /\
          nth_error (mvalue m) mid = Some c /\
          out = p ++ firstn mid (mvalue m) ++ [c] ++ skipn mid (mvalue m) ++ s /\
          length out = length word + 1
      else out = lw
  | _ => False
  end.
Proof.
  cbv zeta. unfold applyMorphemeEmphasis. cbn [morphemes analyzeWord].
  destruct (decomposeMorphemes_residual word)
    as (affixes & p0 & s0 & residual & D & Ha & Hl).
  rewrite D, (rootsOf_decomposition _ Ha), fold_left_app,
    (fold_emphasisStep_others _ Ha).
  set (lw := toLowerCase word) in *.
  destruct residual as [|c0 r0]; [reflexivity|].
  cbn [rootOf mvalue fold_left].
  unfold emphasisStep. cbn [mtype mvalue]. unfold indexOfFrom.
  cbn [skipn Nat.min]. set (root := c0 :: r0) in *.
  destruct (indexOf_aux_found root lw 0) as [E|(q & E & Lq & Hs)].
  { exfalso. revert E. apply (@indexOf_aux_occurs root lw 0 (length p0)).
    - rewrite Hl, length_app. lia.
    - rewrite Hl, skipn_app, skipn_all, Nat.sub_diag. cbn [skipn app].
      apply startsWith_app. }
  rewrite E. cbn [Nat.add].
  replace (Z.of_nat q =? -1)%Z with false by (symmetry; apply Z.eqb_neq; lia).
  rewrite Nat2Z.id. cbn [fst]. unfold emphasizeMorpheme. cbn [mtype].
  assert (Hlw : lw = firstn q lw ++ root ++ skipn (q + length root) lw).
  { rewrite <- (firstn_skipn q lw) at 1. f_equal.
    rewrite (startsWith_split _ _ Hs) at 1. f_equal.
    rewrite skipn_skipn. f_equal. lia. }
  assert (Ht : substring q (q + length root) lw = root).
  { unfold substring. rewrite Nat.max_r, Nat.min_l by lia.
    replace (q + length root - q) with (length root) by lia.
    apply startsWith_firstn, Hs. }
  assert (H0 : substring 0 q lw = firstn q lw).
  { unfold substring. rewrite Nat.max_r, Nat.min_l by lia.
    rewrite Nat.sub_0_r. reflexivity. }
  rewrite Ht, H0. unfold substringFrom, addRootEmphasis.
  destruct (3 <? length root) eqn:L3; [|symmetry; exact Hlw].
  apply Nat.ltb_lt in L3.
  set (mid := length root / 2).
  assert (Hmid : mid < length root)
    by (apply Nat.div_lt; lia).
  destruct (nth_error root mid) as [c|] eqn:N;
    [|apply nth_error_None in N; lia].
  exists (firstn q lw), (skipn (q + length root) lw), c.
  split; [exact Hlw|]. split; [reflexivity|].
  assert (F1 : firstn 1 (skipn mid root) = [c]).
  { apply nth_error_split in N. destruct N as (l1 & l2 & -> & Ll).
    rewrite skipn_app, skipn_all2, Ll, Nat.sub_diag by lia. reflexivity. }
  assert (Ho : firstn q lw ++
      (substring 0 mid root ++ firstn 1 (skipn mid root) ++ skipn mid root) ++
      skipn (q + length root) lw
      = firstn q lw ++ firstn mid root ++ [c] ++ skipn mid root ++
        skipn (q + length root) lw).
  { rewrite F1. unfold substring. rewrite Nat.max_r, Nat.min_l by lia.
    rewrite Nat.sub_0_r. cbn [skipn]. rewrite <- !app_assoc. reflexivity. }
  split; [exact Ho|]. unfold substringFrom. rewrite Ho.
  assert (L1 : length lw = length word) by apply length_map.
  pose proof (f_equal (@length ascii) Hlw) as L2.
  pose proof (f_equal (@length ascii) (firstn_skipn mid root)) as L4.
  rewrite !length_app in L2, L4. rewrite ?length_app in L2.
  rewrite !length_app. cbn [length]. lia.
Qed.

(* ================================================================== *)
(** ** Decomposer: stress *)
(* ================================================================== *)

Lemma estimateSyllables_pos (word : str) : 1 <= estimateSyllables word.
Proof.
  unfold estimateSyllables.
  destruct (matchClassRuns isVowelOrY (toLowerCase word) []); cbn; lia.
Qed.

Lemma arraySet_repeat_tail {A} (j : nat) (s u : A) :
  arraySet j s (repeat u (S (S j))) = repeat u j ++ [s; u].
Proof.
  induction j as [|j IH]; [reflexivity|].
  change (repeat u (S (S (S j)))) with (u :: repeat u (S (S j))).
  cbn [arraySet repeat app]. f_equal. exact IH.
Qed.

(** The stress pattern in closed form: one entry per estimated syllable;
    the first syllable carries the primary stress; a second syllable that is
    the last one carries the secondary stress; from three syllables on the
    secondary stress is on the last but one and every other syllable is
    unstressed. *)
Theorem stress_pattern_shape (word : str) :
  let n := estimateSyllables word in
  length (estimateStressPattern word) = n /\
  estimateStressPattern word
  = match n with
    | 0 | 1 => [primary]
    | 2 => [primary; secondary]
    | S (S (S k)) => primary :: repeat unstressed k ++ [secondary; unstressed]
    end.
Proof.
  cbv zeta. pose proof (estimateSyllables_pos word) as P.
  unfold estimateStressPattern.
  destruct (estimateSyllables word) as [|[|[|k]]]; [lia | auto | auto |].
  cbn [Nat.eqb Nat.ltb Nat.leb].
  change (S (S (S k)) - 2) with (S k).
  change (arraySet 0 primary (repeat unstressed (S (S (S k)))))
    with (primary :: repeat unstressed (S (S k))).
  change (arraySet (S k) secondary (primary :: repeat unstressed (S (S k))))
    with (primary :: arraySet k secondary (repeat unstressed (S (S k)))).
  rewrite arraySet_repeat_tail. split; [|reflexivity].
  cbn [length]. rewrite length_app, repeat_length. cbn [length]. lia.
Qed.

(* ================================================================== *)
(** ** Reconstruction Engine: what a reconstruction keeps *)
(* ================================================================== *)

Lemma foldM_processWord_keys (ks : list str) :
  forall (L : Language) (h : Host),
    NoDup ks ->
    (forall k, In k ks -> JMap.has str_eqb k (vocabulary L) = false) ->
    JMap.keys (vocabulary (fst (foldM processWord ks L h)))
    = JMap.keys (vocabulary L) ++ ks.
Proof.
  induction ks as [|k ks IH]; intros L h Hnd Hv.
  - cbn. rewrite app_nil_r. reflexivity.
  - inversion Hnd as [|x l Hnot Hnd']; subst.
    cbn [foldM]. unfold bind.
    destruct (processWord_vocabulary L k h) as (e & _ & E & _).
    destruct (processWord L k h) as [L1 h1]. cbn [fst] in E.
    rewrite IH; [|exact Hnd'|].
    + rewrite E, keys_set_absent by (apply Hv; left; reflexivity).
      rewrite <- app_assoc. reflexivity.
    + intros x Hx. rewrite E, (has_set _ str_eqb_eq).
      rewrite (Hv x) by (right; exact Hx). rewrite orb_false_r.
      apply str_eqb_neq. intros ->. contradiction.
Qed.

Lemma set_keeps_english (k : str) (e : WordEntry) (T : Vocabulary) :
  english e = k ->
  Forall (fun kv => english (snd kv) = fst kv) T ->
  Forall (fun kv => english (snd kv) = fst kv) (JMap.set str_eqb k e T).
Proof.
  intros He H. induction H as [|[k' v'] T Hk HT IH]; cbn [JMap.set].
  - repeat constructor. exact He.
  - destruct (str_eqb k k'); constructor; auto.
Qed.

Lemma foldM_processWord_english (ks : list str) :
  forall (L : Language) (h : Host),
    Forall (fun kv => english (snd kv) = fst kv) (vocabulary L) ->
    Forall (fun kv => english (snd kv) = fst kv)
           (vocabulary (fst (foldM processWord ks L h))).
Proof.
  induction ks as [|k ks IH]; intros L h H; [exact H|].
  cbn [foldM]. unfold bind.
  destruct (processWord_vocabulary L k h) as (e & He & E & _).
  destruct (processWord L k h) as [L1 h1]. cbn [fst] in E.
  apply IH. rewrite E. apply set_keeps_english; assumption.
Qed.

Lemma foldM_processWord_config (ks : list str) :
  forall (L : Language) (h : Host),
    config (fst (foldM processWord ks L h)) = config L.
Proof.
  induction ks as [|k ks IH]; intros L h; [reflexivity|].
  cbn [foldM]. unfold bind.
  destruct (processWord_vocabulary L k h) as (e & _ & _ & C).
  destruct (processWord L k h) as [L1 h1]. cbn [fst] in C.
  rewrite IH. exact C.
Qed.

(** The list of changes of the loop of [reconstructDictionary]: at most one
    per turn, and only for a constructed word that differs. *)
Lemma reconstruct_changes (orig : Vocabulary) (ks : list str) :
  forall (temp : Language) (n : nat) (chs : list Change) (h : Host),
    Forall (fun c => ch_old c <> ch_new c) chs ->
    let r := foldM (reconstructStep orig) ks (temp, n, chs) h in
    length (snd (fst r)) <= length chs + length ks /\
    Forall (fun c => ch_old c <> ch_new c) (snd (fst r)).
Proof.
  induction ks as [|k ks IH]; intros temp n chs h Hc.
  - cbn. split; [lia | exact Hc].
  - cbv zeta. cbn [foldM]. unfold bind.
    destruct (processWord temp k h) as [temp1 h1] eqn:PW.
    assert (E : exists c, reconstructStep orig (temp, n, chs) k h
                          = ((temp1, n + 1, c), h1) /\
                          length c <= length chs + 1 /\
                          Forall (fun c => ch_old c <> ch_new c) c).
    { unfold reconstructStep, bind, ret. rewrite PW.
      destruct (JMap.get str_eqb k orig) as [o|];
        [|eexists; split; [reflexivity|]; split; [lia | exact Hc]].
      destruct (JMap.get str_eqb k (vocabulary temp1)) as [e|];
        [|eexists; split; [reflexivity|]; split; [lia | exact Hc]].
      destruct (str_eqb (sigment o) (sigment e)) eqn:Q;
        [eexists; split; [reflexivity|]; split; [lia | exact Hc]|].
      eexists. split; [reflexivity|]. rewrite length_app. cbn [length].
      split; [lia|]. apply Forall_app. split; [exact Hc|].
      repeat constructor. cbn. apply str_eqb_neq, Q. }
    destruct E as (c & E & Lc & Fc). rewrite E.
    destruct (IH temp1 (n + 1) c h1 Fc) as (I1 & I2). cbv zeta in I1, I2.
    split; [cbn [length]; lia | exact I2].
Qed.

(** Reconstruction keeps the words: the vocabulary has the same keys in the
    same order, every entry is stored under its own English word, and the
    configuration is untouched. It counts every word as reconstructed; the
    changed words are at most that many, each reported change has an old and
    a new constructed word that differ, and the report lists the first 20
    changes only. *)
Theorem reconstruction_keeps_words (lang : Language) (beforeConsistency : Q)
  (h : Host) :
  NoDup (JMap.keys (vocabulary lang)) ->
  let out := fst (reconstructDictionary lang beforeConsistency h) in
  JMap.keys (vocabulary (fst out)) = JMap.keys (vocabulary lang) /\
  Forall (fun kv => english (snd kv) = fst kv) (vocabulary (fst out)) /\
  config (fst out) = config lang /\
  reconstructedWords (snd out) = JMap.size (vocabulary lang) /\
  changedWords (snd out) <= reconstructedWords (snd out) /\
  length (changes (snd out)) = Nat.min 20 (changedWords (snd out)) /\
  Forall (fun c => ch_old c <> ch_new c) (changes (snd out)).
Proof.
  intros Hnd. cbv zeta. unfold reconstructDictionary, bind.
  set (temp := {| config := config lang;
                  vocabulary := JMap.empty str WordEntry;
                  etymologicalMaps := etymologicalMaps lang |}).
  set (ks := JMap.keys (vocabulary lang)) in *.
  destruct (reconstruct_loop (vocabulary lang) ks temp 0 [] h)
    as (R1 & R2 & R3).
  destruct (@reconstruct_changes (vocabulary lang) ks temp 0 [] h
              (Forall_nil _)) as (C1 & C2).
  cbv zeta in R1, R2, R3, C1, C2.
  destruct (foldM (reconstructStep (vocabulary lang)) ks (temp, 0, []) h)
    as [[[temp' n] chs] h'].
  cbn [fst snd] in R1, R2, R3, C1, C2. subst temp' n. unfold ret.
  cbn [fst snd vocabulary config reconstructedWords changedWords changes].
  assert (Hsize : length ks = JMap.size (vocabulary lang))
    by (unfold ks, JMap.keys, JMap.size; apply length_map).
  assert (Hkeys : JMap.keys (vocabulary (fst (foldM processWord ks temp h)))
                  = ks).
  { rewrite foldM_processWord_keys; [reflexivity | exact Hnd |].
    intros k _. reflexivity. }
  split; [|split; [|split; [|split; [|split; [|split]]]]].
  - destruct (0 + length ks) eqn:Z; cbn [Nat.ltb Nat.leb];
      [reflexivity | exact Hkeys].
  - destruct (0 + length ks) eqn:Z; cbn [Nat.ltb Nat.leb].
    + unfold ks, JMap.keys in Z. destruct (vocabulary lang);
        [constructor | discriminate Z].
    + apply foldM_processWord_english. constructor.
  - reflexivity.
  - lia.
  - cbn [length] in C1. lia.
  - rewrite length_firstn. reflexivity.
  - apply Forall_firstn_any, C2.
Qed.

Lemma reconstruction_keeps_words_witness :
  NoDup (JMap.keys (vocabulary demoVocabulary)) /\
  let out := fst (reconstructDictionary demoVocabulary 0%Q demoHost) in
  JMap.keys (vocabulary (fst out)) = JMap.keys (vocabulary demoVocabulary) /\
  Forall (fun kv => english (snd kv) = fst kv) (vocabulary (fst out)) /\
  config (fst out) = config demoVocabulary /\
  reconstructedWords (snd out) = JMap.size (vocabulary demoVocabulary) /\
  changedWords (snd out) <= reconstructedWords (snd out) /\
  length (changes (snd out)) = Nat.min 20 (changedWords (snd out)) /\
  Forall (fun c => ch_old c <> ch_new c) (changes (snd out)).
Proof.
  assert (H : NoDup (JMap.keys (vocabulary demoVocabulary)))
    by (apply distinctb_NoDup; vm_compute; reflexivity).
  split; [exact H|].
  exact (@reconstruction_keeps_words demoVocabulary 0%Q demoHost H).
Defined.

(* ================================================================== *)
(** ** Enrichment client: the result cache *)
(* ================================================================== *)

Section ClientCacheFacts.
Variable R : Type.

Lemma keys_set_str (k : str) (v : R) (m : JMap.t str R) :
  JMap.keys (JMap.set str_eqb k v m)
  = if JMap.has str_eqb k m then JMap.keys m else JMap.keys m ++ [k].
Proof.
  unfold JMap.has, JMap.keys. induction m as [|[a w] m IH]; [reflexivity|].
  cbn [JMap.set JMap.get map]. destruct (str_eqb k a) eqn:E.
  - apply str_eqb_eq in E. subst a. reflexivity.
  - cbn [map fst]. rewrite IH.
    destruct (JMap.get str_eqb k m); reflexivity.
Qed.

Lemma has_In_keys (k : str) (m : JMap.t str R) :
  JMap.has str_eqb k m = true <-> In k (JMap.keys m).
Proof.
  unfold JMap.has, JMap.keys. induction m as [|[a w] m IH]; cbn [JMap.get map].
  - split; [intros H; discriminate H | intros []].
  - destruct (str_eqb k a) eqn:E.
    + apply str_eqb_eq in E. subst a. split; [left; reflexivity | reflexivity].
    + apply str_eqb_neq in E. rewrite IH. cbn [fst].
      split; [intros H; right; exact H|].
      intros [H|H]; [congruence | exact H].
Qed.

Lemma NoDup_keys_set (k : str) (v : R) (m : JMap.t str R) :
  NoDup (JMap.keys m) -> NoDup (JMap.keys (JMap.set str_eqb k v m)).
Proof.
  intros H. rewrite keys_set_str.
  destruct (JMap.has str_eqb k m) eqn:E; [exact H|].
  apply NoDup_app; [exact H | repeat constructor; intros [] |].
  intros x Hx [<-|[]]. apply has_In_keys in Hx. congruence.
Qed.

(** The cache holds at most [maxCacheSize] results (one, when that is 0),
    and no key twice. *)
Lemma cacheResult_bounded (c : Client R) (key : str) (result : R) :
  JMap.size (cache c) <= Nat.max 1 (maxCacheSize c) ->
  NoDup (JMap.keys (cache c)) ->
  JMap.size (cache (cacheResult c key result)) <= Nat.max 1 (maxCacheSize c) /\
  NoDup (JMap.keys (cache (cacheResult c key result))) /\
  maxCacheSize (cacheResult c key result) = maxCacheSize c.
Proof.
  intros Hs Hnd. unfold cacheResult. cbn [cache maxCacheSize].
  set (m := cache c) in *.
  assert (L : forall m' : JMap.t str R,
            JMap.size (JMap.set str_eqb key result m') <= JMap.size m' + 1).
  { intros m'. destruct (JMap.has str_eqb key m') eqn:E.
    - rewrite size_set_present by exact E. lia.
    - rewrite size_set_absent by exact E. lia. }
  destruct (maxCacheSize c <=? JMap.size m) eqn:F.
  - apply Nat.leb_le in F. destruct m as [|[k0 v0] m'] eqn:M.
    + cbn [JMap.keys map].
      split; [unfold JMap.size; cbn [JMap.set length]; lia|].
      split; [|reflexivity].
      cbn. repeat constructor. intros [].
    + cbn [JMap.keys map fst mapDelete]. rewrite str_eqb_refl.
      split; [|split; [|reflexivity]].
      * specialize (L m'). unfold JMap.size in *. cbn [length] in *. lia.
      * apply NoDup_keys_set. unfold JMap.keys in Hnd. cbn [map] in Hnd.
        inversion Hnd. assumption.
  - apply Nat.leb_gt in F. split; [specialize (L m); lia|].
    split; [apply NoDup_keys_set, Hnd | reflexivity].
Qed.

(** Whatever is cached, in whatever order, the cache of a client never
    holds more than 1000 results, never holds a key twice, and the result
    cached last is the one found under its key. *)
Theorem cache_stays_bounded (ops : list (str * R)) :
  let c := cachedAll ops (newClient R) in
  JMap.size (cache c) <= 1000 /\
  NoDup (JMap.keys (cache c)) /\
  (forall ops' key result,
     ops = ops' ++ [(key, result)] ->
     JMap.get str_eqb key (cache c) = Some result).
Proof.
  cbv zeta.
  assert (G : forall (ops : list (str * R)) (c : Client R),
    JMap.size (cache c) <= Nat.max 1 (maxCacheSize c) ->
    NoDup (JMap.keys (cache c)) ->
    JMap.size (cache (cachedAll ops c)) <= Nat.max 1 (maxCacheSize c) /\
    NoDup (JMap.keys (cache (cachedAll ops c)))).
  { clear ops. induction ops as [|[k r] ops IH]; intros c Hs Hn; [auto|].
    unfold cachedAll. cbn [fold_left fst snd].
    destruct (@cacheResult_bounded c k r Hs Hn) as (A & B & C).
    destruct (IH (cacheResult c k r)) as (A' & B'); [rewrite C; exact A | exact B|].
    rewrite C in A'. auto. }
  destruct (G ops (newClient R)) as (A & B);
    [cbn; lia | constructor |].
  split; [|split; [exact B|]].
  - change (maxCacheSize (newClient R)) with 1000 in A. lia.
  - intros ops' key result ->. unfold cachedAll. rewrite fold_left_app.
    cbn [fold_left fst snd]. unfold cacheResult. cbn [cache].
    apply (get_set_eq _ str_eqb_eq).
Qed.

(** A full cache drops its oldest entry: when the cache holds
    [maxCacheSize] results or more, caching under a key it does not hold
    removes the first key in insertion order and puts the new key last. A
    cache that is not full only gets the new key, last. *)
Theorem cache_evicts_oldest (c : Client R) (key : str) (result : R) :
  NoDup (JMap.keys (cache c)) ->
  JMap.has str_eqb key (cache c) = false ->
  JMap.keys (cache (cacheResult c key result))
  = (if maxCacheSize c <=? JMap.size (cache c)
     then tl (JMap.keys (cache c)) else JMap.keys (cache c)) ++ [key] /\
  JMap.get str_eqb key (cache (cacheResult c key result)) = Some result /\
  (forall k, k <> key -> In k (JMap.keys (cache (cacheResult c key result))) ->
     JMap.get str_eqb k (cache (cacheResult c key result))
     = JMap.get str_eqb k (cache c)).
Proof.
  intros Hnd Hk. unfold cacheResult. cbn [cache].
  split; [|split; [apply (get_set_eq _ str_eqb_eq)|]].
  - rewrite keys_set_str.
    destruct (maxCacheSize c <=? JMap.size (cache c));
      [|rewrite Hk; reflexivity].
    destruct (cache c) as [|[k0 v0] m'] eqn:M; [reflexivity|].
    cbn [JMap.keys map fst mapDelete tl]. rewrite str_eqb_refl.
    replace (JMap.has str_eqb key m') with false; [reflexivity|].
    unfold JMap.has in *. cbn [JMap.get] in Hk.
    destruct (str_eqb key k0); [discriminate | symmetry; exact Hk].
  - intros k Hne. rewrite (get_set_neq _ str_eqb_eq) by exact Hne.
    rewrite keys_set_str.
    destruct (maxCacheSize c <=? JMap.size (cache c)); [|reflexivity].
    destruct (cache c) as [|[k0 v0] m'] eqn:M; [reflexivity|].
    cbn [JMap.keys map fst mapDelete]. rewrite str_eqb_refl.
    intros Hin. cbn [JMap.get].
    destruct (str_eqb k k0) eqn:E; [|reflexivity].
    apply str_eqb_eq in E. subst k0. exfalso.
    unfold JMap.keys in Hnd. cbn [map fst] in Hnd.
    inversion Hnd as [|x l Hnot _]; subst. apply Hnot.
    destruct (JMap.has str_eqb key m'); [exact Hin|].
    apply in_app_or in Hin. destruct Hin as [Hin|[Hin|[]]];
      [exact Hin | congruence].
Qed.
End ClientCacheFacts.

(** A cache of size 2 that is full. *)
Lemma cache_evicts_oldest_witness :
  NoDup (JMap.keys (cache (mkClient [(lit "a", 1); (lit "b", 2)] 2))) /\
  JMap.has str_eqb (lit "c") (cache (mkClient [(lit "a", 1); (lit "b", 2)] 2))
    = false /\
  JMap.keys (cache (cacheResult (mkClient [(lit "a", 1); (lit "b", 2)] 2)
                      (lit "c") 3))
    = [lit "b"; lit "c"].
Proof.
  assert (H1 : NoDup (JMap.keys
                 (cache (mkClient [(lit "a", 1); (lit "b", 2)] 2))))
    by (apply distinctb_NoDup; reflexivity).
  split; [exact H1|]. split; [reflexivity|].
  exact (proj1 (@cache_evicts_oldest nat
                  (mkClient [(lit "a", 1); (lit "b", 2)] 2) (lit "c") 3
                  H1 eq_refl)).
Defined.

(* ================================================================== *)
(** ** Names of files and archives *)
(* ================================================================== *)

Lemma splitOn_nonempty (sep : ascii -> bool) (w : str) : splitOn sep w <> [].
Proof.
  destruct w as [|c r]; cbn [splitOn]; [discriminate|].
  destruct (sep c); [discriminate|]. destruct (splitOn sep r); discriminate.
Qed.

Lemma splitOn_app (sep : ascii -> bool) (a b : str) (c : ascii) :
  sep c = true ->
  splitOn sep (a ++ c :: b) = splitOn sep a ++ splitOn sep b.
Proof.
  intros Hc. induction a as [|x a IH]; cbn [app splitOn].
  - rewrite Hc. reflexivity.
  - destruct (sep x); [rewrite IH; reflexivity|]. rewrite IH.
    pose proof (splitOn_nonempty sep a) as N.
    destruct (splitOn sep a); [contradiction | reflexivity].
Qed.

Lemma splitOn_plain (sep : ascii -> bool) (w : str) :
  Forall (fun c => sep c = false) w -> splitOn sep w = [w].
Proof.
  induction 1 as [|c r Hc _ IH]; [reflexivity|].
  cbn [splitOn]. rewrite Hc, IH. reflexivity.
Qed.

(** Splitting at a character and joining with it gives the string back. *)
Lemma join_splitOn (c : ascii) (w : str) :
  join [c] (splitOn (Ascii.eqb c) w) = w.
Proof.
  induction w as [|x r IH]; [reflexivity|]. cbn [splitOn].
  pose proof (splitOn_nonempty (Ascii.eqb c) r) as N.
  destruct (Ascii.eqb c x) eqn:E.
  - apply Ascii.eqb_eq in E. subst x. cbn [join].
    destruct (splitOn (Ascii.eqb c) r) as [|s t]; [contradiction|].
    cbn [app]. rewrite IH. reflexivity.
  - destruct (splitOn (Ascii.eqb c) r) as [|s t]; [contradiction|].
    cbn [join] in *. destruct t; cbn [app]; rewrite <- IH; reflexivity.
Qed.

Lemma isUnderscore_eqb (c : ascii) : isUnderscore c = Ascii.eqb "_" c.
Proof. unfold isUnderscore. apply Ascii.eqb_sym. Qed.

Lemma splitOn_ext_underscore (w : str) :
  splitOn isUnderscore w = splitOn (Ascii.eqb "_") w.
Proof.
  induction w as [|c r IH]; [reflexivity|]. cbn [splitOn].
  rewrite IH, isUnderscore_eqb. reflexivity.
Qed.

Lemma archiveTimestamp_plain (iso : str) :
  Forall (fun c => isUnderscore c = false) iso ->
  Forall (fun c => isUnderscore c = false) (archiveTimestamp iso).
Proof.
  intros H. unfold archiveTimestamp. apply Forall_map.
  refine (Forall_impl _ _ H). intros c Hc. cbn beta.
  destruct (_ || _); [reflexivity | exact Hc].
Qed.

(** Archive, then restore: the language name read off the name of an
    archive directory is the name of the archived language, underscores
    included, and the time stamp is the last part, provided the ISO time has
    no underscore (it is made of digits, '-', ':', '.', 'T' and 'Z'). *)
Theorem archive_name_round_trip (languageName iso : str) :
  Forall (fun c => isUnderscore c = false) iso ->
  let archiveName := archiveDirName languageName (archiveTimestamp iso) in
  archivedLanguageName archiveName = languageName /\
  archivedEntry archiveName = Some (languageName, archiveTimestamp iso).
Proof.
  intros H. cbv zeta. apply archiveTimestamp_plain in H.
  set (ts := archiveTimestamp iso) in *.
  assert (S1 : splitOn isUnderscore (archiveDirName languageName ts)
               = splitOn isUnderscore languageName ++ [ts]).
  { unfold archiveDirName. cbn [lit list_ascii_of_string app].
    rewrite splitOn_app by reflexivity. rewrite (splitOn_plain _ H).
    reflexivity. }
  assert (N : archivedLanguageName (archiveDirName languageName ts)
              = languageName).
  { unfold archivedLanguageName. rewrite S1, removelast_last.
    rewrite (splitOn_ext_underscore languageName). apply join_splitOn. }
  split; [exact N|]. unfold archivedEntry. rewrite N, S1.
  rewrite length_app, last_last. cbn [length].
  pose proof (splitOn_nonempty isUnderscore languageName) as P.
  destruct (splitOn isUnderscore languageName); [contradiction|].
  cbn [length]. replace (2 <=? S (length l) + 1) with true; [reflexivity|].
  symmetry. apply Nat.leb_le. lia.
Qed.

Lemma archive_name_round_trip_witness :
  Forall (fun c => isUnderscore c = false) (lit "2024-01-02T03:04:05.678Z") /\
  archivedLanguageName (lit "my_lang_2024-01-02T03-04-05-678Z")
    = lit "my_lang" /\
  archivedEntry (lit "my_lang_2024-01-02T03-04-05-678Z")
    = Some (lit "my_lang", lit "2024-01-02T03-04-05-678Z").
Proof.
  assert (H : Forall (fun c => isUnderscore c = false)
                (lit "2024-01-02T03:04:05.678Z"))
    by (repeat constructor).
  split; [exact H|].
  exact (@archive_name_round_trip (lit "my_lang")
           (lit "2024-01-02T03:04:05.678Z") H).
Defined.

(** *** The languages on disk and in memory *)

Lemma startsWith_nth (p w : str) :
  startsWith p w = true ->
  forall i c, nth_error p i = Some c -> nth_error w i = Some c.
Proof.
  intros H i c Hp. apply startsWith_split in H. rewrite H.
  rewrite nth_error_app1; [exact Hp|]. apply nth_error_Some. congruence.
Qed.

Lemma startsWith_app_long (p x y : str) :
  length p <= length x -> startsWith p (x ++ y) = startsWith p x.
Proof.
  revert x. induction p as [|a p IH]; intros x L; [reflexivity|].
  destruct x as [|b x]; [cbn in L; lia|]. cbn [app startsWith].
  rewrite IH by (cbn in L; lia). reflexivity.
Qed.

(** The suffix has its only underscore in front, so no occurrence of it
    starts before the end of [x] and runs over into a copy that follows. *)
Lemma metadataSuffix_no_overlap (x : str) :
  0 < length x -> length x < length metadataSuffix ->
  startsWith metadataSuffix (x ++ metadataSuffix) = false.
Proof.
  intros L0 L1. destruct (startsWith _ _) eqn:E; [|reflexivity]. exfalso.
  pose proof (startsWith_nth _ _ E) as N.
  destruct (nth_error metadataSuffix (length x)) as [c|] eqn:Q;
    [|apply nth_error_None in Q; lia].
  specialize (N _ _ Q).
  rewrite nth_error_app2, Nat.sub_diag in N by lia. cbn in N.
  injection N as <-. remember (length x) as k eqn:Hk. clear Hk E x.
  unfold metadataSuffix in *. cbn [lit list_ascii_of_string length] in *.
  do 14 (destruct k as [|k]; [solve [lia | cbn in Q; discriminate Q]|]).
  lia.
Qed.

Lemma includes_false (needle hay : str) (q : nat) :
  includes needle hay = false -> q <= length hay ->
  startsWith needle (skipn q hay) = false.
Proof.
  unfold includes, indexOf, indexOfFrom. cbn [skipn Nat.min]. intros H L.
  destruct (startsWith needle (skipn q hay)) eqn:E; [|reflexivity].
  pose proof (@indexOf_aux_occurs needle hay 0 q L E) as N.
  destruct (indexOf_aux_found needle hay 0) as [F|(p & F & _)];
    [contradiction|].
  rewrite F in H. apply Z.leb_gt in H. lia.
Qed.

Lemma replaceFirst_suffix (pat name : str) :
  (forall p, p < length name ->
     startsWith pat (skipn p (name ++ pat)) = false) ->
  replaceFirst pat [] (name ++ pat) = name.
Proof.
  induction name as [|c r IH]; intros H.
  - cbn [app]. destruct pat as [|a p]; [reflexivity|].
    assert (St : startsWith (a :: p) (a :: p) = true).
    { rewrite <- (app_nil_r (a :: p)) at 2. apply startsWith_app. }
    cbn [replaceFirst]. rewrite St, skipn_all. reflexivity.
  - pose proof (H 0 ltac:(cbn; lia)) as H0. cbn [skipn app] in H0.
    cbn [app replaceFirst]. rewrite H0. f_equal. apply IH.
    intros p Hp. apply (H (S p)). cbn. lia.
Qed.

Lemma languageName_of_metadata_file (languageName : str) :
  includes metadataSuffix languageName = false ->
  endsWith metadataSuffix (languageName ++ metadataSuffix) = true /\
  replaceFirst metadataSuffix [] (languageName ++ metadataSuffix)
  = languageName.
Proof.
  intros H. split.
  - unfold endsWith. rewrite rev_app_distr. apply startsWith_app.
  - apply replaceFirst_suffix. intros p Hp.
    rewrite skipn_app. replace (p - length languageName) with 0 by lia.
    cbn [skipn].
    destruct (Nat.le_gt_cases (length metadataSuffix)
                (length (skipn p languageName))) as [Long|Short].
    + rewrite startsWith_app_long by exact Long.
      apply includes_false; [exact H | lia].
    + apply metadataSuffix_no_overlap; [|exact Short].
      rewrite length_skipn. lia.
Qed.

(** Listing the languages: a language whose metadata file is in the output
    directory is listed under its own name, provided the name does not
    itself contain "_metadata.json"; every language of the in-memory
    database is listed; and no name is listed twice. *)
Theorem available_languages_listing (languageName : str)
  (files memoryLanguages : list str) :
  includes metadataSuffix languageName = false ->
  In (languageName ++ metadataSuffix) files ->
  In languageName (getAvailableLanguages files memoryLanguages) /\
  (forall n, In n memoryLanguages ->
             In n (getAvailableLanguages files memoryLanguages)) /\
  NoDup (getAvailableLanguages files memoryLanguages).
Proof.
  intros Hn Hf. destruct (languageName_of_metadata_file _ Hn) as (E & F).
  unfold getAvailableLanguages.
  split; [|split; [|apply (distinctKeys_NoDup _ str_eqb_eq)]].
  - apply (distinctKeys_In _ str_eqb_eq). apply in_or_app. left.
    unfold loadLanguagesFromFilesystem. rewrite <- F. apply in_map.
    apply filter_In. split; assumption.
  - intros n Hm. apply (distinctKeys_In _ str_eqb_eq).
    apply in_or_app. right. exact Hm.
Qed.

Lemma available_languages_listing_witness :
  includes metadataSuffix (lit "Elvish_v2") = false /\
  In (lit "Elvish_v2" ++ metadataSuffix)
     [lit "English_to_Elvish_v2.json"; lit "Elvish_v2_metadata.json"] /\
  In (lit "Elvish_v2")
     (getAvailableLanguages
        [lit "English_to_Elvish_v2.json"; lit "Elvish_v2_metadata.json"]
        [lit "Elvish_v2"; lit "Demo"]) /\
  (forall n, In n [lit "Elvish_v2"; lit "Demo"] ->
     In n (getAvailableLanguages
             [lit "English_to_Elvish_v2.json"; lit "Elvish_v2_metadata.json"]
             [lit "Elvish_v2"; lit "Demo"])) /\
  NoDup (getAvailableLanguages
           [lit "English_to_Elvish_v2.json"; lit "Elvish_v2_metadata.json"]
           [lit "Elvish_v2"; lit "Demo"]).
Proof.
  assert (H1 : includes metadataSuffix (lit "Elvish_v2") = false)
    by reflexivity.
  assert (H2 : In (lit "Elvish_v2" ++ metadataSuffix)
     [lit "English_to_Elvish_v2.json"; lit "Elvish_v2_metadata.json"])
    by (right; left; reflexivity).
  split; [exact H1|]. split; [exact H2|].
  exact (@available_languages_listing (lit "Elvish_v2")
           [lit "English_to_Elvish_v2.json"; lit "Elvish_v2_metadata.json"]
           [lit "Elvish_v2"; lit "Demo"] H1 H2).
Defined.

(* ================================================================== *)
(** ** Enrichment client: lists in the answers of the service *)
(* ================================================================== *)

Lemma splitOn_pieces (sep : ascii -> bool) (w : str) :
  Forall (Forall (fun c => sep c = false)) (splitOn sep w).
Proof.
  induction w as [|c r IH]; [repeat constructor|]. cbn [splitOn].
  destruct (sep c) eqn:E; [constructor; [constructor | exact IH]|].
  destruct (splitOn sep r) as [|s t]; [repeat constructor; exact E|].
  inversion IH; subst. constructor; [constructor; assumption | assumption].
Qed.

Lemma Forall_trimStart (P : ascii -> Prop) (w : str) :
  Forall P w -> Forall P (trimStart w).
Proof.
  induction 1 as [|c r Hc Hr IH]; [constructor|]. cbn [trimStart].
  destruct (isWhiteSpace c); [exact IH | constructor; assumption].
Qed.

Lemma Forall_trim (P : ascii -> Prop) (w : str) :
  Forall P w -> Forall P (trim w).
Proof.
  intros H. unfold trim.
  apply Forall_rev, Forall_trimStart, Forall_rev, Forall_trimStart, H.
Qed.

Lemma trim_space (w : str) : trim (" "%char :: w) = trim w.
Proof. reflexivity. Qed.

Lemma splitOn_join (ds : list str) (d : str) :
  Forall cleanItem (d :: ds) ->
  splitOn isListSeparator (join (lit ", ") (d :: ds))
  = d :: map (fun x => " "%char :: x) ds.
Proof.
  revert d. induction ds as [|d' t IH]; intros d H.
  - inversion H as [|x l (_ & _ & P) _]; subst.
    cbn [join map]. apply splitOn_plain, P.
  - inversion H as [|x l (_ & _ & P) H']; subst.
    change (join (lit ", ") (d :: d' :: t))
      with (d ++ ","%char :: " "%char :: join (lit ", ") (d' :: t)).
    rewrite splitOn_app by reflexivity. rewrite (splitOn_plain _ P).
    cbn [app splitOn]. change (isListSeparator " ") with false.
    cbn iota. rewrite (IH d' H'). reflexivity.
Qed.

(** Lists in an answer. What [parseDefinitionList] returns holds clean
    items only: none is empty, none has white space around it, none holds a
    separator. And a list of clean items written out with ", " between them
    is read back as it was. *)
Theorem definition_list_round_trip (value : str) (ds : list str) :
  Forall cleanItem (parseDefinitionList value) /\
  (Forall cleanItem ds -> parseDefinitionList (join (lit ", ") ds) = ds).
Proof.
  split.
  - unfold parseDefinitionList. apply Forall_forall. intros d Hd.
    apply filter_In in Hd. destruct Hd as (Hin & Hne).
    apply in_map_iff in Hin. destruct Hin as (x & <- & Hx).
    pose proof (splitOn_pieces isListSeparator value) as P.
    rewrite Forall_forall in P. specialize (P x Hx).
    split; [|split].
    + destruct (trim x); [discriminate | discriminate].
    + apply trim_idem.
    + apply Forall_trim, P.
  - intros H. destruct ds as [|d t]; [reflexivity|].
    unfold parseDefinitionList. rewrite (splitOn_join H).
    cbn [map filter].
    inversion H as [|x l (Hne & Ht & _) H']; subst. rewrite Ht.
    destruct d as [|c r]; [contradiction|]. cbn [nonEmpty]. f_equal.
    clear -H'. induction H' as [|x l (Hne & Ht & _) _ IH]; [reflexivity|].
    cbn [map filter]. rewrite trim_space, Ht.
    destruct x; [contradiction|]. cbn [nonEmpty]. f_equal. exact IH.
Qed.

Lemma definition_list_round_trip_witness :
  Forall cleanItem [lit "a feline"; lit "a small animal"] /\
  parseDefinitionList (lit "a feline, a small animal")
  = [lit "a feline"; lit "a small animal"].
Proof.
  assert (H : Forall cleanItem [lit "a feline"; lit "a small animal"]).
  { repeat constructor; try discriminate; repeat constructor. }
  split; [exact H|].
  exact (proj2 (definition_list_round_trip []
                  [lit "a feline"; lit "a small animal"]) H).
Defined.

(* ================================================================== *)
(** ** Word lists: the input of a generation *)
(* ================================================================== *)

Lemma trimStart_cases (w : str) :
  trimStart w = w \/ length (trimStart w) < length w.
Proof.
  induction w as [|c r IH]; [left; reflexivity|]. cbn [trimStart].
  destruct (isWhiteSpace c); [|left; reflexivity].
  right. cbn [length]. destruct IH as [-> | L]; lia.
Qed.

(** A string that [trim] leaves as it is has nothing to trim on either
    side. *)
Lemma trim_fixed_inv (d : str) :
  trim d = d -> trimStart d = d /\ trimStart (rev d) = rev d.
Proof.
  intros H. pose proof (f_equal (@length ascii) H) as L. unfold trim in L.
  rewrite length_rev in L.
  pose proof (trimStart_length (rev (trimStart d))) as L1.
  rewrite length_rev in L1.
  destruct (trimStart_cases d) as [E | L2]; [|lia].
  split; [exact E|]. rewrite E in L.
  destruct (trimStart_cases (rev d)) as [E' | L3]; [exact E'|].
  rewrite length_rev in L3. lia.
Qed.

Lemma trimStart_app (d x : str) :
  d <> [] -> trimStart d = d -> trimStart (d ++ x) = d ++ x.
Proof.
  destruct d as [|c r]; [contradiction|]. intros _ H. cbn [trimStart app] in *.
  destruct (isWhiteSpace c); [|reflexivity].
  pose proof (trimStart_length r) as L. rewrite H in L. cbn [length] in L. lia.
Qed.

Lemma trimStart_padding (pad x : str) :
  Forall (fun c => isWhiteSpace c = true) pad ->
  trimStart (pad ++ x) = trimStart x.
Proof.
  induction 1 as [|c r Hc _ IH]; [reflexivity|].
  cbn [app trimStart]. rewrite Hc. exact IH.
Qed.

Lemma trim_padded (d pad : str) :
  d <> [] -> trim d = d -> Forall (fun c => isWhiteSpace c = true) pad ->
  trim (d ++ pad) = d.
Proof.
  intros N T P. destruct (trim_fixed_inv T) as (A & B). unfold trim.
  rewrite (trimStart_app pad N A), rev_app_distr.
  rewrite trimStart_padding by (apply Forall_rev, P).
  rewrite B. apply rev_involutive.
Qed.

Lemma trim_clean (w : str) :
  Forall (fun c => isWhiteSpace c = false) w -> trim w = w.
Proof.
  intros H. unfold trim.
  assert (T : forall x, Forall (fun c => isWhiteSpace c = false) x ->
                        trimStart x = x).
  { intros x Hx. destruct Hx as [|c r Hc _]; [reflexivity|].
    cbn [trimStart]. rewrite Hc. reflexivity. }
  rewrite (T w H), (T (rev w) (Forall_rev H)). apply rev_involutive.
Qed.

Lemma plainWord_trimmed (w : str) : plainWord w -> trim w = w /\ w <> [].
Proof.
  intros (N & F). split; [|exact N]. apply trim_clean.
  refine (Forall_impl _ _ F). intros c Hc.
  unfold isWordSeparator in Hc. apply orb_false_iff in Hc. apply Hc.
Qed.

Lemma splitOnRunsFrom_pieces (sep : ascii -> bool) (w : str) (b : bool) :
  Forall (Forall (fun c => sep c = false)) (splitOnRunsFrom sep b w).
Proof.
  revert b. induction w as [|c r IH]; intros b; [repeat constructor|].
  cbn [splitOnRunsFrom]. destruct (sep c) eqn:E.
  - destruct b; [apply IH | constructor; [constructor | apply IH]].
  - specialize (IH false).
    destruct (splitOnRunsFrom sep false r) as [|s t];
      [repeat constructor; exact E|].
    inversion IH; subst. constructor; [constructor; assumption | assumption].
Qed.

(** Splitting on runs of separators and splitting on each separator give
    the same pieces that are not empty. *)
Lemma splitOnRunsFrom_splitOn (sep : ascii -> bool) (w : str) :
  (forall b, filter nonEmpty (splitOnRunsFrom sep b w)
             = filter nonEmpty (splitOn sep w)) /\
  (exists s t t',
      splitOnRunsFrom sep false w = s :: t /\ splitOn sep w = s :: t' /\
      filter nonEmpty t = filter nonEmpty t').
Proof.
  induction w as [|c r (IH1 & s & t & t' & E1 & E2 & E3)].
  - split; [reflexivity|]. exists [], [], []. auto.
  - cbn [splitOnRunsFrom splitOn]. destruct (sep c) eqn:E.
    + split.
      * intros b. destruct b; cbn [filter nonEmpty]; apply IH1.
      * exists [], (splitOnRunsFrom sep true r), (splitOn sep r).
        split; [reflexivity|]. split; [reflexivity|]. apply IH1.
    + rewrite E1, E2. split.
      * intros b. cbn [filter nonEmpty]. f_equal. exact E3.
      * exists (c :: s), t, t'. auto.
Qed.

Lemma splitOn_leading (sep : ascii -> bool) (pre x : str) :
  Forall (fun c => sep c = true) pre ->
  filter nonEmpty (splitOn sep (pre ++ x)) = filter nonEmpty (splitOn sep x).
Proof.
  induction 1 as [|c r Hc _ IH]; [reflexivity|].
  cbn [app splitOn]. rewrite Hc. cbn [filter nonEmpty]. exact IH.
Qed.

Lemma tokens_join (sep : str) (ws : list str) :
  Forall plainWord ws -> sep <> [] ->
  Forall (fun c => isWordSeparator c = true) sep ->
  filter nonEmpty (splitOn isWordSeparator (join sep ws)) = ws.
Proof.
  intros H N S. induction H as [|d t (Nd & Fd) Ht IH]; [reflexivity|].
  destruct t as [|d' t'].
  - cbn [join]. rewrite (splitOn_plain _ Fd). cbn [filter].
    destruct d; [contradiction | reflexivity].
  - change (join sep (d :: d' :: t')) with (d ++ sep ++ join sep (d' :: t')).
    destruct sep as [|s1 srest]; [contradiction|]. inversion S; subst.
    cbn [app]. rewrite splitOn_app by assumption.
    rewrite (splitOn_plain _ Fd). cbn [app filter].
    destruct d as [|c r]; [contradiction|]. cbn [nonEmpty]. f_equal.
    rewrite splitOn_leading by assumption. exact IH.
Qed.

Lemma text_tokens (text : str) :
  filter (fun w => nonEmpty (trim w)) (splitOnRuns isWordSeparator text)
  = filter nonEmpty (splitOn isWordSeparator text).
Proof.
  unfold splitOnRuns.
  rewrite <- (proj1 (splitOnRunsFrom_splitOn isWordSeparator text) false).
  apply filter_ext_in. intros w Hw.
  pose proof (splitOnRunsFrom_pieces isWordSeparator text false) as P.
  rewrite Forall_forall in P. specialize (P w Hw).
  rewrite trim_clean; [reflexivity|].
  refine (Forall_impl _ _ P). intros c Hc.
  unfold isWordSeparator in Hc. apply orb_false_iff in Hc. apply Hc.
Qed.

Lemma text_tokens_plain (text : str) :
  Forall plainWord (filter nonEmpty (splitOn isWordSeparator text)).
Proof.
  apply Forall_forall. intros w Hw. apply filter_In in Hw.
  destruct Hw as (Hin & Hne).
  pose proof (splitOn_pieces isWordSeparator text) as P.
  rewrite Forall_forall in P. split; [|apply P, Hin].
  destruct w; [discriminate Hne | discriminate].
Qed.

Lemma common_words_plain : Forall plainWord getCommonEnglishWords.
Proof.
  assert (B : forallb (fun w => nonEmpty w
                        && forallb (fun c => negb (isWordSeparator c)) w)
                getCommonEnglishWords = true) by (vm_compute; reflexivity).
  rewrite forallb_forall in B. apply Forall_forall. intros w Hw.
  specialize (B w Hw). apply andb_true_iff in B. destruct B as (B1 & B2).
  split; [destruct w; [discriminate B1 | discriminate]|].
  rewrite forallb_forall in B2. apply Forall_forall. intros c Hc.
  apply negb_true_iff, B2, Hc.
Qed.

Lemma wordListOf_text (readFile : str -> option str) (text : str) :
  startsWith (lit "file:") text = false ->
  wordListOf readFile (InputString text)
  = match filter nonEmpty (splitOn isWordSeparator text) with
    | [] => getCommonEnglishWords
    | w :: ws => w :: ws
    end.
Proof.
  intros F. unfold wordListOf. rewrite F, text_tokens.
  destruct (filter nonEmpty (splitOn isWordSeparator text)); reflexivity.
Qed.

Lemma wordListOf_text_plain (readFile : str -> option str) (text : str) :
  startsWith (lit "file:") text = false ->
  Forall plainWord (wordListOf readFile (InputString text)).
Proof.
  intros F. rewrite (wordListOf_text readFile text F).
  pose proof (text_tokens_plain text) as P.
  destruct (filter nonEmpty (splitOn isWordSeparator text));
    [apply common_words_plain | exact P].
Qed.

Lemma load_join (pad : str) (ws : list str) :
  Forall wordLine ws -> linePadding pad ->
  loadWordListFromFile (Some (join (pad ++ ["010"%char]) ws)) = ws.
Proof.
  intros H P. unfold loadWordListFromFile.
  induction H as [|d t (Nd & Td & Cd & Fd) Ht IH]; [reflexivity|].
  assert (K : isWordLine d = true).
  { unfold isWordLine. rewrite Cd. destruct d; [contradiction | reflexivity]. }
  destruct t as [|d' t'].
  - cbn [join]. rewrite (splitOn_plain _ Fd). cbn [map filter].
    rewrite Td, K. reflexivity.
  - change (join (pad ++ ["010"%char]) (d :: d' :: t'))
      with (d ++ (pad ++ ["010"%char]) ++ join (pad ++ ["010"%char]) (d' :: t')).
    rewrite <- app_assoc, app_assoc. cbn [app].
    rewrite splitOn_app by reflexivity.
    rewrite (@splitOn_plain isNewline (d ++ pad)).
    + cbn [app map filter]. rewrite trim_padded; try assumption.
      * rewrite K. f_equal. exact IH.
      * refine (Forall_impl _ _ P). intros c Hc. apply Hc.
    + apply Forall_app. split; [exact Fd|].
      refine (Forall_impl _ _ P). intros c Hc. apply Hc.
Qed.

(** Word files. What [loadWordListFromFile] returns holds word lines only:
    none is empty, has white space around it, starts with [#] or holds a line
    break; a file that cannot be read gives no word. The words of a text are
    those of its lines, in order, so a blank line or a comment line adds
    nothing. And a list of word lines written one per line, each line ended
    by a line feed with or without white space such as a carriage return
    before it, is read back as it was. *)
Theorem word_file_lines (content a b pad : str) (ws : list str) :
  loadWordListFromFile None = [] /\
  Forall wordLine (loadWordListFromFile (Some content)) /\
  loadWordListFromFile (Some (a ++ "010"%char :: b))
  = loadWordListFromFile (Some a) ++ loadWordListFromFile (Some b) /\
  (Forall (fun c => isNewline c = false) a -> isWordLine (trim a) = false ->
   loadWordListFromFile (Some a) = []) /\
  (Forall wordLine ws -> linePadding pad ->
   loadWordListFromFile (Some (join (pad ++ ["010"%char]) ws)) = ws).
Proof.
  split; [reflexivity|]. split; [|split; [|split]].
  - unfold loadWordListFromFile. apply Forall_forall. intros w Hw.
    apply filter_In in Hw. destruct Hw as (Hin & Hk).
    apply in_map_iff in Hin. destruct Hin as (x & <- & Hx).
    unfold isWordLine in Hk. apply andb_true_iff in Hk.
    destruct Hk as (K1 & K2). apply negb_true_iff in K2.
    split; [destruct (trim x); [discriminate K1 | discriminate]|].
    split; [apply trim_idem|]. split; [exact K2|].
    apply Forall_trim.
    pose proof (splitOn_pieces isNewline content) as P.
    rewrite Forall_forall in P. apply P, Hx.
  - unfold loadWordListFromFile.
    rewrite splitOn_app by reflexivity. rewrite map_app, filter_app.
    reflexivity.
  - intros Fa Ka. unfold loadWordListFromFile.
    rewrite (splitOn_plain _ Fa). cbn [map filter]. rewrite Ka. reflexivity.
  - apply load_join.
Qed.

Lemma word_file_lines_witness :
  loadWordListFromFile
    (Some (lit "# animals" ++ ["013"; "010"]
           ++ lit "cat" ++ ["013"; "010"] ++ lit "  " ++ ["013"; "010"]
           ++ lit " dog ")%char)
  = [lit "cat"; lit "dog"] /\
  loadWordListFromFile
    (Some (join ["013"; "010"]%char [lit "cat"; lit "dog"]))
  = [lit "cat"; lit "dog"].
Proof.
  split; [vm_compute; reflexivity|].
  refine (proj2 (proj2 (proj2 (proj2
            (word_file_lines [] [] [] ["013"%char] [lit "cat"; lit "dog"]))))
          _ _).
  - repeat constructor; discriminate.
  - repeat constructor.
Defined.

(** Words in a text. The word list of a generation is never empty: an input
    without a word is replaced by the list of common words. For a text that
    does not name a file, every word of the list is a plain word, with neither
    comma nor white space. And a list of plain words written out with any run
    of commas and white space between them is read back as it was. *)
Theorem word_list_from_text (readFile : str -> option str)
  (input : VocabularyInput) (text sep : str) (ws : list str) :
  wordListOf readFile input <> [] /\
  (startsWith (lit "file:") text = false ->
   Forall plainWord (wordListOf readFile (InputString text))) /\
  (ws <> [] -> Forall plainWord ws ->
   sep <> [] -> Forall (fun c => isWordSeparator c = true) sep ->
   startsWith (lit "file:") (join sep ws) = false ->
   wordListOf readFile (InputString (join sep ws)) = ws).
Proof.
  split; [|split].
  - unfold wordListOf.
    match goal with |- (if length ?l =? 0 then _ else _) <> [] =>
      destruct l as [|w l'] end; cbn [length Nat.eqb]; discriminate.
  - apply wordListOf_text_plain.
  - intros N P Ns S F. rewrite (wordListOf_text readFile _ F).
    rewrite (tokens_join P Ns S). destruct ws; [contradiction | reflexivity].
Qed.

Lemma word_list_from_text_witness :
  wordListOf (fun _ => None) (InputString (lit "cat, dog"))
  = [lit "cat"; lit "dog"].
Proof.
  refine (proj2 (proj2 (word_list_from_text (fun _ => None) InputOther []
                          (lit ", ") [lit "cat"; lit "dog"])) _ _ _ _ _).
  - discriminate.
  - repeat constructor; discriminate.
  - discriminate.
  - repeat constructor.
  - reflexivity.
Defined.

(** From a text to a vocabulary. Started on a language without words and a
    text that does not name a file, and left undisturbed (no signal arrives
    and no write fails), the generation runs to completion; the vocabulary
    then holds one entry for each distinct word of the text, in the order of
    their first occurrence, and as many words are counted as processed. *)
Theorem vocabulary_from_text (readFile : str -> option str) (lang : Language)
  (text : str) (interval : nat) (h : Host) :
  vocabulary lang = JMap.empty str WordEntry ->
  startsWith (lit "file:") text = false ->
  exists n b',
    run quiet n
      (buildVocabulary readFile lang (InputString text) interval None h) = b' /\
    pc b' = Finished (Completed (processed b')) /\
    JMap.keys (vocabulary (language b'))
    = distinctKeys str_eqb (wordListOf readFile (InputString text)) /\
    processed b' = JMap.size (vocabulary (language b')) /\
    config (language b') = config lang.
Proof.
  intros V F. unfold buildVocabulary, processWordsBatch.
  set (words := wordListOf readFile (InputString text)).
  set (b := mkBatch _ _ _ _ _ _ _ _ _ _).
  destruct (@loopHead_finishes words (lang, [], h, 0) 0 b)
    as (n & b' & R & P & Q); [reflexivity | split; reflexivity | reflexivity|].
  exists n, b'. split; [exact R|]. split; [exact P|].
  destruct (@quietBatch_fresh words lang [] h 0) as (L' & h' & added & E & D & K & _).
  - intros w Hw. apply plainWord_trimmed.
    pose proof (wordListOf_text_plain readFile text F) as Pl.
    rewrite Forall_forall in Pl. apply Pl, Hw.
  - intros w [].
  - intros w _ Hv. rewrite V in Hv. discriminate Hv.
  - pose proof (quietBatch_config words (lang, [], h, 0)) as C.
    rewrite <- Q in C. unfold progressOf in C. cbn [fst] in C.
    rewrite E in Q. unfold progressOf in Q.
    injection Q as Q1 Q2 Q3 Q4. rewrite V in K. cbn [JMap.keys JMap.empty map app] in K.
    split; [rewrite Q1; unfold distinctKeys; rewrite <- D; exact K|].
    split; [|exact C].
    rewrite Q4, Q1. unfold JMap.size.
    rewrite <- (length_map fst). fold (JMap.keys (vocabulary L')).
    rewrite K. reflexivity.
Qed.

Lemma vocabulary_from_text_witness :
  exists n b',
    run quiet n
      (buildVocabulary (fun _ => None) demoLanguage
         (InputString (lit "cat, dog cat")) 25 None demoHost) = b' /\
    pc b' = Finished (Completed (processed b')) /\
    JMap.keys (vocabulary (language b')) = [lit "cat"; lit "dog"] /\
    processed b' = JMap.size (vocabulary (language b')) /\
    config (language b') = config demoLanguage.
Proof.
  exact (vocabulary_from_text (fun _ => None) demoLanguage
           (lit "cat, dog cat") 25 demoHost eq_refl eq_refl).
Defined.

(* ================================================================== *)
(** ** The phonetic system of a language *)
(* ================================================================== *)

Section CountingMaps.
Variables (X K : Type) (keqb : K -> K -> bool) (f : X -> K).
Hypothesis keqb_ok : forall a b, keqb a b = true <-> a = b.

Lemma sum_set (k : K) (v : nat) (m : JMap.t K nat) :
  list_sum (JMap.values (JMap.set keqb k v m))
  + match JMap.get keqb k m with Some n => n | None => 0 end
  = list_sum (JMap.values m) + v.
Proof.
  induction m as [|[a w] r IH]; cbn [JMap.set JMap.get].
  - cbn. lia.
  - unfold JMap.values in *.
    destruct (keqb k a); cbn [map list_sum fold_right snd]; [lia|].
    fold (list_sum (map snd (JMap.set keqb k v r))). fold (list_sum (map snd r)).
    lia.
Qed.

Lemma sum_countUp (k : K) (m : JMap.t K nat) :
  list_sum (JMap.values (countUp keqb k m)) = S (list_sum (JMap.values m)).
Proof. unfold countUp. pose proof (sum_set k
  (match JMap.get keqb k m with Some n => n | None => 0 end + 1) m). lia. Qed.

Lemma sum_fold_countUp (xs : list X) (m : JMap.t K nat) :
  list_sum (JMap.values (fold_left (fun m x => countUp keqb (f x) m) xs m))
  = list_sum (JMap.values m) + length xs.
Proof.
  revert m. induction xs as [|x xs IH]; intros m; cbn [fold_left length];
    [lia|]. rewrite IH, sum_countUp. lia.
Qed.

Lemma get_countUp (p k : K) (m : JMap.t K nat) :
  JMap.get keqb p (countUp keqb k m)
  = if keqb p k
    then Some (match JMap.get keqb k m with Some n => n | None => 0 end + 1)
    else JMap.get keqb p m.
Proof.
  unfold countUp. destruct (keqb p k) eqn:E.
  - apply keqb_ok in E. subst p. apply (get_set_eq keqb keqb_ok).
  - apply (get_set_neq keqb keqb_ok). intros ->.
    rewrite (proj2 (keqb_ok k k) eq_refl) in E. discriminate.
Qed.

Lemma get_fold_countUp (p : K) (xs : list X) (m : JMap.t K nat) :
  JMap.get keqb p (fold_left (fun m x => countUp keqb (f x) m) xs m)
  = match JMap.get keqb p m with
    | Some a => Some (a + countOf keqb f p xs)
    | None => counted (countOf keqb f p xs)
    end.
Proof.
  revert m. induction xs as [|x xs IH]; intros m.
  - cbn. destruct (JMap.get keqb p m); [f_equal; lia | reflexivity].
  - cbn [fold_left]. rewrite IH, get_countUp. unfold countOf.
    cbn [filter]. destruct (keqb p (f x)) eqn:E.
    + apply keqb_ok in E. subst p. cbn [length].
      destruct (JMap.get keqb (f x) m); unfold counted; cbn [Nat.eqb];
        f_equal; lia.
    + reflexivity.
Qed.

End CountingMaps.

Lemma pattern_eqb_eq (p q : list CharClass) : pattern_eqb p q = true <-> p = q.
Proof.
  revert q. induction p as [|a p IH]; intros [|b q]; cbn [pattern_eqb];
    try (split; [discriminate | discriminate]); [tauto|].
  rewrite andb_true_iff, IH. split.
  - intros (A & ->). destruct a, b; try discriminate A; reflexivity.
  - intros E. injection E as -> ->. split; [destruct b|]; reflexivity.
Qed.

Lemma charIn_In (c : ascii) (s : str) : charIn c s = true <-> In c s.
Proof.
  unfold charIn. rewrite existsb_exists. split.
  - intros (x & Hx & E). apply Ascii.eqb_eq in E. subst. exact Hx.
  - intros H. exists c. split; [exact H | apply Ascii.eqb_refl].
Qed.

Lemma charSetAdd_In (c x : ascii) (s : list ascii) :
  In x (charSetAdd c s) <-> In x s \/ x = c.
Proof.
  unfold charSetAdd. destruct (charIn c s) eqn:E.
  - apply charIn_In in E. split; [auto|]. intros [H | ->]; assumption.
  - rewrite in_app_iff. cbn [In]. split; intros [H | H]; auto.
    + destruct H as [<- | []]. auto.
Qed.

Lemma charSetAdd_NoDup (c : ascii) (s : list ascii) :
  NoDup s -> NoDup (charSetAdd c s).
Proof.
  intros H. unfold charSetAdd. destruct (charIn c s) eqn:E; [exact H|].
  apply NoDup_app; [exact H | repeat constructor; intros [] |].
  intros x Hx [<- | []]. apply charIn_In in Hx. congruence.
Qed.

Lemma addIf_fold (test : ascii -> bool) (cs : str) (s : list ascii) :
  (NoDup s -> NoDup (fold_left (addIf test) cs s)) /\
  (forall x, In x (fold_left (addIf test) cs s)
             <-> In x s \/ (test x = true /\ In x cs)).
Proof.
  revert s. induction cs as [|c cs IH]; intros s; cbn [fold_left].
  - split; [auto|]. intros x. cbn [In]. tauto.
  - destruct (IH (addIf test s c)) as (N & I). split.
    + intros H. apply N. unfold addIf. destruct (test c); [|exact H].
      apply charSetAdd_NoDup, H.
    + intros x. rewrite I. unfold addIf. cbn [In].
      destruct (test c) eqn:T.
      * rewrite charSetAdd_In. split.
        -- intros [[H | ->] | (H1 & H2)]; auto.
        -- intros [H | (H1 & [-> | H2])]; auto.
      * split.
        -- intros [H | (H1 & H2)]; auto.
        -- intros [H | (H1 & [-> | H2])]; auto. congruence.
Qed.

Lemma inventory_fold (cs : str) (ps : PhoneticSystem) :
  fold_left addToInventory cs ps
  = mkPhoneticSystem
      (fold_left (addIf isVowel) cs (vowelInventory ps))
      (fold_left (addIf isConsonant) cs (consonantInventory ps))
      (phoneticPatterns ps) (syllableStructures ps) (stressPatterns ps).
Proof.
  revert ps. induction cs as [|c cs IH]; intros ps; cbn [fold_left].
  - destruct ps; reflexivity.
  - rewrite IH. unfold addToInventory, addIf, isConsonant, isVowel.
    destruct (charIn c (lit "aeiou")); cbn [negb andb];
      [reflexivity|].
    destruct (isLowerLetter c); reflexivity.
Qed.

Lemma establish_fold (es : list WordEntry) (ps : PhoneticSystem) :
  fold_left recordEntry es ps
  = mkPhoneticSystem
      (fold_left (addIf isVowel) (sigmentChars es) (vowelInventory ps))
      (fold_left (addIf isConsonant) (sigmentChars es) (consonantInventory ps))
      (fold_left (fun m e => countUp pattern_eqb (pattern (entryPhonetics e)) m)
         es (phoneticPatterns ps))
      (fold_left (fun m e => countUp Nat.eqb (syllableCount (entryPhonetics e)) m)
         es (syllableStructures ps))
      (stressPatterns ps).
Proof.
  revert ps. induction es as [|e es IH]; intros ps; cbn [fold_left].
  - destruct ps; reflexivity.
  - rewrite IH. unfold recordEntry. rewrite inventory_fold.
    cbn [vowelInventory consonantInventory phoneticPatterns
         syllableStructures stressPatterns].
    unfold sigmentChars. cbn [flat_map]. rewrite !fold_left_app.
    reflexivity.
Qed.

Lemma vowels_five (s : list ascii) :
  NoDup s -> (forall c, In c s -> isVowel c = true) -> length s <= 5.
Proof.
  intros N H. change 5 with (length (lit "aeiou")).
  apply NoDup_incl_length; [exact N|]. intros c Hc.
  apply charIn_In, H, Hc.
Qed.

Lemma consonants_twenty_one (s : list ascii) :
  NoDup s -> (forall c, In c s -> isConsonant c = true) -> length s <= 21.
Proof.
  intros N H. change 21 with (length consonants21).
  apply NoDup_incl_length; [exact N|]. intros c Hc. specialize (H c Hc).
  apply charIn_In.
  assert (G : forall n, n < 256 ->
                isConsonant (ascii_of_nat n) = true ->
                charIn (ascii_of_nat n) consonants21 = true).
  { intros n Hn. do 256 (destruct n as [|n]; [vm_compute; auto|]). lia. }
  rewrite <- (ascii_nat_embedding c) in *.
  apply G; [apply nat_ascii_bounded | exact H].
Qed.

(** The counts of the phonetic system. For each pattern the system stores
    the number of vocabulary entries whose constructed word has that pattern,
    and for each syllable count the number of entries with that count; a
    pattern or count that no entry has is not stored. Each of the two tables
    adds up to the size of the vocabulary. *)
Theorem phonetic_system_counts (language : Language)
  (p : list CharClass) (n : nat) :
  let ps := establishPhoneticSystem language in
  let entries := JMap.values (vocabulary language) in
  JMap.get pattern_eqb p (phoneticPatterns ps)
  = counted (countOf pattern_eqb (fun e => pattern (entryPhonetics e))
               p entries) /\
  JMap.get Nat.eqb n (syllableStructures ps)
  = counted (countOf Nat.eqb (fun e => syllableCount (entryPhonetics e))
               n entries) /\
  list_sum (JMap.values (phoneticPatterns ps))
  = JMap.size (vocabulary language) /\
  list_sum (JMap.values (syllableStructures ps))
  = JMap.size (vocabulary language).
Proof.
  intros ps entries. unfold ps, establishPhoneticSystem.
  rewrite establish_fold.
  cbn [phoneticPatterns syllableStructures]. fold entries.
  rewrite (@get_fold_countUp _ _ pattern_eqb _ pattern_eqb_eq),
    (@get_fold_countUp _ _ Nat.eqb _ Nat.eqb_eq).
  rewrite !sum_fold_countUp.
  unfold entries, JMap.values, JMap.size. rewrite length_map.
  repeat split; reflexivity.
Qed.

(** The inventories of the phonetic system. The vowel inventory holds,
    each once, exactly the letters a, e, i, o, u that occur in a lowercased
    constructed word of the vocabulary; the consonant inventory holds, each
    once, exactly the other letters from a to z that occur in one. So neither
    grows beyond 5 and 21 letters, whatever the vocabulary, and no character
    that is not a letter from a to z enters either. The set of stress patterns
    is left empty. *)
Theorem phonetic_system_inventories (language : Language) (c : ascii) :
  let ps := establishPhoneticSystem language in
  let occurs := exists e, In e (JMap.values (vocabulary language)) /\
                          In c (toLowerCase (sigment e)) in
  NoDup (vowelInventory ps) /\ NoDup (consonantInventory ps) /\
  (In c (vowelInventory ps) <-> In c (lit "aeiou") /\ occurs) /\
  (In c (consonantInventory ps)
   <-> ~ In c (lit "aeiou") /\ isLowerLetter c = true /\ occurs) /\
  length (vowelInventory ps) <= 5 /\
  length (consonantInventory ps) <= 21 /\
  stressPatterns ps = [].
Proof.
  intros ps occurs. unfold ps, establishPhoneticSystem.
  rewrite establish_fold.
  cbn [vowelInventory consonantInventory stressPatterns].
  set (cs := sigmentChars (JMap.values (vocabulary language))).
  destruct (addIf_fold isVowel cs []) as (NV & IV).
  destruct (addIf_fold isConsonant cs []) as (NC & IC).
  assert (O : In c cs <-> occurs).
  { unfold cs, sigmentChars, occurs. apply in_flat_map. }
  split; [apply NV; constructor|]. split; [apply NC; constructor|].
  split; [|split; [|split; [|split]]].
  - rewrite IV, <- O. unfold isVowel. rewrite charIn_In. split.
    + intros [[] | H]. exact H.
    + intros H. right. exact H.
  - rewrite IC, <- O. unfold isConsonant, isVowel.
    rewrite andb_true_iff, negb_true_iff.
    assert (F : charIn c (lit "aeiou") = false <-> ~ In c (lit "aeiou")).
    { rewrite <- charIn_In. destruct (charIn c (lit "aeiou")); split;
        congruence. }
    rewrite F. split.
    + intros [[] | ((A & B) & D)]. tauto.
    + intros (A & B & D). right. tauto.
  - apply vowels_five; [apply NV; constructor|].
    intros x Hx. apply IV in Hx. destruct Hx as [[] | (H & _)]. exact H.
  - apply consonants_twenty_one; [apply NC; constructor|].
    intros x Hx. apply IC in Hx. destruct Hx as [[] | (H & _)]. exact H.
  - reflexivity.
Qed.

(* ================================================================== *)
(** ** Phonetic structure: rhythm and syllables *)
(* ================================================================== *)

Lemma countSyllables_pattern (w : str) (b : bool) :
  countSyllables w b = vowelRuns (map classify w) b.
Proof.
  revert b. induction w as [|c r IH]; intros b; [reflexivity|].
  cbn [countSyllables map vowelRuns]. unfold classify.
  destruct (charIn c vowelsBoth); [rewrite IH; reflexivity|].
  destruct (charIn c consonantsBoth); apply IH.
Qed.

Lemma isRepCV_syllables (n : nat) :
  forall (p : list CharClass) (b : bool),
    length p <= n -> isRepCV p = true ->
    length p = 2 * vowelRuns p b.
Proof.
  induction n as [|n IH]; intros p b L R.
  - destruct p; [discriminate R | cbn [length] in L; lia].
  - destruct p as [|[| |] [|[| |] r]]; try discriminate R.
    destruct r as [|y r']; [cbn; destruct b; reflexivity|].
    cbn [isRepCV] in R. set (rest := y :: r') in *.
    pose proof (IH rest true) as E. cbn [vowelRuns length] in *.
    rewrite E by (try lia; exact R). lia.
Qed.

Lemma isRepCVC_syllables (n : nat) :
  forall (p : list CharClass) (b : bool),
    length p <= n -> isRepCVC p = true ->
    length p = 3 * vowelRuns p b.
Proof.
  induction n as [|n IH]; intros p b L R.
  - destruct p; [discriminate R | cbn [length] in L; lia].
  - destruct p as [|[| |] [|[| |] [|[| |] r]]]; try discriminate R.
    destruct r as [|y r']; [cbn; destruct b; reflexivity|].
    cbn [isRepCVC] in R. set (rest := y :: r') in *.
    pose proof (IH rest false) as E. cbn [vowelRuns length] in *.
    rewrite E by (try lia; exact R). lia.
Qed.

Lemma vowelRuns_skip_consonants (p : list CharClass) :
  vowelRuns p false = vowelRuns (dropWhileClass C p) false.
Proof.
  induction p as [|[| |] r IH]; cbn [vowelRuns dropWhileClass isClass];
    auto.
Qed.

Lemma vowelRuns_skip_vowels (p : list CharClass) :
  vowelRuns p true = vowelRuns (dropWhileClass V p) true.
Proof.
  induction p as [|[| |] r IH]; cbn [vowelRuns dropWhileClass isClass];
    auto.
Qed.

Lemma vowelRuns_consonants (p : list CharClass) (b : bool) :
  dropWhileClass C p = [] -> vowelRuns p b = 0.
Proof.
  revert b. induction p as [|[| |] r IH]; intros b H;
    cbn [vowelRuns dropWhileClass isClass] in *;
    try discriminate H; auto.
Qed.

Lemma isVowelCentered_syllables (p : list CharClass) :
  isVowelCentered p = true -> vowelRuns p false = 1.
Proof.
  unfold isVowelCentered. intros H. rewrite vowelRuns_skip_consonants.
  destruct (dropWhileClass C p) as [|[| |] r]; try discriminate H.
  cbn [vowelRuns]. rewrite vowelRuns_skip_vowels.
  destruct (dropWhileClass C (dropWhileClass V r)) eqn:E;
    [|discriminate H].
  rewrite (vowelRuns_consonants _ true E). reflexivity.
Qed.

(** Rhythm and syllables of a constructed word agree. The syllable count is
    at least 1. A word whose rhythm is alternating has two characters per
    syllable, one whose rhythm is closed_syllable has three, and one whose
    rhythm is vowel_centered has one syllable; in these three cases no random
    number is drawn. Every other word gets one of iambic, trochaic, dactylic
    and anapestic, chosen by exactly one draw. *)
Theorem rhythm_matches_syllables (word : str) (h : Host) :
  let ps := fst (analyzePhoneticStructure word h) in
  let h' := snd (analyzePhoneticStructure word h) in
  length (pattern ps) = length word /\
  1 <= syllableCount ps /\
  (rhythm ps = alternating -> length word = 2 * syllableCount ps) /\
  (rhythm ps = closed_syllable -> length word = 3 * syllableCount ps) /\
  (rhythm ps = vowel_centered -> syllableCount ps = 1) /\
  (In (rhythm ps) [alternating; closed_syllable; vowel_centered] /\ h' = h
   \/ In (rhythm ps) rhythmTypes /\ h' = mkHost (draws h) (S (cursor h)) (skipNext h)).
Proof.
  unfold analyzePhoneticStructure, determineRhythm, bind, ret.
  set (p := map classify word).
  assert (Lp : length p = length word) by apply length_map.
  assert (S0 : forall s, 1 <= (if s =? 0 then 1 else s)).
  { intros s. destruct (s =? 0) eqn:E; [lia|]. apply Nat.eqb_neq in E. lia. }
  rewrite countSyllables_pattern. fold p. clearbody p.
  destruct (isRepCV p) eqn:R1; [|destruct (isRepCVC p) eqn:R2;
    [|destruct (isVowelCentered p) eqn:R3]]; cbn [fst snd pattern
      syllableCount rhythm].
  - pose proof (@isRepCV_syllables (length p) p false (le_n _) R1) as E.
    assert (N : (vowelRuns p false =? 0) = false)
      by (apply Nat.eqb_neq; destruct p;
          [discriminate R1 | cbn [length] in E; lia]).
    rewrite N. apply Nat.eqb_neq in N.
    split; [exact Lp|]. split; [lia|]. split; [intros _; lia|].
    split; [discriminate|]. split; [discriminate|].
    left. split; [left; reflexivity | reflexivity].
  - pose proof (@isRepCVC_syllables (length p) p false (le_n _) R2) as E.
    assert (N : (vowelRuns p false =? 0) = false)
      by (apply Nat.eqb_neq; destruct p;
          [discriminate R2 | cbn [length] in E; lia]).
    rewrite N. apply Nat.eqb_neq in N.
    split; [exact Lp|]. split; [lia|]. split; [discriminate|].
    split; [intros _; lia|]. split; [discriminate|].
    left. split; [right; left; reflexivity | reflexivity].
  - rewrite (isVowelCentered_syllables p R3). cbn [Nat.eqb].
    split; [exact Lp|]. split; [lia|]. split; [discriminate|].
    split; [discriminate|]. split; [reflexivity|].
    left. split; [right; right; left; reflexivity | reflexivity].
  - unfold randomIndex. cbn [fst snd pattern syllableCount rhythm].
    assert (I : In (nth (draws h (cursor h) mod length rhythmTypes)
                      rhythmTypes iambic) rhythmTypes).
    { apply nth_In. apply Nat.mod_upper_bound. discriminate. }
    split; [exact Lp|]. split; [apply S0|].
    cbn [rhythmTypes In] in I.
    split; [|split; [|split]].
    + intros E. rewrite E in I.
      destruct I as [I | [I | [I | [I | []]]]]; discriminate I.
    + intros E. rewrite E in I.
      destruct I as [I | [I | [I | [I | []]]]]; discriminate I.
    + intros E. rewrite E in I.
      destruct I as [I | [I | [I | [I | []]]]]; discriminate I.
    + right. split; [exact I | reflexivity].
Qed.

(* ================================================================== *)
(** ** Version numbers *)
(* ================================================================== *)

Lemma digit_facts (c : ascii) :
  isDecimalDigit c = true ->
  isWhiteSpace c = false /\ Ascii.eqb c "+" = false /\
  Ascii.eqb c "-" = false /\ Ascii.eqb "x" c = false /\
  Ascii.eqb "X" c = false /\ Ascii.eqb "." c = false.
Proof.
  assert (G : forall n, n < 256 ->
    isDecimalDigit (ascii_of_nat n) = true ->
    isWhiteSpace (ascii_of_nat n) = false /\
    Ascii.eqb (ascii_of_nat n) "+" = false /\
    Ascii.eqb (ascii_of_nat n) "-" = false /\
    Ascii.eqb "x" (ascii_of_nat n) = false /\
    Ascii.eqb "X" (ascii_of_nat n) = false /\
    Ascii.eqb "." (ascii_of_nat n) = false).
  { intros n Hn.
    do 256 (destruct n as [|n];
            [vm_compute; first [discriminate | auto 10]|]). lia. }
  intros H. rewrite <- (ascii_nat_embedding c) in *.
  apply G; [apply nat_ascii_bounded | exact H].
Qed.

Lemma uint_digits (d : Decimal.uint) :
  Forall (fun c => isDecimalDigit c = true)
    (list_ascii_of_string (DecimalString.NilEmpty.string_of_uint d)).
Proof.
  induction d; cbn [DecimalString.NilEmpty.string_of_uint list_ascii_of_string];
    constructor; auto.
Qed.

Lemma to_uint_nonnil (n : N) : N.to_uint n <> Decimal.Nil.
Proof.
  destruct n as [|p]; [discriminate|]. apply DecimalPos.Unsigned.to_uint_nonnil.
Qed.

Lemma decimal_digits (n : N) :
  Forall (fun c => isDecimalDigit c = true) (decimal n) /\ decimal n <> [].
Proof.
  unfold decimal. pose proof (to_uint_nonnil n) as N0.
  pose proof (uint_digits (N.to_uint n)) as D.
  destruct (N.to_uint n) eqn:E; try contradiction;
    (split; [exact D | discriminate]).
Qed.

Lemma decimalValue_decimal (n : N) : decimalValue (decimal n) = Some n.
Proof.
  unfold decimalValue, decimal. rewrite string_of_list_ascii_of_string.
  rewrite DecimalString.NilZero.usu by apply to_uint_nonnil.
  cbn [option_map]. rewrite DecimalN.Unsigned.of_to. reflexivity.
Qed.

Lemma decimal_inj (n m : N) : decimal n = decimal m -> n = m.
Proof.
  intros H. pose proof (decimalValue_decimal n) as A.
  rewrite H, decimalValue_decimal in A. congruence.
Qed.

Lemma takeWhile_all (f : ascii -> bool) (w : str) :
  Forall (fun c => f c = true) w -> takeWhile f w = w.
Proof.
  induction 1 as [|c r Hc _ IH]; [reflexivity|].
  cbn [takeWhile]. rewrite Hc, IH. reflexivity.
Qed.

Lemma decimal_dotFree (n : N) : dotFree (decimal n).
Proof.
  refine (Forall_impl _ _ (proj1 (decimal_digits n))).
  intros c Hc. apply (digit_facts c Hc).
Qed.

Lemma parseInt_decimal (n : N) : parseInt (decimal n) = Num (Z.of_N n).
Proof.
  destruct (decimal_digits n) as (D & Ne). unfold parseInt.
  destruct (decimal n) as [|c r] eqn:E; [contradiction|].
  inversion D as [|? ? Hc Hr]; subst.
  destruct (digit_facts c Hc) as (W & P & M & Xl & Xu & _).
  cbn [trimStart]. rewrite W, P, M. cbn [orb].
  assert (Hx : startsWith (lit "0x") (c :: r) || startsWith (lit "0X") (c :: r)
               = false).
  { cbn [lit list_ascii_of_string startsWith].
    destruct r as [|c2 r2]; [rewrite !andb_false_r; reflexivity|].
    inversion Hr as [|? ? Hc2 _]; subst.
    destruct (digit_facts c2 Hc2) as (_ & _ & _ & Xl2 & Xu2 & _).
    cbn [startsWith]. rewrite Xl2, Xu2. rewrite !andb_false_r. reflexivity. }
  rewrite Hx, (takeWhile_all _ D), <- E, decimalValue_decimal. reflexivity.
Qed.

Lemma numberToString_succ (n : N) :
  numberToString (plusOne (Num (Z.of_N n))) = decimal (n + 1).
Proof.
  cbn [plusOne numberToString].
  destruct (Z.ltb_spec (Z.of_N n + 1) 0) as [L | L]; [lia|].
  f_equal. lia.
Qed.

Lemma splitOn_three (a b c : str) :
  dotFree a -> dotFree b -> dotFree c ->
  splitOn (Ascii.eqb ".") (a ++ lit "." ++ b ++ lit "." ++ c) = [a; b; c].
Proof.
  intros A B D. cbn [lit list_ascii_of_string app].
  rewrite splitOn_app by reflexivity. rewrite splitOn_app by reflexivity.
  rewrite (splitOn_plain _ A), (splitOn_plain _ B), (splitOn_plain _ D).
  reflexivity.
Qed.

(** Version numbers. A missing or empty version becomes 1.0.1. A version
    of three parts whose last part is a number below 2^53 - 1 keeps its first
    two parts and gets that number plus one as its third. A version of two
    parts gets 1 as its third part, and a version without dot gets the parts
    "undefined" and 1. *)
Theorem version_bump (major minor : str) (n : N) :
  dotFree major -> dotFree minor -> (n < 2 ^ 53 - 1)%N ->
  incrementVersion None = lit "1.0.1" /\
  incrementVersion (Some []) = lit "1.0.1" /\
  incrementVersion (Some (major ++ lit "." ++ minor ++ lit "." ++ decimal n))
  = major ++ lit "." ++ minor ++ lit "." ++ decimal (n + 1) /\
  incrementVersion (Some (major ++ lit "." ++ minor))
  = major ++ lit "." ++ minor ++ lit ".1" /\
  (major <> [] ->
   incrementVersion (Some major) = major ++ lit ".undefined.1").
Proof.
  intros A B Hn. split; [reflexivity|]. split; [reflexivity|].
  split; [|split].
  - unfold incrementVersion.
    set (v := major ++ lit "." ++ minor ++ lit "." ++ decimal n).
    assert (P : splitOn (Ascii.eqb ".") v = [major; minor; decimal n])
      by (apply splitOn_three; auto using decimal_dotFree).
    assert (Nv : nonEmpty v = true).
    { unfold v. destruct major; reflexivity. }
    rewrite Nv. cbn [negb orb].
    destruct (str_eqb v (lit "1.0.0")) eqn:E.
    + apply str_eqb_eq in E. rewrite E in P.
      assert (Q : splitOn (Ascii.eqb ".") (lit "1.0.0")
                  = [lit "1"; lit "0"; lit "0"]) by reflexivity.
      rewrite Q in P. injection P as <- <- P3.
      assert (Z0 : n = 0%N) by (apply decimal_inj; rewrite <- P3; reflexivity).
      subst n. reflexivity.
    + rewrite P. cbn [nth_error partToString].
      destruct (decimal_digits n) as (_ & Ne).
      destruct (decimal n) as [|c r] eqn:D; [contradiction|].
      rewrite <- D, parseInt_decimal, numberToString_succ. reflexivity.
  - unfold incrementVersion.
    set (v := major ++ lit "." ++ minor).
    assert (P : splitOn (Ascii.eqb ".") v = [major; minor]).
    { unfold v. cbn [lit list_ascii_of_string app].
      rewrite splitOn_app by reflexivity.
      rewrite (splitOn_plain _ A), (splitOn_plain _ B). reflexivity. }
    assert (Nv : nonEmpty v = true) by (unfold v; destruct major; reflexivity).
    rewrite Nv. cbn [negb orb].
    destruct (str_eqb v (lit "1.0.0")) eqn:E.
    + apply str_eqb_eq in E. rewrite E in P. discriminate P.
    + rewrite P. cbn [nth_error partToString].
      change (parseInt (lit "0")) with (Num 0).
      reflexivity.
  - intros Ne. unfold incrementVersion.
    assert (P : splitOn (Ascii.eqb ".") major = [major])
      by apply (splitOn_plain _ A).
    assert (Nv : nonEmpty major = true) by (destruct major; [contradiction | reflexivity]).
    rewrite Nv. cbn [negb orb].
    destruct (str_eqb major (lit "1.0.0")) eqn:E.
    + apply str_eqb_eq in E. rewrite E in P. discriminate P.
    + rewrite P. cbn [nth_error partToString].
      change (parseInt (lit "0")) with (Num 0). reflexivity.
Qed.

Lemma version_bump_witness :
  incrementVersion (Some (lit "2.3.9")) = lit "2.3.10" /\
  incrementVersion (Some (lit "2.3")) = lit "2.3.1" /\
  incrementVersion (Some (lit "2")) = lit "2.undefined.1".
Proof.
  assert (A : dotFree (lit "2")) by (repeat constructor).
  assert (B : dotFree (lit "3")) by (repeat constructor).
  assert (Hn : (9 < 2 ^ 53 - 1)%N) by reflexivity.
  destruct (version_bump A B Hn) as (_ & _ & H3 & H2 & H1).
  split; [exact H3|]. split; [exact H2|]. apply H1. discriminate.
Defined.
